(** * Mindalizer chat widget (src/chat.js): formatter and webhook client

    A shallow embedding of the message formatter ([formatMessage],
    [escapeHtml], [convertToTable]), of the reply extractor
    ([extractReply]) and of the retrying sender ([sendMessage],
    [handleSubmit]) together with the statements of the specification
    that concern them.

    JavaScript strings are sequences of UTF-16 code units; they are
    modelled as lists of [N].  The regular expressions of the source are
    kept as syntax trees and run by a backtracking matcher that follows
    the continuation semantics of ECMAScript (RepeatMatcher, capture
    reset, GetSubstitution). *)

From Stdlib Require Import String Ascii.
From Stdlib Require Import List NArith ZArith Bool Arith Lia.
Import ListNotations.

Set Implicit Arguments.
Set Warnings "-register-all".

(** ** Strings *)

(** A code unit. *)
Abbreviation char := N.
Definition jsstring := list char.

(** An ASCII literal of the source as a sequence of code units. *)
Definition str (s : string) : jsstring :=
  map N_of_ascii (list_ascii_of_string s).

Definition LF : char := 10%N.
Definition CR : char := 13%N.

Module JS.

(** LineTerminator of ECMAScript: LF, CR, LS, PS. *)
Definition isLineTerminator (c : char) : bool :=
  ((c =? 10) || (c =? 13) || (c =? 8232) || (c =? 8233))%N.

(** WhiteSpace of ECMAScript: TAB, VT, FF, SP, NBSP, ZWNBSP and the
    space separators. *)
Definition isWhiteSpace (c : char) : bool :=
  ((c =? 9) || (c =? 11) || (c =? 12) || (c =? 32) || (c =? 160)
   || (c =? 5760) || ((8192 <=? c) && (c <=? 8202))
   || (c =? 8239) || (c =? 8287) || (c =? 12288) || (c =? 65279))%N.

(** The class [\s], also the characters removed by [trim]. *)
Definition isSpace (c : char) : bool :=
  isWhiteSpace c || isLineTerminator c.

Fixpoint eqb (a b : jsstring) : bool :=
  match a, b with
  | [], [] => true
  | x :: a', y :: b' => (x =? y)%N && eqb a' b'
  | _, _ => false
  end.

(** [startsWith s p]: [p] is a prefix of [s]. *)
Fixpoint startsWith (s p : jsstring) : bool :=
  match p, s with
  | [], _ => true
  | y :: p', x :: s' => (x =? y)%N && startsWith s' p'
  | _ :: _, [] => false
  end.

(** First occurrence of [sep] in [s]: the text before it and the text
    after it. *)
Fixpoint cut (sep s : jsstring) : option (jsstring * jsstring) :=
  if startsWith s sep then Some ([], skipn (length sep) s)
  else match s with
       | [] => None
       | c :: t =>
           match cut sep t with
           | Some (before, after) => Some (c :: before, after)
           | None => None
           end
       end.

(** [s.includes(sub)] *)
Definition includes (s sub : jsstring) : bool :=
  match cut sub s with Some _ => true | None => false end.

Fixpoint splitFuel (fuel : nat) (sep s : jsstring) : list jsstring :=
  match fuel with
  | O => [s]
  | S fuel' =>
      match cut sep s with
      | None => [s]
      | Some (before, after) => before :: splitFuel fuel' sep after
      end
  end.

(** [s.split(sep)] for a non-empty separator string: the pieces between
    the successive occurrences of [sep], found from the left.  Each
    occurrence removes at least one code unit, so [length s] rounds are
    enough. *)
Definition split (s sep : jsstring) : list jsstring :=
  splitFuel (length s) sep s.

(** [parts.join(sep)] *)
Fixpoint join (sep : jsstring) (parts : list jsstring) : jsstring :=
  match parts with
  | [] => []
  | [p] => p
  | p :: rest => p ++ sep ++ join sep rest
  end.

Fixpoint trimStart (s : jsstring) : jsstring :=
  match s with
  | c :: t => if isSpace c then trimStart t else s
  | [] => []
  end.

(** [s.trim()] *)
Definition trim (s : jsstring) : jsstring :=
  rev (trimStart (rev (trimStart s))).

(** Truthiness of a string: non-empty. *)
Definition truthy (s : jsstring) : bool :=
  match s with [] => false | _ => true end.

End JS.

(** ** Regular expressions *)

Module RegExp.

(** The fragment of the pattern language that the source uses. *)
Inductive re : Type :=
| Empty : re
| Lit : char -> re                       (* a literal code unit *)
| Class : (char -> bool) -> re           (* a class, or [.] *)
| Cat : re -> re -> re
| Rep : nat -> option nat -> bool -> re -> re
    (* min, max (None: unbounded), greedy, atom *)
| Grp : nat -> re -> re                  (* capture group number i *)
| Bol : re                               (* ^ *)
| Eol : re.                              (* $ *)

(** A literal word. *)
Fixpoint lits (w : jsstring) : re :=
  match w with
  | [] => Empty
  | [c] => Lit c
  | c :: w' => Cat (Lit c) (lits w')
  end.

Definition star (a : re) := Rep 0 None true a.
Definition plus (a : re) := Rep 1 None true a.
Definition opt (a : re) := Rep 0 (Some 1) true a.
Definition lazy_star (a : re) := Rep 0 None false a.

(** [.] without the s flag. *)
Definition dot : re := Class (fun c => negb (JS.isLineTerminator c)).

(** Numbers of the capture groups inside a pattern. *)
Fixpoint groups (r : re) : list nat :=
  match r with
  | Cat a b => groups a ++ groups b
  | Rep _ _ _ a => groups a
  | Grp i a => i :: groups a
  | _ => []
  end.

Definition ngroups (r : re) : nat := fold_right Nat.max 0 (groups r).

(** Matcher state: the index reached, the input from there on, and the
    captures so far. *)
Record mstate : Type := MState {
  pos : nat;
  rest : jsstring;
  caps : nat -> option jsstring
}.

Definition cont := mstate -> option mstate.

Definition advance (x : mstate) (t : jsstring) : mstate :=
  MState (S (pos x)) t (caps x).

Definition setCap (i : nat) (v : jsstring) (x : mstate) : mstate :=
  MState (pos x) (rest x)
         (fun j => if Nat.eqb j i then Some v else caps x j).

(** The captures of the groups [gs] become undefined. *)
Definition clearCaps (gs : list nat) (x : mstate) : mstate :=
  fold_right (fun i y => MState (pos y) (rest y)
                           (fun j => if Nat.eqb j i then None else caps y j))
             x gs.

Definition decr (max : option nat) : option nat :=
  match max with Some n => Some (Nat.pred n) | None => None end.

(** RepeatMatcher: an iteration that may be skipped ([min = 0]) and
    consumes nothing is rejected; the captures of the atom are reset
    before every iteration. *)
Fixpoint repeatMatcher (ma : mstate -> cont -> option mstate)
         (gs : list nat) (fuel : nat) (min : nat) (max : option nat)
         (greedy : bool) (x : mstate) (c : cont) : option mstate :=
  match fuel with
  | O => None
  | S fuel' =>
      match max with
      | Some O => c x
      | _ =>
          let d : cont := fun y =>
            if Nat.eqb min 0 && Nat.eqb (pos y) (pos x) then None
            else repeatMatcher ma gs fuel' (Nat.pred min) (decr max)
                               greedy y c in
          let xr := clearCaps gs x in
          if negb (Nat.eqb min 0) then ma xr d
          else if greedy then
                 match ma xr d with
                 | Some z => Some z
                 | None => c x
                 end
               else
                 match c x with
                 | Some z => Some z
                 | None => ma xr d
                 end
      end
  end.

(** The matcher of a pattern, in continuation style. *)
Fixpoint m (r : re) (x : mstate) (c : cont) : option mstate :=
  match r with
  | Empty => c x
  | Lit ch =>
      match rest x with
      | a :: t => if (a =? ch)%N then c (advance x t) else None
      | [] => None
      end
  | Class f =>
      match rest x with
      | a :: t => if f a then c (advance x t) else None
      | [] => None
      end
  | Cat a b => m a x (fun y => m b y c)
  | Rep min max greedy a =>
      repeatMatcher (m a) (groups a) (S (min + length (rest x)))
                    min max greedy x c
  | Grp i a =>
      m a x (fun y => c (setCap i (firstn (pos y - pos x) (rest x)) y))
  | Bol => if Nat.eqb (pos x) 0 then c x else None
  | Eol => match rest x with [] => c x | _ :: _ => None end
  end.

(** One attempt at index [i], where [w] is the input from [i] on. *)
Definition exec (r : re) (i : nat) (w : jsstring) : option mstate :=
  m r (MState i w (fun _ => None)) Some.

(** RegExpBuiltinExec without the sticky flag: the first index from
    [i] on at which the pattern matches. *)
Fixpoint search (r : re) (i : nat) (w : jsstring) : option (nat * mstate) :=
  match exec r i w with
  | Some y => Some (i, y)
  | None =>
      match w with
      | [] => None
      | _ :: t => search r (S i) t
      end
  end.

(** [re.test(s)], [s.match(re)] used as a condition. *)
Definition test (r : re) (s : jsstring) : bool :=
  match search r 0 s with Some _ => true | None => false end.

Definition isDigit (c : char) : bool := ((48 <=? c) && (c <=? 57))%N.
Definition digitVal (c : char) : nat := N.to_nat (c - 48).

Definition capture (caps : nat -> option jsstring) (i : nat) : jsstring :=
  match caps i with Some v => v | None => [] end.

(** GetSubstitution for a pattern with [n] capture groups and no named
    group: [before] is the input up to the match, [after] the input
    behind it.  The template is read from the left: [$$], [$`], [$&],
    [$'], [$<] (kept as it is), [$] with two digits or one digit that
    number a group, and anything else as it is. *)
Fixpoint GetSubstitution (matched before after : jsstring)
         (n : nat) (cs : nat -> option jsstring)
         (template : jsstring) : jsstring :=
  let sub := GetSubstitution matched before after n cs in
  match template with
  | [] => []
  | ch :: t =>
      if negb (ch =? 36)%N then ch :: sub t
      else
        match t with
        | [] => [36%N]
        | c :: t' =>
            if (c =? 36)%N then 36%N :: sub t'
            else if (c =? 96)%N then before ++ sub t'
            else if (c =? 38)%N then matched ++ sub t'
            else if (c =? 39)%N then after ++ sub t'
            else if (c =? 60)%N then 36%N :: 60%N :: sub t'
            else if isDigit c then
              let one :=
                let i := digitVal c in
                if (1 <=? i) && (i <=? n) then capture cs i ++ sub t'
                else 36%N :: c :: sub t' in
              match t' with
              | d :: t'' =>
                  if isDigit d then
                    let i := 10 * digitVal c + digitVal d in
                    if n <? i then one
                    else if 1 <=? i then capture cs i ++ sub t''
                         else 36%N :: c :: d :: sub t''
                  else one
              | [] => one
              end
            else 36%N :: sub t
        end
  end.

(** The loop of RegExp.prototype[Symbol.replace] for a global pattern:
    [s] is the whole input, [w] the part of it from index [last] on.
    After an empty match the search resumes one code unit further. *)
Fixpoint replaceLoop (fuel : nat) (r : re) (template s : jsstring)
         (last : nat) (w : jsstring) : jsstring :=
  match fuel with
  | O => w
  | S fuel' =>
      match search r last w with
      | None => w
      | Some (i, y) =>
          let matched := firstn (pos y - i) (skipn (i - last) w) in
          firstn (i - last) w
            ++ GetSubstitution matched (firstn i s) (rest y)
                               (ngroups r) (caps y) template
            ++ (if Nat.eqb (pos y) i then
                  match rest y with
                  | [] => []
                  | ch :: t =>
                      ch :: replaceLoop fuel' r template s (S (pos y)) t
                  end
                else replaceLoop fuel' r template s (pos y) (rest y))
      end
  end.

(** [s.replace(/r/g, template)] *)
Definition replace (r : re) (template s : jsstring) : jsstring :=
  replaceLoop (S (length s)) r template s 0 s.

End RegExp.

Import RegExp.

(** ** The page and its environment

    The part of the browser state that the script can read or write: its
    three globals, the elements it looks up once, session storage, and
    the log of what it asked of the network, of the timers and of the
    user.  Elements created with [document.createElement] and never
    attached are counted in [scratch]; [settled] records how the sends
    end for [handleSubmit], which awaits them. *)

Inductive msgType := user | bot.

(** Values that [response.json()] can produce, and [undefined].  Numbers
    are kept as integers: the script only asks whether one is zero. *)
Inductive jsval : Type :=
| JUndef : jsval
| JNull : jsval
| JBool : bool -> jsval
| JNum : Z -> jsval
| JStr : jsstring -> jsval
| JArr : list jsval -> jsval
| JObj : list (jsstring * jsval) -> jsval.

(** How a call of an async function ends for the code that awaits it:
    its promise is fulfilled when the call returns and rejected when it
    throws. *)
Inductive settlement : Type := Fulfilled | Rejected.

(** What the script asked of its environment, in order. *)
Inductive effect : Type :=
| Fetch (message sessionId : jsstring)   (* fetch(CONFIG.webhookUrl, ...) *)
| Delay (ms : Z)                         (* delay(ms) *)
| Toast (text : jsstring).               (* showToast(text) *)

Record World : Type := mkWorld {
  sessionId : jsstring;
  isLoading : bool;
  messageHistory : list (jsval * msgType);
  chatMessages : list (jsval * msgType);      (* children of #chatMessages *)
  inputValue : jsstring;                      (* messageInput.value *)
  sendDisabled : bool;                        (* sendButton.disabled *)
  typingVisible : bool;                       (* #typingIndicator .visible *)
  toastVisible : bool;                        (* #errorToast .visible *)
  storedHistory : option (list (jsval * msgType));
                                              (* sessionStorage magomar_history *)
  scratch : nat;                              (* detached elements created *)
  trace : list effect;
  settled : list settlement
    (* the promises of the sends that [handleSubmit] awaits, as they ended *)
}.

(** Code with side effects on the page. *)
Definition Eff (A : Type) : Type := World -> A * World.

Definition ret {A} (a : A) : Eff A := fun w => (a, w).
Definition bind {A B} (e : Eff A) (k : A -> Eff B) : Eff B :=
  fun w => let (a, w') := e w in k a w'.

Notation "x <- e ;; k" := (bind e (fun x => k))
  (at level 61, e at next level, right associativity).

(** ** The formatter *)

(** The text serialisation of the DOM ("escaping a string", not in
    attribute mode), which [innerHTML] applies to a text node. *)
Fixpoint serializeText (text : jsstring) : jsstring :=
  match text with
  | [] => []
  | c :: t =>
      (if (c =? 38)%N then str "&amp;"
       else if (c =? 160)%N then str "&nbsp;"
       else if (c =? 60)%N then str "&lt;"
       else if (c =? 62)%N then str "&gt;"
       else [c]) ++ serializeText t
  end.

(** [document.createElement('div')]: a fresh detached element. *)
Definition createElement : Eff unit :=
  fun w => (tt, mkWorld (sessionId w) (isLoading w) (messageHistory w)
                        (chatMessages w) (inputValue w) (sendDisabled w)
                        (typingVisible w) (toastVisible w) (storedHistory w)
                        (S (scratch w)) (trace w) (settled w)).

(** [escapeHtml]: the text is stored in a scratch element and read back
    as markup. *)
Definition escapeHtml (text : jsstring) : Eff jsstring :=
  _ <- createElement ;;
  ret (serializeText text).

(** The patterns of the source. *)

(* /\n/g *)
Definition reNewline : re := Lit LF.

(* the class of the bullet pattern, as the file spells it: the dash and
   the three code units U+00E2, U+20AC, U+00A2 *)
Definition bulletClass (c : char) : bool :=
  ((c =? 45) || (c =? 226) || (c =? 8364) || (c =? 162))%N.

(* /<p>[...]\s*(.*?)<\/p>/g with that class *)
Definition reBullet : re :=
  Cat (lits (str "<p>"))
   (Cat (Class bulletClass)
    (Cat (star (Class JS.isSpace))
     (Cat (Grp 1 (lazy_star dot))
          (lits (str "</p>"))))).

(* /(<li>.*<\/li>)+/g *)
Definition reItems : re :=
  plus (Grp 1 (Cat (lits (str "<li>")) (Cat (star dot) (lits (str "</li>"))))).

(* /\*\*(.*?)\*\*/g *)
Definition reBold : re :=
  Cat (lits (str "**")) (Cat (Grp 1 (lazy_star dot)) (lits (str "**"))).

(* the class [\s-|]: white space, the dash and the pipe *)
Definition sepClass (c : char) : bool :=
  JS.isSpace c || (c =? 45)%N || (c =? 124)%N.

(* /^\|[\s-|]+\|$/ *)
Definition reSeparator : re :=
  Cat Bol (Cat (Lit 124%N) (Cat (plus (Class sepClass)) (Cat (Lit 124%N) Eol))).

(* the class [^<] *)
Definition notLt (c : char) : bool := negb (c =? 60)%N.

(* /(<p>)?(\|[^<]+<br>)+(\|[^<]+)(<\/p>)?/g *)
Definition reTable : re :=
  Cat (opt (Grp 1 (lits (str "<p>"))))
   (Cat (plus (Grp 2 (Cat (Lit 124%N)
                       (Cat (plus (Class notLt)) (lits (str "<br>"))))))
    (Cat (Grp 3 (Cat (Lit 124%N) (plus (Class notLt))))
         (opt (Grp 4 (lits (str "</p>")))))).

(** One row of the table: nothing for a separator line or a line with no
    non-blank cell. *)
Definition tableRow (index : nat) (line : jsstring) : jsstring :=
  if test reSeparator line then []
  else
    let cells := filter (fun cell => JS.truthy (JS.trim cell))
                        (JS.split line (str "|")) in
    let tag := if Nat.eqb index 0 then str "th" else str "td" in
    match cells with
    | [] => []
    | _ =>
        str "<tr>"
          ++ concat (map (fun cell =>
                            str "<" ++ tag ++ str ">" ++ JS.trim cell
                              ++ str "</" ++ tag ++ str ">") cells)
          ++ str "</tr>"
    end.

(** [lines.forEach((line, index) => ...)] of [convertToTable]. *)
Fixpoint tableRows (index : nat) (lines : list jsstring) : jsstring :=
  match lines with
  | [] => []
  | line :: more => tableRow index line ++ tableRows (S index) more
  end.

(** The candidate lines of [convertToTable]. *)
Definition tableLines (text : jsstring) : list jsstring :=
  filter (fun line => JS.includes line (str "|")) (JS.split text (str "<br>")).

Definition convertToTable (text : jsstring) : jsstring :=
  let lines := tableLines text in
  if length lines <? 2 then text
  else
    let tableHtml := str "<table>" ++ tableRows 0 lines ++ str "</table>" in
    replace reTable tableHtml text.

(** The stages of [formatMessage] after the escaping. *)
Definition paragraphs (escaped : jsstring) : jsstring :=
  JS.join []
    (map (fun para => str "<p>" ++ replace reNewline (str "<br>") para
                        ++ str "</p>")
         (JS.split escaped [LF; LF])).

Definition bullets (formatted : jsstring) : jsstring :=
  replace reItems (str "<ul>$&</ul>")
          (replace reBullet (str "<li>$1</li>") formatted).

Definition bold (formatted : jsstring) : jsstring :=
  replace reBold (str "<strong>$1</strong>") formatted.

Definition tables (formatted : jsstring) : jsstring :=
  if JS.includes formatted (str "|") && JS.includes formatted (str "<br>")
  then convertToTable formatted
  else formatted.

Definition formatMessage (content : jsstring) : Eff jsstring :=
  formatted <- escapeHtml content ;;
  ret (tables (bold (bullets (paragraphs formatted)))).

(** The page before the script has done anything. *)
Definition blank : World :=
  mkWorld [] false [] [] [] true false false None 0 [] [].

(** The markup that [formatMessage] returns. *)
Definition formatted (content : jsstring) : jsstring :=
  fst (formatMessage content blank).

(** ** The reply extractor *)

(** ToBoolean *)
Definition truthy (v : jsval) : bool :=
  match v with
  | JUndef | JNull => false
  | JBool b => b
  | JNum z => negb (z =? 0)%Z
  | JStr s => JS.truthy s
  | JArr _ | JObj _ => true
  end.

(** [a || b] *)
Definition or (a b : jsval) : jsval := if truthy a then a else b.

(** [a && b] *)
Definition and (a b : jsval) : jsval := if truthy a then b else a.

(** The own properties of an object decoded from JSON (distinct keys). *)
Fixpoint lookup (key : jsstring) (props : list (jsstring * jsval)) : jsval :=
  match props with
  | [] => JUndef
  | (k, v) :: more => if JS.eqb key k then v else lookup key more
  end.

(** [v.key] on a value that is neither [null] nor [undefined], for a key
    that no prototype defines and that is neither an index nor [length]:
    only objects have it. *)
Definition get (v : jsval) (key : string) : jsval :=
  match v with
  | JObj props => lookup (str key) props
  | _ => JUndef
  end.

(** [v?.key] *)
Definition getOpt (v : jsval) (key : string) : jsval :=
  match v with
  | JUndef | JNull => JUndef
  | _ => get v key
  end.

(** [Array.isArray(data)] *)
Definition isArray (v : jsval) : jsval :=
  match v with JArr _ => JBool true | _ => JBool false end.

(** [data[0]] *)
Definition first (v : jsval) : jsval :=
  match v with
  | JArr (x :: _) => x
  | _ => JUndef
  end.

(** [extractReply]; [None] is the TypeError of reading a property of
    [null]. *)
Definition extractReply (data : jsval) : option jsval :=
  match data with
  | JStr _ => Some data
  | JUndef | JNull => None
  | _ =>
      Some (or (get data "reply")
           (or (get data "message")
           (or (get data "text")
           (or (get data "answer")
           (or (get data "output")
           (or (get data "response")
           (or (get data "data")
           (or (and (isArray data) (getOpt (first data) "reply"))
           (or (and (isArray data)
                    (getOpt (getOpt (first data) "json") "reply"))
               JNull)))))))))
  end.

(** ** The sender *)

(** JavaScript numbers that are integers, by their value.  A product is
    the exact product rounded to the nearest value that a double holds:
    53 significant bits, a tie going to the even significand.  The
    overflow of a double near 2^1024 is left out; [configured] below
    keeps the products of the script away from it. *)
Module Number.

Definition round (z : Z) : Z :=
  let a := Z.abs z in
  let e := Z.log2 a in                     (* 2^e <= a < 2^(e+1) *)
  if (e <? 53)%Z then z
  else
    let ulp := (2 ^ (e - 52))%Z in
    let q := (a / ulp)%Z in
    let r := (a mod ulp)%Z in
    let q' := if (2 * r <? ulp)%Z then q
              else if (ulp <? 2 * r)%Z then (q + 1)%Z
              else if Z.even q then q else (q + 1)%Z in
    (Z.sgn z * (q' * ulp))%Z.

(** [a * b] *)
Definition mul (a b : Z) : Z := round (a * b).

End Number.

(** [CONFIG], its numbers being integers.  A retry count goes up by one
    from zero, which is exact below 2^53. *)
Record Config : Type := mkConfig {
  maxRetries : Z;
  retryDelay : Z;
  messageMaxLength : Z
}.

Definition CONFIG : Config := mkConfig 3 1000 2000.

(** A configuration that the model of the numbers covers: a retry limit
    between 0 and 2^53, where counting up by one is exact; a base delay
    that a number holds; products of the delay that stay finite. *)
Definition configured (cfg : Config) : Prop :=
  (0 <= maxRetries cfg <= 2 ^ 53)%Z
  /\ Number.round (retryDelay cfg) = retryDelay cfg
  /\ (Z.abs (retryDelay cfg) * maxRetries cfg <= 2 ^ 1023)%Z.

(** The state updates of the script, one per assignment. *)
Definition setLoading (b : bool) (w : World) : World :=
  mkWorld (sessionId w) b (messageHistory w) (chatMessages w) (inputValue w)
          (sendDisabled w) (typingVisible w) (toastVisible w)
          (storedHistory w) (scratch w) (trace w) (settled w).

Definition setTyping (b : bool) (w : World) : World :=
  mkWorld (sessionId w) (isLoading w) (messageHistory w) (chatMessages w)
          (inputValue w) (sendDisabled w) b (toastVisible w)
          (storedHistory w) (scratch w) (trace w) (settled w).

Definition setInput (v : jsstring) (w : World) : World :=
  mkWorld (sessionId w) (isLoading w) (messageHistory w) (chatMessages w)
          v (sendDisabled w) (typingVisible w) (toastVisible w)
          (storedHistory w) (scratch w) (trace w) (settled w).

Definition setDisabled (b : bool) (w : World) : World :=
  mkWorld (sessionId w) (isLoading w) (messageHistory w) (chatMessages w)
          (inputValue w) b (typingVisible w) (toastVisible w)
          (storedHistory w) (scratch w) (trace w) (settled w).

Definition emit (e : effect) (w : World) : World :=
  mkWorld (sessionId w) (isLoading w) (messageHistory w) (chatMessages w)
          (inputValue w) (sendDisabled w) (typingVisible w) (toastVisible w)
          (storedHistory w) (scratch w) (trace w ++ [e]) (settled w).

Definition toastText : jsstring :=
  str "Desculpe, ocorreu um erro. Por favor tente novamente.".

(** [showToast]; the timer that hides the toast again is left out. *)
Definition showToast (text : jsstring) (w : World) : World :=
  let w := emit (Toast text) w in
  mkWorld (sessionId w) (isLoading w) (messageHistory w) (chatMessages w)
          (inputValue w) (sendDisabled w) (typingVisible w) true
          (storedHistory w) (scratch w) (trace w) (settled w).

(** ToString completes on a value decoded from JSON.  An object with an
    own property [toString] holds no function there (JSON has none), and
    its [valueOf], own or inherited, is no function or returns the object
    itself, so the conversion throws a TypeError; an object without it
    inherits a [toString] that returns a string.  An array joins the
    strings of its elements, [null] counting as the empty string.
    Everything else has a string. *)
Fixpoint stringifies (v : jsval) : bool :=
  match v with
  | JObj props =>
      negb (existsb (fun kv => JS.eqb (fst kv) (str "toString")) props)
  | JArr items => forallb stringifies items
  | _ => true
  end.

(** [appendMessage(content, type)] with [save = true], for a content on
    which ToString completes: the new element is a function of the
    content and the type, so the list keeps these; its markup comes from
    [formatMessage], which costs one scratch element; the time stamp of
    the history entry is left out. *)
Definition appendMessage (content : jsval) (type : msgType) (w : World)
  : World :=
  let history := messageHistory w ++ [(content, type)] in
  mkWorld (sessionId w) (isLoading w) history
          (chatMessages w ++ [(content, type)])
          (inputValue w) (sendDisabled w) (typingVisible w) (toastVisible w)
          (Some history) (S (scratch w)) (trace w) (settled w).

(** [appendMessage(content, type)] for a content on which ToString
    throws: the exception comes from [div.textContent = text] in
    [escapeHtml], when the element of the message and the scratch
    element have been created and nothing else has happened. *)
Definition appendMessageThrows (w : World) : World :=
  snd (createElement (snd (createElement w))).

(** The call returns: its promise is fulfilled, and with it the promise
    of every call that returned this one as its own result, back to the
    call that [handleSubmit] awaits. *)
Definition fulfil (w : World) : World :=
  mkWorld (sessionId w) (isLoading w) (messageHistory w) (chatMessages w)
          (inputValue w) (sendDisabled w) (typingVisible w) (toastVisible w)
          (storedHistory w) (scratch w) (trace w) (settled w ++ [Fulfilled]).

(** Where a call of [sendMessage] is suspended. *)
Inductive awaiting := AwaitFetch | AwaitJson | AwaitDelay.

(** A call of [sendMessage] that has not returned. *)
Record activation : Type := mkActivation {
  message : jsstring;
  retryCount : Z;
  suspended : awaiting
}.

(** The page together with the suspended calls of [sendMessage]. *)
Record Runtime : Type := mkRuntime {
  page : World;
  pending : list activation
}.

(** What the outside world does: the user edits the input or submits
    the form; the fetch of the [k]-th pending call rejects ([None]) or
    resolves to a response; its body fails to decode ([None]) or decodes
    to a value; its timer fires. *)
Inductive event : Type :=
| Typed (text : jsstring)
| Submit
| FetchSettled (k : nat) (response : option bool)   (* response.ok *)
| JsonSettled (k : nat) (data : option jsval)
| TimerFired (k : nat).

Fixpoint update {A} (k : nat) (a : A) (l : list A) : list A :=
  match l, k with
  | [], _ => []
  | _ :: t, O => a :: t
  | x :: t, S k' => x :: update k' a t
  end.

Fixpoint remove {A} (k : nat) (l : list A) : list A :=
  match l, k with
  | [], _ => []
  | _ :: t, O => t
  | x :: t, S k' => x :: remove k' t
  end.

Section Sender.

Variable cfg : Config.

(** [sendMessage] up to its first [await]. *)
Definition sendMessage (msg : jsstring) (count : Z) (rt : Runtime)
  : Runtime :=
  let w := setLoading true (page rt) in
  let w := setTyping true w in                   (* showTypingIndicator *)
  let w := emit (Fetch msg (sessionId w)) w in
  mkRuntime w (pending rt ++ [mkActivation msg count AwaitFetch]).

(** The [finally] block. *)
Definition finallyBlock (w : World) : World :=
  let w := setLoading false w in
  let w := setTyping false w in                  (* hideTypingIndicator *)
  setDisabled (Nat.eqb (length (JS.trim (inputValue w))) 0) w.

(** The [catch] block of the [k]-th pending call [a], up to its
    [await] or to the end of the call.  Nothing is thrown again: after
    the toast the [finally] block runs and the call returns. *)
Definition catchBlock (k : nat) (a : activation) (rt : Runtime) : Runtime :=
  if (retryCount a <? maxRetries cfg)%Z then
    mkRuntime (emit (Delay (Number.mul (retryDelay cfg) (retryCount a + 1)))
                    (page rt))
              (update k (mkActivation (message a) (retryCount a) AwaitDelay)
                      (pending rt))
  else
    mkRuntime (fulfil (finallyBlock (showToast toastText (page rt))))
              (remove k (pending rt)).

(** After the delay: [return sendMessage(message, retryCount + 1)].
    The callee runs up to its first [await] and hands back its promise;
    the [return] then leaves the [try] statement of the caller, so the
    caller's [finally] block runs at once, while the callee is still
    suspended.  The promise of the caller ends as that of the callee
    will. *)
Definition retry (k : nat) (a : activation) (rt : Runtime) : Runtime :=
  let rt := mkRuntime (page rt) (remove k (pending rt)) in
  let rt := sendMessage (message a) (retryCount a + 1) rt in
  mkRuntime (finallyBlock (page rt)) (pending rt).

(** The [try] block after [response.json()] has resolved.  What
    [extractReply] or [appendMessage] throws is caught like the error
    of an empty response. *)
Definition received (k : nat) (a : activation) (data : jsval)
           (rt : Runtime) : Runtime :=
  match extractReply data with
  | Some reply =>
      if truthy reply then
        if stringifies reply then
          mkRuntime (fulfil (finallyBlock (appendMessage reply bot (page rt))))
                    (remove k (pending rt))
        else
          catchBlock k a (mkRuntime (appendMessageThrows (page rt))
                                    (pending rt))
      else catchBlock k a rt          (* throw new Error('Empty response') *)
  | None => catchBlock k a rt
  end.

(** [handleInput] after the user has changed the text. *)
Definition handleInput (text : jsstring) (w : World) : World :=
  let w := setInput text w in
  let hasContent := negb (Nat.eqb (length (JS.trim (inputValue w))) 0) in
  setDisabled (negb hasContent || isLoading w) w.

(** [handleSubmit] up to the first [await] of [sendMessage]. *)
Definition handleSubmit (rt : Runtime) : Runtime :=
  let w := page rt in
  let msg := JS.trim (inputValue w) in
  if negb (JS.truthy msg) || isLoading w then rt
  else
    let w := setInput [] w in
    let w := setDisabled true w in
    let w := appendMessage (JStr msg) user w in
    sendMessage msg 0 (mkRuntime w (pending rt)).

(** One turn of the event loop. *)
Definition step (e : event) (rt : Runtime) : Runtime :=
  match e with
  | Typed text => mkRuntime (handleInput text (page rt)) (pending rt)
  | Submit => handleSubmit rt
  | FetchSettled k response =>
      match nth_error (pending rt) k with
      | Some a =>
          match suspended a, response with
          | AwaitFetch, None => catchBlock k a rt
          | AwaitFetch, Some false => catchBlock k a rt   (* !response.ok *)
          | AwaitFetch, Some true =>
              mkRuntime (page rt)
                (update k (mkActivation (message a) (retryCount a) AwaitJson)
                        (pending rt))
          | _, _ => rt
          end
      | None => rt
      end
  | JsonSettled k data =>
      match nth_error (pending rt) k with
      | Some a =>
          match suspended a, data with
          | AwaitJson, None => catchBlock k a rt
          | AwaitJson, Some d => received k a d rt
          | _, _ => rt
          end
      | None => rt
      end
  | TimerFired k =>
      match nth_error (pending rt) k with
      | Some a =>
          match suspended a with
          | AwaitDelay => retry k a rt
          | _ => rt
          end
      | None => rt
      end
  end.

Definition run (events : list event) (rt : Runtime) : Runtime :=
  fold_left (fun rt e => step e rt) events rt.

End Sender.

(** How one attempt ends. *)
Inductive outcome : Type :=
| TransportError                 (* fetch rejects *)
| BadStatus                      (* response.ok is false *)
| BadBody                        (* response.json() rejects *)
| Body (data : jsval).           (* the body decodes to data *)

(** The attempt yields no reply: the fetch rejects, the status is not a
    success, the body does not decode, or [extractReply] finds no truthy
    value in it. *)
Definition fails (o : outcome) : bool :=
  match o with
  | Body data =>
      match extractReply data with
      | Some reply => negb (truthy reply)
      | None => true
      end
  | _ => true
  end.

(** The events by which the attempt of the [k]-th pending call ends. *)
Definition settle (k : nat) (o : outcome) : list event :=
  match o with
  | TransportError => [FetchSettled k None]
  | BadStatus => [FetchSettled k (Some false)]
  | BadBody => [FetchSettled k (Some true); JsonSettled k None]
  | Body data => [FetchSettled k (Some true); JsonSettled k (Some data)]
  end.

(** A single send whose attempts end as [outs] says, every timer firing
    in between. *)
Fixpoint chain (outs : list outcome) : list event :=
  match outs with
  | [] => []
  | [o] => settle 0 o
  | o :: more => settle 0 o ++ TimerFired 0 :: chain more
  end.

(** The probe order in the words of the specification: the shapes of a
    payload, and the value found when a shape applies. *)
Inductive shape : Type :=
| RawString
| Key (key : string)
| FirstReply
| FirstJsonReply.

Definition probeOrder : list shape :=
  [RawString; Key "reply"; Key "message"; Key "text"; Key "answer";
   Key "output"; Key "response"; Key "data"; FirstReply; FirstJsonReply].

Definition usable (v : jsval) : option jsval :=
  if truthy v then Some v else None.

Definition probe (data : jsval) (sh : shape) : option jsval :=
  match sh, data with
  | RawString, JStr _ => Some data
  | Key key, JObj props => usable (lookup (str key) props)
  | FirstReply, JArr (JObj props :: _) => usable (lookup (str "reply") props)
  | FirstJsonReply, JArr (JObj props :: _) =>
      match lookup (str "json") props with
      | JObj inner => usable (lookup (str "reply") inner)
      | _ => None
      end
  | _, _ => None
  end.

Fixpoint firstMatch (data : jsval) (shapes : list shape) : option jsval :=
  match shapes with
  | [] => None
  | sh :: more =>
      match probe data sh with
      | Some v => Some v
      | None => firstMatch data more
      end
  end.

(** The candidate keys, in probe order. *)
Definition candidates : list string :=
  ["reply"; "message"; "text"; "answer"; "output"; "response"; "data"]%string.

(** The falsy values that JSON can hold. *)
Definition falsyValue (v : jsval) : Prop :=
  v = JStr [] \/ v = JNum 0 \/ v = JBool false \/ v = JNull.

(** Readings of a trace: the number of requests, the waits in order, the
    number of toasts. *)
Definition attempts (tr : list effect) : nat :=
  length (filter (fun e => match e with Fetch _ _ => true | _ => false end) tr).

Definition waits (tr : list effect) : list Z :=
  flat_map (fun e => match e with Delay ms => [ms] | _ => [] end) tr.

Definition toasts (tr : list effect) : nat :=
  length (filter (fun e => match e with Toast _ => true | _ => false end) tr).

(** The requests and waits of a send that never succeeds, after its
    first request: before attempt k + 1 a wait of k times the base
    delay. *)
Definition backoff (msg sid : jsstring) (delay : Z) (first n : nat)
  : list effect :=
  flat_map (fun k => [Delay (Number.mul delay (Z.of_nat k)); Fetch msg sid])
           (seq first n).

(** ** Safe markup

    The tags that the rules of the formatter write, and the character
    references that the escaping writes. *)
Definition tags : list jsstring :=
  map str ["<p>"; "</p>"; "<br>"; "<li>"; "</li>"; "<ul>"; "</ul>";
           "<strong>"; "</strong>"; "<table>"; "</table>"; "<tr>"; "</tr>";
           "<th>"; "</th>"; "<td>"; "</td>"]%string.

Definition entities : list jsstring :=
  map str ["&amp;"; "&lt;"; "&gt;"; "&nbsp;"]%string.

(** The code units <, > and &. *)
Definition special (c : char) : bool :=
  ((c =? 60) || (c =? 62) || (c =? 38))%N.

(** Markup in which every <, > and & belongs to a tag of the formatter
    or to a character reference: a sequence of such tags, such
    references and other code units. *)
Inductive markup : jsstring -> Prop :=
| markup_end : markup []
| markup_text : forall c s, special c = false -> markup s -> markup (c :: s)
| markup_tag : forall t s, In t tags -> markup s -> markup (t ++ s)
| markup_entity : forall e s, In e entities -> markup s -> markup (e ++ s).

(** A scanner for [markup].  Its state is the part of a tag or reference
    read so far, empty between two of them. *)
Definition tokens : list jsstring := tags ++ entities.

Definition complete (q : jsstring) : bool := existsb (JS.eqb q) tokens.

Definition partial (q : jsstring) : bool :=
  existsb (fun t => JS.startsWith t q) tokens.

Definition next (q : jsstring) (c : char) : option jsstring :=
  if complete (q ++ [c]) then Some []
  else if partial (q ++ [c]) then Some (q ++ [c])
  else match q with
       | [] => if special c then None else Some []
       | _ :: _ => None
       end.

Fixpoint scan (q : jsstring) (s : jsstring) : option jsstring :=
  match s with
  | [] => Some q
  | c :: t =>
      match next q c with
      | Some q' => scan q' t
      | None => None
      end
  end.

Definition wellFormed (s : jsstring) : bool :=
  match scan [] s with
  | Some [] => true
  | _ => false
  end.

(** The ways to write [t] as [p ++ c :: r]. *)
Fixpoint occurrences (c : char) (t : jsstring) : list (jsstring * jsstring) :=
  match t with
  | [] => []
  | x :: t' =>
      (if (x =? c)%N then [([], t')] else [])
        ++ map (fun pr => (x :: fst pr, snd pr)) (occurrences c t')
  end.

(** A code unit that occurs in no tag and in no reference. *)
Definition neutral (c : char) : bool :=
  negb (existsb (N.eqb c) (concat tokens)).

(** Before an opening code unit the scanner is between two tokens; so it
    is after a closing one. *)
Definition opening (c : char) : bool :=
  (c =? 60)%N || (c =? 38)%N || neutral c.

Definition closing (c : char) : bool :=
  (c =? 62)%N || neutral c.

(** A place in a text where a token may not be cut: at either end of the
    text, after a closing code unit, before an opening one. *)
Definition seam (a b : jsstring) : Prop :=
  a = [] \/ b = []
  \/ (exists a' c, a = a' ++ [c] /\ closing c = true)
  \/ (exists c b', b = c :: b' /\ opening c = true).

(** The state [y] lies ahead of the state [x] in the same input. *)
Definition ahead (x y : mstate) : Prop :=
  length (rest y) <= length (rest x)
  /\ pos y + length (rest y) = pos x + length (rest x).

(** ** What a match looks like

    The matches that the matcher can find, without the order in which it
    tries them: [Matches r x y] when [r] can take the state [x] to the
    state [y]. *)
Inductive Matches : re -> mstate -> mstate -> Prop :=
| M_Empty : forall x, Matches Empty x x
| M_Lit : forall ch x t,
    rest x = ch :: t -> Matches (Lit ch) x (advance x t)
| M_Class : forall f a x t,
    rest x = a :: t -> f a = true -> Matches (Class f) x (advance x t)
| M_Cat : forall a b x y z,
    Matches a x y -> Matches b y z -> Matches (Cat a b) x z
| M_Grp : forall i a x y,
    Matches a x y ->
    Matches (Grp i a) x (setCap i (firstn (pos y - pos x) (rest x)) y)
| M_Bol : forall x, pos x = 0 -> Matches Bol x x
| M_Eol : forall x, rest x = [] -> Matches Eol x x
| M_Stop : forall min max greedy a x,
    min = 0 \/ max = Some 0 -> Matches (Rep min max greedy a) x x
| M_Step : forall min max greedy a x y z,
    Matches a (clearCaps (groups a) x) y ->
    Matches (Rep (Nat.pred min) (decr max) greedy a) y z ->
    Matches (Rep min max greedy a) x z.

(** One or more rounds of an atom, as a repetition runs them. *)
Inductive Rounds (a : re) : mstate -> mstate -> Prop :=
| Rounds_last : forall x y,
    Matches a (clearCaps (groups a) x) y -> Rounds a x y
| Rounds_more : forall x y z,
    Matches a (clearCaps (groups a) x) y -> Rounds a y z -> Rounds a x z.

(** A text that starts with an opening code unit and ends with a closing
    one. *)
Definition bounded (w : jsstring) : Prop :=
  (exists c w', w = c :: w' /\ opening c = true)
  /\ (exists w' c, w = w' ++ [c] /\ closing c = true).

(** The scanner accepts the text. *)
Definition safe (s : jsstring) : Prop := scan [] s = Some [].

(** Every match that [replace] can find for the pattern in a safe text
    lies between two seams of the text, and what the template puts in
    its place is safe. *)
Definition GoodMatch (r : re) (template : jsstring) : Prop :=
  forall pre w y,
    exec r (length pre) w = Some y ->
    safe (pre ++ w) ->
    exists mt,
      w = mt ++ rest y /\ pos y = length pre + length mt
      /\ safe pre /\ safe mt /\ safe (rest y)
      /\ safe (GetSubstitution mt pre (rest y) (ngroups r) (caps y) template).

(** ** More of the page *)

(** [handleKeydown]: Enter without Shift submits the form, unless the
    send button is disabled; [dispatchEvent] runs [handleSubmit] at
    once. *)
Definition handleKeydown (key : jsstring) (shiftKey : bool) (rt : Runtime)
  : Runtime :=
  if JS.eqb key (str "Enter") && negb shiftKey then
    if negb (sendDisabled (page rt)) then handleSubmit rt else rt
  else rt.

(** A pending call respects the retry limit. *)
Definition withinLimit (cfg : Config) (a : activation) : Prop :=
  (0 <= retryCount a)%Z
  /\ (retryCount a <= Z.max 0 (maxRetries cfg))%Z
  /\ (suspended a = AwaitDelay -> (retryCount a < maxRetries cfg)%Z).

(** A message of the chat as the script can have put it there: a user
    message is a non-empty trimmed string, a reply is truthy. *)
Definition wellShown (entry : jsval * msgType) : Prop :=
  match entry with
  | (content, user) =>
      exists text, content = JStr text /\ text <> [] /\ JS.trim text = text
  | (content, bot) => truthy content = true
  end.

(** The page at rest: nothing is loading, the typing indicator is
    hidden, and the send button is disabled exactly when the input is
    blank. *)
Definition atRest (w : World) : Prop :=
  isLoading w = false
  /\ typingVisible w = false
  /\ sendDisabled w = Nat.eqb (length (JS.trim (inputValue w))) 0.

(** ** Session storage and the session identifier *)

Module Session.

(** [sessionStorage]: string values under string keys. *)
Definition Storage := list (jsstring * jsstring).

(** [getItem]; [None] is [null]. *)
Fixpoint getItem (key : jsstring) (st : Storage) : option jsstring :=
  match st with
  | [] => None
  | (k, v) :: more => if JS.eqb key k then Some v else getItem key more
  end.

(** [setItem]: the value of the key is replaced, or the key is added. *)
Fixpoint setItem (key value : jsstring) (st : Storage) : Storage :=
  match st with
  | [] => [(key, value)]
  | (k, v) :: more =>
      if JS.eqb key k then (k, value) :: more
      else (k, v) :: setItem key value more
  end.

(** [removeItem] *)
Fixpoint removeItem (key : jsstring) (st : Storage) : Storage :=
  match st with
  | [] => []
  | (k, v) :: more =>
      if JS.eqb key k then removeItem key more
      else (k, v) :: removeItem key more
  end.

(** [s.substring(first, last)] for [first <= last]. *)
Definition substring (first last : nat) (s : jsstring) : jsstring :=
  firstn (last - first) (skipn first s).

Definition sessionKey : jsstring := str "magomar_session_id".
Definition historyKey : jsstring := str "magomar_history".

(** [getOrCreateSessionId]; [now] is the text of [Date.now()] and
    [random] the text of [Math.random().toString(36)]. *)
Definition getOrCreateSessionId (now random : jsstring) (st : Storage)
  : jsstring * Storage :=
  let create :=
    let id := str "session_" ++ now ++ str "_" ++ substring 2 11 random in
    (id, setItem sessionKey id st) in
  match getItem sessionKey st with
  | Some stored => if JS.truthy stored then (stored, st) else create
  | None => create
  end.

(** [clearHistory] up to the reload of the page. *)
Definition clearHistory (st : Storage) : Storage :=
  removeItem sessionKey (removeItem historyKey st).

End Session.

(** ** What the formatter does to ordinary text *)

(** Every line feed written as a line break tag: the reference for
    [para.replace(/\n/g, '<br>')]. *)
Definition lineBreaks (text : jsstring) : jsstring :=
  flat_map (fun c => if (c =? LF)%N then str "<br>" else [c]) text.

(** A place where a pattern of [bullets] or of [bold] can start a match:
    two asterisks, an item tag, or a paragraph tag before a code unit of
    the bullet class. *)
Definition marked (w : jsstring) : bool :=
  JS.startsWith w (str "**")
  || JS.startsWith w (str "<li>")
  || (JS.startsWith w (str "<p>")
      && match skipn 3 w with c :: _ => bulletClass c | [] => false end).

(** No such place in the text. *)
Fixpoint unmarked (s : jsstring) : bool :=
  negb (marked s) && match s with [] => true | _ :: t => unmarked t end.

(** The number of asterisks of a text. *)
Definition stars (s : jsstring) : nat := count_occ N.eq_dec s 42%N.

(** The paragraph does not begin with a code unit of the bullet class. *)
Definition noBullet (para : jsstring) : Prop :=
  match para with c :: _ => bulletClass c = false | [] => True end.

(** A paragraph of escaped text between its tags, its line feeds written
    as line breaks. *)
Definition block (para : jsstring) : jsstring :=
  str "<p>" ++ lineBreaks (serializeText para) ++ str "</p>".

(** ** The same match further right *)

(** The state [x] when [k] more code units stand before the input. *)
Definition shift (k : nat) (x : mstate) : mstate :=
  MState (pos x + k) (rest x) (caps x).

(** The pattern holds a ^, which looks at the index. *)
Fixpoint anchored (r : re) : bool :=
  match r with
  | Bol => true
  | Cat a b => anchored a || anchored b
  | Rep _ _ _ a => anchored a
  | Grp _ a => anchored a
  | _ => false
  end.

(** ** Lists *)

(** The text of a list item as it is typed: no line terminator, no
    asterisk, no pipe, and no white space in front. *)
Definition itemText (it : jsstring) : Prop :=
  Forall (fun c => JS.isLineTerminator c = false /\ c <> 42%N /\ c <> 124%N)
         it
  /\ match it with c :: _ => JS.isSpace c = false | [] => True end.

(** A paragraph that is a dash, a space and a text; a list item. *)
Definition dashBlock (e : jsstring) : jsstring :=
  str "<p>- " ++ e ++ str "</p>".

Definition listItem (e : jsstring) : jsstring :=
  str "<li>" ++ e ++ str "</li>".

(** ** Counting what was sent and what came back *)

(** The messages of one type that the chat shows. *)
Definition shown (type : msgType) (chat : list (jsval * msgType)) : nat :=
  length (filter (fun entry =>
                    match snd entry, type with
                    | user, user | bot, bot => true
                    | _, _ => false
                    end) chat).

(** The retries that the pending calls may still make. *)
Definition budget (cfg : Config) (calls : list activation) : Z :=
  fold_right (fun a acc => (maxRetries cfg - retryCount a + acc)%Z) 0%Z calls.

(** ** Tables *)

(** The repeated group of the table pattern: a line that starts with a
    pipe and ends with a line break. *)
Definition reRow : re :=
  Grp 2 (Cat (Lit 124%N) (Cat (plus (Class notLt)) (lits (str "<br>")))).

(** A line of a table as it is typed: a pipe and at least one more code
    unit; no line feed, no asterisk, no dollar sign. *)
Definition rowText (row : jsstring) : Prop :=
  exists body,
    row = 124%N :: body /\ body <> []
    /\ Forall (fun c => c <> LF /\ c <> 42%N /\ c <> 36%N) body.


(** ** What the script asks of its environment *)

(** An effect that the script can ask for on a page with the session
    identifier [sid]: a request with a trimmed message that is not empty
    and with this identifier, a wait of the base delay times a number
    between one and the retry limit, or the toast with its fixed text. *)
Definition wellAsked (cfg : Config) (sid : jsstring) (e : effect) : Prop :=
  match e with
  | Fetch msg s => msg <> [] /\ JS.trim msg = msg /\ s = sid
  | Delay ms =>
      exists k, (1 <= k <= maxRetries cfg)%Z
                /\ ms = Number.mul (retryDelay cfg) k
  | Toast text => text = toastText
  end.

(** A pending call as the form can have started it. *)
Definition wellStarted (a : activation) : Prop :=
  message a <> [] /\ JS.trim (message a) = message a
  /\ (0 <= retryCount a)%Z.

(** ** Where the escaped code units end up *)

(** [e] occurs in [s]. *)
Definition within (e s : jsstring) : Prop := exists a b, s = a ++ e ++ b.

(** The words of [es] occur in [s] one after the other, in the order of
    the list. *)
Fixpoint embeds (es : list jsstring) (s : jsstring) : Prop :=
  match es with
  | [] => True
  | e :: es' => exists a b, s = a ++ e ++ b /\ embeds es' b
  end.

(** The character reference of a code unit that is <, > or &. *)
Definition reference (c : char) : jsstring :=
  if (c =? 60)%N then str "&lt;"
  else if (c =? 62)%N then str "&gt;"
  else str "&amp;".

(** The references of the <, > and & of a text, in the order of the
    text. *)
Definition references (t : jsstring) : list jsstring :=
  map reference (filter special t).

(** No reference begins at the end of [a] and ends beyond it. *)
Definition closed (a : jsstring) : Prop :=
  forall l l' x,
    l <> [] -> l' <> [] -> In (l ++ l') entities -> a <> x ++ l.

(** * Properties *)

Unset Implicit Arguments.

(** ** The formatter on the examples of the specification *)


(** C4, as stated, fails: formatting the empty string does emit a
    block. *)
Lemma empty_input_not_empty_document :
  formatted [] <> [].
Proof.
  vm_compute. discriminate.
Qed.

(** C4, amended: formatting the empty string yields exactly one empty
    paragraph block and nothing else, whatever the state of the page. *)
Theorem empty_input_one_empty_paragraph :
  forall w : World, fst (formatMessage [] w) = str "<p></p>".
Proof.
  intros w. vm_compute. reflexivity.
Qed.

(** The bullet example of the specification: three dash paragraphs end
    up as the three items of one list. *)
Lemma dash_paragraphs_one_list :
  formatted (str "- a" ++ [LF; LF] ++ str "- b" ++ [LF; LF] ++ str "- c")
  = str "<ul><li>a</li><li>b</li><li>c</li></ul>".
Proof.
  vm_compute. reflexivity.
Qed.

(** C7 at the bullet glyph: the class of the bullet pattern holds the
    dash and the code units U+00E2, U+20AC, U+00A2, not U+2022, so a
    paragraph that starts with the bullet glyph stays a paragraph. *)
Theorem bullet_glyph_paragraph_not_an_item :
  bulletClass 8226%N = false
  /\ formatted (8226%N :: str " a") = str "<p>" ++ 8226%N :: str " a</p>".
Proof.
  split; vm_compute; reflexivity.
Qed.

(** ** The reply extractor *)

Lemma usable_or (v other : jsval) :
  or v other = match usable v with Some x => x | None => other end.
Proof.
  unfold or, usable. destruct (truthy v); reflexivity.
Qed.

(** C3: the extractor returns the first match along the probe order of
    the specification (and null when no shape matches; reading a key of
    null itself throws); the payload with message x and text y gives
    x. *)
Theorem extractReply_probe_order :
  (forall data : jsval,
      extractReply data
      = match data with
        | JUndef | JNull => None
        | _ => Some (match firstMatch data probeOrder with
                     | Some v => v
                     | None => JNull
                     end)
        end)
  /\ extractReply (JObj [(str "message", JStr (str "x"));
                         (str "text", JStr (str "y"))])
     = Some (JStr (str "x")).
Proof.
  split; [| vm_compute; reflexivity].
  intros data. destruct data as [| | b | z | s | l | props]; try reflexivity.
  - (* an array *)
    destruct l as [| x l]; [reflexivity |].
    destruct x as [| | b | z | s | l' | props]; try reflexivity.
    unfold extractReply, probeOrder, firstMatch, probe.
    cbn [get isArray first getOpt and truthy].
    rewrite !usable_or. cbn [usable truthy].
    destruct (usable (lookup (str "reply") props)); [reflexivity |].
    destruct (lookup (str "json") props) as [| | b | z | s | l' | inner];
      try reflexivity.
    cbn [getOpt get].
    destruct (usable (lookup (str "reply") inner)); reflexivity.
  - (* an object *)
    unfold extractReply, probeOrder, firstMatch, probe.
    cbn [get isArray and truthy].
    rewrite !usable_or.
    repeat match goal with
           | |- context [usable ?v] => destruct (usable v); [reflexivity |]
           end.
    reflexivity.
Qed.

Lemma skip_falsy (v other : jsval) :
  truthy v = false -> or v other = other.
Proof.
  unfold or. intros ->. reflexivity.
Qed.

Lemma take_truthy (v other : jsval) :
  truthy v = true -> or v other = v.
Proof.
  unfold or. intros ->. reflexivity.
Qed.

(** C9: in an object payload, a candidate key that holds a falsy value
    (empty string, 0, false, null) is passed over like an absent one:
    when the candidate at position [i] holds such a value, no candidate
    before position [j] is truthy and the candidate at a later position
    [j] is, the value of that later candidate is returned. *)
Theorem falsy_candidate_skipped :
  forall (props : list (jsstring * jsval)) (i j : nat) (ki kj : string),
    i < j ->
    nth_error candidates i = Some ki ->
    nth_error candidates j = Some kj ->
    falsyValue (lookup (str ki) props) ->
    (forall n k, n < j -> nth_error candidates n = Some k ->
                 truthy (lookup (str k) props) = false) ->
    truthy (lookup (str kj) props) = true ->
    extractReply (JObj props) = Some (lookup (str kj) props).
Proof.
  intros props i j ki kj Hij Hi Hj _ Hbefore Hlater.
  unfold extractReply. cbn [get]. f_equal.
  pose proof (fun h => Hbefore 0 "reply"%string h eq_refl) as H0.
  pose proof (fun h => Hbefore 1 "message"%string h eq_refl) as H1.
  pose proof (fun h => Hbefore 2 "text"%string h eq_refl) as H2.
  pose proof (fun h => Hbefore 3 "answer"%string h eq_refl) as H3.
  pose proof (fun h => Hbefore 4 "output"%string h eq_refl) as H4.
  pose proof (fun h => Hbefore 5 "response"%string h eq_refl) as H5.
  pose proof (fun h => Hbefore 6 "data"%string h eq_refl) as H6.
  do 7 (destruct j as [| j];
        [ injection Hj as <-; apply take_truthy, Hlater
        | rewrite skip_falsy
            by (first [apply H0 | apply H1 | apply H2 | apply H3
                      | apply H4 | apply H5 | apply H6]; lia) ]).
  destruct j; discriminate Hj.
Qed.

Lemma falsy_candidate_skipped_witness :
  extractReply (JObj [(str "reply", JStr []); (str "message", JStr (str "y"))])
  = Some (JStr (str "y")).
Proof.
  apply (@falsy_candidate_skipped
           [(str "reply", JStr []); (str "message", JStr (str "y"))]
           0 1 "reply" "message").
  - lia.
  - reflexivity.
  - reflexivity.
  - left. reflexivity.
  - intros n k Hn Hk. destruct n; [| lia].
    injection Hk as <-. reflexivity.
  - reflexivity.
Defined.

(** ** The sender *)

Lemma nth_error_update {A} (l : list A) (k : nat) (a b : A) :
  nth_error l k = Some a -> nth_error (update k b l) k = Some b.
Proof.
  revert k. induction l as [| x l IH]; intros [| k] H; try discriminate.
  - reflexivity.
  - cbn. apply IH, H.
Qed.

Lemma update_update {A} (l : list A) (k : nat) (a b : A) :
  update k a (update k b l) = update k a l.
Proof.
  revert k. induction l as [| x l IH]; intros [| k]; cbn; try reflexivity.
  f_equal. apply IH.
Qed.

Lemma remove_update {A} (l : list A) (k : nat) (b : A) :
  remove k (update k b l) = remove k l.
Proof.
  revert k. induction l as [| x l IH]; intros [| k]; cbn; try reflexivity.
  f_equal. apply IH.
Qed.

Lemma run_app cfg (e1 e2 : list event) (rt : Runtime) :
  run cfg (e1 ++ e2) rt = run cfg e2 (run cfg e1 rt).
Proof.
  unfold run. apply fold_left_app.
Qed.

(** The products of the script are exact up to 2^53. *)
Lemma round_exact (z : Z) : (Z.abs z <= 2 ^ 53)%Z -> Number.round z = z.
Proof.
  intros Hz. unfold Number.round. cbv zeta.
  destruct (Z.ltb_spec (Z.log2 (Z.abs z)) 53) as [Hlt | Hge]; [reflexivity |].
  assert (Ha : Z.abs z = (2 ^ 53)%Z).
  { apply Z.le_antisymm; [exact Hz |].
    destruct (Z.le_gt_cases (2 ^ 53) (Z.abs z)) as [H | H]; [exact H |].
    exfalso.
    destruct (Z.eq_dec (Z.abs z) 0) as [H0 | H0].
    - rewrite H0 in Hge. cbn in Hge. lia.
    - assert (Z.log2 (Z.abs z) < 53)%Z; [| lia].
      apply Z.log2_lt_pow2; lia. }
  rewrite Ha. change (Z.log2 (2 ^ 53)) with 53%Z.
  change (Z.sgn z * _)%Z with (Z.sgn z * 2 ^ 53)%Z.
  rewrite <- Ha. lia.
Qed.

Lemma mul_exact (a b : Z) :
  (Z.abs a * Z.abs b <= 2 ^ 53)%Z -> Number.mul a b = (a * b)%Z.
Proof.
  intros H. unfold Number.mul. apply round_exact. rewrite Z.abs_mul. exact H.
Qed.

(** A response with a success status, and then its body. *)
Lemma json_settled cfg (rt : Runtime) (k : nat) (a : activation)
      (data : option jsval) :
  nth_error (pending rt) k = Some a ->
  suspended a = AwaitFetch ->
  run cfg [FetchSettled k (Some true); JsonSettled k data] rt
  = match data with
    | None => catchBlock cfg k a rt
    | Some d =>
        match extractReply d with
        | Some reply =>
            if truthy reply then
              if stringifies reply then
                mkRuntime
                  (fulfil (finallyBlock (appendMessage reply bot (page rt))))
                  (remove k (pending rt))
              else
                catchBlock cfg k a
                           (mkRuntime (appendMessageThrows (page rt))
                                      (pending rt))
            else catchBlock cfg k a rt
        | None => catchBlock cfg k a rt
        end
    end.
Proof.
  intros Hk Ha. cbn [run fold_left].
  assert (Hfetch :
            step cfg (FetchSettled k (Some true)) rt
            = mkRuntime (page rt)
                (update k (mkActivation (message a) (retryCount a) AwaitJson)
                        (pending rt))).
  { cbn [step]. rewrite Hk, Ha. reflexivity. }
  rewrite Hfetch. cbn [step pending].
  rewrite (nth_error_update _ _ _ _ Hk). cbn [suspended].
  unfold received, catchBlock. cbn [message retryCount pending page].
  rewrite update_update, remove_update.
  destruct data as [d |]; [| reflexivity].
  destruct (extractReply d) as [reply |]; [| reflexivity].
  destruct (truthy reply); [| reflexivity].
  destruct (stringifies reply); reflexivity.
Qed.

(** Every way in which an attempt can fail ends in the [catch] block of
    the call. *)
Lemma failed_attempt cfg (rt : Runtime) (k : nat) (a : activation)
      (o : outcome) :
  nth_error (pending rt) k = Some a ->
  suspended a = AwaitFetch ->
  fails o = true ->
  run cfg (settle k o) rt = catchBlock cfg k a rt.
Proof.
  intros Hk Ha Ho.
  destruct o as [| | | data]; cbn [settle].
  - cbn [run fold_left step]. rewrite Hk, Ha. reflexivity.
  - cbn [run fold_left step]. rewrite Hk, Ha. reflexivity.
  - apply (json_settled cfg rt k a None Hk Ha).
  - rewrite (json_settled cfg rt k a (Some data) Hk Ha).
    cbn [fails] in Ho.
    destruct (extractReply data) as [reply |]; [| reflexivity].
    destruct (truthy reply); [discriminate | reflexivity].
Qed.

(** A send that is at retry count [r] with [n] retries left and whose
    remaining [n + 1] attempts all fail: [n] waits and requests, then
    the toast, and the call returns. *)
Lemma chain_of_failures cfg (msg : jsstring) :
  forall (n r : nat) (outs : list outcome) (w : World),
    maxRetries cfg = Z.of_nat (r + n) ->
    length outs = S n ->
    forallb fails outs = true ->
    let rt := run cfg (chain outs)
                  (mkRuntime w [mkActivation msg (Z.of_nat r) AwaitFetch]) in
    trace (page rt)
    = trace w ++ backoff msg (sessionId w) (retryDelay cfg) (S r) n
        ++ [Toast toastText]
    /\ settled (page rt) = settled w ++ [Fulfilled]
    /\ pending rt = [].
Proof.
  induction n as [| n IH]; intros r outs w Hmax Hlen Hfail.
  - destruct outs as [| o [| o' outs]]; try discriminate Hlen.
    cbn [forallb] in Hfail. apply andb_prop in Hfail as [Ho _].
    cbn zeta. cbn [chain].
    rewrite (@failed_attempt cfg (mkRuntime w [mkActivation msg (Z.of_nat r) AwaitFetch]) 0 _ o eq_refl eq_refl Ho).
    unfold catchBlock. cbn [retryCount].
    replace (Z.of_nat r <? maxRetries cfg)%Z with false
      by (symmetry; apply Z.ltb_ge; lia).
    split; [reflexivity |]. split; reflexivity.
  - destruct outs as [| o [| o' outs]]; try discriminate Hlen.
    cbn [forallb] in Hfail. apply andb_prop in Hfail as [Ho Hfail].
    cbn zeta. change (chain (o :: o' :: outs))
      with (settle 0 o ++ TimerFired 0 :: chain (o' :: outs)).
    rewrite run_app.
    rewrite (@failed_attempt cfg (mkRuntime w [mkActivation msg (Z.of_nat r) AwaitFetch]) 0 _ o eq_refl eq_refl Ho).
    unfold catchBlock. cbn [retryCount].
    replace (Z.of_nat r <? maxRetries cfg)%Z with true
      by (symmetry; apply Z.ltb_lt; lia).
    change (run cfg (TimerFired 0 :: chain (o' :: outs)) ?x)
      with (run cfg (chain (o' :: outs)) (step cfg (TimerFired 0) x)).
    cbn [step pending update nth_error suspended retry remove message
         retryCount page sendMessage app].
    unfold retry, sendMessage.
    cbn [pending remove message retryCount page app].
    replace (Z.of_nat r + 1)%Z with (Z.of_nat (S r)) by lia.
    match goal with
    | |- context [run cfg _ (mkRuntime ?w' _)] =>
        specialize (IH (S r) (o' :: outs) w')
    end.
    cbn zeta in IH.
    destruct IH as (IHt & IHs & IHp).
    + rewrite Hmax. f_equal. lia.
    + cbn [length] in *. lia.
    + exact Hfail.
    + split; [| split; [rewrite IHs; reflexivity | exact IHp]].
      rewrite IHt. unfold backoff. cbn [seq flat_map].
      cbn [trace emit finallyBlock setDisabled setTyping setLoading
           sessionId app].
      rewrite <- !app_assoc. reflexivity.
Qed.

Lemma attempts_backoff msg sid d first n :
  attempts (backoff msg sid d first n) = n.
Proof.
  unfold attempts, backoff. revert first.
  induction n as [| n IH]; intros first; [reflexivity |].
  cbn [seq flat_map app filter length]. f_equal. apply IH.
Qed.

Lemma waits_backoff msg sid d first n :
  waits (backoff msg sid d first n)
  = map (fun k => Number.mul d (Z.of_nat k)) (seq first n).
Proof.
  unfold waits, backoff. revert first.
  induction n as [| n IH]; intros first; [reflexivity |].
  cbn [seq flat_map map app]. f_equal. apply IH.
Qed.

Lemma toasts_backoff msg sid d first n :
  toasts (backoff msg sid d first n) = 0.
Proof.
  unfold toasts, backoff. revert first.
  induction n as [| n IH]; intros first; [reflexivity |].
  cbn [seq flat_map app filter length]. apply IH.
Qed.

(** C2, as stated, fails in its last part: when the retries have run
    out, [sendMessage] shows the toast and returns; nothing is thrown
    again, so the promise that [handleSubmit] awaits is fulfilled and no
    error reaches the caller.  It also fails for a base delay whose
    products leave the integers that a number holds exactly: with the
    base delay 2^53 - 1 the third wait is not three times the delay. *)
Lemma exhausted_send_returns :
  let rt := run CONFIG
                (chain [TransportError; TransportError; TransportError;
                        TransportError])
                (sendMessage (str "hi") 0 (mkRuntime blank [])) in
  let big := mkConfig 3 (2 ^ 53 - 1) 2000 in
  let rt' := run big
                 (chain [TransportError; TransportError; TransportError;
                         TransportError])
                 (sendMessage (str "hi") 0 (mkRuntime blank [])) in
  pending rt = []
  /\ toasts (trace (page rt)) = 1
  /\ settled (page rt) = [Fulfilled]
  /\ ~ In Rejected (settled (page rt))
  /\ nth 2 (waits (trace (page rt'))) 0%Z = 27021597764222972%Z
  /\ nth 2 (waits (trace (page rt'))) 0%Z <> ((2 ^ 53 - 1) * 3)%Z.
Proof.
  cbv zeta. split; [vm_compute; reflexivity |].
  split; [vm_compute; reflexivity |].
  split; [vm_compute; reflexivity |].
  split; [vm_compute; intros [H | []]; discriminate H |].
  split; [vm_compute; reflexivity | vm_compute; discriminate].
Qed.

(** C2, amended: with [maxRetries] = N between 0 and 2^53 and a base
    delay that a number holds and whose products stay finite, a send
    whose N + 1 attempts all fail (the fetch rejects, the status is not
    a success, the body does not decode, or no truthy reply is found in
    it) issues exactly N + 1 requests, asks before attempt k + 1 for a
    wait of the product delay * k as JavaScript computes it, for
    k = 1 .. N, then shows one error toast and returns, its promise
    fulfilled: no error reaches the caller.  The products are the exact
    ones when |delay| * N is at most 2^53; with N = 3 these are four
    requests with the waits delay * 1, delay * 2, delay * 3 in
    between. *)
Theorem retry_linear_backoff :
  forall (cfg : Config) (msg : jsstring) (w : World) (outs : list outcome),
    configured cfg ->
    length outs = S (Z.to_nat (maxRetries cfg)) ->
    forallb fails outs = true ->
    let n := Z.to_nat (maxRetries cfg) in
    let sid := sessionId w in
    let rt := run cfg (chain outs) (sendMessage msg 0 (mkRuntime w [])) in
    let added := Fetch msg sid :: backoff msg sid (retryDelay cfg) 1 n
                   ++ [Toast toastText] in
    trace (page rt) = trace w ++ added
    /\ pending rt = []
    /\ settled (page rt) = settled w ++ [Fulfilled]
    /\ attempts added = n + 1
    /\ waits added
       = map (fun k => Number.mul (retryDelay cfg) (Z.of_nat k)) (seq 1 n)
    /\ ((Z.abs (retryDelay cfg) * maxRetries cfg <= 2 ^ 53)%Z ->
        waits added = map (fun k => (retryDelay cfg * Z.of_nat k)%Z) (seq 1 n))
    /\ toasts added = 1
    /\ (maxRetries cfg = 3%Z ->
        added = [Fetch msg sid;
                 Delay (Number.mul (retryDelay cfg) 1); Fetch msg sid;
                 Delay (Number.mul (retryDelay cfg) 2); Fetch msg sid;
                 Delay (Number.mul (retryDelay cfg) 3); Fetch msg sid;
                 Toast toastText]).
Proof.
  intros cfg msg w outs [[Hn _] _] Hlen Hfail n sid rt added. subst sid.
  assert (Hmax : maxRetries cfg = Z.of_nat (0 + n)) by (subst n; cbn; lia).
  destruct (@chain_of_failures cfg msg n 0 outs
              (emit (Fetch msg (sessionId w))
                    (setTyping true (setLoading true w)))
              Hmax Hlen Hfail) as (Ht & Hs & Hp).
  cbn [Z.of_nat trace settled emit setTyping setLoading sessionId] in Ht, Hs.
  assert (Hwaits : waits added
                   = map (fun k => Number.mul (retryDelay cfg) (Z.of_nat k))
                         (seq 1 n)).
  { subst added. unfold waits. cbn [flat_map app]. rewrite flat_map_app.
    fold (waits (backoff msg (sessionId w) (retryDelay cfg) 1 n)).
    rewrite waits_backoff. cbn [flat_map]. apply app_nil_r. }
  split; [| split; [exact Hp | split; [exact Hs |]]].
  - subst rt added. unfold sendMessage.
    cbn [page pending app sessionId setTyping setLoading].
    rewrite Ht. rewrite <- app_assoc. reflexivity.
  - split; [| split; [exact Hwaits | split; [| split]]].
    + subst added. unfold attempts. cbn [filter length].
      rewrite filter_app, length_app.
      fold (attempts (backoff msg (sessionId w) (retryDelay cfg) 1 n)).
      rewrite attempts_backoff. cbn. lia.
    + intros Hbound. rewrite Hwaits. apply map_ext_in.
      intros k Hk. apply in_seq in Hk. apply mul_exact.
      rewrite (Z.abs_eq (Z.of_nat k)) by lia.
      apply Z.le_trans with (Z.abs (retryDelay cfg) * maxRetries cfg)%Z;
        [| exact Hbound].
      apply Z.mul_le_mono_nonneg_l; [apply Z.abs_nonneg | lia].
    + subst added. unfold toasts. cbn [filter length].
      rewrite filter_app, length_app.
      fold (toasts (backoff msg (sessionId w) (retryDelay cfg) 1 n)).
      rewrite toasts_backoff. reflexivity.
    + intros H3. subst added n. rewrite H3. reflexivity.
Qed.

Lemma retry_linear_backoff_witness :
  let rt := run CONFIG
                (chain [TransportError; BadStatus; Body (JObj []); BadBody])
                (sendMessage (str "hi") 0 (mkRuntime blank [])) in
  trace (page rt)
  = [Fetch (str "hi") []; Delay 1000; Fetch (str "hi") []; Delay 2000;
     Fetch (str "hi") []; Delay 3000; Fetch (str "hi") []; Toast toastText]
  /\ settled (page rt) = [Fulfilled].
Proof.
  cbv zeta.
  destruct (@retry_linear_backoff CONFIG (str "hi") blank
              [TransportError; BadStatus; Body (JObj []); BadBody])
    as (Ht & _ & Hs & _).
  - unfold configured. cbn [maxRetries retryDelay CONFIG].
    split; [split; [lia | vm_compute; discriminate] |].
    split; [vm_compute; reflexivity | vm_compute; discriminate].
  - reflexivity.
  - reflexivity.
  - split; [exact Ht | exact Hs].
Defined.

(** C5, as stated, fails: the payload whose only candidate field holds
    the empty array yields no non-empty value, but the empty array is
    truthy: it is appended as the reply, the call returns, and nothing
    is retried. *)
Lemma empty_array_reply_not_retried :
  let data := JObj [(str "reply", JArr [])] in
  let rt := sendMessage (str "hi") 0 (mkRuntime blank []) in
  let rt' := run CONFIG (settle 0 (Body data)) rt in
  get data "reply" = JArr []
  /\ (forall key, In key candidates -> key <> "reply"%string ->
                  get data key = JUndef)
  /\ isArray data = JBool false
  /\ extractReply data = Some (JArr [])
  /\ chatMessages (page rt') = [(JArr [], bot)]
  /\ pending rt' = []
  /\ trace (page rt') = [Fetch (str "hi") []]
  /\ rt' <> run CONFIG (settle 0 TransportError) rt.
Proof.
  cbv zeta. split; [reflexivity |].
  split.
  { intros key Hin Hkey. cbn in Hin.
    repeat (destruct Hin as [<- | Hin];
            [try reflexivity; destruct (Hkey eq_refl) |]).
    destruct Hin. }
  split; [reflexivity |]. split; [reflexivity |].
  split; [vm_compute; reflexivity |].
  split; [vm_compute; reflexivity |].
  split; [vm_compute; reflexivity |].
  vm_compute. discriminate.
Qed.

(** C5, amended: an attempt that ends with a non-success status, and one
    whose body decodes to a payload in which [extractReply] finds no
    truthy value (such as the empty object), leave the page and the call
    exactly as a transport failure does; below the retry limit that is a
    wait of delay * (count + 1), as JavaScript computes the product,
    followed by a new request at count + 1; at the limit it is the toast
    and the end of the call. *)
Theorem failures_share_retry_path :
  forall (cfg : Config) (rt : Runtime) (k : nat) (a : activation),
    nth_error (pending rt) k = Some a ->
    suspended a = AwaitFetch ->
    let failed := run cfg (settle k TransportError) rt in
    run cfg (settle k BadStatus) rt = failed
    /\ run cfg (settle k (Body (JObj []))) rt = failed
    /\ (forall data,
          (forall reply, extractReply data = Some reply ->
                         truthy reply = false) ->
          run cfg (settle k (Body data)) rt = failed)
    /\ (configured cfg -> (0 <= retryCount a < maxRetries cfg)%Z ->
        trace (page failed)
        = trace (page rt)
            ++ [Delay (Number.mul (retryDelay cfg) (retryCount a + 1))]
        /\ nth_error (pending failed) k
           = Some (mkActivation (message a) (retryCount a) AwaitDelay)
        /\ (let again := step cfg (TimerFired k) failed in
            trace (page again)
            = trace (page failed)
                ++ [Fetch (message a) (sessionId (page rt))]
            /\ pending again
               = remove k (pending rt)
                   ++ [mkActivation (message a) (retryCount a + 1)
                                    AwaitFetch]))
    /\ ((maxRetries cfg <= retryCount a)%Z ->
        trace (page failed) = trace (page rt) ++ [Toast toastText]
        /\ pending failed = remove k (pending rt)).
Proof.
  intros cfg rt k a Hk Ha failed.
  assert (Hfailed : failed = catchBlock cfg k a rt)
    by (apply failed_attempt; auto).
  rewrite Hfailed. clear Hfailed failed.
  split; [apply failed_attempt; auto |].
  split; [apply failed_attempt; auto |].
  split.
  { intros data Hd. apply failed_attempt; auto. cbn [fails].
    destruct (extractReply data) as [reply |]; [| reflexivity].
    rewrite (Hd reply eq_refl). reflexivity. }
  unfold catchBlock. split.
  - intros _ [_ H]. apply Z.ltb_lt in H. rewrite H.
    cbn [page pending trace emit].
    split; [reflexivity |].
    split; [apply (nth_error_update _ _ _ _ Hk) |].
    cbn [step pending]. rewrite (nth_error_update _ _ _ _ Hk).
    cbn [suspended]. unfold retry, sendMessage.
    cbn [pending page message retryCount]. rewrite remove_update.
    split; reflexivity.
  - intros H. apply Z.ltb_ge in H. rewrite H. split; reflexivity.
Qed.

Lemma failures_share_retry_path_witness :
  let rt := sendMessage (str "hi") 0 (mkRuntime blank []) in
  run CONFIG (settle 0 BadStatus) rt = run CONFIG (settle 0 TransportError) rt
  /\ run CONFIG (settle 0 (Body (JObj []))) rt
     = run CONFIG (settle 0 TransportError) rt.
Proof.
  cbv zeta.
  destruct (@failures_share_retry_path CONFIG
              (sendMessage (str "hi") 0 (mkRuntime blank [])) 0
              (mkActivation (str "hi") 0 AwaitFetch) eq_refl eq_refl)
    as (H1 & H2 & _).
  split; [exact H1 | exact H2].
Defined.

(** While [isLoading] is set, [handleSubmit] does nothing. *)
Lemma handleSubmit_ignored_while_loading (rt : Runtime) :
  isLoading (page rt) = true -> handleSubmit rt = rt.
Proof.
  intros H. unfold handleSubmit. rewrite H, orb_true_r. reflexivity.
Qed.

(** C10 on a run: the user sends hi, the first attempt fails and the
    retry timer fires.  The retry is now in flight, but the [finally]
    block of the first call has already cleared [isLoading]; the user
    types again and submits, and [handleSubmit] clears the input, appends
    the message and starts a second request: two sends are outstanding
    at the same time. *)
Theorem second_send_during_retry :
  let rt := run CONFIG [Typed (str "hi"); Submit; FetchSettled 0 None;
                        TimerFired 0] (mkRuntime blank []) in
  let rt' := run CONFIG [Typed (str "again"); Submit] rt in
  pending rt = [mkActivation (str "hi") 1 AwaitFetch]
  /\ isLoading (page rt) = false
  /\ pending rt' = [mkActivation (str "hi") 1 AwaitFetch;
                    mkActivation (str "again") 0 AwaitFetch]
  /\ inputValue (page rt') = []
  /\ chatMessages (page rt')
     = [(JStr (str "hi"), user); (JStr (str "again"), user)]
  /\ trace (page rt')
     = [Fetch (str "hi") []; Delay 1000; Fetch (str "hi") [];
        Fetch (str "again") []].
Proof.
  cbv zeta. repeat split; vm_compute; reflexivity.
Qed.

(** ** Safe markup: the scanner *)

Lemma eqb_eq (a b : jsstring) : JS.eqb a b = true <-> a = b.
Proof.
  revert b. induction a as [| x a IH]; intros [| y b]; cbn; split;
    try discriminate; try reflexivity.
  - intros H. apply andb_prop in H as [Hxy Hab].
    apply N.eqb_eq in Hxy. apply IH in Hab. congruence.
  - intros H. injection H as -> ->. rewrite N.eqb_refl. cbn.
    apply IH. reflexivity.
Qed.

Lemma startsWith_app (t p : jsstring) :
  JS.startsWith t p = true <-> exists r, t = p ++ r.
Proof.
  revert t. induction p as [| y p IH]; intros t; cbn.
  - split; [intros _; exists t; reflexivity | destruct t; reflexivity].
  - destruct t as [| x t].
    + split; [discriminate | intros [r Hr]; discriminate Hr].
    + split.
      * cbn. intros H. apply andb_prop in H as [Hxy Hp].
        apply N.eqb_eq in Hxy. apply IH in Hp as [r ->].
        exists r. subst. reflexivity.
      * intros [r Hr]. injection Hr as -> ->. cbn. rewrite N.eqb_refl. cbn.
        apply IH. exists r. reflexivity.
Qed.

Lemma occurrences_complete (c : char) (t q r : jsstring) :
  t = q ++ c :: r -> In (q, r) (occurrences c t).
Proof.
  revert t. induction q as [| x q IH]; intros t ->; cbn.
  - rewrite N.eqb_refl. left. reflexivity.
  - apply in_or_app. right.
    apply (in_map (fun pr => (x :: fst pr, snd pr)) _ (q, r)).
    apply IH. reflexivity.
Qed.

Lemma partial_occurs (q : jsstring) (c : char) :
  partial (q ++ [c]) = true ->
  exists t r, In t tokens /\ t = q ++ c :: r.
Proof.
  unfold partial. intros H. apply existsb_exists in H as (t & Ht & Hp).
  apply startsWith_app in Hp as [r ->].
  exists ((q ++ [c]) ++ r), r. split; [exact Ht |].
  rewrite <- app_assoc. reflexivity.
Qed.

Lemma complete_partial (q : jsstring) :
  complete q = true -> partial q = true.
Proof.
  unfold complete, partial. intros H.
  apply existsb_exists in H as (t & Ht & Hq). apply eqb_eq in Hq as ->.
  apply existsb_exists. exists t. split; [exact Ht |].
  apply startsWith_app. exists []. symmetry. apply app_nil_r.
Qed.

Lemma complete_token (t : jsstring) : In t tokens -> complete t = true.
Proof.
  intros H. apply existsb_exists. exists t. split; [exact H |].
  apply eqb_eq. reflexivity.
Qed.

Lemma neutral_not_in_token (q r : jsstring) (c : char) (t : jsstring) :
  neutral c = true -> In t tokens -> t <> q ++ c :: r.
Proof.
  unfold neutral. intros Hn Ht ->. apply negb_true_iff in Hn.
  assert (existsb (N.eqb c) (concat tokens) = true); [| congruence].
  apply existsb_exists. exists c. split; [| apply N.eqb_refl].
  apply in_concat. exists (q ++ c :: r). split; [exact Ht |].
  apply in_or_app. right. left. reflexivity.
Qed.

Lemma neutral_not_special (c : char) : neutral c = true -> special c = false.
Proof.
  unfold special. intros Hn.
  destruct (N.eqb_spec c 60) as [-> |]; [discriminate Hn |].
  destruct (N.eqb_spec c 62) as [-> |]; [discriminate Hn |].
  destruct (N.eqb_spec c 38) as [-> |]; [discriminate Hn |].
  reflexivity.
Qed.

(** The three ways in which the scanner moves on. *)
Lemma next_cases (q : jsstring) (c : char) (q' : jsstring) :
  next q c = Some q' ->
  (q' = [] /\ complete (q ++ [c]) = true)
  \/ (q' = q ++ [c] /\ complete (q ++ [c]) = false
      /\ partial (q ++ [c]) = true)
  \/ (q = [] /\ q' = [] /\ special c = false
      /\ partial (q ++ [c]) = false).
Proof.
  unfold next.
  destruct (complete (q ++ [c])) eqn:Hc.
  - intros H. injection H as <-. left. split; reflexivity.
  - destruct (partial (q ++ [c])) eqn:Hp.
    + intros H. injection H as <-. right. left. repeat split.
    + destruct q as [| x q]; [| discriminate].
      destruct (special c) eqn:Hs; [discriminate |].
      intros H. injection H as <-. right. right. repeat split.
Qed.

Lemma next_neutral (q : jsstring) (c : char) (q' : jsstring) :
  neutral c = true -> next q c = Some q' -> q = [] /\ q' = [].
Proof.
  intros Hn H.
  destruct (next_cases _ _ _ H) as [[_ Hc] | [(_ & _ & Hp) | (-> & -> & _)]].
  - apply complete_partial, partial_occurs in Hc as (t & r & Ht & Heq).
    destruct (neutral_not_in_token _ _ _ _ Hn Ht Heq).
  - apply partial_occurs in Hp as (t & r & Ht & Heq).
    destruct (neutral_not_in_token _ _ _ _ Hn Ht Heq).
  - split; reflexivity.
Qed.

Lemma next_neutral_nil (c : char) : neutral c = true -> next [] c = Some [].
Proof.
  intros Hn. unfold next.
  destruct (complete ([] ++ [c])) eqn:Hc; [reflexivity |].
  destruct (partial ([] ++ [c])) eqn:Hp.
  - apply partial_occurs in Hp as (t & r & Ht & Heq).
    destruct (neutral_not_in_token [] _ _ _ Hn Ht Heq).
  - rewrite (neutral_not_special c Hn). reflexivity.
Qed.

(** In the tokens, < and & stand at the front only, and > at the end
    only. *)
Lemma token_fronts :
  forallb (fun t =>
    forallb (fun pr => match fst pr with [] => true | _ => false end)
            (occurrences 60%N t ++ occurrences 38%N t)) tokens = true.
Proof. vm_compute. reflexivity. Qed.

Lemma token_ends :
  forallb (fun t =>
    forallb (fun pr => match snd pr with [] => true | _ => false end)
            (occurrences 62%N t)) tokens = true.
Proof. vm_compute. reflexivity. Qed.

Lemma token_front (c : char) (t q r : jsstring) :
  c = 60%N \/ c = 38%N -> In t tokens -> t = q ++ c :: r -> q = [].
Proof.
  intros Hc Ht Heq. apply occurrences_complete in Heq.
  pose proof token_fronts as H. rewrite forallb_forall in H.
  specialize (H t Ht). rewrite forallb_forall in H.
  specialize (H (q, r)). cbn [fst] in H.
  destruct q; [reflexivity |]. discriminate H.
  apply in_or_app. destruct Hc as [-> | ->]; [left | right]; exact Heq.
Qed.

Lemma token_end (t q r : jsstring) :
  In t tokens -> t = q ++ 62%N :: r -> r = [].
Proof.
  intros Ht Heq. apply occurrences_complete in Heq.
  pose proof token_ends as H. rewrite forallb_forall in H.
  specialize (H t Ht). rewrite forallb_forall in H.
  specialize (H (q, r) Heq). cbn [snd] in H.
  destruct r; [reflexivity | discriminate H].
Qed.

Lemma next_opening (q : jsstring) (c : char) (q' : jsstring) :
  opening c = true -> next q c = Some q' -> q = [].
Proof.
  unfold opening. intros Ho H.
  apply orb_prop in Ho as [Ho | Hn];
    [| apply (next_neutral _ _ _ Hn H)].
  assert (Hc : c = 60%N \/ c = 38%N).
  { apply orb_prop in Ho as [Ho | Ho]; apply N.eqb_eq in Ho; auto. }
  destruct (next_cases _ _ _ H) as [[_ Hk] | [(_ & _ & Hp) | (-> & _)]].
  - apply complete_partial, partial_occurs in Hk as (t & r & Ht & Heq).
    apply (token_front _ _ _ _ Hc Ht Heq).
  - apply partial_occurs in Hp as (t & r & Ht & Heq).
    apply (token_front _ _ _ _ Hc Ht Heq).
  - reflexivity.
Qed.

Lemma next_closing (q : jsstring) (c : char) (q' : jsstring) :
  closing c = true -> next q c = Some q' -> q' = [].
Proof.
  unfold closing. intros Hcl H.
  apply orb_prop in Hcl as [Hc | Hn];
    [| apply (next_neutral _ _ _ Hn H)].
  apply N.eqb_eq in Hc. subst c.
  destruct (next_cases _ _ _ H) as [[-> _] | [(_ & Hk & Hp) | (_ & -> & _)]];
    try reflexivity.
  apply partial_occurs in Hp as (t & r & Ht & Heq).
  pose proof (token_end _ _ _ Ht Heq) as ->.
  rewrite <- Heq in Hk. rewrite (complete_token _ Ht) in Hk. discriminate.
Qed.

Lemma scan_app (q : jsstring) (a b : jsstring) :
  scan q (a ++ b)
  = match scan q a with Some q' => scan q' b | None => None end.
Proof.
  revert q. induction a as [| c a IH]; intros q; cbn; [reflexivity |].
  destruct (next q c); [apply IH | reflexivity].
Qed.

Lemma scan_snoc (q : jsstring) (a : jsstring) (c : char) (q' : jsstring) :
  scan q (a ++ [c]) = Some q' ->
  exists q0, scan q a = Some q0 /\ next q0 c = Some q'.
Proof.
  rewrite scan_app. destruct (scan q a) as [q0 |]; [| discriminate].
  cbn. destruct (next q0 c) as [q1 |] eqn:Hn; [| discriminate].
  intros H. injection H as <-. exists q0. split; [reflexivity | exact Hn].
Qed.

(** Safe markup cut at a seam gives two pieces of safe markup. *)
Lemma scan_seam (a b : jsstring) :
  scan [] (a ++ b) = Some [] -> seam a b ->
  scan [] a = Some [] /\ scan [] b = Some [].
Proof.
  rewrite scan_app. destruct (scan [] a) as [q |] eqn:Ha; [| discriminate].
  intros Hb Hseam.
  assert (q = []); [| subst q; split; [reflexivity | exact Hb]].
  destruct Hseam as [-> | [-> | [(a' & c & -> & Hc) | (c & b' & -> & Hc)]]].
  - cbn in Ha. congruence.
  - cbn in Hb. congruence.
  - apply scan_snoc in Ha as (q0 & _ & Hn). apply (next_closing _ _ _ Hc Hn).
  - cbn in Hb. destruct (next q c) as [q1 |] eqn:Hn; [| discriminate].
    apply (next_opening _ _ _ Hc Hn).
Qed.

Lemma scan_join (a b : jsstring) :
  scan [] a = Some [] -> scan [] b = Some [] -> scan [] (a ++ b) = Some [].
Proof.
  intros Ha Hb. rewrite scan_app, Ha. exact Hb.
Qed.

(** ** The matcher finds matches *)

Lemma repeatMatcher_sound (a : re) (ma : mstate -> cont -> option mstate) :
  (forall x c z, ma x c = Some z -> exists y, Matches a x y /\ c y = Some z) ->
  forall fuel min max greedy x c z,
    repeatMatcher ma (groups a) fuel min max greedy x c = Some z ->
    exists y, Matches (Rep min max greedy a) x y /\ c y = Some z.
Proof.
  intros Ha. induction fuel as [| fuel IH]; intros min max greedy x c z H;
    [discriminate |].
  assert (Hstop : min = 0 \/ max = Some 0 -> c x = Some z ->
                  exists y, Matches (Rep min max greedy a) x y /\ c y = Some z).
  { intros Hm Hc. exists x. split; [apply M_Stop, Hm | exact Hc]. }
  assert (Hstep :
            forall d : cont,
              (forall y, d y = Some z ->
                         repeatMatcher ma (groups a) fuel (Nat.pred min)
                                       (decr max) greedy y c = Some z) ->
              ma (clearCaps (groups a) x) d = Some z ->
              exists y, Matches (Rep min max greedy a) x y /\ c y = Some z).
  { intros d Hd Hz. apply Ha in Hz as (y1 & Hy1 & Hz).
    apply Hd, IH in Hz as (y & Hy & Hc).
    exists y. split; [| exact Hc]. eapply M_Step; eassumption. }
  cbn [repeatMatcher] in H.
  assert (Hskip :
            forall y,
              (if Nat.eqb min 0 && Nat.eqb (pos y) (pos x) then None
               else repeatMatcher ma (groups a) fuel (Nat.pred min)
                                  (decr max) greedy y c) = Some z ->
              repeatMatcher ma (groups a) fuel (Nat.pred min)
                            (decr max) greedy y c = Some z).
  { intros y. destruct (Nat.eqb min 0 && Nat.eqb (pos y) (pos x));
      [discriminate | trivial]. }
  destruct max as [[| k] |];
    [ apply Hstop; [right; reflexivity | exact H] | | ];
    (destruct (negb (Nat.eqb min 0)) eqn:Hmin;
     [ eapply Hstep; [exact Hskip | exact H]
     | apply negb_false_iff, Nat.eqb_eq in Hmin;
       destruct greedy;
       [ match type of H with
         | match ?e with _ => _ end = _ =>
             destruct e as [z' |] eqn:Hz;
             [ injection H as <-; eapply Hstep; [exact Hskip | exact Hz]
             | apply Hstop; [left; exact Hmin | exact H] ]
         end
       | match type of H with
         | match ?e with _ => _ end = _ =>
             destruct e as [z' |] eqn:Hz;
             [ injection H as <-; apply Hstop; [left; exact Hmin | reflexivity]
             | eapply Hstep; [exact Hskip | exact H] ]
         end ] ]).
Qed.

(** Whatever the matcher returns went through a match of the pattern
    and then through the continuation. *)
Lemma m_sound (r : re) :
  forall x c z, m r x c = Some z -> exists y, Matches r x y /\ c y = Some z.
Proof.
  induction r as [| ch | f | a IHa b IHb | min max greedy a IHa | i a IHa | |];
    intros x c z H; cbn [m] in H.
  - exists x. split; [constructor | exact H].
  - destruct (rest x) as [| a t] eqn:Hr; [discriminate |].
    destruct (N.eqb_spec a ch) as [-> |]; [| discriminate].
    exists (advance x t). split; [constructor; exact Hr | exact H].
  - destruct (rest x) as [| a t] eqn:Hr; [discriminate |].
    destruct (f a) eqn:Hf; [| discriminate].
    exists (advance x t). split; [econstructor; eassumption | exact H].
  - apply IHa in H as (y & Hy & H). apply IHb in H as (y' & Hy' & H).
    exists y'. split; [econstructor; eassumption | exact H].
  - eapply repeatMatcher_sound; eassumption.
  - apply IHa in H as (y & Hy & H).
    eexists. split; [constructor; exact Hy | exact H].
  - destruct (Nat.eqb_spec (pos x) 0); [| discriminate].
    exists x. split; [constructor; assumption | exact H].
  - destruct (rest x) eqn:Hr; [| discriminate].
    exists x. split; [constructor; assumption | exact H].
Qed.

Lemma clearCaps_pos_rest (gs : list nat) (x : mstate) :
  pos (clearCaps gs x) = pos x /\ rest (clearCaps gs x) = rest x.
Proof.
  induction gs as [| i gs IH]; cbn; [split; reflexivity | exact IH].
Qed.

Lemma clearCaps_frame (gs : list nat) (x : mstate) (j : nat) :
  ~ In j gs -> caps (clearCaps gs x) j = caps x j.
Proof.
  induction gs as [| i gs IH]; intros Hj; cbn; [reflexivity |].
  destruct (Nat.eqb_spec j i) as [-> |].
  - destruct Hj. left. reflexivity.
  - apply IH. intros Hin. apply Hj. right. exact Hin.
Qed.

(** A match consumes a prefix of the input. *)
Lemma Matches_consumed (r : re) (x y : mstate) :
  Matches r x y ->
  exists w, rest x = w ++ rest y /\ pos y = pos x + length w.
Proof.
  induction 1 as [x | ch x t Hr | f a x t Hr Hf | a b x y z _ IH1 _ IH2
                 | i a x y _ IH | x _ | x _ | min max greedy a x _
                 | min max greedy a x y z _ IH1 _ IH2].
  - exists []. cbn. split; [reflexivity | lia].
  - exists [ch]. cbn. split; [exact Hr | lia].
  - exists [a]. cbn. split; [exact Hr | lia].
  - destruct IH1 as (w1 & Hr1 & Hp1). destruct IH2 as (w2 & Hr2 & Hp2).
    exists (w1 ++ w2). rewrite <- app_assoc, <- Hr2, length_app.
    split; [exact Hr1 | lia].
  - exact IH.
  - exists []. cbn. split; [reflexivity | lia].
  - exists []. cbn. split; [reflexivity | lia].
  - exists []. cbn. split; [reflexivity | lia].
  - destruct IH1 as (w1 & Hr1 & Hp1). destruct IH2 as (w2 & Hr2 & Hp2).
    destruct (clearCaps_pos_rest (groups a) x) as [Hcp Hcr].
    rewrite Hcp in Hp1. rewrite Hcr in Hr1.
    exists (w1 ++ w2). rewrite <- app_assoc, <- Hr2, length_app.
    split; [exact Hr1 | lia].
Qed.

(** A match leaves the captures of other groups alone. *)
Lemma Matches_frame (r : re) (x y : mstate) :
  Matches r x y ->
  forall j, ~ In j (groups r) -> caps y j = caps x j.
Proof.
  induction 1 as [x | ch x t Hr | f a x t Hr Hf | a b x y z _ IH1 _ IH2
                 | i a x y _ IH | x _ | x _ | min max greedy a x _
                 | min max greedy a x y z _ IH1 _ IH2];
    intros j Hj; cbn [groups] in Hj; try reflexivity.
  - rewrite IH2, IH1; [reflexivity | |]; intros Hin; apply Hj, in_or_app; auto.
  - cbn [setCap caps]. destruct (Nat.eqb_spec j i) as [-> |].
    + destruct Hj. left. reflexivity.
    + apply IH. intros Hin. apply Hj. right. exact Hin.
  - rewrite (IH2 j Hj), (IH1 j Hj). apply clearCaps_frame, Hj.
Qed.

Lemma firstn_exact (w r : jsstring) (n : nat) :
  n = length w -> firstn n (w ++ r) = w.
Proof.
  intros ->. rewrite firstn_app, Nat.sub_diag, firstn_all. cbn.
  apply app_nil_r.
Qed.

(** The shape of the matches of a literal word, of a sequence and of a
    group. *)
Lemma Matches_lits (w : jsstring) (x y : mstate) :
  Matches (lits w) x y ->
  rest x = w ++ rest y /\ pos y = pos x + length w /\ caps y = caps x.
Proof.
  revert x. induction w as [| c w IH]; intros x H.
  - inversion H; subst. cbn. repeat split. lia.
  - destruct w as [| c' w].
    + inversion H; subst. cbn. repeat split; [assumption | lia].
    + change (lits (c :: c' :: w)) with (Cat (Lit c) (lits (c' :: w))) in H.
      inversion H as [| | | a b x' y1 z' H1 H2 | | | | |]; subst.
      inversion H1; subst. apply IH in H2 as (Hr & Hp & Hc).
      cbn [advance rest pos caps length] in *.
      repeat split; [| lia | exact Hc].
      rewrite <- app_comm_cons, <- Hr. assumption.
Qed.

Lemma Matches_Cat (a b : re) (x z : mstate) :
  Matches (Cat a b) x z -> exists y, Matches a x y /\ Matches b y z.
Proof.
  intros H. inversion H; subst. eexists. split; eassumption.
Qed.

Lemma Matches_Grp (i : nat) (a : re) (x z : mstate) :
  Matches (Grp i a) x z ->
  exists y w, Matches a x y /\ rest x = w ++ rest y
              /\ pos y = pos x + length w /\ z = setCap i w y.
Proof.
  intros H. inversion H as [| | | | i' a' x' y Ha | | | |]; subst.
  destruct (Matches_consumed _ _ _ Ha) as (w & Hr & Hp).
  exists y, w. repeat split; try assumption.
  f_equal. rewrite Hr. apply firstn_exact. lia.
Qed.

(** A repetition that asks for one round at least runs rounds. *)
Lemma Matches_Rep_rounds (r : re) (x z : mstate) :
  Matches r x z ->
  forall min max greedy a,
    r = Rep min max greedy a ->
    ((min = 0 \/ max = Some 0) /\ z = x) \/ Rounds a x z.
Proof.
  induction 1 as [x | ch x t Hr | f a x t Hr Hf | a b x y z _ IH1 _ IH2
                 | i a x y _ IH | x _ | x _ | min max greedy a x Hm
                 | min max greedy a x y z H1 _ _ IH2];
    intros min' max' greedy' a' Heq; try discriminate Heq.
  - injection Heq as -> -> -> ->. left. split; [exact Hm | reflexivity].
  - injection Heq as -> -> -> ->. right.
    destruct (IH2 _ _ _ _ eq_refl) as [[_ ->] | Hrounds].
    + apply Rounds_last. exact H1.
    + eapply Rounds_more; eassumption.
Qed.

Lemma Matches_plus (a : re) (x z : mstate) :
  Matches (plus a) x z -> Rounds a x z.
Proof.
  intros H.
  destruct (Matches_Rep_rounds _ _ _ H _ _ _ _ eq_refl) as [[[Hm | Hm] _] | Hr];
    [discriminate Hm | discriminate Hm | exact Hr].
Qed.

(** Where [search] finds its match. *)
Lemma search_found (r : re) (w0 : jsstring) :
  forall last i y,
    search r last w0 = Some (i, y) ->
    exists u w, w0 = u ++ w /\ i = last + length u /\ exec r i w = Some y.
Proof.
  induction w0 as [| ch w0 IH]; intros last i y H; cbn [search] in H.
  - destruct (exec r last []) as [y' |] eqn:He; [| discriminate].
    injection H as <- <-. exists [], []. cbn. repeat split; [lia | exact He].
  - destruct (exec r last (ch :: w0)) as [y' |] eqn:He.
    + injection H as <- <-. exists [], (ch :: w0). cbn.
      repeat split; [lia | exact He].
    + apply IH in H as (u & w & -> & -> & Hx).
      exists (ch :: u), w. cbn. repeat split; [lia | exact Hx].
Qed.

(** ** Replacing in safe markup *)

Lemma scan_from (done w : jsstring) (q : jsstring) :
  safe (done ++ w) -> scan [] done = Some q -> scan q w = Some [].
Proof.
  unfold safe. rewrite scan_app. intros H Hd. rewrite Hd in H. exact H.
Qed.

Lemma skipn_exact (u w : jsstring) (n : nat) :
  n = length u -> skipn n (u ++ w) = w.
Proof.
  intros ->. rewrite skipn_app, Nat.sub_diag, skipn_all. reflexivity.
Qed.

Lemma replaceLoop_safe (r : re) (template : jsstring) :
  GoodMatch r template ->
  forall fuel s done w0 q last,
    s = done ++ w0 -> last = length done ->
    safe s -> scan [] done = Some q ->
    scan q (replaceLoop fuel r template s last w0) = Some [].
Proof.
  intros Hgood.
  induction fuel as [| fuel IH]; intros s done w0 q last Hs Hlast Hsafe Hq;
    subst s last.
  - cbn. apply (scan_from done); assumption.
  - cbn [replaceLoop].
    destruct (search r (length done) w0) as [[i y] |] eqn:Hsearch;
      [| apply (scan_from done); assumption].
    apply search_found in Hsearch as (u & w & -> & -> & Hexec).
    destruct (Hgood (done ++ u) w y) as
        (mt & Hw & Hpos & Hpre & Hmt & Hrest & Hsub).
    { rewrite length_app. exact Hexec. }
    { rewrite <- app_assoc. exact Hsafe. }
    rewrite length_app in Hpos.
    replace (length done + length u - length done) with (length u) by lia.
    replace (pos y - (length done + length u)) with (length mt) by lia.
    rewrite (firstn_exact u w (length u) eq_refl).
    rewrite (skipn_exact u w (length u) eq_refl).
    rewrite Hw at 1. rewrite (firstn_exact mt (rest y) (length mt) eq_refl).
    replace (firstn (length done + length u) (done ++ u ++ w))
      with (done ++ u)
      by (rewrite app_assoc; symmetry; apply firstn_exact;
          rewrite length_app; reflexivity).
    rewrite scan_app.
    rewrite (scan_from done u q Hpre Hq).
    rewrite scan_app. unfold safe in Hsub. rewrite Hsub.
    destruct (Nat.eqb_spec (pos y) (length done + length u)) as [He | He].
    + assert (mt = []) by (destruct mt; [reflexivity | cbn in Hpos; lia]).
      subst mt. cbn [app] in Hw.
      destruct (rest y) as [| ch t] eqn:Hry; [reflexivity |].
      unfold safe in Hrest. cbn [scan] in Hrest |- *.
      destruct (next [] ch) as [q1 |] eqn:Hn; [| discriminate].
      apply (IH _ ((done ++ u) ++ [ch]) t q1).
      * rewrite Hw, <- !app_assoc. reflexivity.
      * rewrite !length_app. cbn. lia.
      * exact Hsafe.
      * rewrite scan_app. unfold safe in Hpre. rewrite Hpre. cbn.
        rewrite Hn. reflexivity.
    + apply (IH _ ((done ++ u) ++ mt) (rest y) []).
      * rewrite Hw, <- !app_assoc. reflexivity.
      * rewrite !length_app. lia.
      * exact Hsafe.
      * apply scan_join; assumption.
Qed.

(** Replacing good matches in safe markup gives safe markup. *)
Lemma replace_safe (r : re) (template s : jsstring) :
  GoodMatch r template -> safe s -> safe (replace r template s).
Proof.
  intros Hgood Hsafe. unfold replace, safe.
  apply (replaceLoop_safe r template Hgood _ s [] s [] 0); auto.
Qed.

(** ** Safe pieces *)

Lemma safe_app (a b : jsstring) : safe a -> safe b -> safe (a ++ b).
Proof. apply scan_join. Qed.

Lemma safe_cut (a b : jsstring) :
  safe (a ++ b) -> seam a b -> safe a /\ safe b.
Proof. apply scan_seam. Qed.

Lemma safe_cut_open (a : jsstring) (c : char) (b : jsstring) :
  opening c = true -> safe (a ++ c :: b) -> safe a /\ safe (c :: b).
Proof.
  intros Hc H. apply (safe_cut _ _ H).
  right. right. right. exists c, b. split; [reflexivity | exact Hc].
Qed.

Lemma safe_cut_close (a : jsstring) (c : char) (b : jsstring) :
  closing c = true -> safe ((a ++ [c]) ++ b) -> safe (a ++ [c]) /\ safe b.
Proof.
  intros Hc H. apply (safe_cut _ _ H).
  right. right. left. exists a, c. split; [reflexivity | exact Hc].
Qed.

Lemma neutral_opening (c : char) : neutral c = true -> opening c = true.
Proof. unfold opening. intros ->. apply orb_true_r. Qed.

Lemma neutral_closing (c : char) : neutral c = true -> closing c = true.
Proof. unfold closing. intros ->. apply orb_true_r. Qed.

Lemma safe_neutral_cons (c : char) (s : jsstring) :
  neutral c = true -> (safe (c :: s) <-> safe s).
Proof.
  intros Hn. unfold safe. cbn [scan]. rewrite (next_neutral_nil c Hn).
  reflexivity.
Qed.

Lemma safe_neutral_run (ws s : jsstring) :
  Forall (fun c => neutral c = true) ws -> (safe (ws ++ s) <-> safe s).
Proof.
  induction 1 as [| c ws Hc _ IH]; cbn [app]; [reflexivity |].
  rewrite (safe_neutral_cons c (ws ++ s) Hc). exact IH.
Qed.

Lemma safe_neutral_word (ws : jsstring) :
  Forall (fun c => neutral c = true) ws -> safe ws.
Proof.
  intros H. rewrite <- (app_nil_r ws). apply (safe_neutral_run ws [] H).
  reflexivity.
Qed.

(** Code units above the ASCII range, white space and the bullet class
    occur in no token. *)
Lemma neutral_big (c : char) : (127 < c)%N -> neutral c = true.
Proof.
  intros Hc. unfold neutral. apply negb_true_iff.
  destruct (existsb (N.eqb c) (concat tokens)) eqn:He; [| reflexivity].
  apply existsb_exists in He as (x & Hin & Hx). apply N.eqb_eq in Hx.
  subst x.
  assert (Hsmall : forallb (fun x => (x <=? 127)%N) (concat tokens) = true)
    by (vm_compute; reflexivity).
  rewrite forallb_forall in Hsmall. apply Hsmall, N.leb_le in Hin. lia.
Qed.

Lemma neutral_space (c : char) : JS.isSpace c = true -> neutral c = true.
Proof.
  intros H. destruct (N.ltb_spec 127 c) as [Hbig | Hsmall];
    [apply neutral_big, Hbig |].
  unfold JS.isSpace, JS.isWhiteSpace, JS.isLineTerminator in H.
  repeat match goal with
         | H : (_ || _)%bool = true |- _ => apply orb_prop in H as [H | H]
         | H : (_ && _)%bool = true |- _ => apply andb_prop in H as [H ?]
         | H : (_ =? _)%N = true |- _ => apply N.eqb_eq in H; subst c
         | H : (_ <=? _)%N = true |- _ => apply N.leb_le in H
         end;
    try reflexivity; lia.
Qed.

Lemma neutral_bullet (c : char) : bulletClass c = true -> neutral c = true.
Proof.
  unfold bulletClass. intros H.
  repeat match goal with
         | H : (_ || _)%bool = true |- _ => apply orb_prop in H as [H | H]
         | H : (_ =? _)%N = true |- _ => apply N.eqb_eq in H; subst c
         end; reflexivity.
Qed.

(** A code unit other than <, > and & is safe on its own. *)
Lemma next_plain (c : char) : special c = false -> next [] c = Some [].
Proof.
  intros Hs. unfold next.
  destruct (complete ([] ++ [c])); [reflexivity |].
  destruct (partial ([] ++ [c])) eqn:Hp; [| rewrite Hs; reflexivity].
  apply partial_occurs in Hp as (t & r & Ht & ->).
  assert (Hheads :
            forallb (fun t => match t with
                              | x :: _ => special x
                              | [] => true
                              end) tokens = true)
    by (vm_compute; reflexivity).
  rewrite forallb_forall in Hheads. apply Hheads in Ht. cbn in Ht. congruence.
Qed.

Lemma serializeText_safe (text : jsstring) : safe (serializeText text).
Proof.
  induction text as [| c t IH]; [reflexivity |].
  cbn [serializeText]. apply safe_app; [| exact IH].
  destruct (N.eqb_spec c 38); [reflexivity |].
  destruct (N.eqb_spec c 160); [reflexivity |].
  destruct (N.eqb_spec c 60); [reflexivity |].
  destruct (N.eqb_spec c 62); [reflexivity |].
  unfold safe. cbn [scan]. rewrite next_plain; [reflexivity |].
  unfold special.
  repeat match goal with
         | |- context [(c =? ?k)%N] =>
             destruct (N.eqb_spec c k); [congruence |]
         end.
  reflexivity.
Qed.

(** Splitting and joining. *)
Lemma cut_spec (sep : jsstring) :
  forall s before after,
    JS.cut sep s = Some (before, after) -> s = before ++ sep ++ after.
Proof.
  induction s as [| c s IH]; intros before after H; cbn [JS.cut] in H.
  - destruct (JS.startsWith [] sep) eqn:Hp; [| discriminate].
    injection H as <- <-. apply startsWith_app in Hp as [r Hr].
    symmetry in Hr. apply app_eq_nil in Hr as [-> _]. reflexivity.
  - destruct (JS.startsWith (c :: s) sep) eqn:Hp.
    + injection H as <- <-. apply startsWith_app in Hp as [r Hr].
      rewrite Hr. rewrite (skipn_exact sep r _ eq_refl). reflexivity.
    + destruct (JS.cut sep s) as [[b a] |]; [| discriminate].
      injection H as <- <-. cbn. f_equal. apply IH. reflexivity.
Qed.

Lemma split_safe (sep : jsstring) :
  bounded sep ->
  forall s, safe s -> Forall safe (JS.split s sep).
Proof.
  intros [(c & sep' & Hc & Hopen) (sep'' & c' & Hc' & Hclose)].
  unfold JS.split. intros s. generalize (length s).
  intros fuel. revert s.
  induction fuel as [| fuel IH]; intros s Hs; cbn [JS.splitFuel].
  - constructor; [exact Hs | constructor].
  - destruct (JS.cut sep s) as [[before after] |] eqn:Hcut;
      [| constructor; [exact Hs | constructor]].
    apply cut_spec in Hcut. subst s.
    assert (H1 : safe before /\ safe (sep ++ after)).
    { rewrite Hc in Hs |- *. apply safe_cut_open; assumption. }
    destruct H1 as [Hb Hrest].
    assert (H2 : safe sep /\ safe after).
    { rewrite Hc' in Hrest |- *. apply safe_cut_close; assumption. }
    constructor; [exact Hb | apply IH, H2].
Qed.

Lemma join_safe (sep : jsstring) (parts : list jsstring) :
  safe sep -> Forall safe parts -> safe (JS.join sep parts).
Proof.
  intros Hsep. induction 1 as [| p parts Hp _ IH]; [reflexivity |].
  cbn [JS.join]. destruct parts as [| p' parts]; [exact Hp |].
  apply safe_app; [exact Hp | apply safe_app; [exact Hsep | exact IH]].
Qed.

Lemma bounded_neutral (c : char) : neutral c = true -> bounded [c].
Proof.
  intros Hn. split.
  - exists c, []. split; [reflexivity | apply neutral_opening, Hn].
  - exists [], c. split; [reflexivity | apply neutral_closing, Hn].
Qed.

Lemma bounded_app (a b : jsstring) : bounded a -> bounded b -> bounded (a ++ b).
Proof.
  intros [(c & a' & -> & Hc) _] [_ (b' & c' & -> & Hc')]. split.
  - exists c, (a' ++ b' ++ [c']). split; [reflexivity | exact Hc].
  - exists ((c :: a') ++ b'), c'. split; [| exact Hc'].
    rewrite <- app_assoc. reflexivity.
Qed.

(** A bounded word inside safe markup can be cut out. *)
Lemma safe_cut_bounded (pre mt rst : jsstring) :
  bounded mt -> safe (pre ++ mt ++ rst) ->
  safe pre /\ safe mt /\ safe rst.
Proof.
  intros [(c & m' & Hm & Hc) (m'' & c' & Hm' & Hc')] H.
  assert (H1 : safe pre /\ safe (mt ++ rst)).
  { rewrite Hm in H |- *. apply safe_cut_open; assumption. }
  destruct H1 as [Hpre Hrest]. split; [exact Hpre |].
  rewrite Hm' in Hrest |- *. apply safe_cut_close; assumption.
Qed.

(** ** The matches of the patterns of the formatter *)

Lemma exec_Matches (r : re) (i : nat) (w : jsstring) (y : mstate) :
  exec r i w = Some y -> Matches r (MState i w (fun _ => None)) y.
Proof.
  unfold exec. intros H. apply m_sound in H as (y' & Hy & Heq).
  injection Heq as <-. exact Hy.
Qed.

Lemma good_newline : GoodMatch reNewline (str "<br>").
Proof.
  intros pre w y He Hs. apply exec_Matches in He. unfold reNewline in He.
  inversion He as [| ch x t Hr | | | | | | |]; subst. cbn in Hr. subst w.
  destruct (safe_cut_bounded pre [LF] t (bounded_neutral LF eq_refl) Hs)
    as (Hpre & Hmt & Hrest).
  exists [LF]. cbn [advance rest pos caps length].
  repeat split; try assumption; try reflexivity. lia.
Qed.

Lemma good_bold : GoodMatch reBold (str "<strong>$1</strong>").
Proof.
  intros pre w y He Hs. apply exec_Matches in He. unfold reBold in He.
  apply Matches_Cat in He as (y1 & H1 & He).
  apply Matches_Cat in He as (y2 & H2 & H3).
  apply Matches_lits in H1 as (Hr1 & Hp1 & Hc1).
  apply Matches_Grp in H2 as (y1' & g & _ & Hr2 & Hp2 & ->).
  apply Matches_lits in H3 as (Hr3 & Hp3 & Hc3).
  cbn [rest pos caps setCap length] in *.
  rewrite Hr2, Hr3 in Hr1. subst w.
  assert (Hb : bounded (str "**" ++ g ++ str "**")).
  { split.
    - exists 42%N, (42%N :: g ++ str "**"). split; reflexivity.
    - exists (str "**" ++ g ++ [42%N]), 42%N. split; [| reflexivity].
      rewrite <- !app_assoc. reflexivity. }
  destruct (safe_cut_bounded pre (str "**" ++ g ++ str "**") (rest y) Hb)
    as (Hpre & Hmt & Hrest).
  { rewrite <- !app_assoc. exact Hs. }
  assert (Hg : safe g).
  { change (str "**" ++ g ++ str "**")
      with (42%N :: 42%N :: g ++ 42%N :: [42%N]) in Hmt.
    apply (proj1 (safe_neutral_cons 42%N _ eq_refl)) in Hmt.
    apply (proj1 (safe_neutral_cons 42%N _ eq_refl)) in Hmt.
    apply (safe_cut_open g 42%N [42%N] eq_refl Hmt). }
  exists (str "**" ++ g ++ str "**").
  repeat split; try assumption.
  - rewrite <- !app_assoc. reflexivity.
  - rewrite !length_app. change (length (str "**")) with 2 in *. lia.
  - change (safe (str "<strong>" ++ capture (caps y) 1 ++ str "</strong>")).
    unfold capture. rewrite Hc3. cbn.
    change (safe (str "<strong>" ++ g ++ str "</strong>")).
    apply safe_app; [reflexivity | apply safe_app; [exact Hg | reflexivity]].
Qed.

Lemma Matches_Class (f : char -> bool) (x y : mstate) :
  Matches (Class f) x y ->
  exists a, rest x = a :: rest y /\ f a = true
            /\ pos y = S (pos x) /\ caps y = caps x.
Proof.
  intros H. inversion H; subst. eexists. repeat split; eassumption.
Qed.

Lemma Matches_Lit (ch : char) (x y : mstate) :
  Matches (Lit ch) x y ->
  rest x = ch :: rest y /\ pos y = S (pos x) /\ caps y = caps x.
Proof.
  intros H. inversion H; subst. repeat split; assumption.
Qed.

(** A repeated class consumes a run of the class. *)
Lemma Matches_class_run (r : re) (x y : mstate) :
  Matches r x y ->
  forall min max greedy f,
    r = Rep min max greedy (Class f) ->
    exists ws, rest x = ws ++ rest y
               /\ Forall (fun c => f c = true) ws
               /\ pos y = pos x + length ws /\ caps y = caps x.
Proof.
  induction 1 as [x | ch x t Hr | f a x t Hr Hf | a b x y z _ IH1 _ IH2
                 | i a x y _ IH | x _ | x _ | min max greedy a x Hm
                 | min max greedy a x y z H1 _ _ IH2];
    intros min' max' greedy' f' Heq; try discriminate Heq.
  - exists []. split; [reflexivity |]. split; [constructor |].
    split; [cbn; lia | reflexivity].
  - injection Heq as -> -> -> ->.
    destruct (IH2 _ _ _ _ eq_refl) as (ws & Hr & Hall & Hp & Hc).
    apply Matches_Class in H1 as (c & Hr1 & Hf & Hp1 & Hc1).
    cbn in Hr1, Hp1, Hc1.
    exists (c :: ws). cbn [app length]. rewrite <- Hr.
    split; [exact Hr1 |]. split; [constructor; assumption |].
    split; [lia | congruence].
Qed.

(** Rounds of bounded words make a bounded word; the last round is
    described by [phi]. *)
Lemma Rounds_shape (a : re) (phi : jsstring -> mstate -> Prop) :
  (forall x y, Matches a x y ->
               exists w, rest x = w ++ rest y /\ pos y = pos x + length w
                         /\ bounded w /\ phi w y) ->
  forall x z,
    Rounds a x z ->
    exists W w, rest x = W ++ w ++ rest z
                /\ pos z = pos x + length (W ++ w)
                /\ (W = [] \/ bounded W) /\ bounded w /\ phi w z.
Proof.
  intros Ha. induction 1 as [x y H | x y z H _ IH].
  - apply Ha in H as (w & Hr & Hp & Hb & Hphi).
    destruct (clearCaps_pos_rest (groups a) x) as [Hcp Hcr].
    rewrite Hcp in Hp. rewrite Hcr in Hr.
    exists [], w. cbn [app].
    split; [exact Hr |]. split; [exact Hp |]. split; [left; reflexivity |].
    split; assumption.
  - apply Ha in H as (w1 & Hr & Hp & Hb & _).
    destruct (clearCaps_pos_rest (groups a) x) as [Hcp Hcr].
    rewrite Hcp in Hp. rewrite Hcr in Hr.
    destruct IH as (W & w & Hr' & Hp' & HW & Hw & Hphi).
    exists (w1 ++ W), w. rewrite Hr, Hr', <- !app_assoc.
    split; [reflexivity |].
    split; [rewrite !length_app in *; lia |].
    split; [| split; assumption].
    right. destruct HW as [-> | HW];
      [rewrite app_nil_r; exact Hb | apply bounded_app; assumption].
Qed.

Lemma bounded_total (W w : jsstring) :
  W = [] \/ bounded W -> bounded w -> bounded (W ++ w).
Proof.
  intros [-> | HW] Hw; [exact Hw | apply bounded_app; assumption].
Qed.

(** A word between two tags is bounded. *)
Lemma bounded_tagged (open close : jsstring) (body : jsstring) :
  bounded open -> bounded close -> bounded (open ++ body ++ close).
Proof.
  intros [(c & o' & -> & Hc) _] [_ (c' & e & -> & He)]. split.
  - exists c, (o' ++ body ++ c' ++ [e]). split; [reflexivity | exact Hc].
  - exists ((c :: o') ++ body ++ c'), e. split; [| exact He].
    rewrite <- !app_assoc. reflexivity.
Qed.

Lemma bounded_tag (t : jsstring) : In t tags -> bounded t.
Proof.
  intros H.
  assert (Hall : Forall bounded tags).
  { repeat constructor;
      match goal with
      | |- exists c w', ?t = c :: w' /\ _ => eexists _, _; split; reflexivity
      | |- exists w' c, ?t = w' ++ [c] /\ _ =>
          exists (removelast t), (last t 0%N); split; reflexivity
      end. }
  rewrite Forall_forall in Hall. apply Hall, H.
Qed.

Lemma good_bullet : GoodMatch reBullet (str "<li>$1</li>").
Proof.
  intros pre w y He Hs. apply exec_Matches in He. unfold reBullet in He.
  apply Matches_Cat in He as (y1 & H1 & He).
  apply Matches_Cat in He as (y2 & H2 & He).
  apply Matches_Cat in He as (y3 & H3 & He).
  apply Matches_Cat in He as (y4 & H4 & H5).
  apply Matches_lits in H1 as (Hr1 & Hp1 & Hc1).
  apply Matches_Class in H2 as (b & Hr2 & Hb & Hp2 & Hc2).
  destruct (Matches_class_run _ _ _ H3 _ _ _ _ eq_refl)
    as (ws & Hr3 & Hws & Hp3 & Hc3).
  apply Matches_Grp in H4 as (y3' & g & _ & Hr4 & Hp4 & ->).
  apply Matches_lits in H5 as (Hr5 & Hp5 & Hc5).
  cbn [rest pos caps setCap] in *.
  rewrite Hr2, Hr3, Hr4, Hr5 in Hr1. subst w.
  set (mt := str "<p>" ++ (b :: ws ++ g) ++ str "</p>").
  assert (Hb' : bounded mt).
  { apply bounded_tagged; apply bounded_tag; cbn; tauto. }
  destruct (safe_cut_bounded pre mt (rest y) Hb') as (Hpre & Hmt & Hrest).
  { unfold mt. rewrite <- !app_assoc. cbn [app]. rewrite <- !app_assoc.
    exact Hs. }
  assert (Hg : safe g).
  { unfold mt in Hmt.
    change (str "<p>") with ([60%N; 112%N] ++ [62%N]) in Hmt.
    apply safe_cut_close in Hmt as [_ Hmt]; [| reflexivity].
    cbn [app] in Hmt. rewrite <- app_assoc in Hmt.
    apply (proj1 (safe_neutral_cons b _ (neutral_bullet b Hb))) in Hmt.
    apply (fun H => proj1 (safe_neutral_run ws _ H)) in Hmt.
    - apply (safe_cut_open g 60%N (str "/p>") eq_refl Hmt).
    - revert Hws. apply Forall_impl. intros c. apply neutral_space. }
  exists mt. repeat split; try assumption.
  - unfold mt. rewrite <- !app_assoc. cbn [app]. rewrite <- !app_assoc.
    reflexivity.
  - unfold mt. rewrite !length_app. cbn [length].
    rewrite !length_app.
    change (length (str "<p>")) with 3 in *.
    change (length (str "</p>")) with 4 in *. lia.
  - change (safe (str "<li>" ++ capture (caps y) 1 ++ str "</li>")).
    unfold capture. rewrite Hc5. cbn.
    change (safe (str "<li>" ++ g ++ str "</li>")).
    apply safe_app; [reflexivity | apply safe_app; [exact Hg | reflexivity]].
Qed.

Lemma good_items : GoodMatch reItems (str "<ul>$&</ul>").
Proof.
  intros pre w y He Hs. apply exec_Matches in He. unfold reItems in He.
  apply Matches_plus in He.
  apply (Rounds_shape _ (fun _ _ => True)) in He.
  - destruct He as (W & w' & Hr & Hp & HW & Hw & _).
    cbn [rest pos] in Hr, Hp. subst w.
    pose proof (bounded_total W w' HW Hw) as Hb.
    destruct (safe_cut_bounded pre (W ++ w') (rest y) Hb)
      as (Hpre & Hmt & Hrest).
    { rewrite <- app_assoc. exact Hs. }
    exists (W ++ w'). repeat split; try assumption.
    + rewrite <- app_assoc. reflexivity.
    + change (safe (str "<ul>" ++ (W ++ w') ++ str "</ul>")).
      apply safe_app; [reflexivity | apply safe_app; [exact Hmt | reflexivity]].
  - intros x z H.
    apply Matches_Grp in H as (z' & u & H & Hr & Hp & ->).
    apply Matches_Cat in H as (z1 & H1 & H).
    apply Matches_Cat in H as (z2 & H2 & H3).
    apply Matches_lits in H1 as (Hr1 & Hp1 & _).
    destruct (Matches_consumed _ _ _ H2) as (d & Hr2 & Hp2).
    apply Matches_lits in H3 as (Hr3 & Hp3 & _).
    exists u. cbn [rest pos setCap]. repeat split; try assumption.
    + exists 60%N, (skipn 1 u). split; [| reflexivity].
      rewrite Hr1, Hr2, Hr3 in Hr.
      destruct u as [| c u].
      * apply (f_equal (@length _)) in Hr. rewrite !length_app in Hr.
        cbn in Hr. lia.
      * cbn in Hr. injection Hr as <- _. reflexivity.
    + rewrite Hr1, Hr2, Hr3 in Hr.
      assert (Hu : u = str "<li>" ++ d ++ str "</li>").
      { rewrite !app_assoc in Hr. apply app_inv_tail in Hr.
        rewrite <- Hr, <- !app_assoc. reflexivity. }
      exists (str "<li>" ++ d ++ str "</li"), 62%N. split; [| reflexivity].
      rewrite Hu, <- !app_assoc. reflexivity.
Qed.

(** ** The stages before the table *)

Lemma paragraphs_safe (escaped : jsstring) :
  safe escaped -> safe (paragraphs escaped).
Proof.
  intros H. unfold paragraphs. apply join_safe; [reflexivity |].
  apply Forall_map.
  pose proof (split_safe [LF; LF]
                (bounded_app [LF] [LF] (bounded_neutral LF eq_refl)
                             (bounded_neutral LF eq_refl)) escaped H) as Hs.
  revert Hs. apply Forall_impl. intros para Hp.
  apply safe_app; [reflexivity |].
  apply safe_app; [| reflexivity].
  apply replace_safe; [apply good_newline | exact Hp].
Qed.

Lemma bullets_safe (s : jsstring) : safe s -> safe (bullets s).
Proof.
  intros H. unfold bullets.
  apply replace_safe; [apply good_items |].
  apply replace_safe; [apply good_bullet | exact H].
Qed.

Lemma bold_safe (s : jsstring) : safe s -> safe (bold s).
Proof.
  intros H. unfold bold. apply replace_safe; [apply good_bold | exact H].
Qed.

(** ** The rows of the table *)

Lemma trimStart_spec (s : jsstring) :
  exists ws, s = ws ++ JS.trimStart s
             /\ Forall (fun c => JS.isSpace c = true) ws.
Proof.
  induction s as [| c s (ws & Hs & Hws)]; cbn [JS.trimStart].
  - exists []. split; [reflexivity | constructor].
  - destruct (JS.isSpace c) eqn:Hc.
    + exists (c :: ws). cbn [app]. split; [f_equal; exact Hs |].
      constructor; assumption.
    + exists []. split; [reflexivity | constructor].
Qed.

Lemma spaces_neutral (ws : jsstring) :
  Forall (fun c => JS.isSpace c = true) ws ->
  Forall (fun c => neutral c = true) ws.
Proof.
  apply Forall_impl. intros c. apply neutral_space.
Qed.

Lemma trim_safe (s : jsstring) : safe s -> safe (JS.trim s).
Proof.
  intros H. unfold JS.trim.
  destruct (trimStart_spec s) as (ws & Hs & Hws).
  rewrite Hs in H.
  apply (proj1 (safe_neutral_run ws _ (spaces_neutral ws Hws))) in H.
  destruct (trimStart_spec (rev (JS.trimStart s))) as (ws' & Hs' & Hws').
  apply (f_equal (@rev char)) in Hs'.
  rewrite rev_involutive, rev_app_distr in Hs'.
  rewrite Hs' in H.
  destruct (rev ws') as [| c ws''] eqn:Hrev.
  - rewrite app_nil_r in H. exact H.
  - apply safe_cut_open in H; [apply H |].
    apply neutral_opening, neutral_space.
    apply Forall_rev in Hws'. rewrite Hrev in Hws'.
    inversion Hws'; assumption.
Qed.

Lemma filter_safe (f : jsstring -> bool) (l : list jsstring) :
  Forall safe l -> Forall safe (filter f l).
Proof.
  intros H. rewrite Forall_forall in *. intros x Hx.
  apply filter_In in Hx as [Hx _]. apply H, Hx.
Qed.

Lemma concat_safe (l : list jsstring) : Forall safe l -> safe (concat l).
Proof.
  induction 1 as [| x l Hx _ IH]; [reflexivity |].
  cbn [concat]. apply safe_app; assumption.
Qed.

Lemma tableRow_safe (index : nat) (line : jsstring) :
  safe line -> safe (tableRow index line).
Proof.
  intros H. unfold tableRow.
  destruct (test reSeparator line); [reflexivity |].
  pose proof (filter_safe (fun cell => JS.truthy (JS.trim cell)) _
                (split_safe (str "|") (bounded_neutral 124%N eq_refl) line H))
    as Hcells.
  destruct (filter _ (JS.split line (str "|"))) as [| cell cells];
    [reflexivity |].
  apply safe_app; [reflexivity |]. apply safe_app; [| reflexivity].
  apply concat_safe, Forall_map. revert Hcells. apply Forall_impl.
  intros c Hc. apply trim_safe in Hc.
  destruct (Nat.eqb index 0).
  - change (safe (str "<th>" ++ JS.trim c ++ str "</th>")).
    apply safe_app; [reflexivity | apply safe_app; [exact Hc | reflexivity]].
  - change (safe (str "<td>" ++ JS.trim c ++ str "</td>")).
    apply safe_app; [reflexivity | apply safe_app; [exact Hc | reflexivity]].
Qed.

Lemma tableRows_safe (lines : list jsstring) :
  Forall safe lines -> forall index, safe (tableRows index lines).
Proof.
  induction 1 as [| line lines Hl _ IH]; intros index; [reflexivity |].
  cbn [tableRows]. apply safe_app; [apply tableRow_safe, Hl | apply IH].
Qed.

Lemma tableLines_safe (text : jsstring) :
  safe text -> Forall safe (tableLines text).
Proof.
  intros H. unfold tableLines. apply filter_safe.
  apply split_safe; [| exact H].
  apply bounded_tag. cbn. tauto.
Qed.

(** ** Substituting into a safe template *)

Lemma reference_inside (t q0 r : jsstring) (c : char) :
  In t tokens -> t = (38%N :: q0) ++ c :: r -> special c = false.
Proof.
  intros Ht Heq. destruct (special c) eqn:Hs; [| reflexivity].
  unfold special in Hs.
  apply orb_prop in Hs as [Hs | Hs]; [apply orb_prop in Hs as [Hs | Hs] |];
    apply N.eqb_eq in Hs; subst c.
  - discriminate (token_front _ _ _ _ (or_introl eq_refl) Ht Heq).
  - pose proof (token_end _ _ _ Ht Heq) as ->.
    assert (Hcheck :
              forallb (fun t => match t with
                                | 38%N :: _ => negb (N.eqb (last t 0%N) 62)
                                | _ => true
                                end) tokens = true)
      by (vm_compute; reflexivity).
    rewrite forallb_forall in Hcheck. apply Hcheck in Ht.
    rewrite Heq in Ht. cbn [app] in Ht.
    rewrite app_comm_cons, last_last in Ht. discriminate Ht.
  - discriminate (token_front _ _ _ _ (or_intror eq_refl) Ht Heq).
Qed.

(** What follows the & of a reference is safe on its own. *)
Lemma reference_tail (t : jsstring) :
  forall q0, scan (38%N :: q0) t = Some [] -> scan [] t = Some [].
Proof.
  induction t as [| c t IH]; intros q0 H; [discriminate H |].
  cbn [scan] in H.
  destruct (next (38%N :: q0) c) as [q' |] eqn:Hn; [| discriminate].
  assert (Hplain : special c = false).
  { destruct (next_cases _ _ _ Hn) as [[_ Hc] | [(_ & _ & Hp) | (Hq & _)]].
    - apply complete_partial, partial_occurs in Hc as (tk & r & Ht & Heq).
      apply (reference_inside tk q0 r c Ht Heq).
    - apply partial_occurs in Hp as (tk & r & Ht & Heq).
      apply (reference_inside tk q0 r c Ht Heq).
    - discriminate Hq. }
  cbn [scan]. rewrite (next_plain c Hplain).
  destruct (next_cases _ _ _ Hn) as [[-> _] | [(-> & _) | (Hq & _)]].
  - exact H.
  - apply (IH (q0 ++ [c])). exact H.
  - discriminate Hq.
Qed.

Lemma neutral_digit (c : char) : isDigit c = true -> neutral c = true.
Proof.
  unfold isDigit. intros H. apply andb_prop in H as [H1 H2].
  apply N.leb_le in H1. apply N.leb_le in H2.
  assert (Hc : In c [48; 49; 50; 51; 52; 53; 54; 55; 56; 57]%N).
  { cbn. lia. }
  cbn in Hc.
  repeat (destruct Hc as [<- | Hc]; [reflexivity |]). destruct Hc.
Qed.

Section Substitution.

Variables (matched before after : jsstring) (n : nat)
          (cs : nat -> option jsstring).
Hypothesis Hmatched : safe matched.
Hypothesis Hbefore : safe before.
Hypothesis Hafter : safe after.
Hypothesis Hcs : forall i, safe (capture cs i).

Let sub := GetSubstitution matched before after n cs.

Lemma scan_skip (a b : jsstring) (q : jsstring) :
  safe a -> scan [] (a ++ b) = scan [] b.
Proof.
  intros Ha. rewrite scan_app. unfold safe in Ha. rewrite Ha. reflexivity.
Qed.

Lemma scan_neutral (c : char) (q : jsstring) (t : jsstring) :
  neutral c = true -> scan q (c :: t) = Some [] ->
  q = [] /\ scan [] t = Some [].
Proof.
  intros Hc H. cbn [scan] in H.
  destruct (next q c) as [q' |] eqn:Hn; [| discriminate].
  destruct (next_neutral _ _ _ Hc Hn) as [-> ->]. split; [reflexivity | exact H].
Qed.

Lemma GetSubstitution_scan :
  forall k template q,
    length template <= k ->
    scan q template = Some [] -> scan q (sub template) = Some [].
Proof.
  induction k as [| k IH]; intros template q Hlen H.
  - destruct template; [exact H | cbn in Hlen; lia].
  - destruct template as [| ch t]; [exact H |].
    cbn [length] in Hlen. unfold sub. cbn [GetSubstitution]. fold sub.
    destruct (N.eqb_spec ch 36) as [-> | Hch]; cbn [negb].
    2:{ cbn [scan] in H |- *. destruct (next q ch) as [q' |]; [| discriminate].
        apply IH; [lia | exact H]. }
    apply scan_neutral in H as [-> H]; [| reflexivity].
    destruct t as [| c t']; [reflexivity |]. cbn [length] in Hlen.
    destruct (N.eqb_spec c 36) as [-> | H36].
    { apply scan_neutral in H as [_ H]; [| reflexivity].
      rewrite (proj2 (safe_neutral_cons 36%N _ eq_refl)); [reflexivity |].
      apply IH; [lia | exact H]. }
    destruct (N.eqb_spec c 96) as [-> | H96].
    { apply scan_neutral in H as [_ H]; [| reflexivity].
      rewrite (scan_skip before _ [] Hbefore). apply IH; [lia | exact H]. }
    destruct (N.eqb_spec c 38) as [-> | H38].
    { rewrite (scan_skip matched _ [] Hmatched). apply IH; [lia |].
      apply (reference_tail t' []). exact H. }
    destruct (N.eqb_spec c 39) as [-> | H39].
    { apply scan_neutral in H as [_ H]; [| reflexivity].
      rewrite (scan_skip after _ [] Hafter). apply IH; [lia | exact H]. }
    destruct (N.eqb_spec c 60) as [-> | H60].
    { change (scan [60%N] (sub t') = Some []).
      apply IH; [lia | exact H]. }
    destruct (isDigit c) eqn:Hd.
    + pose proof (neutral_digit c Hd) as Hn.
      pose proof H as H'.
      apply scan_neutral in H' as [_ H']; [| exact Hn].
      assert (Hone :
                scan []
                  (if (1 <=? digitVal c) && (digitVal c <=? n)
                   then capture cs (digitVal c) ++ sub t'
                   else 36%N :: c :: sub t') = Some []).
      { destruct ((1 <=? digitVal c) && (digitVal c <=? n)).
        - rewrite (scan_skip _ _ [] (Hcs _)). apply IH; [lia | exact H'].
        - apply (safe_neutral_cons 36%N _ eq_refl).
          apply (safe_neutral_cons c _ Hn). apply IH; [lia | exact H']. }
      destruct t' as [| d t'']; [exact Hone |]. cbn [length] in Hlen.
      destruct (isDigit d) eqn:Hd'; [| exact Hone].
      pose proof (neutral_digit d Hd') as Hn'.
      apply scan_neutral in H' as [_ H']; [| exact Hn'].
      destruct (n <? 10 * digitVal c + digitVal d); [exact Hone |].
      destruct (1 <=? 10 * digitVal c + digitVal d).
      * rewrite (scan_skip _ _ [] (Hcs _)). apply IH; [lia | exact H'].
      * apply (safe_neutral_cons 36%N _ eq_refl).
        apply (safe_neutral_cons c _ Hn).
        apply (safe_neutral_cons d _ Hn'). apply IH; [lia | exact H'].
    + apply (safe_neutral_cons 36%N _ eq_refl).
      apply IH; [cbn [length]; lia | exact H].
Qed.

(** A safe template filled with safe pieces is safe. *)
Lemma GetSubstitution_safe (template : jsstring) :
  safe template ->
  safe (GetSubstitution matched before after n cs template).
Proof.
  apply (GetSubstitution_scan (length template) template []). lia.
Qed.

End Substitution.

(** ** The table pattern *)

Lemma Rounds_frame (a : re) (x z : mstate) :
  Rounds a x z -> forall j, ~ In j (groups a) -> caps z j = caps x j.
Proof.
  induction 1 as [x y H | x y z H _ IH]; intros j Hj.
  - rewrite (Matches_frame _ _ _ H j Hj). apply clearCaps_frame, Hj.
  - rewrite (IH j Hj), (Matches_frame _ _ _ H j Hj).
    apply clearCaps_frame, Hj.
Qed.

(** Rounds of a group whose words are bounded: all of them together, the
    last of them, which the group captures, and the other captures. *)
Lemma group_rounds (i : nat) (a : re) :
  groups a = [] ->
  (forall x y w, Matches a x y -> rest x = w ++ rest y -> bounded w) ->
  forall x z,
    Rounds (Grp i a) x z ->
    exists W w, rest x = W ++ w ++ rest z
                /\ pos z = pos x + length (W ++ w)
                /\ (W = [] \/ bounded W) /\ bounded w
                /\ caps z i = Some w
                /\ (forall j, j <> i -> caps z j = caps x j).
Proof.
  intros Hg Hb x z H.
  pose proof (Rounds_frame _ _ _ H) as Hframe.
  apply (Rounds_shape _ (fun w y => caps y i = Some w)) in H.
  - destruct H as (W & w & Hr & Hp & HW & Hw & Hc).
    exists W, w. repeat (split; [assumption |]).
    intros j Hj. apply Hframe. cbn [groups]. rewrite Hg.
    intros [Hin | []]. congruence.
  - clear x z H Hframe. intros x z H.
    apply Matches_Grp in H as (y & w & H & Hr & Hp & ->).
    exists w. cbn [setCap rest pos caps]. rewrite Nat.eqb_refl.
    repeat (split; [assumption |]).
    split; [apply (Hb x y w H Hr) | reflexivity].
Qed.

(** With a continuation that cannot fail, a greedy repetition that may
    stop cannot fail. *)
Lemma repeat_total (ma : mstate -> cont -> option mstate) (gs : list nat)
      (c : cont) (fuel : nat) (max : option nat) (x : mstate) :
  (forall y, c y <> None) ->
  repeatMatcher ma gs (S fuel) 0 max true x c <> None.
Proof.
  intros Hc. cbn [repeatMatcher Nat.eqb negb].
  destruct max as [[| k] |]; [apply Hc | |];
    (destruct (ma _ _); [discriminate | apply Hc]).
Qed.

(** With a continuation that cannot fail, a greedy repeated class takes
    the longest run of the class. *)
Lemma repeat_class_greedy (f : char -> bool) (c : cont) :
  (forall y, c y <> None) ->
  forall fuel min p (w : jsstring) cs z,
    length w + min < fuel ->
    repeatMatcher (m (Class f)) [] fuel min None true (MState p w cs) c
    = Some z ->
    exists u t : jsstring, w = u ++ t
                /\ match t with [] => True | a :: _ => f a = false end
                /\ c (MState (p + length u) t cs) = Some z.
Proof.
  intros Hc. induction fuel as [| fuel IH]; intros min p w cs z Hfuel H;
    [lia |].
  cbn [repeatMatcher clearCaps fold_right m rest pos] in H.
  assert (Hstop : min = 0 -> c (MState p w cs) = Some z ->
                  match w with [] => True | a :: _ => f a = false end ->
                  exists u t : jsstring, w = u ++ t
                    /\ match t with [] => True | a :: _ => f a = false end
                    /\ c (MState (p + length u) t cs) = Some z).
  { intros _ Hz Hw. exists [], w. cbn [app length]. rewrite Nat.add_0_r.
    repeat split; assumption. }
  destruct w as [| a t].
  - destruct (Nat.eqb_spec min 0) as [Hmin | Hmin]; cbn [negb] in H;
      [| discriminate].
    apply Hstop; [exact Hmin | exact H | exact I].
  - destruct (f a) eqn:Hf.
    + cbn [advance pos rest caps] in H.
      replace (Nat.eqb (S p) p) with false in H
        by (symmetry; apply Nat.eqb_neq; lia).
      rewrite andb_false_r in H.
      assert (Hrec :
                repeatMatcher (m (Class f)) [] fuel (Nat.pred min) None true
                              (MState (S p) t cs) c = Some z).
      { destruct (Nat.eqb_spec min 0) as [Hmin | Hmin]; cbn [negb] in H;
          [| exact H].
        destruct (repeatMatcher _ _ _ _ _ _ _ _) as [z' |] eqn:Hz;
          [exact H |].
        exfalso. clear H. destruct fuel as [| fuel']; [cbn in Hfuel; lia |].
        subst min. apply (repeat_total _ _ c fuel' None _ Hc Hz). }
      apply IH in Hrec as (u & t' & -> & Ht & Hz); [| cbn in Hfuel; lia].
      exists (a :: u), t'. cbn [app length].
      replace (p + S (length u)) with (S p + length u) by lia.
      repeat split; assumption.
    + destruct (Nat.eqb_spec min 0) as [Hmin | Hmin]; cbn [negb] in H;
        [| discriminate].
      apply Hstop; [exact Hmin | exact H | reflexivity].
Qed.

Lemma opt_total (a : re) (y : mstate) : m (opt a) y Some <> None.
Proof.
  unfold opt. cbn [m]. apply repeat_total. discriminate.
Qed.

Lemma m_Cat (a b : re) (x : mstate) (c : cont) :
  m (Cat a b) x c = m a x (fun y => m b y c).
Proof. reflexivity. Qed.

Lemma cut_left (a b : jsstring) :
  a = [] \/ bounded a -> safe (a ++ b) -> safe a /\ safe b.
Proof.
  intros [-> | [_ (a' & c & -> & Hc)]] H.
  - split; [reflexivity | exact H].
  - apply safe_cut_close; assumption.
Qed.

(** Rounds inside safe markup: the rounds together, the last round and
    what follows are safe. *)
Lemma rounds_cut (W w X : jsstring) :
  W = [] \/ bounded W -> bounded w -> safe ((W ++ w) ++ X) ->
  safe (W ++ w) /\ safe w /\ safe X.
Proof.
  intros HW Hw H. rewrite <- app_assoc in H.
  apply (cut_left W _ HW) in H as [HsW H].
  apply (cut_left w _ (or_intror Hw)) in H as [Hsw HX].
  split; [apply safe_app; assumption | split; assumption].
Qed.

Lemma bounded_starts (a b : jsstring) :
  bounded a -> exists c t, a ++ b = c :: t /\ opening c = true.
Proof.
  intros [(c & a' & -> & Hc) _]. exists c, (a' ++ b).
  split; [reflexivity | exact Hc].
Qed.

(** The optional opening tag of the table pattern. *)
Lemma table_head (x y1 : mstate) :
  Matches (opt (Grp 1 (lits (str "<p>")))) x y1 ->
  exists A, rest x = A ++ rest y1 /\ pos y1 = pos x + length A
            /\ (A = [] \/ bounded A)
            /\ (forall j, j <> 1 -> caps y1 j = caps x j)
            /\ (caps x 1 = None ->
                forall X, safe (A ++ X) ->
                          safe A /\ safe X /\ safe (capture (caps y1) 1)).
Proof.
  intros H.
  destruct (Matches_Rep_rounds _ _ _ H _ _ _ _ eq_refl) as [[_ ->] | HR].
  - exists []. cbn [app length]. rewrite Nat.add_0_r.
    do 4 (split; [auto |]). intros Hnone X HX. unfold capture.
    rewrite Hnone. split; [reflexivity |]. split; [exact HX | reflexivity].
  - apply group_rounds in HR
        as (W & w & Hr & Hp & HW & Hw & Hc & Hframe); [| reflexivity |].
    + exists (W ++ w). rewrite <- app_assoc.
      do 4 (split; [auto using bounded_total |]).
      intros _ X HX. unfold capture. rewrite Hc.
      destruct (rounds_cut W w X HW Hw HX) as (H1 & H2 & H3).
      repeat split; assumption.
    + intros x' y' w' HM Hr'. apply Matches_lits in HM as (Hr'' & _).
      rewrite Hr'' in Hr'. apply app_inv_tail in Hr'. subst w'.
      apply bounded_tag. cbn. tauto.
Qed.

(** The lines of the table pattern that end with a line break. *)
Lemma table_body (x y2 : mstate) :
  Matches (plus (Grp 2 (Cat (Lit 124%N)
                         (Cat (plus (Class notLt)) (lits (str "<br>"))))))
          x y2 ->
  exists B, rest x = B ++ rest y2 /\ pos y2 = pos x + length B
            /\ bounded B
            /\ (forall j, j <> 2 -> caps y2 j = caps x j)
            /\ (forall X, safe (B ++ X) ->
                          safe B /\ safe X /\ safe (capture (caps y2) 2)).
Proof.
  intros H. apply Matches_plus in H.
  apply group_rounds in H
      as (W & w & Hr & Hp & HW & Hw & Hc & Hframe); [| reflexivity |].
  - exists (W ++ w). rewrite <- app_assoc.
    do 4 (split; [auto using bounded_total |]).
    intros X HX. unfold capture. rewrite Hc.
    destruct (rounds_cut W w X HW Hw HX) as (H1 & H2 & H3).
    repeat split; assumption.
  - intros x' y' w' HM Hr'.
    apply Matches_Cat in HM as (z1 & H1 & HM).
    apply Matches_Cat in HM as (z2 & H2 & H3).
    apply Matches_Lit in H1 as (Hr1 & _).
    destruct (Matches_consumed _ _ _ H2) as (d & Hr2 & _).
    apply Matches_lits in H3 as (Hr3 & _).
    rewrite Hr2, Hr3 in Hr1. rewrite Hr1 in Hr'.
    assert (Hw' : w' = 124%N :: d ++ str "<br>").
    { change (124%N :: d ++ str "<br>" ++ rest y')
        with ([124%N] ++ d ++ str "<br>" ++ rest y') in Hr'.
      rewrite !app_assoc in Hr'. apply app_inv_tail in Hr'.
      rewrite <- Hr', <- !app_assoc. reflexivity. }
    subst w'. split.
    + exists 124%N, (d ++ str "<br>"). split; reflexivity.
    + exists (124%N :: d ++ str "<br"), 62%N. split; [| reflexivity].
      cbn [app]. f_equal. rewrite <- app_assoc. reflexivity.
Qed.

Lemma m_Rep (min : nat) (max : option nat) (greedy : bool) (a : re)
      (x : mstate) (c : cont) :
  m (Rep min max greedy a) x c
  = repeatMatcher (m a) (groups a) (S (min + length (rest x)))
                  min max greedy x c.
Proof. reflexivity. Qed.

Lemma m_Grp (i : nat) (a : re) (x : mstate) (c : cont) :
  m (Grp i a) x c
  = m a x (fun y => c (setCap i (firstn (pos y - pos x) (rest x)) y)).
Proof. reflexivity. Qed.

(** The last line of the table pattern and its optional closing tag:
    the line runs up to the next < or to the end of the text. *)
Lemma table_tail (y2 y : mstate) :
  m (Cat (Grp 3 (Cat (Lit 124%N) (plus (Class notLt))))
         (opt (Grp 4 (lits (str "</p>"))))) y2 Some = Some y ->
  exists u E : jsstring, rest y2 = (124%N :: u) ++ E ++ rest y
              /\ pos y = pos y2 + length ((124%N :: u) ++ E)
              /\ caps y 3 = Some (124%N :: u)
              /\ (forall j, j <> 3 -> j <> 4 -> caps y j = caps y2 j)
              /\ (caps y2 4 = None ->
                  safe ((124%N :: u) ++ E ++ rest y) ->
                  safe (124%N :: u) /\ safe E /\ safe (rest y)
                  /\ safe (capture (caps y) 4)).
Proof.
  intros H. rewrite m_Cat, m_Grp, m_Cat in H.
  destruct y2 as [p w cs]. cbn [m rest] in H.
  destruct w as [| a t2]; [discriminate |].
  destruct (N.eqb_spec a 124) as [-> |]; [| discriminate].
  unfold plus in H at 1. rewrite m_Rep in H.
  cbn [advance pos rest caps groups] in H.
  apply repeat_class_greedy in H as (u & t & -> & Hmax & H);
    [| intros y'; apply opt_total | cbn; lia].
  cbn [pos rest] in H.
  replace (firstn (S p + length u - p) (124%N :: u ++ t))
    with (124%N :: u) in H
    by (symmetry; apply (firstn_exact (124%N :: u) t); cbn [length]; lia).
  apply m_sound in H as (y' & HM & Heq). injection Heq as ->.
  exists u. cbn [rest pos caps].
  destruct (Matches_Rep_rounds _ _ _ HM _ _ _ _ eq_refl) as [[_ ->] | HR].
  - exists []. cbn [setCap rest pos caps app length].
    rewrite app_nil_r.
    split; [reflexivity |]. split; [lia |]. split; [reflexivity |].
    split.
    { intros j H3 _. apply Nat.eqb_neq in H3. rewrite H3. reflexivity. }
    intros Hnone Hsafe. unfold capture. cbn. rewrite Hnone.
    assert (Hcut : safe (124%N :: u) /\ safe t).
    { destruct t as [| c t'].
      - rewrite app_nil_r in Hsafe. split; [exact Hsafe | reflexivity].
      - unfold notLt in Hmax. apply negb_false_iff, N.eqb_eq in Hmax.
        subst c. apply (safe_cut_open (124%N :: u) 60%N t' eq_refl Hsafe). }
    destruct Hcut. repeat split; try assumption; reflexivity.
  - apply group_rounds in HR
        as (W & w & Hr & Hp & HW & Hw & Hc & Hframe); [| reflexivity |].
    + cbn [setCap rest pos caps] in Hr, Hp, Hframe.
      exists (W ++ w). rewrite <- app_assoc, Hr.
      split; [reflexivity |].
      split; [cbn [app length] in *; rewrite !length_app in *; lia |].
      split; [rewrite (Hframe 3) by lia; reflexivity |].
      split.
      { intros j H3 H4. rewrite (Hframe j H4).
        apply Nat.eqb_neq in H3. rewrite H3. reflexivity. }
      intros _ Hsafe. unfold capture. rewrite Hc.
      pose proof (bounded_total W w HW Hw) as HE.
      destruct (bounded_starts (W ++ w) (rest y) HE) as (c & t' & Hct & Hco).
      rewrite <- ?app_assoc in Hsafe.
      assert (Hcut : safe (124%N :: u) /\ safe ((W ++ w) ++ rest y)).
      { rewrite Hct. apply safe_cut_open; [exact Hco |].
        rewrite <- Hct, <- app_assoc. exact Hsafe. }
      destruct Hcut as [Hu HErest].
      destruct (rounds_cut W w (rest y) HW Hw HErest) as (H1 & H2 & H3).
      repeat split; assumption.
    + intros x' y' w' HM' Hr'. apply Matches_lits in HM' as (Hr'' & _).
      rewrite Hr'' in Hr'. apply app_inv_tail in Hr'. subst w'.
      apply bounded_tag. cbn. tauto.
Qed.

Lemma good_table (tableHtml : jsstring) :
  safe tableHtml -> GoodMatch reTable tableHtml.
Proof.
  intros Ht pre w y He Hs. unfold exec, reTable in He.
  rewrite m_Cat in He. apply m_sound in He as (y1 & HA & He).
  rewrite m_Cat in He. apply m_sound in He as (y2 & HB & He).
  apply table_head in HA as (A & HrA & HpA & HbA & HfA & HsA).
  apply table_body in HB as (B & HrB & HpB & HbB & HfB & HsB).
  apply table_tail in He as (u & E & HrT & HpT & Hc3 & HfT & HsT).
  cbn [rest pos caps] in HrA, HpA, HfA, HsA.
  rewrite HrB, HrT in HrA. subst w.
  set (tail := (124%N :: u) ++ E ++ rest y) in *.
  assert (Hcut : safe pre /\ safe (A ++ B ++ tail)).
  { destruct HbA as [-> | HbA].
    - cbn [app] in *.
      destruct (bounded_starts B tail HbB) as (c & t & Hct & Hc).
      rewrite Hct in Hs |- *. apply safe_cut_open; assumption.
    - destruct (bounded_starts A (B ++ tail) HbA) as (c & t & Hct & Hc).
      rewrite Hct in Hs |- *. apply safe_cut_open; assumption. }
  destruct Hcut as [Hpre HX].
  destruct (HsA eq_refl _ HX) as (HsafeA & HX1 & Hcap1).
  destruct (HsB _ HX1) as (HsafeB & HX2 & Hcap2).
  assert (Hnone : caps y2 4 = None).
  { rewrite (HfB 4), (HfA 4) by lia. reflexivity. }
  destruct (HsT Hnone HX2) as (Hsu & HsE & Hrest & Hcap4).
  exists (A ++ B ++ (124%N :: u) ++ E).
  assert (Hmt : safe (A ++ B ++ (124%N :: u) ++ E)) by auto using safe_app.
  split; [unfold tail; rewrite <- !app_assoc; reflexivity |].
  split; [rewrite !length_app in *; lia |].
  do 3 (split; [assumption |]).
  apply GetSubstitution_safe; try assumption.
  intros i.
  destruct (Nat.eq_dec i 3) as [-> | H3];
    [unfold capture; rewrite Hc3; exact Hsu |].
  destruct (Nat.eq_dec i 4) as [-> | H4]; [exact Hcap4 |].
  unfold capture. rewrite (HfT i H3 H4).
  destruct (Nat.eq_dec i 2) as [-> | H2]; [exact Hcap2 |].
  rewrite (HfB i H2).
  destruct (Nat.eq_dec i 1) as [-> | H1]; [exact Hcap1 |].
  rewrite (HfA i H1). reflexivity.
Qed.

Lemma convertToTable_safe (text : jsstring) :
  safe text -> safe (convertToTable text).
Proof.
  intros H. unfold convertToTable.
  destruct (length (tableLines text) <? 2); [exact H |].
  apply replace_safe; [| exact H]. apply good_table.
  apply safe_app; [reflexivity |]. apply safe_app; [| reflexivity].
  apply tableRows_safe, tableLines_safe, H.
Qed.

Lemma tables_safe (s : jsstring) : safe s -> safe (tables s).
Proof.
  intros H. unfold tables.
  destruct (JS.includes s (str "|") && JS.includes s (str "<br>"));
    [apply convertToTable_safe, H | exact H].
Qed.

(** What the scanner accepts is markup. *)
Lemma scan_markup (s : jsstring) :
  forall q, scan q s = Some [] -> markup (q ++ s).
Proof.
  induction s as [| c s IH]; intros q H.
  - cbn in H. injection H as ->. constructor.
  - cbn [scan] in H. destruct (next q c) as [q' |] eqn:Hn; [| discriminate].
    destruct (next_cases _ _ _ Hn)
      as [[-> Hc] | [(-> & _) | (-> & -> & Hs & _)]].
    + apply IH in H. cbn [app] in H.
      replace (q ++ c :: s) with ((q ++ [c]) ++ s)
        by (rewrite <- app_assoc; reflexivity).
      unfold complete in Hc. apply existsb_exists in Hc as (t & Ht & Heq).
      apply eqb_eq in Heq. rewrite Heq.
      apply in_app_or in Ht as [Ht | Ht];
        [apply markup_tag | apply markup_entity]; assumption.
    + apply IH in H. rewrite <- app_assoc in H. exact H.
    + apply IH in H. apply markup_text; assumption.
Qed.

Lemma serializeText_no_brackets (text : jsstring) :
  Forall (fun c => c <> 60%N /\ c <> 62%N) (serializeText text).
Proof.
  induction text as [| c t IH]; [constructor |].
  cbn [serializeText]. apply Forall_app. split; [| exact IH].
  destruct (N.eqb_spec c 38);
    [repeat constructor; discriminate |].
  destruct (N.eqb_spec c 160);
    [repeat constructor; discriminate |].
  destruct (N.eqb_spec c 60);
    [repeat constructor; discriminate |].
  destruct (N.eqb_spec c 62);
    [repeat constructor; discriminate |].
  repeat constructor; assumption.
Qed.

Lemma serializeText_app (a b : jsstring) :
  serializeText (a ++ b) = serializeText a ++ serializeText b.
Proof.
  induction a as [| c a IH]; [reflexivity |].
  cbn [app serializeText]. rewrite IH, <- app_assoc. reflexivity.
Qed.

(** Markup is what the scanner accepts, so the scanner decides it; a
    foreign tag or a bare & is not markup. *)
Lemma markup_safe (s : jsstring) : markup s -> safe s.
Proof.
  assert (Htok : forallb wellFormed tokens = true) by (vm_compute; reflexivity).
  rewrite forallb_forall in Htok.
  assert (Hsafe : forall t, In t tokens -> safe t).
  { intros t Ht. apply Htok in Ht. unfold wellFormed in Ht. unfold safe.
    destruct (scan [] t) as [[| c q] |]; [reflexivity | discriminate Ht
                                          | discriminate Ht]. }
  induction 1 as [| c s Hc _ IH | t s Ht _ IH | e s He _ IH].
  - reflexivity.
  - unfold safe. cbn [scan]. rewrite (next_plain c Hc). exact IH.
  - apply safe_app; [| exact IH]. apply Hsafe, in_or_app. left. exact Ht.
  - apply safe_app; [| exact IH]. apply Hsafe, in_or_app. right. exact He.
Qed.

Lemma foreign_markup_rejected :
  ~ markup (str "<script>") /\ ~ markup (str "a & b") /\ ~ markup (str "1 < 2").
Proof.
  repeat split; intros H; apply markup_safe in H; vm_compute in H;
    discriminate H.
Qed.

(** ** The fuel is enough

    The matcher hands to its continuation only states that lie ahead in
    the same input, so a repetition that has more rounds left than the
    input has code units never runs out of them; the same holds for the
    loops of [replace] and [split]. *)

Lemma ahead_refl (x : mstate) : ahead x x.
Proof. split; lia. Qed.

Lemma ahead_trans (x y z : mstate) : ahead x y -> ahead y z -> ahead x z.
Proof. unfold ahead. intros [H1 H2] [H3 H4]. split; lia. Qed.

Lemma ahead_clear (gs : list nat) (x y : mstate) :
  ahead (clearCaps gs x) y -> ahead x y.
Proof.
  unfold ahead. destruct (clearCaps_pos_rest gs x) as [-> ->]. trivial.
Qed.

Lemma repeatMatcher_local (ma : mstate -> cont -> option mstate)
      (gs : list nat) :
  (forall x c1 c2, (forall y, ahead x y -> c1 y = c2 y) ->
                   ma x c1 = ma x c2) ->
  forall fuel min max greedy x c1 c2,
    (forall y, ahead x y -> c1 y = c2 y) ->
    repeatMatcher ma gs fuel min max greedy x c1
    = repeatMatcher ma gs fuel min max greedy x c2.
Proof.
  intros Hma. induction fuel as [| fuel IH];
    intros min max greedy x c1 c2 Hc; [reflexivity |].
  cbn [repeatMatcher]. rewrite (Hc x (ahead_refl x)).
  rewrite (Hma (clearCaps gs x) _
             (fun y =>
                if Nat.eqb min 0 && Nat.eqb (pos y) (pos x) then None
                else repeatMatcher ma gs fuel (Nat.pred min) (decr max)
                                   greedy y c2)).
  - reflexivity.
  - intros y Hy. destruct (Nat.eqb min 0 && Nat.eqb (pos y) (pos x));
      [reflexivity |].
    apply IH. intros z Hz. apply Hc.
    apply (ahead_trans x y z); [apply (ahead_clear gs), Hy | exact Hz].
Qed.

(** The matcher looks at its continuation only ahead in the input. *)
Lemma m_local (r : re) :
  forall x c1 c2, (forall y, ahead x y -> c1 y = c2 y) -> m r x c1 = m r x c2.
Proof.
  induction r as [| ch | f | a IHa b IHb | min max greedy a IHa | i a IHa | |];
    intros x c1 c2 Hc; cbn [m].
  - apply Hc, ahead_refl.
  - destruct (rest x) as [| a t] eqn:Hr; [reflexivity |].
    destruct (a =? ch)%N; [| reflexivity].
    apply Hc. unfold ahead. cbn. rewrite Hr. cbn. split; lia.
  - destruct (rest x) as [| a t] eqn:Hr; [reflexivity |].
    destruct (f a); [| reflexivity].
    apply Hc. unfold ahead. cbn. rewrite Hr. cbn. split; lia.
  - apply IHa. intros y Hy. apply IHb. intros z Hz.
    apply Hc. apply (ahead_trans x y z); assumption.
  - apply repeatMatcher_local; assumption.
  - apply IHa. intros y Hy. apply Hc. exact Hy.
  - destruct (Nat.eqb (pos x) 0); [apply Hc, ahead_refl | reflexivity].
  - destruct (rest x); [apply Hc, ahead_refl | reflexivity].
Qed.

(** Rounds beyond the length of the input are never used. *)
Lemma repeatMatcher_fuel (a : re) (gs : list nat) :
  forall fuel fuel' min max greedy x c,
    min + length (rest x) < fuel ->
    min + length (rest x) < fuel' ->
    repeatMatcher (m a) gs fuel min max greedy x c
    = repeatMatcher (m a) gs fuel' min max greedy x c.
Proof.
  induction fuel as [| fuel IH]; intros fuel' min max greedy x c H H';
    [lia |].
  destruct fuel' as [| fuel']; [lia |].
  cbn [repeatMatcher].
  rewrite (m_local a (clearCaps gs x) _
             (fun y =>
                if Nat.eqb min 0 && Nat.eqb (pos y) (pos x) then None
                else repeatMatcher (m a) gs fuel' (Nat.pred min) (decr max)
                                   greedy y c)).
  - reflexivity.
  - intros y Hy. apply ahead_clear in Hy. destruct Hy as [Hy1 Hy2].
    destruct (Nat.eqb_spec min 0) as [Hmin | Hmin]; cbn [andb].
    + destruct (Nat.eqb_spec (pos y) (pos x)) as [Hp | Hp]; [reflexivity |].
      apply IH; lia.
    + apply IH; lia.
Qed.

Lemma m_Rep_fuel (min : nat) (max : option nat) (greedy : bool) (a : re)
      (x : mstate) (c : cont) (extra : nat) :
  m (Rep min max greedy a) x c
  = repeatMatcher (m a) (groups a) (S (min + length (rest x)) + extra)
                  min max greedy x c.
Proof.
  cbn [m]. apply repeatMatcher_fuel; lia.
Qed.

Lemma replaceLoop_fuel (r : re) (template s : jsstring) :
  forall fuel fuel' last w,
    length w < fuel -> length w < fuel' ->
    replaceLoop fuel r template s last w
    = replaceLoop fuel' r template s last w.
Proof.
  induction fuel as [| fuel IH]; intros fuel' last w H H'; [lia |].
  destruct fuel' as [| fuel']; [lia |].
  cbn [replaceLoop].
  destruct (search r last w) as [[i y] |] eqn:Hs; [| reflexivity].
  apply search_found in Hs as (u & w' & -> & -> & He).
  apply exec_Matches, Matches_consumed in He as (mt & Hr & Hp).
  cbn [rest pos] in Hr, Hp. subst w'. rewrite !length_app in H, H'.
  f_equal. f_equal.
  destruct (Nat.eqb_spec (pos y) (last + length u)) as [He | He].
  - destruct (rest y) as [| ch t]; [reflexivity |].
    f_equal. cbn [length] in H, H'. apply IH; lia.
  - apply IH; lia.
Qed.

Lemma replace_fuel (r : re) (template s : jsstring) (extra : nat) :
  replace r template s
  = replaceLoop (S (length s) + extra) r template s 0 s.
Proof.
  unfold replace. apply replaceLoop_fuel; lia.
Qed.

Lemma splitFuel_fuel (sep : jsstring) :
  sep <> [] ->
  forall fuel fuel' s,
    length s <= fuel -> length s <= fuel' ->
    JS.splitFuel fuel sep s = JS.splitFuel fuel' sep s.
Proof.
  intros Hsep.
  assert (Hnil : JS.cut sep [] = None).
  { destruct sep; [destruct (Hsep eq_refl) | reflexivity]. }
  induction fuel as [| fuel IH]; intros fuel' s H H'.
  - destruct s; [| cbn in H; lia].
    destruct fuel'; cbn [JS.splitFuel]; [reflexivity |].
    rewrite Hnil. reflexivity.
  - destruct fuel' as [| fuel'].
    + destruct s; [| cbn in H'; lia].
      cbn [JS.splitFuel]. rewrite Hnil. reflexivity.
    + cbn [JS.splitFuel].
      destruct (JS.cut sep s) as [[before after] |] eqn:Hc; [| reflexivity].
      apply cut_spec in Hc. subst s. rewrite !length_app in H, H'.
      assert (length sep > 0) by (destruct sep; [congruence | cbn; lia]).
      f_equal. apply IH; lia.
Qed.

Lemma split_fuel (s sep : jsstring) (extra : nat) :
  sep <> [] -> JS.split s sep = JS.splitFuel (length s + extra) sep s.
Proof.
  intros Hsep. unfold JS.split. apply splitFuel_fuel; [exact Hsep | lia | lia].
Qed.

(** * Further properties of the script *)

(** ** The retry limit under any schedule *)

Lemma Forall_update {A} (P : A -> Prop) (l : list A) (k : nat) (b : A) :
  Forall P l -> P b -> Forall P (update k b l).
Proof.
  intros Hl Hb. revert k. induction Hl as [| x l Hx Hl IH]; intros [| k]; cbn;
    constructor; auto.
Qed.

Lemma Forall_remove {A} (P : A -> Prop) (l : list A) (k : nat) :
  Forall P l -> Forall P (remove k l).
Proof.
  intros Hl. revert k. induction Hl as [| x l Hx Hl IH]; intros [| k]; cbn;
    auto.
Qed.

Lemma Forall_nth_error {A} (P : A -> Prop) (l : list A) (k : nat) (a : A) :
  Forall P l -> nth_error l k = Some a -> P a.
Proof.
  intros Hl H. rewrite Forall_forall in Hl. apply Hl.
  apply (nth_error_In _ _ H).
Qed.

Lemma catchBlock_withinLimit cfg (k : nat) (a : activation) (rt : Runtime) :
  withinLimit cfg a ->
  Forall (withinLimit cfg) (pending rt) ->
  Forall (withinLimit cfg) (pending (catchBlock cfg k a rt)).
Proof.
  intros (H0 & Hmax & _) Hall. unfold catchBlock.
  destruct (Z.ltb_spec (retryCount a) (maxRetries cfg)); cbn [pending].
  - apply Forall_update; [exact Hall |].
    unfold withinLimit. cbn [retryCount suspended]. repeat split; auto.
  - apply Forall_remove, Hall.
Qed.

Lemma step_withinLimit cfg (e : event) (rt : Runtime) :
  Forall (withinLimit cfg) (pending rt) ->
  Forall (withinLimit cfg) (pending (step cfg e rt)).
Proof.
  intros Hall. destruct e as [text | | k response | k data | k]; cbn [step].
  - exact Hall.
  - unfold handleSubmit.
    destruct (negb (JS.truthy (JS.trim (inputValue (page rt))))
              || isLoading (page rt)); [exact Hall |].
    unfold sendMessage. cbn [pending]. apply Forall_app. split; [exact Hall |].
    constructor; [| constructor].
    unfold withinLimit. cbn [retryCount suspended].
    split; [lia |]. split; [lia | discriminate].
  - destruct (nth_error (pending rt) k) as [a |] eqn:Hk; [| exact Hall].
    pose proof (Forall_nth_error _ _ _ _ Hall Hk) as Ha.
    destruct (suspended a) eqn:Hs; try exact Hall.
    destruct response as [[|] |];
      try (apply catchBlock_withinLimit; assumption).
    cbn [pending]. apply Forall_update; [exact Hall |].
    destruct Ha as (H0 & Hmax & _). unfold withinLimit.
    cbn [retryCount suspended]. split; [exact H0 |].
    split; [exact Hmax | discriminate].
  - destruct (nth_error (pending rt) k) as [a |] eqn:Hk; [| exact Hall].
    pose proof (Forall_nth_error _ _ _ _ Hall Hk) as Ha.
    destruct (suspended a) eqn:Hs; try exact Hall.
    destruct data as [d |]; [| apply catchBlock_withinLimit; assumption].
    unfold received. destruct (extractReply d) as [reply |];
      [| apply catchBlock_withinLimit; assumption].
    destruct (truthy reply); [| apply catchBlock_withinLimit; assumption].
    destruct (stringifies reply);
      [| apply catchBlock_withinLimit; assumption].
    cbn [pending]. apply Forall_remove, Hall.
  - destruct (nth_error (pending rt) k) as [a |] eqn:Hk; [| exact Hall].
    pose proof (Forall_nth_error _ _ _ _ Hall Hk) as Ha.
    destruct (suspended a) eqn:Hs; try exact Hall.
    unfold retry, sendMessage. cbn [pending page].
    apply Forall_app. split; [apply Forall_remove, Hall |].
    constructor; [| constructor].
    destruct Ha as (H0 & Hmax & Hd). specialize (Hd Hs).
    unfold withinLimit. cbn [retryCount suspended].
    split; [lia |]. split; [lia | discriminate].
Qed.

(** X1: whatever the user and the network do, and in whatever order, no
    call of [sendMessage] started by the form ever carries a retry count
    below 0 or above the limit, and a call waits for a retry timer only
    below the limit. *)
Theorem retry_limit_kept :
  forall (cfg : Config) (w : World) (events : list event),
    Forall (withinLimit cfg) (pending (run cfg events (mkRuntime w []))).
Proof.
  intros cfg w events.
  assert (H : forall rt, Forall (withinLimit cfg) (pending rt) ->
                         Forall (withinLimit cfg)
                                (pending (run cfg events rt))).
  { unfold run. induction events as [| e events IH]; intros rt Hrt;
      [exact Hrt |].
    cbn [fold_left]. apply IH, step_withinLimit, Hrt. }
  apply H. constructor.
Qed.

(** ** The page at rest *)

Lemma finallyBlock_atRest (w : World) : atRest (fulfil (finallyBlock w)).
Proof.
  unfold atRest, finallyBlock. repeat split.
Qed.

Lemma update_not_nil {A} (l : list A) (k : nat) (a b : A) :
  nth_error l k = Some a -> update k b l <> [].
Proof.
  destruct l as [| x l]; destruct k; cbn; discriminate.
Qed.

Lemma catchBlock_rest cfg (k : nat) (a : activation) (rt : Runtime) :
  nth_error (pending rt) k = Some a ->
  pending (catchBlock cfg k a rt) = [] ->
  atRest (page (catchBlock cfg k a rt)).
Proof.
  intros Hk. unfold catchBlock.
  destruct (retryCount a <? maxRetries cfg)%Z; cbn [pending page].
  - intros H. destruct (update_not_nil _ _ _ _ Hk H).
  - intros _. apply finallyBlock_atRest.
Qed.

Lemma step_rest cfg (e : event) (rt : Runtime) :
  (pending rt = [] -> atRest (page rt)) ->
  pending (step cfg e rt) = [] -> atRest (page (step cfg e rt)).
Proof.
  intros Hrt. destruct e as [text | | k response | k data | k]; cbn [step].
  - cbn [pending page]. intros H. destruct (Hrt H) as (Hl & Ht & _).
    unfold atRest, handleInput. cbn. rewrite Hl.
    repeat split; [exact Ht |].
    rewrite orb_false_r, negb_involutive. reflexivity.
  - unfold handleSubmit.
    destruct (negb (JS.truthy (JS.trim (inputValue (page rt))))
              || isLoading (page rt)); [exact Hrt |].
    unfold sendMessage. cbn [pending]. intros H.
    apply app_eq_nil in H as [_ H]. discriminate H.
  - destruct (nth_error (pending rt) k) as [a |] eqn:Hk; [| exact Hrt].
    destruct (suspended a); try exact Hrt.
    destruct response as [[|] |]; try (apply catchBlock_rest; exact Hk).
    cbn [pending]. intros H. destruct (update_not_nil _ _ _ _ Hk H).
  - destruct (nth_error (pending rt) k) as [a |] eqn:Hk; [| exact Hrt].
    destruct (suspended a); try exact Hrt.
    destruct data as [d |]; [| apply catchBlock_rest; exact Hk].
    unfold received. destruct (extractReply d) as [reply |];
      [| apply catchBlock_rest; exact Hk].
    destruct (truthy reply); [| apply catchBlock_rest; exact Hk].
    destruct (stringifies reply);
      [| apply (catchBlock_rest cfg k a
                  (mkRuntime (appendMessageThrows (page rt)) (pending rt)));
         exact Hk].
    intros _. apply finallyBlock_atRest.
  - destruct (nth_error (pending rt) k) as [a |] eqn:Hk; [| exact Hrt].
    destruct (suspended a); try exact Hrt.
    unfold retry, sendMessage. cbn [pending]. intros H.
    apply app_eq_nil in H as [_ H]. discriminate H.
Qed.

(** X2: if the page starts at rest, then whenever no call is pending any
    more -- after a reply, after the retries have run out, in whatever
    order the events came -- the page is at rest again: not loading,
    typing indicator hidden, send button disabled exactly when the input
    is blank. *)
Theorem rest_when_idle :
  forall (cfg : Config) (w : World) (events : list event),
    atRest w ->
    pending (run cfg events (mkRuntime w [])) = [] ->
    atRest (page (run cfg events (mkRuntime w []))).
Proof.
  intros cfg w events Hw.
  assert (H : forall rt, (pending rt = [] -> atRest (page rt)) ->
                         pending (run cfg events rt) = [] ->
                         atRest (page (run cfg events rt))).
  { unfold run. induction events as [| e events IH]; intros rt Hrt;
      [exact Hrt |].
    cbn [fold_left]. apply IH, step_rest, Hrt. }
  apply H. intros _. exact Hw.
Qed.

Lemma rest_when_idle_witness :
  atRest (page (run CONFIG
                    [Typed (str "hi"); Submit; FetchSettled 0 (Some true);
                     JsonSettled 0 (Some (JStr (str "hello")));
                     Typed (str "x")]
                    (mkRuntime blank []))).
Proof.
  apply (rest_when_idle CONFIG blank).
  - repeat split.
  - reflexivity.
Defined.

(** ** What the chat can show *)

Lemma trimStart_head (s : jsstring) (c : char) (t : jsstring) :
  JS.trimStart s = c :: t -> JS.isSpace c = false.
Proof.
  induction s as [| x s IH]; cbn [JS.trimStart]; [discriminate |].
  destruct (JS.isSpace x) eqn:Hx; [exact IH |].
  intros H. injection H as <- _. exact Hx.
Qed.

Lemma trimStart_fixed (s : jsstring) :
  match s with [] => True | c :: _ => JS.isSpace c = false end ->
  JS.trimStart s = s.
Proof.
  destruct s as [| c s]; [reflexivity |]. cbn [JS.trimStart].
  intros ->. reflexivity.
Qed.

(** Trimming a trimmed string changes nothing. *)
Lemma trim_idempotent (s : jsstring) : JS.trim (JS.trim s) = JS.trim s.
Proof.
  unfold JS.trim.
  set (a := JS.trimStart s). set (b := JS.trimStart (rev a)).
  assert (Hb : JS.trimStart b = b).
  { apply trimStart_fixed. destruct b as [| c t] eqn:Hbt; [exact I |].
    apply (trimStart_head (rev a) c t). exact Hbt. }
  assert (Ha : JS.trimStart (rev b) = rev b).
  { apply trimStart_fixed. destruct (rev b) as [| c t] eqn:Hrb; [exact I |].
    destruct (trimStart_spec (rev a)) as (ws & Hws & _). fold b in Hws.
    apply (f_equal (@rev N)) in Hws.
    rewrite rev_involutive, rev_app_distr, Hrb in Hws. cbn [app] in Hws.
    apply (trimStart_head s c (t ++ rev ws)). exact Hws. }
  rewrite Ha, rev_involutive, Hb. reflexivity.
Qed.

Lemma catchBlock_chat cfg (k : nat) (a : activation) (rt : Runtime) :
  chatMessages (page (catchBlock cfg k a rt)) = chatMessages (page rt).
Proof.
  unfold catchBlock. destruct (retryCount a <? maxRetries cfg)%Z;
    reflexivity.
Qed.

Lemma step_chat cfg (e : event) (rt : Runtime) :
  chatMessages (page (step cfg e rt)) = chatMessages (page rt)
  \/ exists entry,
       wellShown entry
       /\ chatMessages (page (step cfg e rt)) = chatMessages (page rt) ++ [entry].
Proof.
  destruct e as [text | | k response | k data | k]; cbn [step].
  - left. reflexivity.
  - unfold handleSubmit.
    destruct (JS.truthy (JS.trim (inputValue (page rt)))) eqn:Ht;
      cbn [negb orb]; [| left; reflexivity].
    destruct (isLoading (page rt)); [left; reflexivity |].
    right. exists (JStr (JS.trim (inputValue (page rt))), user).
    split; [| reflexivity].
    exists (JS.trim (inputValue (page rt))).
    split; [reflexivity |]. split; [| apply trim_idempotent].
    intros H. rewrite H in Ht. discriminate Ht.
  - destruct (nth_error (pending rt) k) as [a |]; [| left; reflexivity].
    destruct (suspended a); try (left; reflexivity).
    destruct response as [[|] |];
      left; try reflexivity; apply catchBlock_chat.
  - destruct (nth_error (pending rt) k) as [a |]; [| left; reflexivity].
    destruct (suspended a); try (left; reflexivity).
    destruct data as [d |]; [| left; apply catchBlock_chat].
    unfold received. destruct (extractReply d) as [reply |];
      [| left; apply catchBlock_chat].
    destruct (truthy reply) eqn:Hr; [| left; apply catchBlock_chat].
    destruct (stringifies reply);
      [| left;
         apply (catchBlock_chat cfg k a
                  (mkRuntime (appendMessageThrows (page rt)) (pending rt)))].
    right. exists (reply, bot). split; [exact Hr | reflexivity].
  - destruct (nth_error (pending rt) k) as [a |]; [| left; reflexivity].
    destruct (suspended a); left; reflexivity.
Qed.

(** X3: the chat never shows an empty message: every event leaves the
    chat as it was or adds one message to its end, and if the messages
    shown at the start are user messages that are non-empty trimmed
    strings and replies that are truthy, so are all messages shown after
    any sequence of events. *)
Theorem chat_messages_well_shown :
  forall (cfg : Config) (events : list event) (rt : Runtime),
    Forall wellShown (chatMessages (page rt)) ->
    Forall wellShown (chatMessages (page (run cfg events rt)))
    /\ exists added,
         chatMessages (page (run cfg events rt))
         = chatMessages (page rt) ++ added.
Proof.
  intros cfg events. unfold run.
  induction events as [| e events IH]; intros rt Hrt; cbn [fold_left].
  - split; [exact Hrt |]. exists []. symmetry. apply app_nil_r.
  - destruct (step_chat cfg e rt) as [Heq | (entry & Hentry & Heq)].
    + rewrite <- Heq in Hrt |- *. apply IH, Hrt.
    + destruct (IH (step cfg e rt)) as [Hall (added & Hadd)].
      { rewrite Heq. apply Forall_app. split; [exact Hrt |].
        constructor; [exact Hentry | constructor]. }
      split; [exact Hall |]. exists (entry :: added).
      rewrite Hadd, Heq, <- app_assoc. reflexivity.
Qed.

Lemma chat_messages_well_shown_witness :
  Forall wellShown
         (chatMessages
            (page (run CONFIG
                       [Typed (str "  hi "); Submit;
                        FetchSettled 0 (Some true);
                        JsonSettled 0 (Some (JObj [(str "reply",
                                                    JStr (str "ok"))]))]
                       (mkRuntime blank [])))).
Proof.
  apply (chat_messages_well_shown CONFIG _ (mkRuntime blank [])).
  constructor.
Defined.

(** ** The keyboard *)

Lemma truthy_length (s : jsstring) :
  JS.truthy s = negb (Nat.eqb (length s) 0).
Proof. destruct s; reflexivity. Qed.

(** X4: once the user has edited the input, pressing Enter without Shift
    does exactly what submitting the form does, and pressing it with
    Shift, or pressing another key, does nothing: the state of the send
    button that [handleInput] leaves is the guard of [handleSubmit]. *)
Theorem enter_submits_after_input :
  forall (cfg : Config) (text : jsstring) (rt : Runtime),
    let typed := step cfg (Typed text) rt in
    handleKeydown (str "Enter") false typed = step cfg Submit typed
    /\ handleKeydown (str "Enter") true typed = typed
    /\ (forall key shift, key <> str "Enter" ->
                          handleKeydown key shift typed = typed).
Proof.
  intros cfg text rt typed. split; [| split].
  - unfold handleKeydown. cbn [JS.eqb str]. cbn [step].
    change (JS.eqb (str "Enter") (str "Enter") && negb false) with true.
    cbv iota.
    destruct (sendDisabled (page typed)) eqn:Hd; cbn [negb];
      [| reflexivity].
    unfold handleSubmit. subst typed. cbn [step page] in *.
    unfold handleInput in *. cbn in Hd |- *.
    rewrite truthy_length. rewrite Hd. reflexivity.
  - reflexivity.
  - intros key shift Hkey. unfold handleKeydown.
    destruct (JS.eqb key (str "Enter")) eqn:He; [| reflexivity].
    apply eqb_eq in He. contradiction.
Qed.

(** ** A send that succeeds after failures *)

(** A send at retry count [r] whose next [j] attempts fail, with [j]
    retries left at least: after them the call is in its attempt at
    count [r + j], and the page differs from the start only by the waits
    and requests of the retries. *)
Lemma chain_prefix cfg (msg : jsstring) (last : outcome) :
  forall (j r : nat) (outs : list outcome) (w : World),
    (Z.of_nat (r + j) <= maxRetries cfg)%Z ->
    length outs = j ->
    forallb fails outs = true ->
    exists w',
      run cfg (chain (outs ++ [last]))
          (mkRuntime w [mkActivation msg (Z.of_nat r) AwaitFetch])
      = run cfg (settle 0 last)
            (mkRuntime w' [mkActivation msg (Z.of_nat (r + j)) AwaitFetch])
      /\ trace w' = trace w ++ backoff msg (sessionId w) (retryDelay cfg) (S r) j
      /\ sessionId w' = sessionId w
      /\ chatMessages w' = chatMessages w
      /\ inputValue w' = inputValue w.
Proof.
  induction j as [| j IH]; intros r outs w Hmax Hlen Hfail.
  - destruct outs; [| discriminate Hlen]. exists w.
    rewrite Nat.add_0_r. cbn [app chain backoff seq flat_map].
    rewrite app_nil_r. repeat split.
  - destruct outs as [| o outs]; [discriminate Hlen |].
    cbn [forallb] in Hfail. apply andb_prop in Hfail as [Ho Hfail].
    cbn [length] in Hlen. injection Hlen as Hlen.
    assert (Hchain : chain ((o :: outs) ++ [last])
                     = settle 0 o ++ TimerFired 0 :: chain (outs ++ [last])).
    { cbn [app chain]. destruct (outs ++ [last]) eqn:He; [| reflexivity].
      destruct outs; discriminate He. }
    rewrite Hchain, run_app.
    rewrite (failed_attempt cfg
               (mkRuntime w [mkActivation msg (Z.of_nat r) AwaitFetch]) 0
               (mkActivation msg (Z.of_nat r) AwaitFetch) o
               eq_refl eq_refl Ho).
    unfold catchBlock. cbn [retryCount].
    replace (Z.of_nat r <? maxRetries cfg)%Z with true
      by (symmetry; apply Z.ltb_lt; lia).
    change (run cfg (TimerFired 0 :: chain (outs ++ [last])) ?x)
      with (run cfg (chain (outs ++ [last])) (step cfg (TimerFired 0) x)).
    cbn [step pending update nth_error suspended message retryCount page].
    unfold retry, sendMessage.
    cbn [pending remove message retryCount page app].
    replace (Z.of_nat r + 1)%Z with (Z.of_nat (S r)) by lia.
    match goal with
    | |- context [run cfg _ (mkRuntime ?w0 _)] =>
        destruct (IH (S r) outs w0) as (w' & Hrun & Ht & Hs & Hc & Hi)
    end; [lia | exact Hlen | exact Hfail |].
    exists w'. rewrite Hrun.
    replace (S r + j) with (r + S j) by lia.
    split; [reflexivity |].
    split; [| split; [exact Hs | split; [exact Hc | exact Hi]]].
    rewrite Ht. unfold backoff. cbn [seq flat_map].
    cbn. rewrite <- !app_assoc. cbn.
    replace (Z.of_nat r + 1)%Z with (Z.pos (Pos.of_succ_nat r)) by lia.
    reflexivity.
Qed.

(** X5: a send whose first [j] attempts fail and whose next attempt
    brings a usable reply (a truthy value that has a string), with [j]
    at most the retry limit, issues exactly [j + 1] requests with the
    waits delay * 1 .. delay * j, as JavaScript computes the products,
    in between, appends the reply once as a bot message, shows no toast,
    and is over with the page at rest. *)
Theorem reply_after_failures :
  forall (cfg : Config) (msg : jsstring) (w : World)
         (outs : list outcome) (data reply : jsval),
    (Z.of_nat (length outs) <= maxRetries cfg)%Z ->
    forallb fails outs = true ->
    extractReply data = Some reply ->
    truthy reply = true ->
    stringifies reply = true ->
    let j := length outs in
    let sid := sessionId w in
    let rt := run cfg (chain (outs ++ [Body data]))
                  (sendMessage msg 0 (mkRuntime w [])) in
    trace (page rt)
    = trace w ++ Fetch msg sid :: backoff msg sid (retryDelay cfg) 1 j
    /\ attempts (Fetch msg sid :: backoff msg sid (retryDelay cfg) 1 j) = j + 1
    /\ toasts (Fetch msg sid :: backoff msg sid (retryDelay cfg) 1 j) = 0
    /\ chatMessages (page rt) = chatMessages w ++ [(reply, bot)]
    /\ pending rt = []
    /\ atRest (page rt).
Proof.
  intros cfg msg w outs data reply Hmax Hfail Hdata Hreply Hstr j sid rt.
  subst sid.
  destruct (chain_prefix cfg msg (Body data) j 0 outs
              (emit (Fetch msg (sessionId w))
                    (setTyping true (setLoading true w))))
    as (w' & Hrun & Ht & Hs & Hc & Hi); [exact Hmax | reflexivity
                                        | exact Hfail |].
  cbn [Z.of_nat trace emit setTyping setLoading sessionId chatMessages]
    in Hrun, Ht, Hc.
  assert (Hrt : rt = mkRuntime
                      (fulfil (finallyBlock (appendMessage reply bot w'))) []).
  { subst rt. unfold sendMessage.
    cbn [page pending app sessionId setTyping setLoading].
    rewrite Hrun.
    cbn [settle run fold_left step pending nth_error suspended update
         page message retryCount].
    unfold received. rewrite Hdata, Hreply, Hstr. reflexivity. }
  rewrite Hrt. cbn [page pending].
  split.
  { change (trace (fulfil (finallyBlock (appendMessage reply bot w'))))
      with (trace w').
    rewrite Ht, <- app_assoc. reflexivity. }
  split.
  { unfold attempts. cbn [filter length].
    fold (attempts (backoff msg (sessionId w) (retryDelay cfg) 1 j)).
    rewrite attempts_backoff. lia. }
  split.
  { unfold toasts. cbn [filter].
    fold (toasts (backoff msg (sessionId w) (retryDelay cfg) 1 j)).
    apply toasts_backoff. }
  split.
  { change (chatMessages (fulfil (finallyBlock (appendMessage reply bot w'))))
      with (chatMessages w' ++ [(reply, bot)]).
    rewrite Hc. reflexivity. }
  split; [reflexivity | apply finallyBlock_atRest].
Qed.

Lemma reply_after_failures_witness :
  let rt := run CONFIG
                (chain ([TransportError; BadStatus]
                          ++ [Body (JObj [(str "text", JStr (str "ok"))])]))
                (sendMessage (str "hi") 0 (mkRuntime blank [])) in
  trace (page rt)
  = [Fetch (str "hi") []; Delay 1000; Fetch (str "hi") []; Delay 2000;
     Fetch (str "hi") []]
  /\ chatMessages (page rt) = [(JStr (str "ok"), bot)].
Proof.
  cbv zeta.
  destruct (reply_after_failures CONFIG (str "hi") blank
              [TransportError; BadStatus]
              (JObj [(str "text", JStr (str "ok"))]) (JStr (str "ok")))
    as (Ht & _ & _ & Hc & _).
  - cbn. lia.
  - reflexivity.
  - reflexivity.
  - reflexivity.
  - reflexivity.
  - split; [exact Ht | exact Hc].
Defined.

(** ** What the extractor can return *)

Lemma or_truthy_or_other (a b : jsval) :
  truthy (or a b) = true \/ or a b = b.
Proof.
  unfold or. destruct (truthy a) eqn:Ha; [left; exact Ha | right; reflexivity].
Qed.

(** X6: for a payload that is not a string, [extractReply] returns a
    truthy value or null, never [undefined], [false], 0 or the empty
    string; a string payload comes back as it is, even when empty; and
    only [null] makes it throw. *)
Theorem extractReply_truthy_or_null :
  forall data : jsval,
    match data with
    | JStr _ => extractReply data = Some data
    | JUndef | JNull => extractReply data = None
    | _ => exists v, extractReply data = Some v
                     /\ (truthy v = true \/ v = JNull)
    end.
Proof.
  assert (H : forall a1 a2 a3 a4 a5 a6 a7 a8 a9,
             let v := or a1 (or a2 (or a3 (or a4 (or a5 (or a6 (or a7
                        (or a8 (or a9 JNull)))))))) in
             truthy v = true \/ v = JNull).
  { intros. subst v.
    repeat match goal with
           | |- truthy (or ?a ?b) = true \/ or ?a ?b = JNull =>
               destruct (or_truthy_or_other a b) as [Ht | ->];
               [left; exact Ht |]
           end.
    right. reflexivity. }
  intros data. destruct data; try reflexivity;
    (eexists; split; [reflexivity | apply H]).
Qed.

(** ** The session identifier *)

Lemma eqb_refl (a : jsstring) : JS.eqb a a = true.
Proof. apply eqb_eq. reflexivity. Qed.

Lemma eqb_neq (a b : jsstring) : a <> b -> JS.eqb a b = false.
Proof.
  intros H. destruct (JS.eqb a b) eqn:He; [| reflexivity].
  apply eqb_eq in He. contradiction.
Qed.

Lemma getItem_setItem (key value : jsstring) (st : Session.Storage) :
  Session.getItem key (Session.setItem key value st) = Some value.
Proof.
  induction st as [| [k v] st IH]; cbn.
  - rewrite eqb_refl. reflexivity.
  - destruct (JS.eqb key k) eqn:He; cbn; rewrite He; [reflexivity | exact IH].
Qed.

Lemma getItem_setItem_other (key other value : jsstring)
      (st : Session.Storage) :
  other <> key ->
  Session.getItem other (Session.setItem key value st)
  = Session.getItem other st.
Proof.
  intros Hne. induction st as [| [k v] st IH]; cbn.
  - rewrite (eqb_neq _ _ Hne). reflexivity.
  - destruct (JS.eqb key k) eqn:He; cbn.
    + apply eqb_eq in He. subst k. rewrite (eqb_neq _ _ Hne). reflexivity.
    + destruct (JS.eqb other k); [reflexivity | exact IH].
Qed.

Lemma getItem_removeItem (key : jsstring) (st : Session.Storage) :
  Session.getItem key (Session.removeItem key st) = None.
Proof.
  induction st as [| [k v] st IH]; cbn; [reflexivity |].
  destruct (JS.eqb key k) eqn:He; cbn; [exact IH |]. rewrite He. exact IH.
Qed.

Lemma getItem_removeItem_other (key other : jsstring) (st : Session.Storage) :
  other <> key ->
  Session.getItem other (Session.removeItem key st)
  = Session.getItem other st.
Proof.
  intros Hne. induction st as [| [k v] st IH]; cbn; [reflexivity |].
  destruct (JS.eqb key k) eqn:He; cbn.
  - apply eqb_eq in He. subst k. rewrite (eqb_neq _ _ Hne). exact IH.
  - destruct (JS.eqb other k); [reflexivity | exact IH].
Qed.

(** X7: [getOrCreateSessionId] always returns a non-empty identifier and
    leaves it in session storage; asking again returns the same
    identifier and changes nothing, whatever the clock and the random
    source say by then; and no other key of the storage is touched. *)
Theorem session_id_stable :
  forall (now random : jsstring) (st : Session.Storage),
    let id := fst (Session.getOrCreateSessionId now random st) in
    let st' := snd (Session.getOrCreateSessionId now random st) in
    id <> []
    /\ Session.getItem Session.sessionKey st' = Some id
    /\ (forall now' random',
           Session.getOrCreateSessionId now' random' st' = (id, st'))
    /\ (forall key, key <> Session.sessionKey ->
                    Session.getItem key st' = Session.getItem key st).
Proof.
  intros now random st.
  assert (Hcreate :
            forall id st',
              id <> [] -> st' = Session.setItem Session.sessionKey id st ->
              id <> []
              /\ Session.getItem Session.sessionKey st' = Some id
              /\ (forall now' random',
                     Session.getOrCreateSessionId now' random' st' = (id, st'))
              /\ (forall key, key <> Session.sessionKey ->
                              Session.getItem key st' = Session.getItem key st)).
  { intros id st' Hid ->.
    split; [exact Hid |]. split; [apply getItem_setItem |].
    split; [| intros key Hkey; apply getItem_setItem_other, Hkey].
    intros now' random'. unfold Session.getOrCreateSessionId.
    rewrite getItem_setItem. destruct id; [contradiction | reflexivity]. }
  unfold Session.getOrCreateSessionId.
  destruct (Session.getItem Session.sessionKey st) as [stored |] eqn:Hget.
  - destruct stored as [| c stored].
    + cbn [JS.truthy fst snd]. apply Hcreate; [discriminate | reflexivity].
    + cbn [JS.truthy fst snd].
      split; [discriminate |]. split; [exact Hget |].
      split; [| reflexivity].
      intros now' random'. unfold Session.getOrCreateSessionId.
      rewrite Hget. reflexivity.
  - cbn [fst snd]. apply Hcreate; [discriminate | reflexivity].
Qed.

(** X8: after [clearHistory] the two keys of the script are gone from
    session storage and the other keys are as before; the next
    [getOrCreateSessionId] therefore makes a new identifier from the
    clock and the random source, nine code units of the random text at
    most, instead of returning the old one. *)
Theorem clearHistory_forgets_session :
  forall (now random : jsstring) (st : Session.Storage),
    let cleared := Session.clearHistory st in
    Session.getItem Session.sessionKey cleared = None
    /\ Session.getItem Session.historyKey cleared = None
    /\ (forall key, key <> Session.sessionKey -> key <> Session.historyKey ->
                    Session.getItem key cleared = Session.getItem key st)
    /\ fst (Session.getOrCreateSessionId now random cleared)
       = str "session_" ++ now ++ str "_" ++ Session.substring 2 11 random
    /\ length (Session.substring 2 11 random) <= 9.
Proof.
  intros now random st cleared. subst cleared. unfold Session.clearHistory.
  assert (Hs : Session.getItem Session.sessionKey
                 (Session.removeItem Session.sessionKey
                    (Session.removeItem Session.historyKey st)) = None)
    by apply getItem_removeItem.
  split; [exact Hs |].
  split.
  { rewrite getItem_removeItem_other by discriminate.
    apply getItem_removeItem. }
  split.
  { intros key H1 H2. rewrite !getItem_removeItem_other by assumption.
    reflexivity. }
  split.
  { unfold Session.getOrCreateSessionId. rewrite Hs. reflexivity. }
  unfold Session.substring. rewrite length_firstn. lia.
Qed.

(** ** Escaping *)

Lemma serializeText_cons (c : char) (t : jsstring) :
  serializeText (c :: t)
  = (if (c =? 38)%N then str "&amp;"
     else if (c =? 160)%N then str "&nbsp;"
     else if (c =? 60)%N then str "&lt;"
     else if (c =? 62)%N then str "&gt;"
     else [c]) ++ serializeText t.
Proof. reflexivity. Qed.

(** X9: [escapeHtml] loses nothing: two texts with the same escaped form
    are the same text. *)
Theorem escapeHtml_injective :
  forall (a b : jsstring) (w1 w2 : World),
    fst (escapeHtml a w1) = fst (escapeHtml b w2) -> a = b.
Proof.
  intros a b w1 w2. unfold escapeHtml, createElement, bind, ret. cbn [fst].
  revert b. induction a as [| x a IH]; intros [| y b] H.
  - reflexivity.
  - rewrite serializeText_cons in H. cbn [serializeText] in H.
    destruct (y =? 38)%N; [discriminate |].
    destruct (y =? 160)%N; [discriminate |].
    destruct (y =? 60)%N; [discriminate |].
    destruct (y =? 62)%N; discriminate.
  - rewrite serializeText_cons in H. cbn [serializeText] in H.
    destruct (x =? 38)%N; [discriminate |].
    destruct (x =? 160)%N; [discriminate |].
    destruct (x =? 60)%N; [discriminate |].
    destruct (x =? 62)%N; discriminate.
  - rewrite !serializeText_cons in H.
    destruct (N.eqb_spec x 38) as [-> | Hx1];
      [| destruct (N.eqb_spec x 160) as [-> | Hx2];
         [| destruct (N.eqb_spec x 60) as [-> | Hx3];
            [| destruct (N.eqb_spec x 62) as [-> | Hx4]]]];
      (destruct (N.eqb_spec y 38) as [-> | Hy1];
       [| destruct (N.eqb_spec y 160) as [-> | Hy2];
          [| destruct (N.eqb_spec y 60) as [-> | Hy3];
             [| destruct (N.eqb_spec y 62) as [-> | Hy4]]]]);
      cbn in H; try discriminate H;
      try (injection H as H; f_equal; apply IH; exact H);
      try (injection H as Hc H; congruence);
      try (injection H as Hc H; subst; f_equal; apply IH; exact H).
Qed.

Lemma escapeHtml_injective_witness :
  fst (escapeHtml (str "a<b") blank)
  = fst (escapeHtml (str "a<b") (setLoading true blank))
  /\ str "a<b" = str "a<b".
Proof.
  split; [reflexivity |].
  apply (escapeHtml_injective (str "a<b") (str "a<b") blank
           (setLoading true blank)).
  reflexivity.
Defined.

(** X10: [escapeHtml] returns a text unchanged exactly when the text
    holds none of &, <, > and the no-break space; otherwise the result
    is longer than the text. *)
Theorem escapeHtml_identity :
  forall (t : jsstring) (w : World),
    (fst (escapeHtml t w) = t
     <-> Forall (fun c => c <> 38%N /\ c <> 160%N /\ c <> 60%N /\ c <> 62%N) t)
    /\ length t <= length (fst (escapeHtml t w)).
Proof.
  intros t w. unfold escapeHtml, createElement, bind, ret. cbn [fst].
  assert (Hlen : forall s, length s <= length (serializeText s)).
  { induction s as [| c s IH]; [reflexivity |].
    rewrite serializeText_cons, length_app. cbn [length].
    destruct (c =? 38)%N; [cbn; lia |].
    destruct (c =? 160)%N; [cbn; lia |].
    destruct (c =? 60)%N; [cbn; lia |].
    destruct (c =? 62)%N; cbn; lia. }
  split; [| apply Hlen].
  induction t as [| c t IH]; [split; [constructor | reflexivity] |].
  rewrite serializeText_cons.
  destruct (N.eqb_spec c 38) as [-> | H1];
    [| destruct (N.eqb_spec c 160) as [-> | H2];
       [| destruct (N.eqb_spec c 60) as [-> | H3];
          [| destruct (N.eqb_spec c 62) as [-> | H4]]]].
  5:{ cbn [app]. split.
      - intros H. injection H as H. constructor; [auto | apply IH, H].
      - intros H. inversion H; subst. f_equal. apply IH. assumption. }
  all: split;
    [ intros H; exfalso; apply (f_equal (@length N)) in H;
      rewrite length_app in H; cbn [length str] in H;
      pose proof (Hlen t); cbn in H; lia
    | intros H; inversion H as [| ? ? (? & ? & ? & ?) ?]; congruence ].
Qed.

(** ** Where the patterns find nothing *)

Lemma search_none (r : re) (w : jsstring) (last : nat) :
  (forall u v y, w = u ++ v ->
                 ~ Matches r (MState (last + length u) v (fun _ => None)) y) ->
  search r last w = None.
Proof.
  intros H. destruct (search r last w) as [[i y] |] eqn:Hs; [| reflexivity].
  apply search_found in Hs as (u & v & -> & -> & He).
  apply exec_Matches in He. destruct (H u v y eq_refl He).
Qed.

Lemma replace_none (r : re) (template s : jsstring) :
  search r 0 s = None -> replace r template s = s.
Proof.
  intros H. unfold replace. cbn [replaceLoop]. rewrite H. reflexivity.
Qed.

(** ** Line breaks *)

(** The first match of a one-letter pattern. *)
Lemma search_Lit (ch : char) (w : jsstring) :
  forall last,
    (Forall (fun c => c <> ch) w /\ search (Lit ch) last w = None)
    \/ (exists u t,
           w = u ++ ch :: t /\ Forall (fun c => c <> ch) u
           /\ search (Lit ch) last w
              = Some (last + length u,
                      MState (S (last + length u)) t (fun _ => None))).
Proof.
  induction w as [| a w IH]; intros last.
  - left. split; [constructor | reflexivity].
  - cbn [search]. unfold exec. cbn [m rest advance pos caps].
    destruct (N.eqb_spec a ch) as [-> | Hne].
    + right. exists [], w. cbn [app length]. rewrite Nat.add_0_r.
      split; [reflexivity |]. split; [constructor | reflexivity].
    + destruct (IH (S last)) as [[Hall Hs] | (u & t & -> & Hu & Hs)].
      * left. split; [constructor; assumption | exact Hs].
      * right. exists (a :: u), t. cbn [app length].
        split; [reflexivity |]. split; [constructor; assumption |].
        rewrite Hs. replace (S last + length u) with (last + S (length u))
          by lia.
        reflexivity.
Qed.

Lemma lineBreaks_plain (u : jsstring) :
  Forall (fun c => c <> LF) u -> lineBreaks u = u.
Proof.
  induction 1 as [| c u Hc _ IH]; [reflexivity |].
  unfold lineBreaks in *. cbn [flat_map].
  destruct (N.eqb_spec c LF); [contradiction |]. rewrite IH. reflexivity.
Qed.

Lemma lineBreaks_app (a b : jsstring) :
  lineBreaks (a ++ b) = lineBreaks a ++ lineBreaks b.
Proof. apply flat_map_app. Qed.

Lemma replaceLoop_newline (s : jsstring) :
  forall n w, length w <= n ->
  forall fuel last, length w < fuel ->
    replaceLoop fuel reNewline (str "<br>") s last w = lineBreaks w.
Proof.
  induction n as [| n IH]; intros w Hn fuel last Hfuel;
    (destruct fuel as [| fuel]; [lia |]); cbn [replaceLoop]; unfold reNewline;
    destruct (search_Lit LF w last) as [[Hall Hs] | (u & t & -> & Hu & Hs)];
    rewrite Hs.
  - symmetry. apply lineBreaks_plain, Hall.
  - rewrite length_app in Hn. cbn in Hn. lia.
  - symmetry. apply lineBreaks_plain, Hall.
  - cbn [pos rest caps].
    replace (last + length u - last) with (length u) by lia.
    rewrite (firstn_exact u _ _ eq_refl).
    replace (Nat.eqb (S (last + length u)) (last + length u)) with false
      by (symmetry; apply Nat.eqb_neq; lia).
    rewrite length_app in Hn, Hfuel. cbn [length] in Hn, Hfuel.
    rewrite (IH t) by lia.
    rewrite lineBreaks_app, (lineBreaks_plain u Hu).
    unfold lineBreaks at 2. cbn [flat_map]. rewrite N.eqb_refl.
    reflexivity.
Qed.

(** X11: [para.replace(/\n/g, '<br>')] writes a line break tag for every
    line feed of the paragraph and changes nothing else. *)
Theorem newlines_become_breaks :
  forall para : jsstring,
    replace reNewline (str "<br>") para = lineBreaks para.
Proof.
  intros para. unfold replace.
  apply (replaceLoop_newline para (length para)); lia.
Qed.

(** ** The markup is never empty *)

Lemma replace_head (r : re) (template s : jsstring) :
  exists t, replace r (60%N :: template) (60%N :: s) = 60%N :: t.
Proof.
  unfold replace. cbn [replaceLoop length].
  destruct (search r 0 (60%N :: s)) as [[i y] |] eqn:Hs;
    [| eexists; reflexivity].
  destruct i as [| i].
  - cbn [Nat.sub firstn app GetSubstitution].
    change (negb (60 =? 36)%N) with true. cbn iota. eexists. reflexivity.
  - cbn [Nat.sub firstn app]. eexists. reflexivity.
Qed.

Lemma splitFuel_cons (fuel : nat) (sep s : jsstring) :
  exists p ps, JS.splitFuel fuel sep s = p :: ps.
Proof.
  destruct fuel as [| fuel]; cbn [JS.splitFuel]; [eexists; eexists; reflexivity |].
  destruct (JS.cut sep s) as [[before after] |]; eexists; eexists; reflexivity.
Qed.

Lemma join_nil (parts : list jsstring) : JS.join [] parts = concat parts.
Proof.
  induction parts as [| p parts IH]; [reflexivity |].
  cbn [JS.join concat]. destruct parts as [| q parts].
  - cbn. rewrite app_nil_r. reflexivity.
  - rewrite IH. reflexivity.
Qed.

(** X12: whatever the content, the markup that [formatMessage] returns
    begins with a tag; it is never the empty string. *)
Theorem formatted_begins_with_tag :
  forall content : jsstring, exists t, formatted content = 60%N :: t.
Proof.
  intros content.
  change (formatted content)
    with (tables (bold (bullets (paragraphs (serializeText content))))).
  assert (H1 : exists t, paragraphs (serializeText content) = 60%N :: t).
  { unfold paragraphs, JS.split. rewrite join_nil.
    destruct (splitFuel_cons (length (serializeText content)) [LF; LF]
                             (serializeText content)) as (p & ps & ->).
    cbn [map concat]. eexists. reflexivity. }
  destruct H1 as (t1 & ->).
  assert (H2 : exists t, bullets (60%N :: t1) = 60%N :: t).
  { unfold bullets.
    destruct (replace_head reBullet (str "li>$1</li>") t1) as (t & Ht).
    change (str "<li>$1</li>") with (60%N :: str "li>$1</li>").
    rewrite Ht.
    apply (replace_head reItems (str "ul>$&</ul>") t). }
  destruct H2 as (t2 & ->).
  assert (H3 : exists t, bold (60%N :: t2) = 60%N :: t).
  { apply (replace_head reBold (str "strong>$1</strong>") t2). }
  destruct H3 as (t3 & ->).
  unfold tables.
  destruct (JS.includes _ _ && JS.includes _ _); [| eexists; reflexivity].
  unfold convertToTable.
  destruct (length _ <? 2); [eexists; reflexivity |].
  apply (replace_head reTable
           (str "table>" ++ tableRows 0 (tableLines (60%N :: t3))
              ++ str "</table>") t3).
Qed.

(** ** Bold spans *)

Lemma Matches_reBold (x y : mstate) :
  Matches reBold x y ->
  exists g, rest x = str "**" ++ g ++ str "**" ++ rest y
            /\ pos y = pos x + 4 + length g
            /\ caps y 1 = Some g.
Proof.
  intros He. unfold reBold in He.
  apply Matches_Cat in He as (y1 & H1 & He).
  apply Matches_Cat in He as (y2 & H2 & H3).
  apply Matches_lits in H1 as (Hr1 & Hp1 & Hc1).
  apply Matches_Grp in H2 as (y1' & g & _ & Hr2 & Hp2 & ->).
  apply Matches_lits in H3 as (Hr3 & Hp3 & Hc3).
  cbn [rest pos caps setCap length] in *.
  exists g. rewrite Hr1, Hr2, Hr3, Hc3.
  change (length (str "**")) with 2 in *.
  split; [reflexivity |]. split; [lia | reflexivity].
Qed.

Lemma stars_app (a b : jsstring) : stars (a ++ b) = stars a + stars b.
Proof. apply count_occ_app. Qed.

Lemma search_reBold_few (s : jsstring) (last : nat) :
  stars s < 4 -> search reBold last s = None.
Proof.
  intros Hs. apply search_none.
  intros u v y -> H. apply Matches_reBold in H as (g & Hr & _).
  cbn [rest] in Hr. rewrite Hr in Hs. rewrite !stars_app in Hs.
  change (stars (str "**")) with 2 in Hs. lia.
Qed.

(** X13: a text with fewer than four asterisks has no bold span:
    [replace(/\*\*(.*?)\*\*/g, ...)] returns it unchanged, so that an
    unmatched pair of asterisks stays as it is. *)
Theorem bold_needs_two_pairs :
  forall s : jsstring, stars s < 4 -> bold s = s.
Proof.
  intros s Hs. unfold bold. apply replace_none, search_reBold_few, Hs.
Qed.

Lemma bold_needs_two_pairs_witness :
  bold (str "2 ** 3 is 8 * 1") = str "2 ** 3 is 8 * 1".
Proof. apply bold_needs_two_pairs. vm_compute. lia. Defined.

(** ** Ordinary text *)

Lemma unmarked_suffix (u v : jsstring) :
  unmarked (u ++ v) = true -> marked v = false.
Proof.
  induction u as [| c u IH]; cbn [app]; intros H.
  - destruct v; cbn [unmarked] in H; apply andb_prop in H as [H _];
      apply negb_true_iff in H; exact H.
  - cbn [unmarked] in H. apply andb_prop in H as [_ H]. apply IH, H.
Qed.

Lemma search_unmarked (r : re) (s : jsstring) (last : nat) :
  (forall x y, Matches r x y -> marked (rest x) = true) ->
  unmarked s = true -> search r last s = None.
Proof.
  intros Hr Hs. apply search_none. intros u v y -> H. apply Hr in H.
  cbn [rest] in H. rewrite (unmarked_suffix u v Hs) in H. discriminate.
Qed.

Lemma marked_p (c : char) (t : jsstring) :
  marked (60%N :: 112%N :: 62%N :: c :: t) = bulletClass c.
Proof. reflexivity. Qed.

Lemma marked_li (t : jsstring) :
  marked (60%N :: 108%N :: 105%N :: 62%N :: t) = true.
Proof. destruct t; reflexivity. Qed.

Lemma marked_stars (t : jsstring) : marked (42%N :: 42%N :: t) = true.
Proof. destruct t; reflexivity. Qed.

Lemma reBullet_marked (x y : mstate) :
  Matches reBullet x y -> marked (rest x) = true.
Proof.
  unfold reBullet. intros H.
  apply Matches_Cat in H as (y1 & H1 & H).
  apply Matches_Cat in H as (y2 & H2 & _).
  apply Matches_lits in H1 as (Hr1 & _).
  apply Matches_Class in H2 as (c & Hr2 & Hc & _).
  rewrite Hr1, Hr2.
  change (marked (60%N :: 112%N :: 62%N :: c :: rest y2) = true).
  rewrite marked_p. exact Hc.
Qed.

Lemma reItems_marked (x y : mstate) :
  Matches reItems x y -> marked (rest x) = true.
Proof.
  unfold reItems. intros H. apply Matches_plus in H.
  destruct (clearCaps_pos_rest [1] x) as [_ Hcr].
  assert (Hfirst : exists y1,
             Matches (Grp 1 (Cat (lits (str "<li>"))
                                 (Cat (star dot) (lits (str "</li>")))))
                     (clearCaps [1] x) y1).
  { destruct H as [x y H | x y z H _]; exists y; exact H. }
  destruct Hfirst as (y1 & H1).
  apply Matches_Grp in H1 as (y' & w & H1 & _).
  apply Matches_Cat in H1 as (y2 & H1 & _).
  apply Matches_lits in H1 as (Hr & _).
  rewrite Hcr in Hr. rewrite Hr. apply marked_li.
Qed.

Lemma reBold_marked (x y : mstate) :
  Matches reBold x y -> marked (rest x) = true.
Proof.
  intros H. apply Matches_reBold in H as (g & Hr & _). rewrite Hr.
  apply marked_stars.
Qed.

Lemma unmarked_cons (c : char) (w : jsstring) :
  c <> 42%N -> c <> 60%N -> unmarked (c :: w) = unmarked w.
Proof.
  intros H1 H2. cbn [unmarked].
  assert (H : marked (c :: w) = false).
  { unfold marked. cbn.
    rewrite (proj2 (N.eqb_neq c 42) H1), (proj2 (N.eqb_neq c 60) H2).
    reflexivity. }
  rewrite H. reflexivity.
Qed.

Lemma unmarked_lt (c : char) (w : jsstring) :
  c <> 108%N -> c <> 112%N -> unmarked (60%N :: c :: w) = unmarked (c :: w).
Proof.
  intros H1 H2.
  assert (H : marked (60%N :: c :: w) = false).
  { unfold marked. cbn.
    rewrite (proj2 (N.eqb_neq c 108) H1), (proj2 (N.eqb_neq c 112) H2).
    reflexivity. }
  change (unmarked (60%N :: c :: w))
    with (negb (marked (60%N :: c :: w)) && unmarked (c :: w)).
  rewrite H. reflexivity.
Qed.

Lemma unmarked_p (w : jsstring) :
  unmarked (60%N :: 112%N :: 62%N :: w)
  = negb (match w with c :: _ => bulletClass c | [] => false end)
    && unmarked w.
Proof.
  change (unmarked (60%N :: 112%N :: 62%N :: w))
    with (negb (marked (60%N :: 112%N :: 62%N :: w))
          && unmarked (112%N :: 62%N :: w)).
  rewrite !unmarked_cons by discriminate.
  destruct w; reflexivity.
Qed.

Lemma lineBreaks_one (c : char) : c <> LF -> lineBreaks [c] = [c].
Proof.
  intros H. unfold lineBreaks. cbn [flat_map].
  destruct (N.eqb_spec c LF); [contradiction | reflexivity].
Qed.

(** The cases of one code unit of the text: the four that are escaped,
    the line feed, and the others. *)
Lemma text_cases (c : char) (p : jsstring) :
  (c = 38%N /\ lineBreaks (serializeText (c :: p))
               = str "&amp;" ++ lineBreaks (serializeText p))
  \/ (c = 160%N /\ lineBreaks (serializeText (c :: p))
                   = str "&nbsp;" ++ lineBreaks (serializeText p))
  \/ (c = 60%N /\ lineBreaks (serializeText (c :: p))
                  = str "&lt;" ++ lineBreaks (serializeText p))
  \/ (c = 62%N /\ lineBreaks (serializeText (c :: p))
                  = str "&gt;" ++ lineBreaks (serializeText p))
  \/ (c = LF /\ lineBreaks (serializeText (c :: p))
                = str "<br>" ++ lineBreaks (serializeText p))
  \/ (c <> 38%N /\ c <> 160%N /\ c <> 60%N /\ c <> 62%N /\ c <> LF
      /\ lineBreaks (serializeText (c :: p))
         = c :: lineBreaks (serializeText p)).
Proof.
  rewrite serializeText_cons, lineBreaks_app.
  destruct (N.eqb_spec c 38) as [-> | H1]; [left; split; reflexivity |].
  destruct (N.eqb_spec c 160) as [-> | H2];
    [right; left; split; reflexivity |].
  destruct (N.eqb_spec c 60) as [-> | H3];
    [right; right; left; split; reflexivity |].
  destruct (N.eqb_spec c 62) as [-> | H4];
    [right; right; right; left; split; reflexivity |].
  destruct (N.eq_dec c LF) as [-> | H5];
    [right; right; right; right; left; split; reflexivity |].
  do 5 right. rewrite (lineBreaks_one c H5).
  repeat (split; [assumption |]). reflexivity.
Qed.

Lemma unmarked_text (p tail : jsstring) :
  Forall (fun c => c <> 42%N) p ->
  unmarked (lineBreaks (serializeText p) ++ tail) = unmarked tail.
Proof.
  induction 1 as [| c p Hc _ IH]; [reflexivity |].
  destruct (text_cases c p)
    as [[_ ->] | [[_ ->] | [[_ ->] | [[_ ->] | [[_ ->] | H]]]]].
  - change (str "&amp;" ++ ?a) with (38 :: 97 :: 109 :: 112 :: 59 :: a)%N.
    cbn [app]. rewrite !unmarked_cons by discriminate. exact IH.
  - change (str "&nbsp;" ++ ?a)
      with (38 :: 110 :: 98 :: 115 :: 112 :: 59 :: a)%N.
    cbn [app]. rewrite !unmarked_cons by discriminate. exact IH.
  - change (str "&lt;" ++ ?a) with (38 :: 108 :: 116 :: 59 :: a)%N.
    cbn [app]. rewrite !unmarked_cons by discriminate. exact IH.
  - change (str "&gt;" ++ ?a) with (38 :: 103 :: 116 :: 59 :: a)%N.
    cbn [app]. rewrite !unmarked_cons by discriminate. exact IH.
  - change (str "<br>" ++ ?a) with (60 :: 98 :: 114 :: 62 :: a)%N.
    cbn [app]. rewrite unmarked_lt by discriminate.
    rewrite !unmarked_cons by discriminate. exact IH.
  - destruct H as (_ & _ & H3 & _ & _ & ->). cbn [app].
    rewrite unmarked_cons by assumption. exact IH.
Qed.

Lemma text_head (p tail : jsstring) :
  noBullet p ->
  match lineBreaks (serializeText p) ++ str "</p>" ++ tail with
  | c :: _ => bulletClass c
  | [] => false
  end = false.
Proof.
  destruct p as [| c p]; [reflexivity |]. cbn [noBullet]. intros Hc.
  destruct (text_cases c p)
    as [[_ ->] | [[_ ->] | [[_ ->] | [[_ ->] | [[_ ->] | H]]]]];
    try reflexivity.
  destruct H as (_ & _ & _ & _ & _ & ->). exact Hc.
Qed.

Lemma text_without (ch : char) (p : jsstring) :
  Forall (fun c => c <> ch) (str "&amp;&nbsp;&lt;&gt;<br>") ->
  Forall (fun c => c <> ch) p ->
  Forall (fun c => c <> ch) (lineBreaks (serializeText p)).
Proof.
  intros Hch. induction 1 as [| c p Hc _ IH]; [constructor |].
  assert (Hin : forall w, incl w (str "&amp;&nbsp;&lt;&gt;<br>") ->
                          Forall (fun c => c <> ch) w).
  { intros w Hw. apply Forall_forall. intros a Ha.
    apply (proj1 (Forall_forall _ _) Hch), Hw, Ha. }
  destruct (text_cases c p)
    as [[_ ->] | [[_ ->] | [[_ ->] | [[_ ->] | [[_ ->] | H]]]]].
  1-5: apply Forall_app; split; [apply Hin | exact IH];
    intros a Ha; cbn in Ha |- *; tauto.
  destruct H as (_ & _ & _ & _ & _ & ->). constructor; assumption.
Qed.

Lemma cut_absent (ch : char) (s : jsstring) :
  Forall (fun c => c <> ch) s -> JS.cut [ch] s = None.
Proof.
  induction 1 as [| c s Hc _ IH]; [reflexivity |].
  cbn [JS.cut JS.startsWith]. rewrite (proj2 (N.eqb_neq c ch) Hc).
  cbn [andb]. rewrite IH. reflexivity.
Qed.

Lemma splitFuel_Forall (Q : char -> Prop) (sep : jsstring) :
  forall fuel s,
    Forall Q s -> Forall (Forall Q) (JS.splitFuel fuel sep s).
Proof.
  induction fuel as [| fuel IH]; intros s Hs; cbn [JS.splitFuel].
  - constructor; [exact Hs | constructor].
  - destruct (JS.cut sep s) as [[before after] |] eqn:Hc;
      [| constructor; [exact Hs | constructor]].
    apply cut_spec in Hc. subst s.
    apply Forall_app in Hs as [Hb Hs]. apply Forall_app in Hs as [_ Ha].
    constructor; [exact Hb | apply IH, Ha].
Qed.

Lemma startsWith_nil (s : jsstring) : JS.startsWith s [] = true.
Proof. destruct s; reflexivity. Qed.

(** Escaping keeps the paragraphs apart. *)
Lemma startsWith_serializeText (s : jsstring) :
  JS.startsWith (serializeText s) [LF] = JS.startsWith s [LF].
Proof.
  destruct s as [| c s]; [reflexivity |]. rewrite serializeText_cons.
  destruct (N.eqb_spec c 38) as [-> | H1]; [reflexivity |].
  destruct (N.eqb_spec c 160) as [-> | H2]; [reflexivity |].
  destruct (N.eqb_spec c 60) as [-> | H3]; [reflexivity |].
  destruct (N.eqb_spec c 62) as [-> | H4]; [reflexivity |].
  cbn [app JS.startsWith]. rewrite !startsWith_nil. reflexivity.
Qed.

Lemma serializeText_other (c : char) (s : jsstring) :
  c <> 38%N -> c <> 160%N -> c <> 60%N -> c <> 62%N ->
  serializeText (c :: s) = c :: serializeText s.
Proof.
  intros H1 H2 H3 H4. rewrite serializeText_cons.
  rewrite (proj2 (N.eqb_neq c 38) H1), (proj2 (N.eqb_neq c 160) H2),
    (proj2 (N.eqb_neq c 60) H3), (proj2 (N.eqb_neq c 62) H4).
  reflexivity.
Qed.

Lemma cut_serializeText (s : jsstring) :
  JS.cut [LF; LF] (serializeText s)
  = match JS.cut [LF; LF] s with
    | Some (a, b) => Some (serializeText a, serializeText b)
    | None => None
    end.
Proof.
  induction s as [| c s IH]; [reflexivity |].
  assert (Hsp : forall e,
             (e = str "&amp;" \/ e = str "&nbsp;" \/ e = str "&lt;"
              \/ e = str "&gt;") ->
             JS.cut [LF; LF] (e ++ serializeText s)
             = match JS.cut [LF; LF] s with
               | Some (a, b) => Some (e ++ serializeText a, serializeText b)
               | None => None
               end).
  { intros e He.
    destruct He as [-> | [-> | [-> | ->]]]; cbn - [serializeText];
      rewrite IH; destruct (JS.cut [LF; LF] s) as [[a b] |]; reflexivity. }
  assert (Hl : c <> LF ->
               JS.cut [LF; LF] (c :: s)
               = match JS.cut [LF; LF] s with
                 | Some (a, b) => Some (c :: a, b)
                 | None => None
                 end).
  { intros Hc. cbn [JS.cut JS.startsWith].
    rewrite (proj2 (N.eqb_neq c LF) Hc). reflexivity. }
  rewrite serializeText_cons.
  destruct (N.eqb_spec c 38) as [-> | H1].
  { rewrite Hsp by auto. rewrite Hl by discriminate.
    destruct (JS.cut [LF; LF] s) as [[a b] |]; reflexivity. }
  destruct (N.eqb_spec c 160) as [-> | H2].
  { rewrite Hsp by auto. rewrite Hl by discriminate.
    destruct (JS.cut [LF; LF] s) as [[a b] |]; reflexivity. }
  destruct (N.eqb_spec c 60) as [-> | H3].
  { rewrite Hsp by auto. rewrite Hl by discriminate.
    destruct (JS.cut [LF; LF] s) as [[a b] |]; reflexivity. }
  destruct (N.eqb_spec c 62) as [-> | H4].
  { rewrite Hsp by auto. rewrite Hl by discriminate.
    destruct (JS.cut [LF; LF] s) as [[a b] |]; reflexivity. }
  clear Hsp Hl.
  cbn [app]. cbn [JS.cut].
  change (JS.startsWith (c :: serializeText s) [LF; LF])
    with ((c =? LF)%N && JS.startsWith (serializeText s) [LF]).
  change (JS.startsWith (c :: s) [LF; LF])
    with ((c =? LF)%N && JS.startsWith s [LF]).
  rewrite startsWith_serializeText.
  destruct ((c =? LF)%N && JS.startsWith s [LF]) eqn:Hst.
  - apply andb_prop in Hst as [Hc Hs]. apply N.eqb_eq in Hc. subst c.
    destruct s as [| d s]; [discriminate Hs |].
    cbn [JS.startsWith] in Hs. apply andb_prop in Hs as [Hd _].
    apply N.eqb_eq in Hd. subst d. reflexivity.
  - rewrite IH. destruct (JS.cut [LF; LF] s) as [[a b] |]; [| reflexivity].
    rewrite (serializeText_other c a) by assumption. reflexivity.
Qed.

Lemma serializeText_length (s : jsstring) :
  length s <= length (serializeText s).
Proof.
  induction s as [| c s IH]; [reflexivity |].
  rewrite serializeText_cons, length_app. cbn [length].
  destruct (c =? 38)%N; [cbn; lia |].
  destruct (c =? 160)%N; [cbn; lia |].
  destruct (c =? 60)%N; [cbn; lia |].
  destruct (c =? 62)%N; cbn; lia.
Qed.

Lemma split_serializeText (s : jsstring) :
  JS.split (serializeText s) [LF; LF]
  = map serializeText (JS.split s [LF; LF]).
Proof.
  unfold JS.split.
  rewrite (splitFuel_fuel [LF; LF] ltac:(discriminate) (length s)
             (length (serializeText s)) s (le_n _) (serializeText_length s)).
  generalize (length (serializeText s)).
  intros fuel. revert s.
  induction fuel as [| fuel IH]; intros s; [reflexivity |].
  cbn [JS.splitFuel]. rewrite cut_serializeText.
  destruct (JS.cut [LF; LF] s) as [[a b] |] eqn:Hc; [| reflexivity].
  cbn [map]. f_equal. apply IH.
Qed.

Lemma paragraphs_blocks (content : jsstring) :
  paragraphs (serializeText content)
  = concat (map block (JS.split content [LF; LF])).
Proof.
  unfold paragraphs. rewrite join_nil, split_serializeText, map_map.
  f_equal. apply map_ext. intros p. unfold block, replace.
  rewrite (replaceLoop_newline _ (length (serializeText p))) by lia.
  reflexivity.
Qed.

Lemma blocks_unmarked (paras : list jsstring) :
  Forall (Forall (fun c => c <> 42%N)) paras ->
  Forall noBullet paras ->
  unmarked (concat (map block paras)) = true.
Proof.
  induction 1 as [| p paras Hp _ IH]; intros Hb; [reflexivity |].
  inversion Hb as [| ? ? Hb1 Hb2]; subst.
  cbn [map concat]. unfold block at 1. rewrite <- !app_assoc.
  change (str "<p>" ++ ?a) with (60 :: 112 :: 62 :: a)%N.
  rewrite unmarked_p, (text_head p _ Hb1). cbn [negb andb].
  rewrite (unmarked_text p _ Hp).
  change (str "</p>" ++ ?a) with (60 :: 47 :: 112 :: 62 :: a)%N.
  rewrite unmarked_lt by discriminate.
  rewrite !unmarked_cons by discriminate.
  apply IH, Hb2.
Qed.

Lemma blocks_no_pipe (paras : list jsstring) :
  Forall (Forall (fun c => c <> 124%N)) paras ->
  Forall (fun c => c <> 124%N) (concat (map block paras)).
Proof.
  induction 1 as [| p paras Hp _ IH]; [constructor |].
  cbn [map concat]. unfold block at 1.
  repeat (apply Forall_app; split); try exact IH.
  - repeat constructor; discriminate.
  - apply text_without; [repeat constructor; discriminate | exact Hp].
  - repeat constructor; discriminate.
Qed.

(** X14: ordinary text, with no asterisk, no pipe and no paragraph that
    begins with a code unit of the bullet class, comes out as its
    paragraphs and nothing else: the pieces between blank lines, each
    escaped, its line feeds written as line breaks, between <p> and
    </p>; the rules for bullets, bold text and tables change nothing. *)
Theorem plain_text_paragraphs :
  forall content : jsstring,
    Forall (fun c => c <> 42%N /\ c <> 124%N) content ->
    Forall noBullet (JS.split content [LF; LF]) ->
    formatted content = concat (map block (JS.split content [LF; LF])).
Proof.
  intros content Hc Hb.
  change (formatted content)
    with (tables (bold (bullets (paragraphs (serializeText content))))).
  rewrite paragraphs_blocks.
  set (P := concat (map block (JS.split content [LF; LF]))).
  assert (Hparas : Forall (Forall (fun c => c <> 42%N /\ c <> 124%N))
                          (JS.split content [LF; LF]))
    by apply splitFuel_Forall, Hc.
  assert (HU : unmarked P = true).
  { apply blocks_unmarked; [| exact Hb].
    eapply Forall_impl; [| exact Hparas]. intros p Hp.
    eapply Forall_impl; [| exact Hp]. intros c [H _]. exact H. }
  assert (HN : JS.includes P (str "|") = false).
  { unfold JS.includes. change (str "|") with [124%N].
    rewrite cut_absent; [reflexivity |]. apply blocks_no_pipe.
    eapply Forall_impl; [| exact Hparas]. intros p Hp.
    eapply Forall_impl; [| exact Hp]. intros c [_ H]. exact H. }
  unfold bullets.
  rewrite (replace_none reBullet _ P)
    by (apply search_unmarked; [apply reBullet_marked | exact HU]).
  rewrite (replace_none reItems _ P)
    by (apply search_unmarked; [apply reItems_marked | exact HU]).
  unfold bold.
  rewrite (replace_none reBold _ P)
    by (apply search_unmarked; [apply reBold_marked | exact HU]).
  unfold tables. rewrite HN. reflexivity.
Qed.

Lemma plain_text_paragraphs_witness :
  formatted (str "Tom & Jerry" ++ [LF] ++ str "<b>" ++ [LF; LF]
               ++ str "1 < 2")
  = str "<p>Tom &amp; Jerry<br>&lt;b&gt;</p><p>1 &lt; 2</p>".
Proof.
  rewrite (plain_text_paragraphs
             (str "Tom & Jerry" ++ [LF] ++ str "<b>" ++ [LF; LF]
                ++ str "1 < 2")).
  - reflexivity.
  - repeat constructor; discriminate.
  - vm_compute. repeat constructor.
Defined.

(** ** Runs of a class *)

(** One round of a repeated class. *)
Lemma repeat_class_step (f : char -> bool) (c : cont) (fuel min : nat)
      (greedy : bool) (p : nat) (w : jsstring) (cs : nat -> option jsstring) :
  repeatMatcher (m (Class f)) [] (S fuel) min None greedy (MState p w cs) c
  = let next :=
      match w with
      | a :: t =>
          if f a
          then repeatMatcher (m (Class f)) [] fuel (Nat.pred min) None greedy
                             (MState (S p) t cs) c
          else None
      | [] => None
      end in
    if negb (Nat.eqb min 0) then next
    else if greedy
         then match next with Some z => Some z | None => c (MState p w cs) end
         else match c (MState p w cs) with Some z => Some z | None => next end.
Proof.
  cbn [repeatMatcher clearCaps fold_right m rest pos decr].
  destruct w as [| a t]; [reflexivity |].
  destruct (f a); [| reflexivity].
  unfold advance; cbn [pos rest caps].
  replace (Nat.eqb (S p) p) with false
    by (symmetry; apply Nat.eqb_neq; lia).
  rewrite andb_false_r. reflexivity.
Qed.

(** A greedy repeated class whose continuation fails after every run
    that it could take fails. *)
Lemma greedy_fail (f : char -> bool) (c : cont) :
  forall fuel min p (w : jsstring) cs,
    (forall w1 w2, w = w1 ++ w2 -> Forall (fun a => f a = true) w1 ->
                   min <= length w1 ->
                   c (MState (p + length w1) w2 cs) = None) ->
    repeatMatcher (m (Class f)) [] fuel min None true (MState p w cs) c
    = None.
Proof.
  induction fuel as [| fuel IH]; intros min p w cs H; [reflexivity |].
  assert (Hc0 : min = 0 -> c (MState p w cs) = None).
  { intros Hmin. replace p with (p + length (@nil char)) by (cbn; lia).
    apply H; [reflexivity | constructor | cbn; lia]. }
  assert (Hend : (if negb (Nat.eqb min 0) then None else c (MState p w cs))
                 = None).
  { destruct (Nat.eqb_spec min 0) as [Hmin | Hmin]; cbn [negb];
      [apply Hc0, Hmin | reflexivity]. }
  rewrite repeat_class_step. cbv zeta.
  destruct w as [| a t]; [exact Hend |].
  destruct (f a) eqn:Hf; [| exact Hend].
  rewrite (IH (Nat.pred min) (S p) t cs); [exact Hend |].
  intros w1 w2 -> Hw1 Hmin.
  replace (S p + length w1) with (p + length (a :: w1)) by (cbn; lia).
  apply H; [reflexivity | constructor; assumption | cbn; lia].
Qed.

(** A greedy repeated class stops after the longest run after which its
    continuation succeeds. *)
Lemma greedy_class (f : char -> bool) (c : cont) :
  forall fuel min p (u v : jsstring) cs z,
    length u < fuel ->
    Forall (fun a => f a = true) u ->
    min <= length u ->
    (forall v1 v2, v = v1 ++ v2 -> v1 <> [] ->
                   Forall (fun a => f a = true) v1 ->
                   c (MState (p + length u + length v1) v2 cs) = None) ->
    c (MState (p + length u) v cs) = Some z ->
    repeatMatcher (m (Class f)) [] fuel min None true (MState p (u ++ v) cs) c
    = Some z.
Proof.
  induction fuel as [| fuel IH]; intros min p u v cs z Hfuel Hu Hmin Hv Hz;
    [lia |].
  rewrite repeat_class_step. cbv zeta.
  destruct u as [| a u].
  - cbn [length] in Hmin. assert (min = 0) by lia. subst min.
    cbn [app length Nat.eqb negb andb Nat.pred] in *.
    rewrite Nat.add_0_r in Hz.
    destruct v as [| a t]; [exact Hz |].
    destruct (f a) eqn:Hf; [| exact Hz].
    rewrite (greedy_fail f c fuel 0 (S p) t cs); [exact Hz |].
    intros w1 w2 -> Hw1 _.
    replace (S p + length w1) with (p + 0 + length (a :: w1))
      by (cbn; lia).
    apply Hv; [reflexivity | discriminate | constructor; assumption].
  - inversion Hu as [| ? ? Hfa Hu']; subst. cbn [app]. rewrite Hfa.
    assert (Hrec :
              repeatMatcher (m (Class f)) [] fuel (Nat.pred min) None true
                            (MState (S p) (u ++ v) cs) c = Some z).
    { cbn [length] in Hfuel, Hmin, Hv, Hz.
      apply IH; [lia | exact Hu' | lia | |].
      - intros v1 v2 Hv12 Hne Hv1.
        replace (S p + length u + length v1)
          with (p + S (length u) + length v1) by lia.
        apply Hv; assumption.
      - replace (S p + length u) with (p + S (length u)) by lia. exact Hz. }
    rewrite Hrec. destruct (negb (Nat.eqb min 0)); reflexivity.
Qed.

(** A lazy repeated class stops before the first place at which its
    continuation succeeds. *)
Lemma lazy_class (f : char -> bool) (c : cont) :
  forall fuel p (u v : jsstring) cs z,
    length u < fuel ->
    Forall (fun a => f a = true) u ->
    (forall u1 u2, u = u1 ++ u2 -> u2 <> [] ->
                   c (MState (p + length u1) (u2 ++ v) cs) = None) ->
    c (MState (p + length u) v cs) = Some z ->
    repeatMatcher (m (Class f)) [] fuel 0 None false (MState p (u ++ v) cs) c
    = Some z.
Proof.
  induction fuel as [| fuel IH]; intros p u v cs z Hfuel Hu Hc Hz; [lia |].
  rewrite repeat_class_step. cbv zeta. cbn [Nat.eqb negb].
  destruct u as [| a u].
  - cbn [app length] in *. rewrite Nat.add_0_r in Hz. rewrite Hz.
    reflexivity.
  - pose proof (Hc [] (a :: u) eq_refl ltac:(discriminate)) as H0.
    cbn [app length] in H0. rewrite Nat.add_0_r in H0.
    cbn [app]. rewrite H0.
    inversion Hu as [| ? ? Hfa Hu']; subst. rewrite Hfa.
    cbn [length] in Hfuel, Hz.
    apply IH; [lia | exact Hu' | |].
    + intros u1 u2 -> Hne.
      replace (S p + length u1) with (p + length (a :: u1)) by (cbn; lia).
      apply (Hc (a :: u1) u2); [reflexivity | exact Hne].
    + replace (S p + length u) with (p + S (length u)) by lia. exact Hz.
Qed.

(** ** Separator lines *)

Lemma Matches_plus_class (f : char -> bool) (x y : mstate) :
  Matches (plus (Class f)) x y ->
  exists a ws, rest x = a :: ws ++ rest y /\ f a = true
               /\ Forall (fun c => f c = true) ws.
Proof.
  unfold plus. intros H.
  inversion H as [| | | | | | | min max greedy a x' Hm
                  | min max greedy a x' y1 z H1 H2]; subst.
  - destruct Hm as [Hm | Hm]; discriminate Hm.
  - apply Matches_Class in H1 as (a & Hr1 & Hf & _).
    cbn [clearCaps groups fold_right] in Hr1.
    destruct (Matches_class_run _ _ _ H2 _ _ _ _ eq_refl)
      as (ws & Hr2 & Hall & _).
    exists a, ws. rewrite Hr1, Hr2. repeat split; assumption.
Qed.

(** X15: [line.match(/^\|[\s-|]+\|$/)] succeeds exactly on the lines
    that begin with a pipe, end with another pipe, and hold between the
    two at least one code unit, all of them white space, dashes or
    pipes. *)
Theorem separator_lines :
  forall line : jsstring,
    test reSeparator line = true
    <-> exists mid,
        line = 124%N :: mid ++ [124%N] /\ mid <> []
        /\ Forall (fun c => sepClass c = true) mid.
Proof.
  intros line. unfold test. split.
  - destruct (search reSeparator 0 line) as [[i y] |] eqn:Hs;
      [intros _ | discriminate].
    apply search_found in Hs as (u & w & -> & -> & He).
    apply exec_Matches in He. unfold reSeparator in He.
    apply Matches_Cat in He as (y0 & H0 & He).
    inversion H0 as [| | | | | x Hp | | |]; subst. cbn [pos] in Hp.
    destruct u as [| ? u]; [| discriminate Hp]. clear H0 Hp.
    apply Matches_Cat in He as (y1 & H1 & He).
    apply Matches_Cat in He as (y2 & H2 & He).
    apply Matches_Cat in He as (y3 & H3 & H4).
    apply Matches_Lit in H1 as (Hr1 & _).
    apply Matches_plus_class in H2 as (a & ws & Hr2 & Hf & Hws).
    apply Matches_Lit in H3 as (Hr3 & _).
    inversion H4 as [| | | | | | x Hr4 | |]; subst.
    cbn [rest app] in Hr1. rewrite Hr4 in Hr3. rewrite Hr3 in Hr2.
    rewrite Hr2 in Hr1.
    exists (a :: ws). cbn [app]. split; [exact Hr1 |].
    split; [discriminate | constructor; assumption].
  - intros (mid & -> & Hne & Hmid).
    assert (He : exists z,
               exec reSeparator 0 (124%N :: mid ++ [124%N]) = Some z).
    { unfold exec, reSeparator, plus.
      cbn [m pos rest Nat.eqb advance caps groups Nat.add].
      rewrite N.eqb_refl.
      eexists. apply (greedy_class sepClass _ _ 1 1 mid [124%N]).
      - rewrite length_app. cbn. lia.
      - exact Hmid.
      - destruct mid; [congruence | cbn; lia].
      - intros v1 v2 Hv Hv1 _. destruct v1 as [| b v1]; [congruence |].
        cbn [app] in Hv. injection Hv as <- Hv.
        symmetry in Hv. apply app_eq_nil in Hv as [-> ->]. reflexivity.
      - cbn [m rest advance pos caps]. rewrite N.eqb_refl. reflexivity. }
    destruct He as (z & He). cbn [search]. rewrite He. reflexivity.
Qed.

(** ** A pattern without ^ matches alike at every index *)

Lemma clearCaps_shift (gs : list nat) (k : nat) (x : mstate) :
  clearCaps gs (shift k x) = shift k (clearCaps gs x).
Proof.
  induction gs as [| i gs IH]; [reflexivity |].
  unfold clearCaps in *. cbn [fold_right]. rewrite IH. reflexivity.
Qed.

Lemma eqb_add_r (a b k : nat) : Nat.eqb (a + k) (b + k) = Nat.eqb a b.
Proof.
  destruct (Nat.eqb_spec a b) as [-> | H];
    [apply Nat.eqb_refl | apply Nat.eqb_neq; lia].
Qed.

Lemma repeatMatcher_shift (ma : mstate -> cont -> option mstate)
      (gs : list nat) (k : nat) (g : mstate -> mstate) :
  (forall x c c', (forall y, c' (shift k y) = option_map g (c y)) ->
                  ma (shift k x) c' = option_map g (ma x c)) ->
  forall fuel min max greedy x c c',
    (forall y, c' (shift k y) = option_map g (c y)) ->
    repeatMatcher ma gs fuel min max greedy (shift k x) c'
    = option_map g (repeatMatcher ma gs fuel min max greedy x c).
Proof.
  intros Hma. induction fuel as [| fuel IH];
    intros min max greedy x c c' Hc; [reflexivity |].
  cbn [repeatMatcher]. rewrite clearCaps_shift, (Hc x).
  rewrite (Hma (clearCaps gs x)
             (fun y =>
                if Nat.eqb min 0 && Nat.eqb (pos y) (pos x) then None
                else repeatMatcher ma gs fuel (Nat.pred min) (decr max)
                                   greedy y c)).
  - destruct max as [[| n] |]; [reflexivity | |];
      (destruct (negb (Nat.eqb min 0)); [reflexivity |];
       destruct greedy;
       [ destruct (ma (clearCaps gs x) _); reflexivity
       | destruct (c x); reflexivity ]).
  - intros y. cbn [shift pos]. rewrite eqb_add_r.
    destruct (Nat.eqb min 0 && Nat.eqb (pos y) (pos x)); [reflexivity |].
    apply IH, Hc.
Qed.

Lemma m_shift (r : re) (k : nat) (g : mstate -> mstate) :
  anchored r = false ->
  forall x c c',
    (forall y, c' (shift k y) = option_map g (c y)) ->
    m r (shift k x) c' = option_map g (m r x c).
Proof.
  induction r as [| ch | f | a IHa b IHb | min max greedy a IHa | i a IHa | |];
    intros Hr x c c' Hc; cbn [anchored] in Hr; cbn [m].
  - apply Hc.
  - cbn [shift rest]. destruct (rest x) as [| a t]; [reflexivity |].
    destruct (a =? ch)%N; [| reflexivity]. apply (Hc (advance x t)).
  - cbn [shift rest]. destruct (rest x) as [| a t]; [reflexivity |].
    destruct (f a); [| reflexivity]. apply (Hc (advance x t)).
  - apply orb_false_elim in Hr as [Ha Hb].
    apply (IHa Ha). intros y. apply (IHb Hb), Hc.
  - apply (repeatMatcher_shift (m a) (groups a) k g (IHa Hr)), Hc.
  - apply (IHa Hr). intros y. cbn [shift pos rest].
    replace (pos y + k - (pos x + k)) with (pos y - pos x) by lia.
    apply (Hc (setCap i (firstn (pos y - pos x) (rest x)) y)).
  - discriminate Hr.
  - cbn [shift rest]. destruct (rest x); [apply Hc | reflexivity].
Qed.

Lemma exec_shift (r : re) (k i : nat) (w : jsstring) :
  anchored r = false ->
  exec r (i + k) w = option_map (shift k) (exec r i w).
Proof.
  intros Hr. unfold exec.
  apply (m_shift r k (shift k) Hr (MState i w (fun _ => None)) Some Some).
  reflexivity.
Qed.

Lemma search_shift (r : re) (k : nat) (w : jsstring) :
  anchored r = false ->
  forall i,
    search r (i + k) w
    = option_map (fun iy => (fst iy + k, shift k (snd iy))) (search r i w).
Proof.
  intros Hr. induction w as [| ch w IH]; intros i; cbn [search];
    rewrite (exec_shift r k i _ Hr);
    (destruct (exec r i _); [reflexivity |]); [reflexivity |].
  apply (IH (S i)).
Qed.

(** So [replace] does to the rest of the input, behind a match, what it
    does to a text that is this rest, when the template does not ask for
    what stands before the match. *)
Lemma replaceLoop_shift (r : re) (template : jsstring) :
  anchored r = false ->
  (forall mt b b' a n cs,
      GetSubstitution mt b a n cs template
      = GetSubstitution mt b' a n cs template) ->
  forall fuel s s' last k w,
    replaceLoop fuel r template s (last + k) w
    = replaceLoop fuel r template s' last w.
Proof.
  intros Hr Ht. induction fuel as [| fuel IH]; intros s s' last k w;
    [reflexivity |].
  cbn [replaceLoop]. rewrite (search_shift r k w Hr).
  destruct (search r last w) as [[i y] |]; [| reflexivity].
  cbn [option_map fst snd shift pos rest caps].
  replace (i + k - (last + k)) with (i - last) by lia.
  replace (pos y + k - (i + k)) with (pos y - i) by lia.
  rewrite (Ht _ (firstn (i + k) s) (firstn i s')).
  rewrite eqb_add_r. f_equal. f_equal.
  destruct (Nat.eqb (pos y) i).
  - destruct (rest y) as [| ch t]; [reflexivity |]. f_equal.
    apply (IH s s' (S (pos y)) k).
  - apply IH.
Qed.

Lemma replace_rest (r : re) (template s c : jsstring) (k : nat) :
  anchored r = false ->
  (forall mt b b' a n cs,
      GetSubstitution mt b a n cs template
      = GetSubstitution mt b' a n cs template) ->
  length c <= length s ->
  replaceLoop (length s) r template s k c = replace r template c
  \/ length c = length s.
Proof.
  intros Hr Ht Hlen.
  destruct (Nat.eq_dec (length c) (length s)) as [He | He];
    [right; exact He | left].
  change k with (0 + k).
  rewrite (replaceLoop_shift r template Hr Ht (length s) s c 0 k c).
  unfold replace. apply replaceLoop_fuel; lia.
Qed.

Lemma search_skip (r : re) (a w : jsstring) :
  forall last,
    (forall u1 ch u2, a = u1 ++ ch :: u2 ->
                      exec r (last + length u1) (ch :: u2 ++ w) = None) ->
    search r last (a ++ w) = search r (last + length a) w.
Proof.
  induction a as [| ch a IH]; intros last H.
  - cbn [app length]. rewrite Nat.add_0_r. reflexivity.
  - cbn [app search].
    pose proof (H [] ch a eq_refl) as H0. cbn [length] in H0.
    rewrite Nat.add_0_r in H0. rewrite H0.
    rewrite (IH (S last)).
    + cbn [length]. f_equal. lia.
    + intros u1 c u2 ->.
      replace (S last + length u1) with (last + length (ch :: u1))
        by (cbn; lia).
      apply (H (ch :: u1) c u2). reflexivity.
Qed.

Lemma search_hit (r : re) (i : nat) (w : jsstring) (y : mstate) :
  exec r i w = Some y -> search r i w = Some (i, y).
Proof. intros H. destruct w; cbn [search]; rewrite H; reflexivity. Qed.

(** ** A bold span *)

Lemma exec_reBold_miss (i : nat) (ch : char) (t : jsstring) :
  ch <> 42%N -> exec reBold i (ch :: t) = None.
Proof.
  intros H. unfold exec, reBold.
  change (lits (str "**")) with (Cat (Lit 42%N) (Lit 42%N)).
  cbn [m rest]. rewrite (proj2 (N.eqb_neq ch 42) H). reflexivity.
Qed.

Lemma exec_reBold_hit (i : nat) (b c : jsstring) :
  Forall (fun ch => ch <> 42%N /\ JS.isLineTerminator ch = false) b ->
  exists y,
    exec reBold i (str "**" ++ b ++ str "**" ++ c) = Some y
    /\ pos y = i + 4 + length b /\ rest y = c /\ caps y 1 = Some b.
Proof.
  intros Hb. unfold exec, reBold, lazy_star, dot.
  change (lits (str "**")) with (Cat (Lit 42%N) (Lit 42%N)).
  change (str "**" ++ b ++ str "**" ++ c)
    with (42%N :: 42%N :: b ++ 42%N :: 42%N :: c).
  cbn [m rest advance pos caps groups Nat.add].
  change (42 =? 42)%N with true. cbv iota.
  eexists. split.
  - apply (lazy_class _ _ _ (S (S i)) b (42%N :: 42%N :: c)).
    + rewrite length_app. lia.
    + eapply Forall_impl; [| exact Hb]. intros ch [_ H]. cbv beta.
      rewrite H. reflexivity.
    + intros u1 u2 -> Hne. destruct u2 as [| ch u2]; [congruence |].
      apply Forall_app in Hb as [_ Hb].
      inversion Hb as [| ? ? [Hch _] _]; subst.
      cbn [m rest setCap app]. rewrite (proj2 (N.eqb_neq ch 42) Hch).
      reflexivity.
    + cbn [m rest setCap advance pos caps].
      change (42 =? 42)%N with true. cbv iota. reflexivity.
  - unfold advance, setCap. cbn [pos rest caps Nat.eqb].
    split; [lia |]. split; [reflexivity |].
    f_equal. apply firstn_exact. lia.
Qed.

Lemma GetSubstitution_strong (mt b a : jsstring)
      (cs : nat -> option jsstring) :
  GetSubstitution mt b a 1 cs (str "<strong>$1</strong>")
  = str "<strong>" ++ capture cs 1 ++ str "</strong>".
Proof. reflexivity. Qed.

Lemma GetSubstitution_strong_before (mt b b' a : jsstring) (n : nat)
      (cs : nat -> option jsstring) :
  GetSubstitution mt b a n cs (str "<strong>$1</strong>")
  = GetSubstitution mt b' a n cs (str "<strong>$1</strong>").
Proof. vm_compute. reflexivity. Qed.

(** X16: where two asterisks open a stretch of text without asterisks
    and line terminators that two more asterisks close, with no asterisk
    before, [replace(/\*\*(.*?)\*\*/g, '<strong>$1</strong>')] puts the
    stretch between <strong> and </strong>, drops the four asterisks,
    keeps what stands before, and treats what follows in the same
    way. *)
Theorem bold_span :
  forall a b c : jsstring,
    Forall (fun ch => ch <> 42%N) a ->
    Forall (fun ch => ch <> 42%N /\ JS.isLineTerminator ch = false) b ->
    bold (a ++ str "**" ++ b ++ str "**" ++ c)
    = a ++ str "<strong>" ++ b ++ str "</strong>" ++ bold c.
Proof.
  intros a b c Ha Hb. unfold bold at 1. unfold replace.
  set (s := a ++ str "**" ++ b ++ str "**" ++ c).
  assert (Hlen : length s = length a + 4 + length b + length c).
  { subst s. rewrite !length_app. cbn. lia. }
  destruct (exec_reBold_hit (length a) b c Hb) as (y & He & Hp & Hr & Hc).
  assert (Hs : search reBold 0 s = Some (length a, y)).
  { subst s. rewrite search_skip.
    - apply search_hit, He.
    - intros u1 ch u2 ->. apply exec_reBold_miss.
      apply Forall_app in Ha as [_ Ha]. inversion Ha. assumption. }
  cbn [replaceLoop]. rewrite Hs. rewrite Nat.sub_0_r.
  change (ngroups reBold) with 1. rewrite GetSubstitution_strong.
  unfold capture. rewrite Hc, Hr.
  replace (firstn (length a) s) with a
    by (subst s; symmetry; apply firstn_exact; reflexivity).
  replace (Nat.eqb (pos y) (length a)) with false
    by (symmetry; apply Nat.eqb_neq; lia).
  destruct (replace_rest reBold (str "<strong>$1</strong>") s c (pos y)
              eq_refl) as [-> | Hbad].
  - intros mt b1 b2 a1 n cs. apply GetSubstitution_strong_before.
  - lia.
  - rewrite <- !app_assoc. reflexivity.
  - lia.
Qed.

Lemma bold_span_witness :
  bold (str "say **hi** and **bye** now")
  = str "say <strong>hi</strong> and <strong>bye</strong> now".
Proof.
  change (str "say **hi** and **bye** now")
    with (str "say " ++ str "**" ++ str "hi" ++ str "**"
            ++ str " and " ++ str "**" ++ str "bye" ++ str "**"
            ++ str " now").
  rewrite (bold_span (str "say ") (str "hi")).
  - rewrite (bold_span (str " and ") (str "bye") (str " now")).
    + reflexivity.
    + repeat constructor; discriminate.
    + repeat constructor; discriminate.
  - repeat constructor; discriminate.
  - repeat constructor; discriminate.
Defined.

(** ** Lists *)

Lemma serializeText_Forall (Q : char -> Prop) (text : jsstring) :
  Forall Q (str "&amp;nbsp;lt;gt;") ->
  Forall Q text -> Forall Q (serializeText text).
Proof.
  intros HQ.
  assert (Hin : forall w, incl w (str "&amp;nbsp;lt;gt;") -> Forall Q w).
  { intros w Hw. apply Forall_forall. intros a Ha.
    apply (proj1 (Forall_forall _ _) HQ), Hw, Ha. }
  induction 1 as [| c t Hc _ IH]; [constructor |].
  rewrite serializeText_cons. apply Forall_app. split; [| exact IH].
  destruct (c =? 38)%N; [apply Hin; intros a Ha; cbn in Ha |- *; tauto |].
  destruct (c =? 160)%N; [apply Hin; intros a Ha; cbn in Ha |- *; tauto |].
  destruct (c =? 60)%N; [apply Hin; intros a Ha; cbn in Ha |- *; tauto |].
  destruct (c =? 62)%N; [apply Hin; intros a Ha; cbn in Ha |- *; tauto |].
  constructor; [exact Hc | constructor].
Qed.

(** What escaping makes of the text of an item. *)
Lemma item_escaped (it : jsstring) :
  itemText it ->
  Forall (fun c => c <> 60%N /\ JS.isLineTerminator c = false)
         (serializeText it)
  /\ Forall (fun c => c <> 42%N) (serializeText it)
  /\ Forall (fun c => c <> 124%N) (serializeText it)
  /\ match serializeText it with
     | c :: _ => JS.isSpace c = false
     | [] => True
     end.
Proof.
  intros [Hall Hhead].
  assert (H1 : Forall (fun c => JS.isLineTerminator c = false)
                      (serializeText it)).
  { apply serializeText_Forall; [repeat constructor |].
    eapply Forall_impl; [| exact Hall]. intros c (H & _ & _). exact H. }
  assert (H2 : Forall (fun c => c <> 42%N) (serializeText it)).
  { apply serializeText_Forall; [repeat constructor; discriminate |].
    eapply Forall_impl; [| exact Hall]. intros c (_ & H & _). exact H. }
  assert (H3 : Forall (fun c => c <> 124%N) (serializeText it)).
  { apply serializeText_Forall; [repeat constructor; discriminate |].
    eapply Forall_impl; [| exact Hall]. intros c (_ & _ & H). exact H. }
  split; [| split; [exact H2 | split; [exact H3 |]]].
  - pose proof (serializeText_no_brackets it) as H0.
    apply Forall_forall. intros c Hc. split.
    + apply (proj1 (Forall_forall _ _) H0 c Hc).
    + apply (proj1 (Forall_forall _ _) H1 c Hc).
  - destruct it as [| c it]; [exact I |]. rewrite serializeText_cons.
    destruct (c =? 38)%N; [reflexivity |].
    destruct (c =? 160)%N; [reflexivity |].
    destruct (c =? 60)%N; [reflexivity |].
    destruct (c =? 62)%N; [reflexivity | exact Hhead].
Qed.

(** The bullet pattern on a dash paragraph. *)
Lemma exec_reBullet_hit (i : nat) (e tail : jsstring) :
  Forall (fun c => c <> 60%N /\ JS.isLineTerminator c = false) e ->
  match e with c :: _ => JS.isSpace c = false | [] => True end ->
  exists y,
    exec reBullet i (dashBlock e ++ tail) = Some y
    /\ pos y = i + 9 + length e /\ rest y = tail /\ caps y 1 = Some e.
Proof.
  intros He Hhead. unfold exec, reBullet, star, lazy_star, dot, dashBlock.
  change (lits (str "<p>"))
    with (Cat (Lit 60%N) (Cat (Lit 112%N) (Lit 62%N))).
  change (lits (str "</p>"))
    with (Cat (Lit 60%N) (Cat (Lit 47%N) (Cat (Lit 112%N) (Lit 62%N)))).
  rewrite <- !app_assoc.
  change (str "<p>- " ++ e ++ str "</p>" ++ tail)
    with (60 :: 112 :: 62 :: 45 :: 32 :: e
             ++ 60 :: 47 :: 112 :: 62 :: tail)%N.
  cbn [m rest advance pos caps groups Nat.add].
  rewrite !N.eqb_refl. change (bulletClass 45%N) with true. cbv iota.
  eexists. split.
  - apply (greedy_class JS.isSpace _ _ 0 (S (S (S (S i)))) [32%N]
             (e ++ 60 :: 47 :: 112 :: 62 :: tail)%N).
    + cbn [length]. lia.
    + repeat constructor.
    + lia.
    + intros v1 v2 Hv Hne Hv1. exfalso.
      destruct v1 as [| a v1]; [congruence |].
      inversion Hv1 as [| ? ? Ha _]; subst.
      destruct e as [| c e]; cbn [app] in Hv; injection Hv as <- _.
      * discriminate Ha.
      * congruence.
    + cbn [m rest advance pos caps groups Nat.add length].
      apply (lazy_class _ _ _ _ e (60 :: 47 :: 112 :: 62 :: tail)%N).
      * rewrite length_app. lia.
      * eapply Forall_impl; [| exact He]. intros ch [_ H]. cbv beta.
        rewrite H. reflexivity.
      * intros u1 u2 -> Hu2. destruct u2 as [| ch u2]; [congruence |].
        apply Forall_app in He as [_ He].
        inversion He as [| ? ? [Hch _] _]; subst.
        cbn [m rest setCap app]. rewrite (proj2 (N.eqb_neq ch 60) Hch).
        reflexivity.
      * cbn [m rest setCap advance pos caps].
        rewrite !N.eqb_refl. cbv iota. reflexivity.
  - unfold advance, setCap. cbn [pos rest caps Nat.eqb length].
    split; [lia |]. split; [reflexivity |].
    f_equal. apply firstn_exact. lia.
Qed.

Lemma GetSubstitution_li (mt b a : jsstring) (cs : nat -> option jsstring) :
  GetSubstitution mt b a 1 cs (str "<li>$1</li>")
  = str "<li>" ++ capture cs 1 ++ str "</li>".
Proof. reflexivity. Qed.

Lemma GetSubstitution_ul (mt b a : jsstring) (n : nat)
      (cs : nat -> option jsstring) :
  GetSubstitution mt b a n cs (str "<ul>$&</ul>")
  = str "<ul>" ++ mt ++ str "</ul>".
Proof. reflexivity. Qed.

(** Every dash paragraph becomes an item. *)
Lemma replaceLoop_bullets (s : jsstring) (es : list jsstring) :
  Forall (fun e =>
            Forall (fun c => c <> 60%N /\ JS.isLineTerminator c = false) e
            /\ match e with c :: _ => JS.isSpace c = false | [] => True end)
         es ->
  forall fuel last,
    length (concat (map dashBlock es)) < fuel ->
    replaceLoop fuel reBullet (str "<li>$1</li>") s last
                (concat (map dashBlock es))
    = concat (map listItem es).
Proof.
  induction 1 as [| e es [He Hhead] _ IH]; intros fuel last Hfuel;
    (destruct fuel as [| fuel]; [lia |]).
  - reflexivity.
  - cbn [map concat] in Hfuel |- *. cbn [replaceLoop].
    destruct (exec_reBullet_hit last e (concat (map dashBlock es)) He Hhead)
      as (y & Hex & Hp & Hr & Hc).
    rewrite (search_hit _ _ _ _ Hex).
    rewrite Nat.sub_diag. cbn [firstn app].
    change (ngroups reBullet) with 1. rewrite GetSubstitution_li.
    unfold capture. rewrite Hc, Hr.
    replace (Nat.eqb (pos y) last) with false
      by (symmetry; apply Nat.eqb_neq; lia).
    rewrite IH.
    + unfold listItem at 2. rewrite <- !app_assoc. reflexivity.
    + rewrite length_app in Hfuel.
      assert (0 < length (dashBlock e))
        by (unfold dashBlock; rewrite length_app; cbn; lia).
      lia.
Qed.

(** The item pattern on a text that begins with <li> and ends with
    </li>, without line terminators: one round that takes it all. *)
Lemma m_item_nil (x : mstate) (d : cont) :
  rest x = [] ->
  m (Grp 1 (Cat (lits (str "<li>")) (Cat (star dot) (lits (str "</li>")))))
    x d = None.
Proof.
  intros H.
  change (lits (str "<li>"))
    with (Cat (Lit 60%N) (Cat (Lit 108%N) (Cat (Lit 105%N) (Lit 62%N)))).
  cbn [m]. rewrite H. reflexivity.
Qed.

Lemma m_item (x : mstate) (u : jsstring) (d : cont) (z : mstate) :
  rest x = listItem u ->
  Forall (fun c => JS.isLineTerminator c = false) u ->
  d (setCap 1 (rest x) (MState (pos x + length (rest x)) [] (caps x)))
  = Some z ->
  m (Grp 1 (Cat (lits (str "<li>")) (Cat (star dot) (lits (str "</li>")))))
    x d = Some z.
Proof.
  destruct x as [p w cs]. cbn [rest pos caps]. intros -> Hu Hd.
  unfold star, dot, listItem in *.
  change (lits (str "<li>"))
    with (Cat (Lit 60%N) (Cat (Lit 108%N) (Cat (Lit 105%N) (Lit 62%N)))).
  change (lits (str "</li>"))
    with (Cat (Lit 60%N) (Cat (Lit 47%N) (Cat (Lit 108%N)
                                            (Cat (Lit 105%N) (Lit 62%N))))).
  change (str "<li>" ++ u ++ str "</li>")
    with (60 :: 108 :: 105 :: 62 :: u ++ [60; 47; 108; 105; 62])%N in *.
  cbn [m rest advance pos caps groups Nat.add].
  rewrite !N.eqb_refl. cbv iota.
  apply (greedy_class _ _ _ 0 (S (S (S (S p)))) u [60; 47; 108; 105; 62]%N).
  - rewrite length_app. lia.
  - eapply Forall_impl; [| exact Hu]. intros ch H. cbv beta.
    rewrite H. reflexivity.
  - lia.
  - intros v1 v2 Hv Hne _.
    destruct v1 as [| a1 v1]; [congruence |].
    cbn [app] in Hv. injection Hv as <- Hv.
    repeat (destruct v1 as [| ? v1];
            [ cbn [app] in Hv; subst v2; reflexivity
            | cbn [app] in Hv; try discriminate Hv;
              injection Hv as <- Hv ]).
  - cbn [m rest advance pos caps]. rewrite !N.eqb_refl. cbv iota.
    rewrite <- Hd. f_equal. unfold setCap, advance. cbn [pos rest caps].
    rewrite firstn_all2
      by (cbn [length]; rewrite length_app; cbn [length]; lia).
    f_equal. cbn [length]. rewrite length_app. cbn [length]. lia.
Qed.

Lemma exec_reItems_all (i : nat) (u : jsstring) :
  Forall (fun c => JS.isLineTerminator c = false) u ->
  exists y,
    exec reItems i (listItem u) = Some y
    /\ pos y = i + length (listItem u) /\ rest y = [].
Proof.
  intros Hu. unfold exec, reItems, plus. rewrite m_Rep.
  cbn [repeatMatcher Nat.eqb negb andb Nat.pred decr rest Nat.add].
  eexists. split.
  - apply (m_item _ u); [reflexivity | exact Hu |].
    cbn [repeatMatcher Nat.eqb negb andb Nat.pred decr].
    rewrite m_item_nil by reflexivity. reflexivity.
  - split; reflexivity.
Qed.

(** The items together are put into one list. *)
Lemma replace_reItems (u : jsstring) :
  Forall (fun c => JS.isLineTerminator c = false) u ->
  replace reItems (str "<ul>$&</ul>") (listItem u)
  = str "<ul>" ++ listItem u ++ str "</ul>".
Proof.
  intros Hu. unfold replace.
  destruct (exec_reItems_all 0 u Hu) as (y & He & Hp & Hr).
  assert (Hlen : 0 < length (listItem u))
    by (unfold listItem; rewrite length_app; cbn; lia).
  cbn [replaceLoop]. rewrite (search_hit _ _ _ _ He).
  cbn [Nat.sub firstn app skipn]. rewrite Nat.sub_0_r, Hr.
  rewrite GetSubstitution_ul. cbn [Nat.add] in Hp. rewrite Hp, firstn_all.
  replace (Nat.eqb (length (listItem u)) 0) with false
    by (symmetry; apply Nat.eqb_neq; lia).
  destruct (length (listItem u)) as [| n]; [lia |].
  replace (replaceLoop (S n) reItems (str "<ul>$&</ul>") (listItem u)
                       (S n) [])
    with (@nil char) by reflexivity.
  apply app_nil_r.
Qed.

Lemma items_one (es : list jsstring) :
  es <> [] ->
  Forall (Forall (fun c => JS.isLineTerminator c = false)) es ->
  exists u, concat (map listItem es) = listItem u
            /\ Forall (fun c => JS.isLineTerminator c = false) u.
Proof.
  intros Hne H. revert Hne.
  induction H as [| e es He Hes IH]; intros Hne; [destruct (Hne eq_refl) |].
  destruct es as [| e' es].
  - exists e. cbn [map concat]. rewrite app_nil_r. split; [reflexivity |].
    exact He.
  - destruct IH as (u & Hu & Hall); [discriminate |].
    exists (e ++ str "</li>" ++ str "<li>" ++ u).
    cbn [map concat] in Hu |- *. rewrite Hu. unfold listItem.
    rewrite <- !app_assoc. split; [reflexivity |].
    apply Forall_app. split; [exact He |].
    apply Forall_app. split; [repeat constructor |].
    apply Forall_app. split; [repeat constructor | exact Hall].
Qed.

(** Paragraphs without line feeds come back from the split. *)
Lemma cut_first (p tail : jsstring) :
  Forall (fun c => c <> LF) p ->
  JS.cut [LF; LF] (p ++ LF :: LF :: tail) = Some (p, tail).
Proof.
  induction 1 as [| c p Hc _ IH]; cbn [app JS.cut JS.startsWith].
  - rewrite !N.eqb_refl, startsWith_nil. reflexivity.
  - rewrite (proj2 (N.eqb_neq c LF) Hc). cbn [andb]. rewrite IH.
    reflexivity.
Qed.

Lemma cut_none (p : jsstring) :
  Forall (fun c => c <> LF) p -> JS.cut [LF; LF] p = None.
Proof.
  induction 1 as [| c p Hc _ IH]; cbn [JS.cut JS.startsWith];
    [reflexivity |].
  rewrite (proj2 (N.eqb_neq c LF) Hc). cbn [andb]. rewrite IH. reflexivity.
Qed.

Lemma splitFuel_join (paras : list jsstring) :
  Forall (Forall (fun c => c <> LF)) paras -> paras <> [] ->
  forall fuel,
    length paras <= S fuel ->
    JS.splitFuel fuel [LF; LF] (JS.join [LF; LF] paras) = paras.
Proof.
  induction 1 as [| p paras Hp Hps IH]; intros Hne fuel Hf;
    [destruct (Hne eq_refl) |].
  destruct paras as [| q paras].
  - cbn [JS.join]. destruct fuel; cbn [JS.splitFuel]; [reflexivity |].
    rewrite cut_none by assumption. reflexivity.
  - destruct fuel as [| fuel]; [cbn in Hf; lia |].
    change (JS.join [LF; LF] (p :: q :: paras))
      with (p ++ LF :: LF :: JS.join [LF; LF] (q :: paras)).
    cbn [JS.splitFuel].
    rewrite cut_first by assumption. f_equal.
    apply IH; [discriminate | cbn [length] in Hf |- *; lia].
Qed.

Lemma join_length (paras : list jsstring) :
  length paras <= S (length (JS.join [LF; LF] paras)).
Proof.
  induction paras as [| p paras IH]; [cbn; lia |].
  destruct paras as [| q paras]; [cbn; lia |].
  change (JS.join [LF; LF] (p :: q :: paras))
    with (p ++ [LF; LF] ++ JS.join [LF; LF] (q :: paras)).
  rewrite !length_app. cbn [length] in *. lia.
Qed.

Lemma stars_none (s : jsstring) :
  Forall (fun c => c <> 42%N) s -> stars s = 0.
Proof.
  intros H. unfold stars. apply count_occ_not_In. intros Hin.
  apply (proj1 (Forall_forall _ _) H _ Hin). reflexivity.
Qed.

Lemma list_without (ch : char) (es : list jsstring) :
  Forall (fun c => c <> ch) (str "<ul></li>") ->
  Forall (Forall (fun c => c <> ch)) es ->
  Forall (fun c => c <> ch)
         (str "<ul>" ++ concat (map listItem es) ++ str "</ul>").
Proof.
  intros Hch Hall.
  assert (Hin : forall w, incl w (str "<ul></li>") ->
                          Forall (fun c => c <> ch) w).
  { intros w Hw. apply Forall_forall. intros a Ha.
    apply (proj1 (Forall_forall _ _) Hch), Hw, Ha. }
  apply Forall_app. split; [apply Hin; intros a Ha; cbn in Ha |- *; tauto |].
  apply Forall_app. split; [| apply Hin; intros a Ha; cbn in Ha |- *; tauto].
  induction Hall as [| e l He _ IHl]; [constructor |].
  cbn [map concat]. unfold listItem at 1.
  apply Forall_app. split; [| exact IHl].
  apply Forall_app. split; [apply Hin; intros a Ha; cbn in Ha |- *; tauto |].
  apply Forall_app. split; [exact He |].
  apply Hin; intros a Ha; cbn in Ha |- *; tauto.
Qed.

(** X17: paragraphs that are a dash, a space and the text of an item
    come out as one list: <ul>, the items in their order, each escaped
    between <li> and </li>, and </ul>; no paragraph is left. *)
Theorem dash_paragraphs_make_one_list :
  forall items : list jsstring,
    items <> [] ->
    Forall itemText items ->
    formatted (JS.join [LF; LF] (map (fun it => str "- " ++ it) items))
    = str "<ul>"
        ++ concat (map (fun it => listItem (serializeText it)) items)
        ++ str "</ul>".
Proof.
  intros items Hne Hitems.
  set (content := JS.join [LF; LF] (map (fun it => str "- " ++ it) items)).
  change (formatted content)
    with (tables (bold (bullets (paragraphs (serializeText content))))).
  rewrite paragraphs_blocks.
  assert (Hsplit : JS.split content [LF; LF]
                   = map (fun it => str "- " ++ it) items).
  { unfold JS.split, content. apply splitFuel_join.
    - apply Forall_map. eapply Forall_impl; [| exact Hitems].
      intros it [Hall _]. cbv beta.
      repeat constructor; try discriminate.
      eapply Forall_impl; [| exact Hall]. intros c (H & _) ->.
      discriminate H.
    - destruct items; [destruct (Hne eq_refl) | discriminate].
    - apply join_length. }
  rewrite Hsplit, map_map.
  assert (Hblocks : map (fun it => block (str "- " ++ it)) items
                    = map dashBlock (map serializeText items)).
  { rewrite map_map. apply map_ext_in. intros it Hin.
    pose proof (proj1 (Forall_forall _ _) Hitems it Hin) as [Hall _].
    unfold block, dashBlock.
    change (serializeText (str "- " ++ it))
      with (str "- " ++ serializeText it).
    rewrite lineBreaks_plain; [rewrite <- !app_assoc; reflexivity |].
    change (str "- " ++ serializeText it)
      with (45 :: 32 :: serializeText it)%N.
    repeat (constructor; [discriminate |]).
    apply serializeText_Forall; [repeat constructor; discriminate |].
    eapply Forall_impl; [| exact Hall]. intros c (H & _) ->.
    discriminate H. }
  rewrite Hblocks.
  set (es := map serializeText items).
  assert (Hes : Forall (fun e =>
                  (Forall (fun c => c <> 60%N
                                    /\ JS.isLineTerminator c = false) e
                   /\ match e with
                      | c :: _ => JS.isSpace c = false
                      | [] => True
                      end)
                  /\ Forall (fun c => c <> 42%N) e
                  /\ Forall (fun c => c <> 124%N) e) es).
  { subst es. apply Forall_map. eapply Forall_impl; [| exact Hitems].
    intros it Hit. destruct (item_escaped it Hit) as (H1 & H2 & H3 & H4).
    repeat split; assumption. }
  unfold bullets. unfold replace at 2.
  rewrite (replaceLoop_bullets _ es).
  2:{ eapply Forall_impl; [| exact Hes]. intros e [H _]. exact H. }
  2:{ lia. }
  destruct (items_one es) as (u & Hu & Hlt).
  { subst es. destruct items; [destruct (Hne eq_refl) | discriminate]. }
  { eapply Forall_impl; [| exact Hes]. intros e [[H _] _].
    eapply Forall_impl; [| exact H]. intros c [_ Hc]. exact Hc. }
  rewrite Hu, (replace_reItems u Hlt), <- Hu.
  unfold bold.
  rewrite replace_none.
  2:{ apply search_reBold_few. rewrite stars_none; [lia |].
      apply list_without; [repeat constructor; discriminate |].
      eapply Forall_impl; [| exact Hes]. intros e (_ & H & _). exact H. }
  unfold tables, JS.includes. change (str "|") with [124%N].
  rewrite cut_absent.
  2:{ apply list_without; [repeat constructor; discriminate |].
      eapply Forall_impl; [| exact Hes]. intros e (_ & _ & H). exact H. }
  cbn [andb]. subst es. rewrite map_map. reflexivity.
Qed.

Lemma dash_paragraphs_make_one_list_witness :
  formatted (str "- milk & honey" ++ [LF; LF] ++ str "- " ++ [LF; LF]
               ++ str "- <tea>")
  = str "<ul><li>milk &amp; honey</li><li></li><li>&lt;tea&gt;</li></ul>".
Proof.
  apply (dash_paragraphs_make_one_list
           [str "milk & honey"; []; str "<tea>"]).
  - discriminate.
  - repeat constructor; discriminate.
Defined.

(** ** Messages, replies and requests under any schedule *)

Lemma shown_app (type : msgType) (a b : list (jsval * msgType)) :
  shown type (a ++ b) = shown type a + shown type b.
Proof. unfold shown. rewrite filter_app, length_app. reflexivity. Qed.

Lemma toasts_app (a b : list effect) : toasts (a ++ b) = toasts a + toasts b.
Proof. unfold toasts. rewrite filter_app, length_app. reflexivity. Qed.

Lemma attempts_app (a b : list effect) :
  attempts (a ++ b) = attempts a + attempts b.
Proof. unfold attempts. rewrite filter_app, length_app. reflexivity. Qed.

Lemma length_update {A} (l : list A) (k : nat) (b : A) :
  length (update k b l) = length l.
Proof.
  revert k. induction l as [| x l IH]; intros [| k]; cbn; auto.
Qed.

Lemma length_remove {A} (l : list A) (k : nat) (a : A) :
  nth_error l k = Some a -> S (length (remove k l)) = length l.
Proof.
  revert k. induction l as [| x l IH]; intros [| k] H; cbn in *;
    try discriminate; [reflexivity |].
  f_equal. apply IH, H.
Qed.

Lemma budget_app cfg (l1 l2 : list activation) :
  budget cfg (l1 ++ l2) = (budget cfg l1 + budget cfg l2)%Z.
Proof.
  induction l1 as [| a l1 IH]; cbn [app budget fold_right]; [reflexivity |].
  fold (budget cfg (l1 ++ l2)). fold (budget cfg l1). rewrite IH. lia.
Qed.

Lemma budget_update cfg (l : list activation) (k : nat) (a b : activation) :
  nth_error l k = Some a -> retryCount b = retryCount a ->
  budget cfg (update k b l) = budget cfg l.
Proof.
  intros H Hb. revert k H.
  induction l as [| x l IH]; intros [| k] H; cbn in *; try discriminate.
  - injection H as ->. rewrite Hb. reflexivity.
  - fold (budget cfg (update k b l)). fold (budget cfg l).
    rewrite (IH k H). reflexivity.
Qed.

Lemma budget_remove cfg (l : list activation) (k : nat) (a : activation) :
  nth_error l k = Some a ->
  budget cfg l
  = (maxRetries cfg - retryCount a + budget cfg (remove k l))%Z.
Proof.
  revert k. induction l as [| x l IH]; intros [| k] H; cbn in *;
    try discriminate.
  - injection H as ->. reflexivity.
  - fold (budget cfg (remove k l)). fold (budget cfg l).
    rewrite (IH k H). lia.
Qed.

Lemma budget_nonneg cfg (l : list activation) :
  (0 <= maxRetries cfg)%Z -> Forall (withinLimit cfg) l ->
  (0 <= budget cfg l)%Z.
Proof.
  intros Hmax. induction 1 as [| a l (_ & Ha & _) _ IH];
    cbn [budget fold_right]; [lia |].
  fold (budget cfg l). lia.
Qed.

Ltac count_all :=
  cbn [shown toasts attempts budget filter snd length fold_right retryCount
       app] in *.

(** What the [catch] block changes. *)
Lemma catchBlock_counts cfg (k : nat) (a : activation) (rt : Runtime) :
  nth_error (pending rt) k = Some a ->
  let rt' := catchBlock cfg k a rt in
  chatMessages (page rt') = chatMessages (page rt)
  /\ attempts (trace (page rt')) = attempts (trace (page rt))
  /\ toasts (trace (page rt')) + length (pending rt')
     = toasts (trace (page rt)) + length (pending rt)
  /\ ((0 <= maxRetries cfg)%Z -> withinLimit cfg a ->
      (budget cfg (pending rt') <= budget cfg (pending rt))%Z).
Proof.
  intros Hk. cbv zeta. unfold catchBlock.
  destruct (retryCount a <? maxRetries cfg)%Z;
    cbn [page pending chatMessages trace emit finallyBlock showToast
         setLoading setTyping setDisabled fulfil].
  - rewrite attempts_app, toasts_app, length_update.
    rewrite (budget_update cfg _ k a
               (mkActivation (message a) (retryCount a) AwaitDelay) Hk
               eq_refl).
    count_all. repeat split; lia.
  - rewrite attempts_app, toasts_app.
    pose proof (length_remove _ _ _ Hk) as Hlen.
    pose proof (budget_remove cfg _ _ _ Hk) as Hb.
    count_all. repeat split; try lia.
    intros Hmax (_ & Ha & _). lia.
Qed.

Lemma step_counts cfg (e : event) (rt : Runtime) :
  let rt' := step cfg e rt in
  shown user (chatMessages (page rt'))
  + (shown bot (chatMessages (page rt)) + toasts (trace (page rt))
     + length (pending rt))
  = shown user (chatMessages (page rt))
    + (shown bot (chatMessages (page rt')) + toasts (trace (page rt'))
       + length (pending rt'))
  /\ ((0 <= maxRetries cfg)%Z -> Forall (withinLimit cfg) (pending rt) ->
      (Z.of_nat (attempts (trace (page rt'))) + budget cfg (pending rt')
       + (maxRetries cfg + 1)
         * Z.of_nat (shown user (chatMessages (page rt)))
       <= Z.of_nat (attempts (trace (page rt))) + budget cfg (pending rt)
          + (maxRetries cfg + 1)
            * Z.of_nat (shown user (chatMessages (page rt'))))%Z).
Proof.
  cbv zeta.
  assert (Hsame : forall rt' : Runtime,
             rt' = rt ->
             shown user (chatMessages (page rt'))
             + (shown bot (chatMessages (page rt)) + toasts (trace (page rt))
                + length (pending rt))
             = shown user (chatMessages (page rt))
               + (shown bot (chatMessages (page rt'))
                  + toasts (trace (page rt')) + length (pending rt'))
             /\ ((0 <= maxRetries cfg)%Z ->
                 Forall (withinLimit cfg) (pending rt) ->
                 (Z.of_nat (attempts (trace (page rt')))
                  + budget cfg (pending rt')
                  + (maxRetries cfg + 1)
                    * Z.of_nat (shown user (chatMessages (page rt)))
                  <= Z.of_nat (attempts (trace (page rt)))
                     + budget cfg (pending rt)
                     + (maxRetries cfg + 1)
                       * Z.of_nat (shown user (chatMessages (page rt'))))%Z)).
  { intros rt' ->. split; [lia | intros _ _; lia]. }
  assert (Hcatch : forall k a,
             nth_error (pending rt) k = Some a ->
             shown user (chatMessages (page (catchBlock cfg k a rt)))
             + (shown bot (chatMessages (page rt)) + toasts (trace (page rt))
                + length (pending rt))
             = shown user (chatMessages (page rt))
               + (shown bot (chatMessages (page (catchBlock cfg k a rt)))
                  + toasts (trace (page (catchBlock cfg k a rt)))
                  + length (pending (catchBlock cfg k a rt)))
             /\ ((0 <= maxRetries cfg)%Z ->
                 Forall (withinLimit cfg) (pending rt) ->
                 (Z.of_nat (attempts (trace (page (catchBlock cfg k a rt))))
                  + budget cfg (pending (catchBlock cfg k a rt))
                  + (maxRetries cfg + 1)
                    * Z.of_nat (shown user (chatMessages (page rt)))
                  <= Z.of_nat (attempts (trace (page rt)))
                     + budget cfg (pending rt)
                     + (maxRetries cfg + 1)
                       * Z.of_nat
                           (shown user
                              (chatMessages
                                 (page (catchBlock cfg k a rt)))))%Z)).
  { intros k a Hk.
    destruct (catchBlock_counts cfg k a rt Hk) as (Hc & Ha & Ht & Hb).
    rewrite Hc, Ha. split; [lia |]. intros Hmax Hall.
    specialize (Hb Hmax (Forall_nth_error _ _ _ _ Hall Hk)). lia. }
  destruct e as [text | | k response | k data | k]; cbn [step].
  - unfold handleInput. cbn [page pending chatMessages trace setInput
                               setDisabled].
    split; [lia | intros _ _; lia].
  - unfold handleSubmit.
    destruct (negb (JS.truthy (JS.trim (inputValue (page rt))))
              || isLoading (page rt)); [apply Hsame; reflexivity |].
    unfold sendMessage.
    cbn [page pending chatMessages trace emit appendMessage
         setLoading setTyping setDisabled setInput].
    rewrite !shown_app, attempts_app, toasts_app, length_app, budget_app.
    count_all. split; [lia | intros _ _; lia].
  - destruct (nth_error (pending rt) k) as [a |] eqn:Hk;
      [| apply Hsame; reflexivity].
    destruct (suspended a) eqn:Hs; try (apply Hsame; reflexivity).
    destruct response as [[|] |]; try (apply Hcatch; exact Hk).
    cbn [page pending]. rewrite length_update.
    rewrite (budget_update cfg _ k a
               (mkActivation (message a) (retryCount a) AwaitJson) Hk
               eq_refl).
    split; [lia | intros _ _; lia].
  - destruct (nth_error (pending rt) k) as [a |] eqn:Hk;
      [| apply Hsame; reflexivity].
    destruct (suspended a) eqn:Hs; try (apply Hsame; reflexivity).
    destruct data as [d |]; [| apply Hcatch; exact Hk].
    unfold received. destruct (extractReply d) as [reply |];
      [| apply Hcatch; exact Hk].
    destruct (truthy reply); [| apply Hcatch; exact Hk].
    destruct (stringifies reply).
    2:{ destruct (catchBlock_counts cfg k a
                    (mkRuntime (appendMessageThrows (page rt)) (pending rt))
                    Hk) as (Hc & Ha & Ht & Hb).
        cbn [page pending] in Hc, Ha, Ht, Hb.
        change (chatMessages (appendMessageThrows (page rt)))
          with (chatMessages (page rt)) in Hc.
        change (trace (appendMessageThrows (page rt)))
          with (trace (page rt)) in Ha, Ht.
        rewrite Hc, Ha. split; [lia |]. intros Hmax Hall.
        specialize (Hb Hmax (Forall_nth_error _ _ _ _ Hall Hk)). lia. }
    cbn [page pending chatMessages trace finallyBlock appendMessage
         setLoading setTyping setDisabled fulfil].
    rewrite !shown_app.
    pose proof (length_remove _ _ _ Hk) as Hlen.
    pose proof (budget_remove cfg _ _ _ Hk) as Hb.
    count_all. split; [lia |]. intros Hmax Hall.
    destruct (Forall_nth_error _ _ _ _ Hall Hk) as (_ & Ha & _). lia.
  - destruct (nth_error (pending rt) k) as [a |] eqn:Hk;
      [| apply Hsame; reflexivity].
    destruct (suspended a) eqn:Hs; try (apply Hsame; reflexivity).
    unfold retry, sendMessage.
    cbn [page pending chatMessages trace emit finallyBlock
         setLoading setTyping setDisabled].
    rewrite attempts_app, toasts_app, length_app, budget_app.
    pose proof (length_remove _ _ _ Hk) as Hlen.
    pose proof (budget_remove cfg _ _ _ Hk) as Hb.
    count_all. split; [lia | intros _ _; lia].
Qed.

Lemma run_counts cfg (events : list event) :
  forall rt,
    let rt' := run cfg events rt in
    shown user (chatMessages (page rt'))
    + (shown bot (chatMessages (page rt)) + toasts (trace (page rt))
       + length (pending rt))
    = shown user (chatMessages (page rt))
      + (shown bot (chatMessages (page rt')) + toasts (trace (page rt'))
         + length (pending rt'))
    /\ ((0 <= maxRetries cfg)%Z -> Forall (withinLimit cfg) (pending rt) ->
        (Z.of_nat (attempts (trace (page rt'))) + budget cfg (pending rt')
         + (maxRetries cfg + 1)
           * Z.of_nat (shown user (chatMessages (page rt)))
         <= Z.of_nat (attempts (trace (page rt))) + budget cfg (pending rt)
            + (maxRetries cfg + 1)
              * Z.of_nat (shown user (chatMessages (page rt'))))%Z).
Proof.
  cbv zeta. unfold run.
  induction events as [| e events IH]; intros rt; cbn [fold_left].
  - split; [lia | intros _ _; lia].
  - destruct (step_counts cfg e rt) as [H1 H2].
    destruct (IH (step cfg e rt)) as [H3 H4].
    split; [lia |]. intros Hmax Hall.
    specialize (H2 Hmax Hall).
    specialize (H4 Hmax (step_withinLimit cfg e rt Hall)). lia.
Qed.

(** X18: whatever the user and the network do, and in whatever order,
    every message that the form has sent is settled once: the number of
    user messages added to the chat is the number of replies added, plus
    the number of error toasts shown, plus the number of calls of
    [sendMessage] that are still waiting. *)
Theorem every_message_settles_once :
  forall (cfg : Config) (w : World) (events : list event),
    let rt := run cfg events (mkRuntime w []) in
    shown user (chatMessages (page rt))
    + (shown bot (chatMessages w) + toasts (trace w))
    = shown user (chatMessages w)
      + (shown bot (chatMessages (page rt)) + toasts (trace (page rt))
         + length (pending rt)).
Proof.
  intros cfg w events. cbv zeta.
  destruct (run_counts cfg events (mkRuntime w [])) as [H _].
  cbn [page pending length] in H. lia.
Qed.

(** X19: with a retry limit that is not negative, no schedule makes the
    script send more requests than the limit plus one for every message
    that the form has sent. *)
Theorem requests_bounded :
  forall (cfg : Config) (w : World) (events : list event),
    (0 <= maxRetries cfg)%Z ->
    let rt := run cfg events (mkRuntime w []) in
    (Z.of_nat (attempts (trace (page rt)))
     + (maxRetries cfg + 1) * Z.of_nat (shown user (chatMessages w))
     <= Z.of_nat (attempts (trace w))
        + (maxRetries cfg + 1)
          * Z.of_nat (shown user (chatMessages (page rt))))%Z.
Proof.
  intros cfg w events Hmax. cbv zeta.
  destruct (run_counts cfg events (mkRuntime w [])) as [_ H].
  specialize (H Hmax ltac:(constructor)).
  cbn [page pending budget fold_right] in H.
  assert (Hb : (0 <= budget cfg (pending (run cfg events (mkRuntime w []))))%Z).
  { apply budget_nonneg; [exact Hmax |].
    assert (Hall : forall evs rt,
               Forall (withinLimit cfg) (pending rt) ->
               Forall (withinLimit cfg) (pending (run cfg evs rt))).
    { unfold run. induction evs as [| e evs IH]; intros rt Hrt;
        [exact Hrt |].
      cbn [fold_left]. apply IH, step_withinLimit, Hrt. }
    apply Hall. constructor. }
  lia.
Qed.

Lemma requests_bounded_witness :
  let rt := run CONFIG
                [Typed (str "hi"); Submit; FetchSettled 0 None;
                 TimerFired 0; FetchSettled 0 (Some false)]
                (mkRuntime blank []) in
  (Z.of_nat (attempts (trace (page rt)))
   + (maxRetries CONFIG + 1) * Z.of_nat (shown user (chatMessages blank))
   <= Z.of_nat (attempts (trace blank))
      + (maxRetries CONFIG + 1)
        * Z.of_nat (shown user (chatMessages (page rt))))%Z.
Proof.
  apply (requests_bounded CONFIG blank). cbn. lia.
Defined.

(** ** A message that is a table *)

Lemma reTable_rows :
  reTable
  = Cat (opt (Grp 1 (lits (str "<p>"))))
        (Cat (plus reRow)
             (Cat (Grp 3 (Cat (Lit 124%N) (plus (Class notLt))))
                  (opt (Grp 4 (lits (str "</p>")))))).
Proof. reflexivity. Qed.

(** A run of a class that ends before a code unit outside the class. *)
Lemma run_prefix (f : char -> bool) (c0 : char) (tail : jsstring) :
  f c0 = false ->
  forall w1 w2 body : jsstring,
    w1 ++ w2 = body ++ c0 :: tail ->
    Forall (fun c => f c = true) w1 ->
    Forall (fun c => f c = true) body ->
    exists body2, body = w1 ++ body2 /\ w2 = body2 ++ c0 :: tail.
Proof.
  intros Hc0. induction w1 as [| a w1 IH]; intros w2 body Heq Hw1 Hbody.
  - exists body. split; [reflexivity | exact Heq].
  - inversion Hw1 as [| ? ? Ha Hw1']; subst.
    destruct body as [| b body]; cbn [app] in Heq.
    + injection Heq as -> _. congruence.
    + injection Heq as -> Heq. inversion Hbody as [| ? ? _ Hbody']; subst.
      destruct (IH w2 body Heq Hw1' Hbody') as (body2 & -> & ->).
      exists body2. split; reflexivity.
Qed.

(** One line of the table pattern. *)
Lemma row_hit (p : nat) (body tail : jsstring)
      (cs : nat -> option jsstring) (d : cont) :
  body <> [] ->
  Forall (fun c => notLt c = true) body ->
  d (setCap 2 (124%N :: body ++ str "<br>")
            (MState (p + 5 + length body) tail cs)) <> None ->
  m reRow (MState p (124%N :: body ++ str "<br>" ++ tail) cs) d
  = d (setCap 2 (124%N :: body ++ str "<br>")
              (MState (p + 5 + length body) tail cs)).
Proof.
  intros Hne Hbody Hd.
  destruct (d (setCap 2 (124%N :: body ++ str "<br>")
                      (MState (p + 5 + length body) tail cs)))
    as [z |] eqn:Hz; [clear Hd | congruence].
  unfold reRow, plus.
  change (lits (str "<br>"))
    with (Cat (Lit 60%N) (Cat (Lit 98%N) (Cat (Lit 114%N) (Lit 62%N)))).
  change (str "<br>" ++ tail) with (60 :: 98 :: 114 :: 62 :: tail)%N.
  cbn [m rest advance pos caps groups Nat.add].
  rewrite N.eqb_refl.
  apply (greedy_class notLt _ _ 1 (S p) body (60 :: 98 :: 114 :: 62 :: tail)%N).
  - rewrite length_app. cbn [length]. lia.
  - exact Hbody.
  - destruct body; [congruence | cbn; lia].
  - intros v1 v2 Hv Hv1 Hall. exfalso.
    destruct v1 as [| a v1]; [congruence |].
    cbn [app] in Hv. injection Hv as <- _.
    inversion Hall as [| ? ? Ha _]. discriminate Ha.
  - cbn [m rest advance pos caps]. rewrite !N.eqb_refl. cbv iota.
    rewrite <- Hz. f_equal. unfold setCap, advance. cbn [pos rest caps].
    replace (firstn (S (S (S (S (S p + length body)))) - p)
                    (124%N :: body ++ 60%N :: 98%N :: 114%N :: 62%N :: tail))
      with (124%N :: body ++ str "<br>").
    + f_equal. lia.
    + symmetry.
      change (124%N :: body ++ 60%N :: 98%N :: 114%N :: 62%N :: tail)
        with ((124%N :: body) ++ str "<br>" ++ tail).
      rewrite app_assoc. apply firstn_exact.
      cbn [length]. rewrite length_app.
      change (length (str "<br>")) with 4. lia.
Qed.

Lemma row_miss (p : nat) (body tail : jsstring)
      (cs : nat -> option jsstring) (d : cont) :
  Forall (fun c => notLt c = true) body ->
  tail = [] \/ (exists c t, tail = 60%N :: c :: t /\ c <> 98%N) ->
  m reRow (MState p (124%N :: body ++ tail) cs) d = None.
Proof.
  intros Hbody Htail. unfold reRow, plus.
  change (lits (str "<br>"))
    with (Cat (Lit 60%N) (Cat (Lit 98%N) (Cat (Lit 114%N) (Lit 62%N)))).
  cbn [m rest advance pos caps groups Nat.add].
  rewrite N.eqb_refl.
  apply greedy_fail. intros w1 w2 Heq Hw1 _.
  destruct Htail as [-> | (c & t & -> & Hc)].
  - rewrite app_nil_r in Heq. subst body.
    apply Forall_app in Hbody as [_ Hw2].
    destruct w2 as [| a w2]; [reflexivity |].
    inversion Hw2 as [| ? ? Ha _]; subst.
    unfold notLt in Ha. apply negb_true_iff in Ha.
    cbn [m rest]. rewrite Ha. reflexivity.
  - destruct (run_prefix notLt 60%N (c :: t) eq_refl w1 w2 body
                (eq_sym Heq) Hw1 Hbody) as (body2 & -> & ->).
    apply Forall_app in Hbody as [_ Hb2].
    destruct body2 as [| a body2].
    + cbn [m rest app advance]. rewrite N.eqb_refl.
      rewrite (proj2 (N.eqb_neq c 98) Hc). reflexivity.
    + inversion Hb2 as [| ? ? Ha _]; subst.
      unfold notLt in Ha. apply negb_true_iff in Ha.
      cbn [m rest app]. rewrite Ha. reflexivity.
Qed.


(** One round of a repetition without an upper bound. *)
Lemma repeat_step (ma : mstate -> cont -> option mstate) (gs : list nat)
      (fuel min : nat) (x : mstate) (c : cont) :
  repeatMatcher ma gs (S fuel) min None true x c
  = let r := ma (clearCaps gs x)
                (fun y =>
                   if Nat.eqb min 0 && Nat.eqb (pos y) (pos x) then None
                   else repeatMatcher ma gs fuel (Nat.pred min) None true
                                      y c) in
    if negb (Nat.eqb min 0) then r
    else match r with Some z => Some z | None => c x end.
Proof. reflexivity. Qed.

(** The lines of the table pattern: every line that ends with a line
    break is taken, up to a line that does not. *)
Lemma rows_loop (c : cont) (tail : jsstring) :
  (forall p cs d, m reRow (MState p tail cs) d = None) ->
  forall (mids : list jsstring) (fuel min p pf : nat)
         (cs : nat -> option jsstring),
    Forall (fun e => exists body,
                e = 124%N :: body /\ body <> []
                /\ Forall (fun c => notLt c = true) body) mids ->
    min <= length mids -> length mids < fuel ->
    pf = p + length (concat (map (fun e => e ++ str "<br>") mids)) ->
    (forall cs', c (MState pf tail cs') <> None) ->
    exists cs',
      repeatMatcher (m reRow) [2] fuel min None true
        (MState p (concat (map (fun e => e ++ str "<br>") mids) ++ tail) cs)
        c
      = c (MState pf tail cs').
Proof.
  intros Hmiss.
  induction mids as [| e mids IH];
    intros fuel min p pf cs Hall Hmin Hfuel Hpf Hc;
    (destruct fuel as [| fuel]; [cbn in Hfuel; lia |]).
  - cbn [length] in Hmin. assert (min = 0) by lia. subst min.
    cbn [map concat app length] in *. rewrite Nat.add_0_r in Hpf. subst pf.
    rewrite repeat_step. cbv zeta.
    cbn [clearCaps fold_right pos rest caps Nat.eqb negb].
    rewrite Hmiss. exists cs. reflexivity.
  - inversion Hall as [| ? ? (body & -> & Hne & Hbody) Hall']; subst e.
    cbn [map concat] in Hpf |- *. rewrite !length_app in Hpf.
    cbn [length] in Hpf. change (length (str "<br>")) with 4 in Hpf.
    rewrite <- !app_assoc. cbn [app].
    destruct (IH fuel (Nat.pred min) (p + 5 + length body) pf
                 (fun j => if Nat.eqb j 2
                           then @Some jsstring (124%N :: body ++ str "<br>")
                           else if Nat.eqb j 2 then None else cs j)
                 Hall') as (cs' & Hrec);
      [cbn [length] in Hmin; lia | cbn [length] in Hfuel; lia | lia
      | exact Hc |].
    exists cs'.
    rewrite repeat_step. cbv zeta.
    cbn [clearCaps fold_right pos rest caps].
    rewrite row_hit; [| exact Hne | exact Hbody |];
      cbv beta; unfold setCap; cbn [pos rest caps]; cbv beta;
      (replace (Nat.eqb (p + 5 + length body) p) with false
        by (symmetry; apply Nat.eqb_neq; lia));
      rewrite andb_false_r, Hrec; [| apply Hc].
    destruct (negb (Nat.eqb min 0)); [reflexivity |].
    destruct (c _) eqn:Hr; [reflexivity |].
    exfalso. apply (Hc cs'). exact Hr.
Qed.

(** The optional opening tag of the table pattern. *)
Lemma opt_open (p : nat) (t : jsstring) (cs : nat -> option jsstring)
      (c : cont) :
  (forall cs', c (MState (S (S (S p))) t cs') <> None) ->
  exists cs',
    m (opt (Grp 1 (lits (str "<p>")))) (MState p (str "<p>" ++ t) cs) c
    = c (MState (S (S (S p))) t cs').
Proof.
  intros Hc. unfold opt. rewrite m_Rep.
  change (lits (str "<p>"))
    with (Cat (Lit 60%N) (Cat (Lit 112%N) (Lit 62%N))).
  change (str "<p>" ++ t) with (60 :: 112 :: 62 :: t)%N.
  cbn [rest length Nat.add groups app repeatMatcher Nat.eqb negb andb
       clearCaps fold_right pos caps Nat.pred decr].
  cbn [m rest advance pos caps].
  rewrite !N.eqb_refl. cbv iota.
  unfold setCap, advance. cbn [pos rest caps].
  replace (Nat.eqb (S (S (S p))) p) with false
    by (symmetry; apply Nat.eqb_neq; lia).
  eexists.
  match goal with
  | |- match ?e with _ => _ end = _ => destruct e eqn:He
  end.
  - symmetry. exact He.
  - exfalso. apply (Hc _ He).
Qed.

(** The last line of the table and the closing tag. *)
Lemma table_last (p : nat) (body : jsstring) (cs : nat -> option jsstring) :
  body <> [] -> Forall (fun c => notLt c = true) body ->
  exists z,
    m (Cat (Grp 3 (Cat (Lit 124%N) (plus (Class notLt))))
           (opt (Grp 4 (lits (str "</p>")))))
      (MState p (124%N :: body ++ str "</p>") cs) Some = Some z
    /\ pos z = p + 5 + length body /\ rest z = [].
Proof.
  intros Hne Hbody. unfold plus, opt.
  change (lits (str "</p>"))
    with (Cat (Lit 60%N) (Cat (Lit 47%N) (Cat (Lit 112%N) (Lit 62%N)))).
  change (str "</p>") with [60; 47; 112; 62]%N.
  cbn [m rest advance pos caps groups Nat.add].
  rewrite N.eqb_refl.
  eexists. split.
  - apply (greedy_class notLt _ _ 1 (S p) body [60; 47; 112; 62]%N).
    + rewrite length_app. cbn [length]. lia.
    + exact Hbody.
    + destruct body; [congruence | cbn; lia].
    + intros v1 v2 Hv Hv1 Hall. exfalso.
      destruct v1 as [| a v1]; [congruence |].
      cbn [app] in Hv. injection Hv as <- _.
      inversion Hall as [| ? ? Ha _]. discriminate Ha.
    + cbn [repeatMatcher rest length Nat.add Nat.eqb negb andb
           clearCaps fold_right groups pos caps Nat.pred decr setCap app].
      cbn [m rest advance pos caps].
      rewrite !N.eqb_refl. cbv iota.
      unfold setCap, advance. cbn [pos rest caps].
      replace (Nat.eqb (S (S (S (S (S (p + length body))))))
                       (S (p + length body))) with false
        by (symmetry; apply Nat.eqb_neq; lia).
      reflexivity.
  - cbn [pos rest]. split; [lia | reflexivity].
Qed.

(** The table pattern on a paragraph whose lines all start with a
    pipe: one match, which takes the paragraph with its tags. *)
Lemma exec_reTable_all (mids : list jsstring) (body : jsstring) :
  mids <> [] ->
  Forall (fun e => exists body,
              e = 124%N :: body /\ body <> []
              /\ Forall (fun c => notLt c = true) body) mids ->
  body <> [] -> Forall (fun c => notLt c = true) body ->
  exists z,
    exec reTable 0
         (str "<p>" ++ concat (map (fun e => e ++ str "<br>") mids)
            ++ 124%N :: body ++ str "</p>") = Some z
    /\ pos z = length (str "<p>" ++ concat (map (fun e => e ++ str "<br>") mids)
                         ++ 124%N :: body ++ str "</p>")
    /\ rest z = [].
Proof.
  intros Hmids Hall Hne Hbody. unfold exec. rewrite reTable_rows.
  rewrite m_Cat.
  set (pf := 3 + length (concat (map (fun e => e ++ str "<br>") mids))).
  assert (Hlast : forall cs',
             exists z,
               m (Cat (Grp 3 (Cat (Lit 124%N) (plus (Class notLt))))
                      (opt (Grp 4 (lits (str "</p>")))))
                 (MState pf (124%N :: body ++ str "</p>") cs') Some = Some z
               /\ pos z = pf + 5 + length body /\ rest z = []).
  { intros cs'. apply table_last; assumption. }
  assert (Hloop : forall cs,
             exists cs',
               m (Cat (plus reRow)
                      (Cat (Grp 3 (Cat (Lit 124%N) (plus (Class notLt))))
                           (opt (Grp 4 (lits (str "</p>"))))))
                 (MState 3 (concat (map (fun e => e ++ str "<br>") mids)
                              ++ 124%N :: body ++ str "</p>") cs) Some
               = m (Cat (Grp 3 (Cat (Lit 124%N) (plus (Class notLt))))
                        (opt (Grp 4 (lits (str "</p>")))))
                   (MState pf (124%N :: body ++ str "</p>") cs') Some).
  { intros cs. rewrite m_Cat. unfold plus at 1. rewrite m_Rep.
    change (groups reRow) with [2].
    apply (rows_loop
             (fun y => m (Cat (Grp 3 (Cat (Lit 124%N) (plus (Class notLt))))
                              (opt (Grp 4 (lits (str "</p>"))))) y Some)
             (124%N :: body ++ str "</p>")).
    - intros p cs0 d. apply row_miss; [exact Hbody |].
      right. exists 47%N, (str "p>"). split; [reflexivity | discriminate].
    - exact Hall.
    - destruct mids; [congruence | cbn; lia].
    - cbn [rest]. rewrite length_app.
      assert (length mids
              <= length (concat (map (fun e => e ++ str "<br>") mids))).
      { clear. induction mids as [| e mids IH]; [reflexivity |].
        cbn [map concat length]. rewrite !length_app.
        change (length (str "<br>")) with 4. lia. }
      lia.
    - reflexivity.
    - intros cs'. destruct (Hlast cs') as (z & Hz & _). rewrite Hz.
      discriminate. }
  destruct (opt_open 0 (concat (map (fun e => e ++ str "<br>") mids)
                          ++ 124%N :: body ++ str "</p>")
                     (fun _ => None)
                     (fun y => m (Cat (plus reRow)
                                   (Cat (Grp 3 (Cat (Lit 124%N)
                                                    (plus (Class notLt))))
                                        (opt (Grp 4 (lits (str "</p>"))))))
                                 y Some))
    as (cs1 & H1).
  { intros cs'. destruct (Hloop cs') as (cs2 & ->).
    destruct (Hlast cs2) as (z & Hz & _). rewrite Hz. discriminate. }
  rewrite H1. destruct (Hloop cs1) as (cs2 & ->).
  destruct (Hlast cs2) as (z & Hz & Hp & Hr).
  exists z. split; [exact Hz |]. split; [| exact Hr].
  rewrite Hp. subst pf. rewrite !length_app. cbn [length].
  rewrite length_app. change (length (str "</p>")) with 4.
  change (length (str "<p>")) with 3. lia.
Qed.


(** A template without a dollar sign is put in as it is. *)
Lemma GetSubstitution_plain (mt b a : jsstring) (n : nat)
      (cs : nat -> option jsstring) (template : jsstring) :
  Forall (fun c => c <> 36%N) template ->
  GetSubstitution mt b a n cs template = template.
Proof.
  induction 1 as [| ch t Hch _ IH]; [reflexivity |].
  cbn [GetSubstitution]. rewrite (proj2 (N.eqb_neq ch 36) Hch).
  cbn [negb]. rewrite IH. reflexivity.
Qed.

(** A match that takes the whole text. *)
Lemma replace_whole (r : re) (template s : jsstring) :
  (exists z, exec r 0 s = Some z /\ pos z = length s /\ rest z = []) ->
  s <> [] ->
  Forall (fun c => c <> 36%N) template ->
  (forall k, exec r k [] = None) ->
  replace r template s = template.
Proof.
  intros (z & He & Hp & Hr) Hs Ht Hnil. unfold replace.
  cbn [replaceLoop]. rewrite (search_hit _ _ _ _ He).
  cbn [Nat.sub firstn app]. rewrite (GetSubstitution_plain _ _ _ _ _ _ Ht).
  rewrite Hp, Hr.
  destruct s as [| ch s]; [congruence |].
  cbn [length Nat.eqb replaceLoop search]. rewrite Hnil. apply app_nil_r.
Qed.

Lemma exec_reTable_nil (k : nat) : exec reTable k [] = None.
Proof. reflexivity. Qed.

(** The rows of a table hold the code units of its lines and of the
    tags. *)
Lemma trim_Forall (Q : char -> Prop) (s : jsstring) :
  Forall Q s -> Forall Q (JS.trim s).
Proof.
  assert (Hstart : forall t, Forall Q t -> Forall Q (JS.trimStart t)).
  { intros t Ht. destruct (trimStart_spec t) as (ws & Heq & _).
    rewrite Heq in Ht. apply Forall_app in Ht as [_ Ht]. exact Ht. }
  intros Hs. unfold JS.trim.
  apply Forall_rev, Hstart, Forall_rev, Hstart, Hs.
Qed.

Lemma tableRow_Forall (Q : char -> Prop) (index : nat) (line : jsstring) :
  Forall Q (str "<tr></thd>") -> Forall Q line ->
  Forall Q (tableRow index line).
Proof.
  intros HQ Hline.
  assert (Hin : forall w, incl w (str "<tr></thd>") -> Forall Q w).
  { intros w Hw. apply Forall_forall. intros a Ha.
    apply (proj1 (Forall_forall _ _) HQ), Hw, Ha. }
  unfold tableRow. destruct (test reSeparator line); [constructor |].
  assert (Hcells : Forall (Forall Q)
                     (filter (fun cell => JS.truthy (JS.trim cell))
                             (JS.split line (str "|")))).
  { apply Forall_forall. intros cell Hc. apply filter_In in Hc as [Hc _].
    pose proof (splitFuel_Forall Q (str "|") (length line) line Hline) as H.
    apply (proj1 (Forall_forall _ _) H cell Hc). }
  destruct (filter _ _) as [| cell cells]; [constructor |].
  apply Forall_app. split; [apply Hin; intros a Ha; cbn in Ha |- *; tauto |].
  apply Forall_app. split; [| apply Hin; intros a Ha; cbn in Ha |- *; tauto].
  induction Hcells as [| c l Hc _ IHl]; [constructor |].
  cbn [map concat]. apply Forall_app. split; [| exact IHl].
  destruct (Nat.eqb index 0);
    (apply Forall_app; split;
     [apply Hin; intros a Ha; cbn in Ha |- *; tauto |]);
    (apply Forall_app; split;
     [apply Hin; intros a Ha; cbn in Ha |- *; tauto |]);
    (apply Forall_app; split;
     [apply Hin; intros a Ha; cbn in Ha |- *; tauto |]);
    (apply Forall_app; split; [apply trim_Forall, Hc |]);
    (apply Forall_app; split;
     [apply Hin; intros a Ha; cbn in Ha |- *; tauto |]);
    (apply Forall_app; split;
     [apply Hin; intros a Ha; cbn in Ha |- *; tauto |]);
    apply Hin; intros a Ha; cbn in Ha |- *; tauto.
Qed.

Lemma tableRows_Forall (Q : char -> Prop) (lines : list jsstring) :
  Forall Q (str "<tr></thd>") -> Forall (Forall Q) lines ->
  forall index, Forall Q (tableRows index lines).
Proof.
  intros HQ. induction 1 as [| line lines Hl _ IH]; intros index;
    cbn [tableRows]; [constructor |].
  apply Forall_app. split; [apply tableRow_Forall; assumption | apply IH].
Qed.

(** The lines of a paragraph of table lines. *)
Lemma cut_br (e tail : jsstring) :
  Forall (fun c => c <> 60%N) e ->
  JS.cut (str "<br>") (e ++ str "<br>" ++ tail) = Some (e, tail).
Proof.
  induction 1 as [| c e Hc _ IH].
  - cbn [app]. change (str "<br>" ++ tail) with (60 :: 98 :: 114 :: 62 :: tail)%N.
    change (str "<br>") with [60; 98; 114; 62]%N.
    cbn [JS.cut JS.startsWith]. rewrite !N.eqb_refl, startsWith_nil.
    reflexivity.
  - cbn [app]. change (str "<br>") with [60; 98; 114; 62]%N in *.
    cbn [JS.cut JS.startsWith]. rewrite (proj2 (N.eqb_neq c 60) Hc).
    cbn [andb]. rewrite IH. reflexivity.
Qed.

Lemma cut_br_none (e : jsstring) :
  Forall (fun c => c <> 60%N) e ->
  JS.cut (str "<br>") (e ++ str "</p>") = None.
Proof.
  induction 1 as [| c e Hc _ IH]; [reflexivity |].
  cbn [app]. change (str "<br>") with [60; 98; 114; 62]%N in *.
  cbn [JS.cut JS.startsWith]. rewrite (proj2 (N.eqb_neq c 60) Hc).
  cbn [andb]. rewrite IH. reflexivity.
Qed.

Lemma splitFuel_rows (mids : list jsstring) (piece : jsstring) :
  Forall (Forall (fun c => c <> 60%N)) mids ->
  JS.cut (str "<br>") piece = None ->
  forall fuel,
    length mids <= fuel ->
    JS.splitFuel fuel (str "<br>")
                 (concat (map (fun e => e ++ str "<br>") mids) ++ piece)
    = mids ++ [piece].
Proof.
  intros Hall Hpiece. induction Hall as [| e mids He _ IH]; intros fuel Hf.
  - cbn [map concat app]. destruct fuel; cbn [JS.splitFuel]; [reflexivity |].
    rewrite Hpiece. reflexivity.
  - destruct fuel as [| fuel]; [cbn in Hf; lia |].
    cbn [map concat]. rewrite <- !app_assoc. cbn [JS.splitFuel].
    rewrite (cut_br e _ He). cbn [app]. f_equal.
    apply IH. cbn [length] in Hf. lia.
Qed.

Lemma filter_all {A} (f : A -> bool) (l : list A) :
  Forall (fun a => f a = true) l -> filter f l = l.
Proof.
  induction 1 as [| a l Ha _ IH]; [reflexivity |].
  cbn [filter]. rewrite Ha, IH. reflexivity.
Qed.

(** The header row of a line that begins with the paragraph tag. *)
Lemma separator_starts_with_pipe (c : char) (s : jsstring) :
  c <> 124%N -> test reSeparator (c :: s) = false.
Proof.
  intros Hc. unfold test. rewrite search_none; [reflexivity |].
  intros u v y Huv H. unfold reSeparator in H.
  apply Matches_Cat in H as (y0 & H0 & H).
  apply Matches_Cat in H as (y1 & H1 & _).
  inversion H0 as [| | | | | x Hp | | |]; subst.
  apply Matches_Lit in H1 as (Hr & _). cbn [pos rest] in Hp, Hr.
  destruct u as [| a u]; [| discriminate Hp].
  cbn [app] in Huv. subst v. injection Hr as -> _. congruence.
Qed.

Lemma header_row (b : jsstring) :
  exists more,
    tableRow 0 (str "<p>" ++ 124%N :: b) = str "<tr><th><p></th>" ++ more.
Proof.
  unfold tableRow.
  change (str "<p>" ++ 124%N :: b) with (60 :: 112 :: 62 :: 124 :: b)%N.
  rewrite separator_starts_with_pipe by discriminate.
  unfold JS.split. change (str "|") with [124%N].
  cbn [length JS.splitFuel JS.cut JS.startsWith].
  change (60 =? 124)%N with false. change (112 =? 124)%N with false.
  change (62 =? 124)%N with false. rewrite N.eqb_refl, startsWith_nil.
  cbn [andb skipn length filter].
  change (JS.truthy (JS.trim [60; 112; 62]%N)) with true. cbv iota.
  cbn [Nat.eqb map concat].
  change (JS.trim [60; 112; 62]%N) with (str "<p>").
  eexists. rewrite <- !app_assoc. reflexivity.
Qed.

Lemma includes_mid (sep pre x : jsstring) :
  JS.includes (pre ++ sep ++ x) sep = true.
Proof.
  unfold JS.includes.
  assert (H : exists r, JS.cut sep (pre ++ sep ++ x) = Some r).
  { induction pre as [| c pre (r & IH)].
    - cbn [app]. destruct (sep ++ x) as [| a t] eqn:Heq; cbn [JS.cut];
        rewrite <- Heq;
        rewrite (proj2 (startsWith_app (sep ++ x) sep)
                       (ex_intro _ x eq_refl));
        eexists; reflexivity.
    - cbn [app JS.cut].
      destruct (JS.startsWith (c :: pre ++ sep ++ x) sep);
        [eexists; reflexivity |].
      rewrite IH. destruct r. eexists. reflexivity. }
  destruct H as (r & ->). reflexivity.
Qed.

Lemma join_cons (sep p : jsstring) (parts : list jsstring) :
  parts <> [] -> JS.join sep (p :: parts) = p ++ sep ++ JS.join sep parts.
Proof. destruct parts; [congruence | reflexivity]. Qed.

Lemma join_Forall (Q : char -> Prop) (sep : jsstring)
      (parts : list jsstring) :
  Forall Q sep -> Forall (Forall Q) parts -> Forall Q (JS.join sep parts).
Proof.
  intros Hsep. induction 1 as [| p parts Hp _ IH]; [constructor |].
  destruct parts as [| q parts]; [exact Hp |].
  rewrite join_cons by discriminate.
  apply Forall_app. split; [exact Hp |].
  apply Forall_app. split; [exact Hsep | exact IH].
Qed.

(** Lines that are not empty leave no blank line between them. *)
Lemma cut_line (r s : jsstring) :
  Forall (fun c => c <> LF) r ->
  match s with c :: _ => c <> LF | [] => False end ->
  JS.cut [LF; LF] s = None ->
  JS.cut [LF; LF] (r ++ LF :: s) = None.
Proof.
  intros Hr Hs Hcut. induction Hr as [| c r Hc _ IH];
    cbn [app JS.cut JS.startsWith].
  - destruct s as [| a s]; [destruct Hs |].
    cbn [JS.startsWith]. rewrite (proj2 (N.eqb_neq a LF) Hs).
    rewrite N.eqb_refl. cbn [andb]. rewrite Hcut. reflexivity.
  - rewrite (proj2 (N.eqb_neq c LF) Hc). cbn [andb]. rewrite IH.
    reflexivity.
Qed.

Lemma cut_lines (rows : list jsstring) :
  Forall (fun r => match r with c :: _ => True | [] => False end
                   /\ Forall (fun c => c <> LF) r) rows ->
  rows <> [] ->
  JS.cut [LF; LF] (JS.join [LF] rows) = None
  /\ match JS.join [LF] rows with c :: _ => c <> LF | [] => False end.
Proof.
  induction 1 as [| r rows [Hne Hr] Hrows IH]; intros Hrows';
    [destruct (Hrows' eq_refl) |].
  destruct rows as [| r' rows].
  - cbn [JS.join]. split; [apply cut_none, Hr |].
    destruct r as [| c r]; [destruct Hne |]. inversion Hr. assumption.
  - rewrite join_cons by discriminate.
    destruct IH as [IH1 IH2]; [discriminate |].
    split.
    + apply cut_line; assumption.
    + destruct r as [| c r]; [destruct Hne |]. inversion Hr. assumption.
Qed.

Lemma lineBreaks_escaped (t : jsstring) :
  Forall (fun c => c <> LF) t ->
  lineBreaks (serializeText t) = serializeText t.
Proof.
  intros Ht. apply lineBreaks_plain.
  apply serializeText_Forall; [repeat constructor; discriminate | exact Ht].
Qed.

Lemma lineBreaks_rows (ms : list jsstring) (l : jsstring) :
  Forall (Forall (fun c => c <> LF)) ms ->
  Forall (fun c => c <> LF) l ->
  lineBreaks (serializeText (JS.join [LF] (ms ++ [l])))
  = concat (map (fun e => e ++ str "<br>") (map serializeText ms))
      ++ serializeText l.
Proof.
  intros Hms Hl. induction Hms as [| r ms Hr _ IH].
  - cbn [app JS.join map concat]. apply lineBreaks_escaped, Hl.
  - cbn [app]. rewrite join_cons by (destruct ms; discriminate).
    rewrite !serializeText_app, !lineBreaks_app, IH.
    rewrite (lineBreaks_escaped r Hr).
    cbn [map concat]. rewrite <- !app_assoc. reflexivity.
Qed.

(** Where nothing is marked, the rules for bullets and for bold text
    change nothing. *)
Lemma unmarked_stages (P : jsstring) :
  unmarked P = true -> bold (bullets P) = P.
Proof.
  intros HU. unfold bullets.
  rewrite (replace_none reBullet _ P)
    by (apply search_unmarked; [apply reBullet_marked | exact HU]).
  rewrite (replace_none reItems _ P)
    by (apply search_unmarked; [apply reItems_marked | exact HU]).
  unfold bold.
  apply replace_none, search_unmarked; [apply reBold_marked | exact HU].
Qed.

(** What escaping makes of a line of a table. *)
Lemma row_escaped (row : jsstring) :
  rowText row ->
  exists b,
    serializeText row = 124%N :: b /\ b <> []
    /\ Forall (fun c => notLt c = true) b
    /\ Forall (fun c => c <> 36%N) b.
Proof.
  intros (body & -> & Hne & Hbody).
  exists (serializeText body). split; [reflexivity |].
  split.
  { destruct body as [| c body]; [destruct (Hne eq_refl) |].
    rewrite serializeText_cons.
    destruct (c =? 38)%N; [discriminate |].
    destruct (c =? 160)%N; [discriminate |].
    destruct (c =? 60)%N; [discriminate |].
    destruct (c =? 62)%N; discriminate. }
  split.
  { eapply Forall_impl; [| apply serializeText_no_brackets].
    intros c [Hc _]. unfold notLt. apply negb_true_iff, N.eqb_neq, Hc. }
  apply serializeText_Forall; [repeat constructor; discriminate |].
  eapply Forall_impl; [| exact Hbody]. intros c (_ & _ & H). exact H.
Qed.

Lemma rows_length (mids : list jsstring) :
  length mids <= length (concat (map (fun e => e ++ str "<br>") mids)).
Proof.
  induction mids as [| e mids IH]; [reflexivity |].
  cbn [map concat length]. rewrite !length_app.
  change (length (str "<br>")) with 4. lia.
Qed.

Lemma cut_br_open (e tail : jsstring) :
  Forall (fun c => c <> 60%N) e ->
  JS.cut (str "<br>") (str "<p>" ++ e ++ str "<br>" ++ tail)
  = Some (str "<p>" ++ e, tail).
Proof.
  intros He. pose proof (cut_br e tail He) as H.
  change (str "<p>" ++ e ++ str "<br>" ++ tail)
    with (60 :: 112 :: 62 :: e ++ str "<br>" ++ tail)%N.
  change (str "<br>") with [60; 98; 114; 62]%N in *.
  cbn [JS.cut JS.startsWith].
  change (112 =? 98)%N with false. change (112 =? 60)%N with false.
  change (62 =? 60)%N with false. rewrite andb_false_r. cbn [andb].
  rewrite H. reflexivity.
Qed.

(** X20: a message whose lines all begin with a pipe comes out as one
    table and nothing else; the first line of the table still carries
    the opening tag of the paragraph and the last line its closing tag,
    so that the header row begins with a cell that holds <p>. *)
Theorem table_message_has_stray_cells :
  forall (first last : jsstring) (middle : list jsstring),
    Forall rowText (first :: middle ++ [last]) ->
    let lines := (str "<p>" ++ serializeText first)
                   :: map serializeText middle
                   ++ [serializeText last ++ str "</p>"] in
    formatted (JS.join [LF] (first :: middle ++ [last]))
    = str "<table>" ++ tableRows 0 lines ++ str "</table>"
    /\ exists more, tableRows 0 lines = str "<tr><th><p></th>" ++ more.
Proof.
  intros first last middle Hrows. cbv zeta.
  set (rows := first :: middle ++ [last]).
  set (content := JS.join [LF] rows).
  assert (HnoLF : Forall (fun r => match r with
                                   | _ :: _ => True
                                   | [] => False
                                   end /\ Forall (fun c => c <> LF) r) rows).
  { eapply Forall_impl; [| exact Hrows]. intros r (body & -> & _ & Hb).
    split; [exact I |]. constructor; [discriminate |].
    eapply Forall_impl; [| exact Hb]. intros c (H & _). exact H. }
  assert (Hstar : Forall (Forall (fun c => c <> 42%N)) rows).
  { eapply Forall_impl; [| exact Hrows]. intros r (body & -> & _ & Hb).
    constructor; [discriminate |].
    eapply Forall_impl; [| exact Hb]. intros c (_ & H & _). exact H. }
  assert (Hesc : Forall (fun e => exists b,
                     e = 124%N :: b /\ b <> []
                     /\ Forall (fun c => notLt c = true) b
                     /\ Forall (fun c => c <> 36%N) b)
                        (map serializeText rows)).
  { apply Forall_map. eapply Forall_impl; [| exact Hrows].
    intros r Hr. apply row_escaped, Hr. }
  (* the paragraphs *)
  destruct (cut_lines rows HnoLF ltac:(discriminate)) as [Hcut Hhead].
  fold content in Hcut, Hhead.
  assert (Hsplit : JS.split content [LF; LF] = [content]).
  { unfold JS.split. destruct (length content); cbn [JS.splitFuel];
      [reflexivity |]. rewrite Hcut. reflexivity. }
  change (formatted content)
    with (tables (bold (bullets (paragraphs (serializeText content))))).
  rewrite paragraphs_blocks, Hsplit. cbn [map concat]. rewrite app_nil_r.
  (* bullets and bold *)
  assert (HU : unmarked (block content) = true).
  { pose proof (blocks_unmarked [content]) as H. cbn [map concat] in H.
    rewrite app_nil_r in H. apply H.
    - constructor; [| constructor].
      apply join_Forall; [repeat constructor; discriminate | exact Hstar].
    - constructor; [| constructor]. unfold noBullet, content, rows.
      rewrite join_cons by (destruct middle; discriminate).
      pose proof (Forall_inv Hrows) as (body & -> & _). reflexivity. }
  rewrite (unmarked_stages _ HU).
  (* the text that the table rule sees *)
  unfold block, content, rows.
  change (first :: middle ++ [last]) with ((first :: middle) ++ [last]).
  assert (HLF : Forall (Forall (fun c => c <> LF))
                        ((first :: middle) ++ [last])).
  { eapply Forall_impl; [| exact HnoLF]. intros r [_ H]. exact H. }
  apply Forall_app in HLF as [HmsLF HlLF].
  pose proof (Forall_inv HlLF) as HlastLF.
  rewrite (lineBreaks_rows (first :: middle) last HmsLF HlastLF).
  change (map serializeText rows)
    with (map serializeText ((first :: middle) ++ [last])) in Hesc.
  rewrite map_app in Hesc. apply Forall_app in Hesc as [Hmids HescL].
  pose proof (Forall_inv HescL) as (bL & EL & HbL & HnL & HdL).
  set (mids := map serializeText (first :: middle)) in *.
  rewrite EL. clear EL.
  subst mids. cbn [map] in Hmids |- *.
  pose proof (Forall_inv Hmids) as (b1 & E1 & Hb1 & Hn1 & Hd1).
  pose proof (Forall_inv_tail Hmids) as Hmids'.
  rewrite E1. clear E1.
  set (mids := map serializeText middle) in *.
  set (lines := (str "<p>" ++ 124%N :: b1)
                  :: mids ++ [(124%N :: bL) ++ str "</p>"]).
  set (R := concat (map (fun e => e ++ str "<br>") mids)
              ++ (124%N :: bL) ++ str "</p>").
  match goal with |- tables ?X = _ /\ _ => set (P := X) end.
  assert (HP1 : P = str "<p>"
                      ++ concat (map (fun e => e ++ str "<br>")
                                     ((124%N :: b1) :: mids))
                      ++ 124%N :: bL ++ str "</p>").
  { subst P. cbn [map concat]. rewrite <- !app_assoc. reflexivity. }
  assert (HP2 : P = str "<p>" ++ (124%N :: b1) ++ str "<br>" ++ R).
  { subst P R. cbn [map concat]. rewrite <- !app_assoc. reflexivity. }
  assert (Hnot60 : forall b, Forall (fun c => notLt c = true) b ->
                             Forall (fun c => c <> 60%N) (124%N :: b)).
  { intros b Hb. constructor; [discriminate |].
    eapply Forall_impl; [| exact Hb]. intros c Hc. unfold notLt in Hc.
    apply N.eqb_neq, negb_true_iff, Hc. }
  assert (Hmid60 : Forall (Forall (fun c => c <> 60%N)) mids).
  { eapply Forall_impl; [| exact Hmids'].
    intros e (b & -> & _ & Hb & _). apply Hnot60, Hb. }
  (* the trigger of the table rule *)
  assert (Hi1 : JS.includes P (str "|") = true).
  { rewrite HP2. apply (includes_mid (str "|") (str "<p>")). }
  assert (Hi2 : JS.includes P (str "<br>") = true).
  { rewrite HP2. rewrite app_assoc.
    apply (includes_mid (str "<br>") (str "<p>" ++ 124%N :: b1)). }
  unfold tables. rewrite Hi1, Hi2. cbn [andb].
  (* the candidate lines *)
  assert (Hlines : tableLines P = lines).
  { unfold tableLines.
    assert (Hs : JS.split P (str "<br>") = lines).
    { unfold JS.split. rewrite HP2 at 2.
      destruct (length P) as [| n] eqn:Hn;
        [rewrite HP2 in Hn; discriminate Hn |].
      cbn [JS.splitFuel]. rewrite (cut_br_open _ _ (Hnot60 b1 Hn1)).
      subst lines R. f_equal.
      apply splitFuel_rows; [exact Hmid60 | |].
      - change ((124%N :: bL) ++ str "</p>")
          with (124%N :: bL ++ str "</p>").
        apply (cut_br_none (124%N :: bL)), Hnot60, HnL.
      - rewrite HP2 in Hn. rewrite !length_app in Hn.
        pose proof (rows_length mids). cbn [length] in Hn. lia. }
    rewrite Hs. apply filter_all. subst lines.
    constructor; [apply (includes_mid (str "|") (str "<p>") b1) |].
    apply Forall_app. split.
    - eapply Forall_impl; [| exact Hmids'].
      intros e (b & -> & _). apply (includes_mid (str "|") [] b).
    - constructor; [| constructor].
      apply (includes_mid (str "|") [] (bL ++ str "</p>")). }
  unfold convertToTable. rewrite Hlines.
  match goal with
  | |- context [Nat.ltb ?n 2] => assert (Hlen : Nat.ltb n 2 = false)
  end.
  { apply Nat.ltb_ge. subst lines. cbn [length]. rewrite length_app.
    cbn [length]. lia. }
  rewrite Hlen.
  split.
  - apply replace_whole.
    + rewrite HP1. apply exec_reTable_all; try assumption; [discriminate |].
      constructor.
      * exists b1. repeat split; assumption.
      * eapply Forall_impl; [| exact Hmids'].
        intros e (b & -> & Hb & Hn & _). exists b. repeat split; assumption.
    + rewrite HP2. discriminate.
    + apply Forall_app. split; [repeat constructor; discriminate |].
      apply Forall_app. split; [| repeat constructor; discriminate].
      apply tableRows_Forall; [repeat constructor; discriminate |].
      subst lines. constructor.
      * apply Forall_app. split; [repeat constructor; discriminate |].
        constructor; [discriminate | exact Hd1].
      * apply Forall_app. split.
        -- eapply Forall_impl; [| exact Hmids'].
           intros e (b & -> & _ & _ & Hd). constructor; [discriminate | exact Hd].
        -- constructor; [| constructor].
           apply Forall_app. split; [| repeat constructor; discriminate].
           constructor; [discriminate | exact HdL].
    + apply exec_reTable_nil.
  - subst lines. cbn [tableRows].
    destruct (header_row b1) as (more & ->).
    eexists. rewrite <- app_assoc. reflexivity.
Qed.

Lemma table_message_has_stray_cells_witness :
  formatted (str "|a|b|" ++ [LF] ++ str "|---|---|" ++ [LF] ++ str "|1|2|")
  = str "<table><tr><th><p></th><th>a</th><th>b</th></tr><tr><td>1</td><td>2</td><td></p></td></tr></table>"
  /\ exists more,
      tableRows 0 [str "<p>|a|b|"; str "|---|---|"; str "|1|2|</p>"]
      = str "<tr><th><p></th>" ++ more.
Proof.
  destruct (table_message_has_stray_cells
              (str "|a|b|") (str "|1|2|") [str "|---|---|"]) as [H1 H2].
  - repeat constructor;
      (eexists; split; [reflexivity |];
       split; [discriminate | repeat constructor; discriminate]).
  - split; [| exact H2].
    etransitivity; [exact H1 | vm_compute; reflexivity].
Defined.

(** ** The requests, the waits and the toasts under any schedule *)

Lemma catchBlock_asked cfg (sid : jsstring) (k : nat) (a : activation)
      (rt : Runtime) :
  wellStarted a ->
  sessionId (page rt) = sid ->
  Forall (wellAsked cfg sid) (trace (page rt)) ->
  Forall wellStarted (pending rt) ->
  sessionId (page (catchBlock cfg k a rt)) = sid
  /\ Forall (wellAsked cfg sid) (trace (page (catchBlock cfg k a rt)))
  /\ Forall wellStarted (pending (catchBlock cfg k a rt)).
Proof.
  intros (Hm & Ht & Hr) Hsid Htr Hp. unfold catchBlock.
  destruct (Z.ltb_spec (retryCount a) (maxRetries cfg));
    cbn [page pending sessionId trace emit finallyBlock showToast
         setLoading setTyping setDisabled fulfil].
  - split; [exact Hsid |]. split.
    + apply Forall_app. split; [exact Htr |].
      constructor; [| constructor]. exists (retryCount a + 1)%Z.
      split; [lia | reflexivity].
    + apply Forall_update; [exact Hp |]. repeat split; assumption.
  - split; [exact Hsid |]. split.
    + apply Forall_app. split; [exact Htr |].
      constructor; [reflexivity | constructor].
    + apply Forall_remove, Hp.
Qed.

Lemma step_asked cfg (sid : jsstring) (e : event) (rt : Runtime) :
  sessionId (page rt) = sid ->
  Forall (wellAsked cfg sid) (trace (page rt)) ->
  Forall wellStarted (pending rt) ->
  sessionId (page (step cfg e rt)) = sid
  /\ Forall (wellAsked cfg sid) (trace (page (step cfg e rt)))
  /\ Forall wellStarted (pending (step cfg e rt)).
Proof.
  intros Hsid Htr Hp.
  assert (Hsame : sessionId (page rt) = sid
                  /\ Forall (wellAsked cfg sid) (trace (page rt))
                  /\ Forall wellStarted (pending rt))
    by (repeat split; assumption).
  destruct e as [text | | k response | k data | k]; cbn [step].
  - exact Hsame.
  - unfold handleSubmit.
    destruct (JS.truthy (JS.trim (inputValue (page rt)))) eqn:Hmsg;
      cbn [negb orb]; [| exact Hsame].
    destruct (isLoading (page rt)); [exact Hsame |].
    assert (Hne : JS.trim (inputValue (page rt)) <> []).
    { intros H. rewrite H in Hmsg. discriminate Hmsg. }
    unfold sendMessage.
    cbn [page pending sessionId trace emit appendMessage
         setLoading setTyping setDisabled setInput].
    split; [exact Hsid |]. split.
    + apply Forall_app. split; [exact Htr |].
      constructor; [| constructor].
      split; [exact Hne |]. split; [apply trim_idempotent | exact Hsid].
    + apply Forall_app. split; [exact Hp |].
      constructor; [| constructor].
      split; [exact Hne |]. split; [apply trim_idempotent |].
      cbn [retryCount]. lia.
  - destruct (nth_error (pending rt) k) as [a |] eqn:Hk; [| exact Hsame].
    pose proof (Forall_nth_error _ _ _ _ Hp Hk) as Ha.
    destruct (suspended a); try exact Hsame.
    destruct response as [[|] |];
      try (apply catchBlock_asked; assumption).
    cbn [page pending]. split; [exact Hsid |]. split; [exact Htr |].
    apply Forall_update; [exact Hp | exact Ha].
  - destruct (nth_error (pending rt) k) as [a |] eqn:Hk; [| exact Hsame].
    pose proof (Forall_nth_error _ _ _ _ Hp Hk) as Ha.
    destruct (suspended a); try exact Hsame.
    destruct data as [d |]; [| apply catchBlock_asked; assumption].
    unfold received. destruct (extractReply d) as [reply |];
      [| apply catchBlock_asked; assumption].
    destruct (truthy reply); [| apply catchBlock_asked; assumption].
    destruct (stringifies reply);
      [| apply (catchBlock_asked cfg sid k a
                  (mkRuntime (appendMessageThrows (page rt)) (pending rt)));
         assumption].
    cbn [page pending sessionId trace finallyBlock appendMessage
         setLoading setTyping setDisabled fulfil].
    split; [exact Hsid |]. split; [exact Htr |]. apply Forall_remove, Hp.
  - destruct (nth_error (pending rt) k) as [a |] eqn:Hk; [| exact Hsame].
    pose proof (Forall_nth_error _ _ _ _ Hp Hk) as (Hm & Ht & Hr).
    destruct (suspended a); try exact Hsame.
    unfold retry, sendMessage.
    cbn [page pending sessionId trace emit finallyBlock
         setLoading setTyping setDisabled].
    split; [exact Hsid |]. split.
    + apply Forall_app. split; [exact Htr |].
      constructor; [| constructor]. repeat split; assumption.
    + apply Forall_app. split; [apply Forall_remove, Hp |].
      constructor; [| constructor].
      split; [exact Hm |]. split; [exact Ht |]. cbn [retryCount]. lia.
Qed.

(** X21: whatever the user and the network do, and in whatever order,
    the script asks for nothing else than requests that carry a trimmed
    message that is not empty together with the session identifier of
    the page, waits of the base delay times a number between one and
    the retry limit (the product as JavaScript computes it), and the
    toast with its fixed text; the session identifier of the page never
    changes. *)
Theorem only_well_formed_requests :
  forall (cfg : Config) (w : World) (events : list event),
    Forall (wellAsked cfg (sessionId w)) (trace w) ->
    let rt := run cfg events (mkRuntime w []) in
    sessionId (page rt) = sessionId w
    /\ Forall (wellAsked cfg (sessionId w)) (trace (page rt)).
Proof.
  intros cfg w events Hw. cbv zeta.
  assert (H : forall rt,
             sessionId (page rt) = sessionId w ->
             Forall (wellAsked cfg (sessionId w)) (trace (page rt)) ->
             Forall wellStarted (pending rt) ->
             sessionId (page (run cfg events rt)) = sessionId w
             /\ Forall (wellAsked cfg (sessionId w))
                       (trace (page (run cfg events rt)))).
  { unfold run. induction events as [| e events IH]; intros rt H1 H2 H3;
      cbn [fold_left]; [split; assumption |].
    destruct (step_asked cfg (sessionId w) e rt H1 H2 H3) as (H4 & H5 & H6).
    apply IH; assumption. }
  apply H; [reflexivity | exact Hw | constructor].
Qed.

Lemma only_well_formed_requests_witness :
  let rt := run CONFIG
                [Typed (str " hi "); Submit; FetchSettled 0 None;
                 TimerFired 0; FetchSettled 0 (Some false)]
                (mkRuntime blank []) in
  sessionId (page rt) = sessionId blank
  /\ Forall (wellAsked CONFIG (sessionId blank)) (trace (page rt)).
Proof.
  apply (only_well_formed_requests CONFIG blank). constructor.
Defined.

(** ** The references are kept *)

Lemma within_nil (s : jsstring) : within [] s.
Proof. exists [], s. reflexivity. Qed.

Lemma within_refl (e : jsstring) : within e e.
Proof. exists [], []. cbn. symmetry. apply app_nil_r. Qed.

Lemma within_app (e s p q : jsstring) : within e s -> within e (p ++ s ++ q).
Proof.
  intros (a & b & ->). exists (p ++ a), (b ++ q).
  rewrite <- !app_assoc. reflexivity.
Qed.

Lemma within_app_r (e s p : jsstring) : within e s -> within e (p ++ s).
Proof.
  intros H. rewrite <- (app_nil_r s). apply (within_app e s p [] H).
Qed.

Lemma within_trans (e s t : jsstring) : within e s -> within s t -> within e t.
Proof. intros H (a & b & ->). apply within_app, H. Qed.

Lemma includes_within (s e : jsstring) :
  JS.includes s e = true <-> within e s.
Proof.
  unfold JS.includes. split.
  - destruct (JS.cut e s) as [[a b] |] eqn:Hc; [| discriminate].
    intros _. apply cut_spec in Hc. exists a, b. exact Hc.
  - intros (a & b & ->).
    assert (H : exists r, JS.cut e (a ++ e ++ b) = Some r).
    { induction a as [| c a (r & IH)].
      - cbn [app]. destruct (e ++ b) as [| x t] eqn:Heq; cbn [JS.cut];
          rewrite <- Heq;
          rewrite (proj2 (startsWith_app (e ++ b) e) (ex_intro _ b eq_refl));
          eexists; reflexivity.
      - cbn [app JS.cut].
        destruct (JS.startsWith (c :: a ++ e ++ b) e); [eexists; reflexivity |].
        rewrite IH. destruct r. eexists. reflexivity. }
    destruct H as (r & ->). reflexivity.
Qed.

Lemma embeds_app_l (es : list jsstring) :
  forall s q, embeds es s -> embeds es (s ++ q).
Proof.
  induction es as [| e es IH]; intros s q H; [exact I |].
  destruct H as (a & b & -> & H). exists a, (b ++ q).
  split; [rewrite <- !app_assoc; reflexivity | apply IH, H].
Qed.

Lemma embeds_app_r (es : list jsstring) (s p : jsstring) :
  embeds es s -> embeds es (p ++ s).
Proof.
  destruct es as [| e es]; intros H; [exact I |].
  destruct H as (a & b & -> & H). exists (p ++ a), b.
  split; [rewrite <- !app_assoc; reflexivity | exact H].
Qed.

Lemma embeds_within (es : list jsstring) (s t : jsstring) :
  embeds es s -> within s t -> embeds es t.
Proof. intros H (a & b & ->). apply embeds_app_r, embeds_app_l, H. Qed.

Lemma embeds_app (es1 es2 : list jsstring) (b : jsstring) :
  forall a, embeds es1 a -> embeds es2 b -> embeds (es1 ++ es2) (a ++ b).
Proof.
  induction es1 as [| e es1 IH]; intros a H1 H2; cbn [app].
  - apply embeds_app_r, H2.
  - destruct H1 as (x & y & -> & H1). exists x, (y ++ b).
    split; [rewrite <- !app_assoc; reflexivity | apply IH; assumption].
Qed.

Lemma embeds_concat (ess : list (list jsstring)) (l : list jsstring) :
  Forall2 embeds ess l -> embeds (concat ess) (concat l).
Proof.
  induction 1 as [| es s ess l H _ IH]; [exact I |].
  cbn [concat]. apply embeds_app; assumption.
Qed.

Lemma embeds_In (e : jsstring) (es : list jsstring) :
  forall s, embeds es s -> In e es -> within e s.
Proof.
  induction es as [| e0 es IH]; intros s H Hin; [destruct Hin |].
  destruct H as (a & b & -> & H). destruct Hin as [-> | Hin].
  - exists a, b. reflexivity.
  - apply within_app_r, within_app_r, IH; assumption.
Qed.

(** The references: what they begin with, what they end with and what
    they do not hold. *)
Lemma entity_shape (e : jsstring) :
  In e entities ->
  exists e', e = 38%N :: e'
             /\ Forall (fun c => c <> 36%N /\ c <> 38%N) e'
             /\ (exists e'', e = e'' ++ [59%N])
             /\ Forall (fun c => c <> 60%N /\ c <> 62%N) e
             /\ Forall (fun c => neutral c = false) e.
Proof.
  intros H.
  assert (Hall : Forall (fun e =>
                   exists e', e = 38%N :: e'
                     /\ Forall (fun c => c <> 36%N /\ c <> 38%N) e'
                     /\ (exists e'', e = e'' ++ [59%N])
                     /\ Forall (fun c => c <> 60%N /\ c <> 62%N) e
                     /\ Forall (fun c => neutral c = false) e) entities).
  { unfold entities. cbn [map].
    repeat (apply Forall_cons;
            [eexists; split; [reflexivity |];
             split; [repeat constructor; discriminate |];
             split; [|split; repeat constructor; discriminate] |]).
    - exists (str "&amp"). reflexivity.
    - exists (str "&lt"). reflexivity.
    - exists (str "&gt"). reflexivity.
    - exists (str "&nbsp"). reflexivity.
    - constructor. }
  rewrite Forall_forall in Hall. apply Hall, H.
Qed.

Lemma entity_avoids (e : jsstring) (c : char) :
  In e entities -> special c = true \/ neutral c = true ->
  c <> 38%N -> ~ In c e.
Proof.
  intros He Hc H38 Hin.
  destruct (entity_shape e He) as (_ & _ & _ & _ & Hs & Hn).
  rewrite Forall_forall in Hs, Hn.
  destruct Hc as [Hc | Hc].
  - destruct (Hs c Hin) as [H60 H62]. unfold special in Hc.
    apply orb_prop in Hc as [Hc | Hc];
      [apply orb_prop in Hc as [Hc | Hc] |];
      apply N.eqb_eq in Hc; congruence.
  - rewrite (Hn c Hin) in Hc. discriminate.
Qed.

(** Nothing of what stands before the first & of a text, or after its
    last semicolon, belongs to a reference. *)
Lemma embeds_drop_l (es : list jsstring) (s : jsstring) :
  Forall (fun e => In e entities) es ->
  forall p, Forall (fun c => c <> 38%N) p -> embeds es (p ++ s) -> embeds es s.
Proof.
  intros Hes. induction 1 as [| c p Hc _ IH]; intros H; [exact H |].
  apply IH. destruct es as [| e es]; [exact I |].
  destruct H as (a & b & Heq & H).
  inversion Hes as [| ? ? He _]; subst.
  destruct (entity_shape e He) as (e' & -> & _).
  destruct a as [| c' a]; cbn [app] in Heq.
  - injection Heq as -> _. congruence.
  - injection Heq as _ ->. exists a, b. split; [reflexivity | exact H].
Qed.

Lemma embeds_drop_last (c : char) :
  c <> 59%N ->
  forall es s,
    Forall (fun e => In e entities) es ->
    embeds es (s ++ [c]) -> embeds es s.
Proof.
  intros Hc. induction es as [| e es IH]; intros s Hes H; [exact I |].
  destruct H as (a & b & Heq & H).
  inversion Hes as [| ? ? He Hes']; subst.
  destruct (entity_shape e He) as (_ & _ & _ & (e'' & Hlast) & _).
  assert (Hb : b = [] \/ exists b' c', b = b' ++ [c'])
    by (destruct b as [| c' b' _] using rev_ind;
        [left; reflexivity | right; exists b', c'; reflexivity]).
  destruct Hb as [-> | (b' & c' & ->)].
  - rewrite app_nil_r, Hlast, app_assoc in Heq.
    apply app_inj_tail in Heq as [_ ->]. congruence.
  - assert (Heq' : s ++ [c] = (a ++ e ++ b') ++ [c'])
      by (rewrite Heq, <- !app_assoc; reflexivity).
    apply app_inj_tail in Heq' as [-> ->].
    exists a, b'. split; [reflexivity |].
    apply IH; assumption.
Qed.

Lemma embeds_drop_r (es : list jsstring) (s : jsstring) :
  Forall (fun e => In e entities) es ->
  forall q, Forall (fun c => c <> 59%N) q -> embeds es (s ++ q) -> embeds es s.
Proof.
  intros Hes q. induction q as [| c q IH] using rev_ind; intros Hq H.
  - rewrite app_nil_r in H. exact H.
  - apply Forall_app in Hq as [Hq Hc]. inversion Hc; subst.
    apply IH; [exact Hq |]. rewrite app_assoc in H.
    apply (embeds_drop_last c); assumption.
Qed.

Lemma embeds_nil (es : list jsstring) (s : jsstring) :
  embeds es [] -> embeds es s.
Proof. intros H. apply (embeds_within es [] s H), within_nil. Qed.

Lemma embeds_nil_inv (es : list jsstring) :
  Forall (fun e => In e entities) es -> embeds es [] -> es = [].
Proof.
  intros Hes H. destruct es as [| e es]; [reflexivity |].
  destruct H as (a & b & Heq & _). inversion Hes as [| ? ? He _]; subst.
  destruct (entity_shape e He) as (e' & -> & _).
  destruct a; discriminate Heq.
Qed.

(** An occurrence of [e] in [a ++ b] lies in [a], lies in [b], or begins
    in [a] and ends in [b]. *)
Lemma occurrence_cases (e a b x y : jsstring) :
  a ++ b = x ++ e ++ y ->
  (exists a', a = x ++ e ++ a' /\ y = a' ++ b)
  \/ (exists b', b = b' ++ e ++ y /\ x = a ++ b')
  \/ (exists l l', l <> [] /\ l' <> [] /\ e = l ++ l' /\ a = x ++ l
                   /\ b = l' ++ y).
Proof.
  intros H. apply app_eq_app in H as (l & [[Ha Hb] | [Hx Hb]]).
  - symmetry in Hb. apply app_eq_app in Hb as (l' & [[Hl Hy] | [He Hb]]).
    + left. exists l'. rewrite Ha, Hl. split; [reflexivity | exact Hy].
    + destruct l as [| c l].
      * right. left. exists []. cbn [app] in He |- *.
        split; [rewrite Hb, <- He; reflexivity |].
        rewrite Ha, !app_nil_r. reflexivity.
      * destruct l' as [| c' l'].
        -- left. exists []. rewrite app_nil_r in He. cbn [app] in Hb |- *.
           split; [rewrite Ha, He, app_nil_r; reflexivity | symmetry; exact Hb].
        -- right. right. exists (c :: l), (c' :: l').
           repeat split; try discriminate; assumption.
  - right. left. exists l. split; assumption.
Qed.

(** A code unit that no reference holds separates the references. *)
Lemma embeds_avoid (c : char) (b : jsstring) :
  (forall e, In e entities -> ~ In c e) ->
  forall es a,
    Forall (fun e => In e entities) es ->
    embeds es (a ++ c :: b) ->
    exists es1 es2, es = es1 ++ es2 /\ embeds es1 a /\ embeds es2 b.
Proof.
  intros Hc. induction es as [| e es IH]; intros a Hes H.
  - exists [], []. repeat split.
  - destruct H as (x & y & Heq & H).
    inversion Hes as [| ? ? He Hes']; subst.
    destruct (entity_shape e He) as (e' & Hshape & _).
    destruct (occurrence_cases e a (c :: b) x y Heq)
      as [(a' & -> & ->) | [(b' & Hb & ->) | (l & l' & Hl & Hl' & -> & _ & Hb)]].
    + destruct (IH a' Hes' H) as (es1 & es2 & -> & H1 & H2).
      exists (e :: es1), es2. split; [reflexivity |].
      split; [exists x, a'; split; [reflexivity | exact H1] | exact H2].
    + destruct b' as [| c' b']; cbn [app] in Hb.
      * rewrite Hshape in Hb. cbn [app] in Hb. injection Hb as -> _.
        destruct (Hc _ He). rewrite Hshape. left. reflexivity.
      * injection Hb as <- ->. exists [], (e :: es).
        split; [reflexivity |]. split; [exact I |].
        exists b', y. split; [reflexivity | exact H].
    + destruct l' as [| c' l']; [congruence |]. injection Hb as <- _.
      destruct (Hc _ He). apply in_or_app. right. left. reflexivity.
Qed.

(** No reference is cut where a piece of safe markup ends. *)
Lemma prefix_unsafe :
  forallb (fun e =>
             forallb (fun k => negb (wellFormed (firstn k e)))
                     (seq 1 (length e - 1))) entities = true.
Proof. vm_compute. reflexivity. Qed.

Lemma safe_closed (a : jsstring) : safe a -> closed a.
Proof.
  intros Ha l l' x Hl Hl' He ->.
  destruct (entity_shape (l ++ l') He) as (e' & Heq & _).
  destruct l as [| c l]; [congruence |]. cbn [app] in Heq.
  injection Heq as -> _.
  apply safe_cut_open in Ha as [_ Ha]; [| reflexivity].
  pose proof prefix_unsafe as Hp. rewrite forallb_forall in Hp.
  specialize (Hp _ He). rewrite forallb_forall in Hp.
  specialize (Hp (length (38%N :: l))).
  rewrite firstn_app, Nat.sub_diag, firstn_all in Hp. cbn [firstn] in Hp.
  rewrite app_nil_r in Hp.
  unfold wellFormed in Hp. unfold safe in Ha. rewrite Ha in Hp.
  assert (Hin : In (length (38%N :: l)) (seq 1 (length ((38%N :: l) ++ l') - 1))).
  { apply in_seq. rewrite length_app. cbn [length].
    destruct l'; [congruence | cbn [length]; lia]. }
  specialize (Hp Hin). discriminate Hp.
Qed.

Lemma closed_suffix (p a : jsstring) : closed (p ++ a) -> closed a.
Proof.
  intros H l l' x Hl Hl' He ->.
  apply (H l l' (p ++ x) Hl Hl' He). rewrite app_assoc. reflexivity.
Qed.

Lemma embeds_closed (b : jsstring) :
  forall es a,
    Forall (fun e => In e entities) es -> closed a ->
    embeds es (a ++ b) ->
    exists es1 es2, es = es1 ++ es2 /\ embeds es1 a /\ embeds es2 b.
Proof.
  induction es as [| e es IH]; intros a Hes Ha H.
  - exists [], []. repeat split.
  - destruct H as (x & y & Heq & H).
    inversion Hes as [| ? ? He Hes']; subst.
    destruct (occurrence_cases e a b x y Heq)
      as [(a' & -> & ->) | [(b' & -> & ->) | (l & l' & Hl & Hl' & -> & -> & _)]].
    + destruct (IH a' Hes') as (es1 & es2 & -> & H1 & H2);
        [rewrite app_assoc in Ha; apply closed_suffix in Ha; exact Ha
        | exact H |].
      exists (e :: es1), es2. split; [reflexivity |].
      split; [exists x, a'; split; [reflexivity | exact H1] | exact H2].
    + exists [], (e :: es). split; [reflexivity |]. split; [exact I |].
      exists b', y. split; [reflexivity | exact H].
    + destruct (Ha l l' x Hl Hl' He eq_refl).
Qed.

Lemma embeds_seam (es : list jsstring) (a b : jsstring) :
  Forall (fun e => In e entities) es -> safe a ->
  embeds es (a ++ b) ->
  exists es1 es2, es = es1 ++ es2 /\ embeds es1 a /\ embeds es2 b.
Proof. intros Hes Ha. apply embeds_closed; [exact Hes | apply safe_closed, Ha]. Qed.

(** Replacing the matches of a pattern keeps the references, when the
    matches are not empty and what is put for a match holds the
    references of the match. *)
Lemma replaceLoop_embeds (r : re) (template s : jsstring) :
  GoodMatch r template ->
  (forall pre mt y,
      s = pre ++ mt ++ rest y ->
      exec r (length pre) (mt ++ rest y) = Some y ->
      pos y = length pre + length mt ->
      safe mt ->
      mt <> []
      /\ forall es,
          Forall (fun e => In e entities) es ->
          embeds es mt ->
          embeds es (GetSubstitution mt pre (rest y) (ngroups r) (caps y)
                                     template)) ->
  forall fuel done w0 es,
    Forall (fun e => In e entities) es ->
    s = done ++ w0 -> safe done -> safe w0 -> embeds es w0 ->
    embeds es (replaceLoop fuel r template s (length done) w0).
Proof.
  intros Hgood Hkeep.
  induction fuel as [| fuel IH]; intros done w0 es Hes Hs Hdone Hw0 Hin;
    [exact Hin |].
  cbn [replaceLoop].
  destruct (search r (length done) w0) as [[i y] |] eqn:Hsearch;
    [| exact Hin].
  apply search_found in Hsearch as (u & w & -> & -> & Hexec).
  assert (Hsafe : safe (done ++ u ++ w)) by (apply safe_app; assumption).
  destruct (Hgood (done ++ u) w y) as
      (mt & Hw & Hpos & Hpre & Hmt & Hrest & _).
  { rewrite length_app. exact Hexec. }
  { rewrite <- app_assoc. exact Hsafe. }
  assert (Hu : safe u).
  { unfold safe in *. rewrite scan_app, Hdone in Hpre. exact Hpre. }
  destruct (Hkeep (done ++ u) mt y) as [Hne Hsub].
  { rewrite Hs, Hw, <- !app_assoc. reflexivity. }
  { rewrite length_app, <- Hw. exact Hexec. }
  { exact Hpos. }
  { exact Hmt. }
  rewrite length_app in Hpos.
  replace (length done + length u - length done) with (length u) by lia.
  replace (pos y - (length done + length u)) with (length mt) by lia.
  rewrite (firstn_exact u w (length u) eq_refl).
  rewrite (skipn_exact u w (length u) eq_refl).
  rewrite Hw at 1. rewrite (firstn_exact mt (rest y) (length mt) eq_refl).
  replace (firstn (length done + length u) s) with (done ++ u)
    by (rewrite Hs, app_assoc; symmetry; apply firstn_exact;
        rewrite length_app; reflexivity).
  replace (Nat.eqb (pos y) (length done + length u)) with false
    by (symmetry; apply Nat.eqb_neq; destruct mt; [congruence | cbn in Hpos; lia]).
  rewrite Hw in Hin.
  destruct (embeds_seam es u (mt ++ rest y) Hes Hu Hin)
    as (es1 & es' & -> & H1 & H').
  apply Forall_app in Hes as [Hes1 Hes'].
  destruct (embeds_seam es' mt (rest y) Hes' Hmt H')
    as (es2 & es3 & -> & H2 & H3).
  apply Forall_app in Hes' as [Hes2 Hes3].
  apply embeds_app; [exact H1 |].
  apply embeds_app; [apply Hsub; assumption |].
  replace (pos y) with (length ((done ++ u) ++ mt))
    by (rewrite !length_app; lia).
  apply IH; try assumption.
  - rewrite Hs, Hw, <- !app_assoc. reflexivity.
  - apply safe_app; assumption.
Qed.

Lemma replace_embeds (r : re) (template s : jsstring) (es : list jsstring) :
  GoodMatch r template ->
  (forall pre mt y,
      s = pre ++ mt ++ rest y ->
      exec r (length pre) (mt ++ rest y) = Some y ->
      pos y = length pre + length mt ->
      safe mt ->
      mt <> []
      /\ forall es,
          Forall (fun e => In e entities) es ->
          embeds es mt ->
          embeds es (GetSubstitution mt pre (rest y) (ngroups r) (caps y)
                                     template)) ->
  Forall (fun e => In e entities) es ->
  safe s -> embeds es s -> embeds es (replace r template s).
Proof.
  intros Hgood Hkeep Hes Hs Hin. unfold replace.
  apply (replaceLoop_embeds r template s Hgood Hkeep (S (length s)) [] s);
    auto; reflexivity.
Qed.

(** The matches of the first four patterns. *)
Lemma keeps_newline (s : jsstring) :
  forall pre mt y,
    s = pre ++ mt ++ rest y ->
    exec reNewline (length pre) (mt ++ rest y) = Some y ->
    pos y = length pre + length mt ->
    safe mt ->
    mt <> []
    /\ forall es,
        Forall (fun e => In e entities) es ->
        embeds es mt ->
        embeds es (GetSubstitution mt pre (rest y) (ngroups reNewline)
                                   (caps y) (str "<br>")).
Proof.
  intros pre mt y _ Hx _ _. apply exec_Matches in Hx.
  apply Matches_Lit in Hx as (Hr & _). cbn [rest] in Hr.
  change (LF :: rest y) with ([LF] ++ rest y) in Hr.
  apply app_inv_tail in Hr. subst mt. split; [discriminate |].
  intros es Hes H. apply embeds_nil.
  apply (embeds_drop_l es [] Hes [LF]);
    [repeat constructor; discriminate | exact H].
Qed.

Lemma Matches_reBullet (x y : mstate) :
  Matches reBullet x y ->
  exists b ws g,
    rest x = str "<p>" ++ b :: ws ++ g ++ str "</p>" ++ rest y
    /\ bulletClass b = true
    /\ Forall (fun c => JS.isSpace c = true) ws
    /\ caps y 1 = Some g.
Proof.
  intros He. unfold reBullet in He.
  apply Matches_Cat in He as (y1 & H1 & He).
  apply Matches_Cat in He as (y2 & H2 & He).
  apply Matches_Cat in He as (y3 & H3 & He).
  apply Matches_Cat in He as (y4 & H4 & H5).
  apply Matches_lits in H1 as (Hr1 & Hp1 & Hc1).
  apply Matches_Class in H2 as (b & Hr2 & Hb & Hp2 & Hc2).
  destruct (Matches_class_run _ _ _ H3 _ _ _ _ eq_refl)
    as (ws & Hr3 & Hws & Hp3 & Hc3).
  apply Matches_Grp in H4 as (y3' & g & _ & Hr4 & Hp4 & ->).
  apply Matches_lits in H5 as (Hr5 & Hp5 & Hc5).
  cbn [rest pos caps setCap] in *.
  exists b, ws, g. rewrite Hr1, Hr2, Hr3, Hr4, Hr5.
  split; [reflexivity |]. split; [exact Hb |]. split; [exact Hws |].
  rewrite Hc5. reflexivity.
Qed.

Lemma keeps_bullet (s : jsstring) :
  forall pre mt y,
    s = pre ++ mt ++ rest y ->
    exec reBullet (length pre) (mt ++ rest y) = Some y ->
    pos y = length pre + length mt ->
    safe mt ->
    mt <> []
    /\ forall es,
        Forall (fun e => In e entities) es ->
        embeds es mt ->
        embeds es (GetSubstitution mt pre (rest y) (ngroups reBullet)
                                   (caps y) (str "<li>$1</li>")).
Proof.
  intros pre mt y _ Hx _ _. apply exec_Matches in Hx.
  apply Matches_reBullet in Hx as (b & ws & g & Hr & Hb & Hws & Hc).
  cbn [rest] in Hr.
  assert (Hmt : mt = (str "<p>" ++ b :: ws) ++ g ++ str "</p>").
  { apply (app_inv_tail (rest y)). rewrite Hr.
    rewrite <- ?app_assoc. cbn [app]. rewrite <- ?app_assoc. reflexivity. }
  subst mt. split; [discriminate |].
  intros es Hes H. change (ngroups reBullet) with 1.
  rewrite GetSubstitution_li. unfold capture. rewrite Hc.
  apply embeds_app_r, embeds_app_l.
  apply (embeds_drop_l es _ Hes) in H.
  - apply (embeds_drop_r es g Hes (str "</p>"));
      [repeat constructor; discriminate | exact H].
  - apply Forall_app. split; [repeat constructor; discriminate |].
    constructor; [intros ->; discriminate Hb |].
    eapply Forall_impl; [| exact Hws]. intros c Hcs ->. discriminate Hcs.
Qed.

(** Rounds that each take something take something. *)
Lemma Rounds_progress (a : re) :
  (forall x y, Matches a x y -> pos x < pos y) ->
  forall x z, Rounds a x z -> pos x < pos z.
Proof.
  intros Ha. induction 1 as [x y H | x y z H _ IH];
    apply Ha in H;
    destruct (clearCaps_pos_rest (groups a) x) as [Hcp _];
    rewrite Hcp in H; lia.
Qed.

Lemma Matches_progress (r : re) (i : nat) (mt : jsstring) (y : mstate) :
  Matches r (MState i (mt ++ rest y) (fun _ => None)) y ->
  i < pos y -> mt <> [].
Proof.
  intros H Hlt ->. destruct (Matches_consumed _ _ _ H) as (w & Hr & Hp).
  cbn [rest pos app] in Hr, Hp.
  assert (Hw : w = []).
  { destruct w as [| c w]; [reflexivity |].
    apply (f_equal (@length _)) in Hr. rewrite length_app in Hr.
    cbn [length] in Hr. lia. }
  subst w. cbn [length] in Hp. lia.
Qed.

Lemma keeps_items (s : jsstring) :
  forall pre mt y,
    s = pre ++ mt ++ rest y ->
    exec reItems (length pre) (mt ++ rest y) = Some y ->
    pos y = length pre + length mt ->
    safe mt ->
    mt <> []
    /\ forall es,
        Forall (fun e => In e entities) es ->
        embeds es mt ->
        embeds es (GetSubstitution mt pre (rest y) (ngroups reItems)
                                   (caps y) (str "<ul>$&</ul>")).
Proof.
  intros pre mt y _ Hx Hpos _. split.
  - apply exec_Matches in Hx. apply (Matches_progress _ _ _ _ Hx).
    unfold reItems in Hx. apply Matches_plus in Hx.
    apply (Rounds_progress _) in Hx; [exact Hx |].
    intros x0 y0 H.
    apply Matches_Grp in H as (z' & u & H & _ & _ & ->).
    apply Matches_Cat in H as (z1 & H1 & H).
    apply Matches_lits in H1 as (_ & Hp1 & _).
    destruct (Matches_consumed _ _ _ H) as (d & _ & Hp2).
    cbn [pos setCap]. change (length (str "<li>")) with 4 in Hp1. lia.
  - intros es _ H. rewrite GetSubstitution_ul.
    apply embeds_app_r, embeds_app_l, H.
Qed.

Lemma keeps_bold (s : jsstring) :
  forall pre mt y,
    s = pre ++ mt ++ rest y ->
    exec reBold (length pre) (mt ++ rest y) = Some y ->
    pos y = length pre + length mt ->
    safe mt ->
    mt <> []
    /\ forall es,
        Forall (fun e => In e entities) es ->
        embeds es mt ->
        embeds es (GetSubstitution mt pre (rest y) (ngroups reBold)
                                   (caps y) (str "<strong>$1</strong>")).
Proof.
  intros pre mt y _ Hx _ _. apply exec_Matches in Hx.
  apply Matches_reBold in Hx as (g & Hr & _ & Hc). cbn [rest] in Hr.
  assert (Hmt : mt = str "**" ++ g ++ str "**").
  { apply (app_inv_tail (rest y)). rewrite Hr, <- !app_assoc. reflexivity. }
  subst mt. split; [discriminate |].
  intros es Hes H. change (ngroups reBold) with 1.
  rewrite GetSubstitution_strong. unfold capture. rewrite Hc.
  apply embeds_app_r, embeds_app_l.
  apply (embeds_drop_l es _ Hes) in H;
    [| repeat constructor; discriminate].
  apply (embeds_drop_r es g Hes (str "**"));
    [repeat constructor; discriminate | exact H].
Qed.

(** The pieces between the separators hold the references, piece by
    piece. *)
Lemma splitFuel_embeds (c : char) (sep : jsstring) :
  (forall e, In e entities -> ~ In c e) ->
  Forall (fun c => c <> 38%N) sep ->
  forall fuel s es,
    Forall (fun e => In e entities) es ->
    embeds es s ->
    exists ess, es = concat ess
                /\ Forall2 embeds ess (JS.splitFuel fuel (c :: sep) s).
Proof.
  intros Hc Hsep.
  assert (Hone : forall s es, embeds es s ->
                   exists ess, es = concat ess /\ Forall2 embeds ess [s]).
  { intros s es H. exists [es]. cbn [concat]. rewrite app_nil_r.
    split; [reflexivity | repeat constructor; exact H]. }
  induction fuel as [| fuel IH]; intros s es Hes H; cbn [JS.splitFuel];
    [apply Hone, H |].
  destruct (JS.cut (c :: sep) s) as [[before after] |] eqn:Hcut;
    [| apply Hone, H].
  apply cut_spec in Hcut. subst s. cbn [app] in H.
  apply (embeds_avoid c _ Hc es before Hes) in H as (es1 & es2 & -> & H1 & H2).
  apply Forall_app in Hes as [Hes1 Hes2].
  apply (embeds_drop_l es2 after Hes2 sep Hsep) in H2.
  destruct (IH after es2 Hes2 H2) as (ess & -> & Hall).
  exists (es1 :: ess). split; [reflexivity |].
  constructor; assumption.
Qed.

Lemma Forall_concat_inv {A} (P : A -> Prop) (ll : list (list A)) :
  Forall P (concat ll) -> Forall (Forall P) ll.
Proof.
  induction ll as [| l ll IH]; intros H; [constructor |].
  cbn [concat] in H. apply Forall_app in H as [H1 H2].
  constructor; [exact H1 | apply IH, H2].
Qed.

Lemma avoided (c : char) :
  special c = true \/ neutral c = true -> c <> 38%N ->
  forall e, In e entities -> ~ In c e.
Proof. intros Hc H38 e He. apply entity_avoids; assumption. Qed.

(** The stages before the table keep the references. *)
Lemma paragraphs_embeds (es : list jsstring) (s : jsstring) :
  Forall (fun e => In e entities) es ->
  safe s -> embeds es s -> embeds es (paragraphs s).
Proof.
  intros Hes Hs H. unfold paragraphs. rewrite join_nil.
  destruct (splitFuel_embeds LF [LF]
              (avoided LF (or_intror eq_refl) ltac:(discriminate))
              ltac:(repeat constructor; discriminate)
              (length s) s es Hes H) as (ess & -> & Hall).
  change (Forall2 embeds ess (JS.split s [LF; LF])) in Hall.
  pose proof (split_safe [LF; LF]
                (bounded_app [LF] [LF] (bounded_neutral LF eq_refl)
                             (bounded_neutral LF eq_refl)) s Hs) as Hsafe.
  apply Forall_concat_inv in Hes.
  apply embeds_concat.
  clear H. revert Hall Hes Hsafe. generalize (JS.split s [LF; LF]) as pieces.
  intros pieces Hall. induction Hall as [| es p ess ps Hp _ IH];
    intros Hes Hsafe; [constructor |].
  inversion Hes; subst. inversion Hsafe; subst.
  cbn [map]. constructor; [| apply IH; assumption].
  apply embeds_app_r, embeds_app_l.
  apply replace_embeds; try assumption;
    [apply good_newline | apply keeps_newline].
Qed.

Lemma bullets_embeds (es : list jsstring) (s : jsstring) :
  Forall (fun e => In e entities) es ->
  safe s -> embeds es s -> embeds es (bullets s).
Proof.
  intros Hes Hs H. unfold bullets.
  apply replace_embeds; try assumption;
    [apply good_items | apply keeps_items
    | apply replace_safe; [apply good_bullet | exact Hs] |].
  apply replace_embeds; try assumption;
    [apply good_bullet | apply keeps_bullet].
Qed.

Lemma bold_embeds (es : list jsstring) (s : jsstring) :
  Forall (fun e => In e entities) es ->
  safe s -> embeds es s -> embeds es (bold s).
Proof.
  intros Hes Hs H. unfold bold.
  apply replace_embeds; try assumption;
    [apply good_bold | apply keeps_bold].
Qed.

(** ** The table rule keeps the references *)

(** What a template is filled with holds the references of the
    template, when the text of the match, which [$&] stands for, holds
    them too. *)
Lemma GetSubstitution_prefix (mt b a : jsstring) (n : nat)
      (cs : nat -> option jsstring) (p t : jsstring) :
  Forall (fun c => c <> 36%N) p ->
  GetSubstitution mt b a n cs (p ++ t) = p ++ GetSubstitution mt b a n cs t.
Proof.
  induction 1 as [| ch p Hch _ IH]; [reflexivity |].
  cbn [app GetSubstitution]. rewrite (proj2 (N.eqb_neq ch 36) Hch).
  cbn [negb]. rewrite IH. reflexivity.
Qed.

Lemma embeds_cons_cases (e' : jsstring) (es : list jsstring) (c : char)
      (t : jsstring) :
  embeds ((38%N :: e') :: es) (c :: t) ->
  (c = 38%N /\ exists b, t = e' ++ b /\ embeds es b)
  \/ embeds ((38%N :: e') :: es) t.
Proof.
  intros (a & b & Heq & H). destruct a as [| c' a]; cbn [app] in Heq.
  - injection Heq as -> ->. left. split; [reflexivity |].
    exists b. split; [reflexivity | exact H].
  - injection Heq as _ ->. right. exists a, b. split; [reflexivity | exact H].
Qed.

Lemma GetSubstitution_embeds (mt b a : jsstring) (n : nat)
      (cs : nat -> option jsstring) :
  forall k template es,
    length template <= k ->
    Forall (fun e => In e entities) es ->
    (forall e, In e es -> within e mt) ->
    embeds es template ->
    embeds es (GetSubstitution mt b a n cs template).
Proof.
  set (sub := GetSubstitution mt b a n cs).
  induction k as [| k IH]; intros template es Hlen Hes Hmt H.
  - destruct template; [exact H | cbn in Hlen; lia].
  - destruct es as [| e es]; [exact I |].
    inversion Hes as [| ? ? He Hes']; subst.
    destruct (entity_shape e He) as (e' & -> & He' & _).
    assert (Hplain : Forall (fun c => c <> 36%N) e').
    { eapply Forall_impl; [| exact He']. intros c [Hc _]. exact Hc. }
    assert (Hmt' : forall e, In e es -> within e mt)
      by (intros e0 H0; apply Hmt; right; exact H0).
    assert (Hhere : forall p b0,
               length b0 <= k -> embeds es b0 ->
               embeds ((38%N :: e') :: es) (p ++ 38%N :: sub (e' ++ b0))).
    { intros p b0 Hl Hb. unfold sub.
      rewrite GetSubstitution_prefix by exact Hplain.
      exists p, (GetSubstitution mt b a n cs b0).
      split; [reflexivity | apply IH; assumption]. }
    assert (Hlater : forall p t0,
               length t0 <= k -> embeds ((38%N :: e') :: es) t0 ->
               embeds ((38%N :: e') :: es) (p ++ sub t0)).
    { intros p t0 Hl H0. apply embeds_app_r, IH; assumption. }
    destruct template as [| ch t].
    { destruct H as ([| ? ?] & ? & Heq & _); discriminate Heq. }
    cbn [length] in Hlen. unfold sub. cbn [GetSubstitution]. fold sub.
    destruct (N.eqb_spec ch 36) as [-> | Hch]; cbn [negb].
    2:{ apply embeds_cons_cases in H as [(-> & b0 & -> & H) | H].
        - apply (Hhere []); [rewrite length_app in Hlen; lia | exact H].
        - apply (Hlater [ch]); [lia | exact H]. }
    apply embeds_cons_cases in H as [(Hc & _) | H]; [discriminate Hc |].
    destruct t as [| c t'].
    { destruct H as ([| ? ?] & ? & Heq & _); discriminate Heq. }
    cbn [length] in Hlen.
    assert (Hlate : c <> 38%N -> embeds ((38%N :: e') :: es) t').
    { intros Hc. apply embeds_cons_cases in H as [(-> & _) | H];
        [congruence | exact H]. }
    destruct (N.eqb_spec c 36) as [-> | H36].
    { apply (Hlater [36%N]); [lia | apply Hlate; discriminate]. }
    destruct (N.eqb_spec c 96) as [-> | H96].
    { apply Hlater; [lia | apply Hlate; discriminate]. }
    destruct (N.eqb_spec c 38) as [-> | H38].
    { apply embeds_cons_cases in H as [(_ & b0 & -> & H) | H].
      - destruct (Hmt (38%N :: e') (or_introl eq_refl)) as (p & q & Hq).
        unfold sub. rewrite GetSubstitution_prefix by exact Hplain.
        exists p, (q ++ e' ++ GetSubstitution mt b a n cs b0).
        split; [rewrite Hq at 1; rewrite <- !app_assoc; reflexivity |].
        apply embeds_app_r, embeds_app_r, IH; try assumption.
        rewrite length_app in Hlen. lia.
      - apply Hlater; [lia | exact H]. }
    destruct (N.eqb_spec c 39) as [-> | H39].
    { apply Hlater; [lia | apply Hlate; discriminate]. }
    destruct (N.eqb_spec c 60) as [-> | H60].
    { apply (Hlater [36%N; 60%N]); [lia | apply Hlate; discriminate]. }
    destruct (isDigit c) eqn:Hd.
    + assert (Hone :
                embeds ((38%N :: e') :: es)
                  (if (1 <=? digitVal c) && (digitVal c <=? n)
                   then capture cs (digitVal c) ++ sub t'
                   else 36%N :: c :: sub t')).
      { destruct ((1 <=? digitVal c) && (digitVal c <=? n)).
        - apply Hlater; [lia | apply Hlate, H38].
        - apply (Hlater [36%N; c]); [lia | apply Hlate, H38]. }
      destruct t' as [| d t'']; [exact Hone |]. cbn [length] in Hlen.
      destruct (isDigit d) eqn:Hd'; [| exact Hone].
      assert (Hlate' : embeds ((38%N :: e') :: es) t'').
      { pose proof (Hlate H38) as H0.
        apply embeds_cons_cases in H0 as [(-> & _) | H0];
          [discriminate Hd' | exact H0]. }
      destruct (n <? 10 * digitVal c + digitVal d); [exact Hone |].
      destruct (1 <=? 10 * digitVal c + digitVal d).
      * apply Hlater; [lia | exact Hlate'].
      * apply (Hlater [36%N; c; d]); [lia | exact Hlate'].
    + apply (Hlater [36%N]); [cbn [length]; lia | exact H].
Qed.

(** The tags of the paragraph around the lines of the table. *)
Lemma Rounds_word (i : nat) (t : jsstring) (x z : mstate) :
  Rounds (Grp i (lits t)) x z ->
  exists k, rest x = concat (repeat t k) ++ rest z.
Proof.
  induction 1 as [x y H | x y z H _ (k & IH)];
    apply Matches_Grp in H as (y' & w & H & _ & _ & ->);
    apply Matches_lits in H as (Hr & _);
    destruct (clearCaps_pos_rest (groups (Grp i (lits t))) x) as [_ Hcr];
    rewrite Hcr in Hr; cbn [setCap rest] in *.
  - exists 1. cbn [repeat concat]. rewrite app_nil_r. exact Hr.
  - exists (S k). cbn [repeat concat]. rewrite <- app_assoc, <- IH. exact Hr.
Qed.

Lemma opt_word (i : nat) (t : jsstring) (x z : mstate) :
  Matches (opt (Grp i (lits t))) x z ->
  exists k, rest x = concat (repeat t k) ++ rest z.
Proof.
  intros H.
  destruct (Matches_Rep_rounds _ _ _ H _ _ _ _ eq_refl) as [[_ ->] | HR].
  - exists 0. reflexivity.
  - apply (Rounds_word i t x z HR).
Qed.

(** The lines of a match of the table pattern. *)
Lemma Matches_reRow (x y : mstate) :
  Matches reRow x y ->
  exists d, rest x = (124%N :: d) ++ str "<br>" ++ rest y
            /\ Forall (fun c => c <> 60%N) d
            /\ pos x < pos y.
Proof.
  intros H. apply Matches_Grp in H as (y' & w & H & _ & _ & ->).
  apply Matches_Cat in H as (z1 & H1 & H).
  apply Matches_Cat in H as (z2 & H2 & H3).
  apply Matches_Lit in H1 as (Hr1 & Hp1 & _).
  destruct (Matches_class_run _ _ _ H2 _ _ _ _ eq_refl)
    as (d & Hr2 & Hd & Hp2 & _).
  apply Matches_lits in H3 as (Hr3 & Hp3 & _).
  exists d. cbn [setCap rest pos]. rewrite Hr1, Hr2, Hr3.
  split; [reflexivity |]. split; [| lia].
  eapply Forall_impl; [| exact Hd]. intros c Hc. unfold notLt in Hc.
  apply N.eqb_neq, negb_true_iff, Hc.
Qed.

Lemma Rounds_reRow (x z : mstate) :
  Rounds reRow x z ->
  exists ds,
    rest x = concat (map (fun d => (124%N :: d) ++ str "<br>") ds) ++ rest z
    /\ Forall (Forall (fun c => c <> 60%N)) ds
    /\ pos x < pos z.
Proof.
  induction 1 as [x y H | x y z H _ (ds & IHr & IHd & IHp)];
    apply Matches_reRow in H as (d & Hr & Hd & Hp);
    destruct (clearCaps_pos_rest (groups reRow) x) as [Hcp Hcr];
    rewrite Hcr in Hr; rewrite Hcp in Hp.
  - exists [d]. cbn [map concat]. rewrite app_nil_r, <- app_assoc.
    split; [exact Hr |]. split; [repeat constructor; exact Hd | exact Hp].
  - exists (d :: ds). cbn [map concat]. rewrite <- !app_assoc, <- IHr.
    split; [exact Hr |]. split; [constructor; assumption | lia].
Qed.

Lemma table_shape (x y : mstate) (mt : jsstring) :
  Matches reTable x y -> rest x = mt ++ rest y ->
  pos x < pos y
  /\ exists k1 ds u k4,
      mt = concat (repeat (str "<p>") k1)
             ++ (concat (map (fun d => (124%N :: d) ++ str "<br>") ds)
                   ++ 124%N :: u)
             ++ concat (repeat (str "</p>") k4)
      /\ Forall (Forall (fun c => c <> 60%N)) ds
      /\ Forall (fun c => c <> 60%N) u.
Proof.
  intros H Hmt. unfold reTable in H.
  apply Matches_Cat in H as (y1 & H1 & H).
  apply Matches_Cat in H as (y2 & H2 & H).
  apply Matches_Cat in H as (y3 & H3 & H4).
  destruct (Matches_consumed _ _ _ H1) as (w1 & _ & Hp1).
  apply opt_word in H1 as (k1 & Hr1).
  apply Matches_plus in H2.
  apply Rounds_reRow in H2 as (ds & Hr2 & Hds & Hp2).
  destruct (Matches_consumed _ _ _ H3) as (w3 & _ & Hp3).
  apply Matches_Grp in H3 as (y3' & w & H3 & _ & _ & ->).
  apply Matches_Cat in H3 as (z1 & H31 & H32).
  apply Matches_Lit in H31 as (Hr31 & _).
  destruct (Matches_class_run _ _ _ H32 _ _ _ _ eq_refl)
    as (u & Hr32 & Hu & _).
  destruct (Matches_consumed _ _ _ H4) as (w4 & _ & Hp4).
  apply opt_word in H4 as (k4 & Hr4).
  cbn [setCap rest pos] in *.
  split; [lia |]. exists k1, ds, u, k4.
  split; [| split; [exact Hds |]].
  - apply (app_inv_tail (rest y)). rewrite <- Hmt, Hr1, Hr2, Hr31, Hr32, Hr4.
    rewrite <- !app_assoc. reflexivity.
  - eapply Forall_impl; [| exact Hu]. intros c Hc. unfold notLt in Hc.
    apply N.eqb_neq, negb_true_iff, Hc.
Qed.

(** The first occurrence of a separator is the leftmost one. *)
Lemma cut_leftmost (sep : jsstring) :
  forall s before after,
    JS.cut sep s = Some (before, after) ->
    forall x y, s = x ++ sep ++ y -> length before <= length x.
Proof.
  induction s as [| c s IH]; intros before after H x y Hs; cbn [JS.cut] in H.
  - destruct (JS.startsWith [] sep); [| discriminate].
    injection H as <- _. cbn. lia.
  - destruct (JS.startsWith (c :: s) sep) eqn:Hp.
    + injection H as <- _. cbn. lia.
    + destruct (JS.cut sep s) as [[b a] |] eqn:Hcut; [| discriminate].
      injection H as <- _. destruct x as [| c' x]; cbn [app] in Hs.
      * rewrite (proj2 (startsWith_app (c :: s) sep) (ex_intro _ y Hs)) in Hp.
        discriminate Hp.
      * injection Hs as _ Hs. cbn [length].
        specialize (IH b a eq_refl x y Hs). lia.
Qed.

(** Where the first line break of a text stands that holds a pipe and,
    behind it, a word without <. *)
Lemma first_break (d a c before after : jsstring) :
  Forall (fun ch => ch <> 60%N) d ->
  before ++ str "<br>" ++ after = a ++ (124%N :: d) ++ c ->
  (exists a', a = before ++ str "<br>" ++ a'
              /\ after = a' ++ (124%N :: d) ++ c)
  \/ (exists c1, before = a ++ (124%N :: d) ++ c1
                 /\ c = c1 ++ str "<br>" ++ after).
Proof.
  intros Hd H.
  destruct (occurrence_cases _ _ _ _ _ H)
    as [(a' & -> & ->) | [(b' & Hb & ->) | (l & l' & Hl & Hl' & Hw & _ & Hb)]].
  - right. exists a'. split; reflexivity.
  - left.
    destruct b' as [| c0 [| c1 [| c2 [| c3 a']]]]; cbn [app] in Hb;
      try discriminate Hb.
    injection Hb as <- <- <- <- ->. exists a'. split; reflexivity.
  - exfalso. destruct l' as [| c0 l']; [congruence |].
    injection Hb as <- _.
    assert (Hin : In 60%N (124%N :: d))
      by (rewrite Hw; apply in_or_app; right; left; reflexivity).
    destruct Hin as [Hin | Hin]; [discriminate Hin |].
    rewrite Forall_forall in Hd. apply (Hd _ Hin). reflexivity.
Qed.

(** A separator line holds pipes, dashes and white space only. *)
Lemma separator_class (line : jsstring) :
  test reSeparator line = true -> Forall (fun c => sepClass c = true) line.
Proof.
  unfold test. destruct (search reSeparator 0 line) as [[i y] |] eqn:Hs;
    [intros _ | discriminate].
  apply search_found in Hs as (u & w & -> & -> & Hx).
  apply exec_Matches in Hx. unfold reSeparator in Hx.
  apply Matches_Cat in Hx as (y0 & H0 & Hx).
  apply Matches_Cat in Hx as (y1 & H1 & Hx).
  apply Matches_Cat in Hx as (y2 & H2 & Hx).
  apply Matches_Cat in Hx as (y3 & H3 & H4).
  inversion H0 as [| | | | | x Hp | | |]; subst.
  apply Matches_Lit in H1 as (Hr1 & _).
  destruct (Matches_class_run _ _ _ H2 _ _ _ _ eq_refl)
    as (ws & Hr2 & Hws & _).
  apply Matches_Lit in H3 as (Hr3 & _).
  inversion H4 as [| | | | | | x Hr4 | |]; subst.
  cbn [pos rest] in Hp, Hr1. destruct u; [| discriminate Hp].
  cbn [app]. rewrite Hr1, Hr2, Hr3, Hr4.
  constructor; [reflexivity |]. apply Forall_app. split; [exact Hws |].
  constructor; [reflexivity | constructor].
Qed.

Lemma trim_spec (s : jsstring) :
  exists ws1 ws2,
    s = ws1 ++ JS.trim s ++ ws2
    /\ Forall (fun c => JS.isSpace c = true) ws1
    /\ Forall (fun c => JS.isSpace c = true) ws2.
Proof.
  destruct (trimStart_spec s) as (ws1 & H1 & Hws1).
  destruct (trimStart_spec (rev (JS.trimStart s))) as (ws2 & H2 & Hws2).
  exists ws1, (rev ws2). split; [| split; [exact Hws1 | apply Forall_rev, Hws2]].
  unfold JS.trim. rewrite <- rev_app_distr, <- H2, rev_involutive. exact H1.
Qed.

Lemma trim_embeds (es : list jsstring) (s : jsstring) :
  Forall (fun e => In e entities) es ->
  embeds es s -> embeds es (JS.trim s).
Proof.
  intros Hes H. destruct (trim_spec s) as (ws1 & ws2 & Hs & H1 & H2).
  rewrite Hs in H.
  apply (embeds_drop_l es _ Hes) in H;
    [| eapply Forall_impl; [| exact H1]; intros c Hc ->; discriminate Hc].
  apply (embeds_drop_r es _ Hes) in H;
    [exact H
    | eapply Forall_impl; [| exact H2]; intros c Hc ->; discriminate Hc].
Qed.

(** The row of a line holds the references of the line. *)
Lemma tableRow_embeds (index : nat) (line : jsstring) (es : list jsstring) :
  Forall (fun e => In e entities) es ->
  embeds es line -> embeds es (tableRow index line).
Proof.
  intros Hes H. unfold tableRow.
  destruct (test reSeparator line) eqn:Hsep.
  { apply separator_class in Hsep.
    rewrite <- (app_nil_r line) in H.
    apply (embeds_drop_l es [] Hes line); [| exact H].
    eapply Forall_impl; [| exact Hsep]. intros c Hc ->. discriminate Hc. }
  destruct (splitFuel_embeds 124%N []
              (avoided 124%N (or_intror eq_refl) ltac:(discriminate))
              ltac:(constructor) (length line) line es Hes H)
    as (ess & -> & Hall).
  change (Forall2 embeds ess (JS.split line (str "|"))) in Hall.
  apply Forall_concat_inv in Hes.
  assert (Hcells :
            embeds (concat ess)
              (concat (map (fun cell =>
                              str "<"
                                ++ (if Nat.eqb index 0 then str "th"
                                    else str "td")
                                ++ str ">" ++ JS.trim cell ++ str "</"
                                ++ (if Nat.eqb index 0 then str "th"
                                    else str "td")
                                ++ str ">")
                           (filter (fun cell => JS.truthy (JS.trim cell))
                                   (JS.split line (str "|")))))).
  { clear H Hsep. revert Hall Hes.
    generalize (JS.split line (str "|")) as pieces. intros pieces Hall.
    induction Hall as [| es cell ess cells Hcell _ IH]; intros Hes;
      [exact I |].
    inversion Hes as [| ? ? He Hes']; subst.
    apply (trim_embeds es cell He) in Hcell.
    cbn [filter concat].
    destruct (JS.truthy (JS.trim cell)) eqn:Htrim.
    2:{ destruct (JS.trim cell); [| discriminate Htrim].
        apply embeds_nil_inv in Hcell; [| exact He]. subst es.
        cbn [app]. apply IH, Hes'. }
    cbn [map concat]. apply embeds_app; [| apply IH, Hes'].
    apply embeds_app_r, embeds_app_r, embeds_app_r, embeds_app_l, Hcell. }
  destruct (filter _ (JS.split line (str "|"))); [exact Hcells |].
  apply embeds_app_r, embeds_app_l, Hcells.
Qed.

(** The rows of the candidate lines hold the references of the lines of
    a match, which are such lines or parts of them. *)
Lemma lines_embeds (u c : jsstring) :
  Forall (fun ch => ch <> 60%N) u ->
  forall fuel ds a es index,
    Forall (fun e => In e entities) es ->
    Forall (Forall (fun ch => ch <> 60%N)) ds ->
    embeds es (concat (map (fun d => (124%N :: d) ++ str "<br>") ds)
                 ++ 124%N :: u) ->
    embeds es
      (tableRows index
         (filter (fun line => JS.includes line (str "|"))
            (JS.splitFuel fuel (str "<br>")
               (a ++ (concat (map (fun d => (124%N :: d) ++ str "<br>") ds)
                        ++ 124%N :: u) ++ c)))).
Proof.
  intros Hu.
  assert (Hrow : forall index line before es,
             Forall (fun e => In e entities) es ->
             within (124%N :: line) before -> embeds es (124%N :: line) ->
             forall more,
               tableRows index
                 (filter (fun line => JS.includes line (str "|"))
                         (before :: more))
               = tableRow index before
                   ++ tableRows (S index)
                        (filter (fun line => JS.includes line (str "|")) more)
               /\ embeds es (tableRow index before)).
  { intros index line before es Hes Hin H more. cbn [filter].
    replace (JS.includes before (str "|")) with true.
    - split; [reflexivity |].
      apply tableRow_embeds; [exact Hes |].
      apply (embeds_within es _ _ H Hin).
    - symmetry. apply includes_within.
      apply (within_trans _ (124%N :: line)); [| exact Hin].
      exists [], line. reflexivity. }
  assert (Hwhole : forall ds a es index,
             Forall (fun e => In e entities) es ->
             embeds es (concat (map (fun d => (124%N :: d) ++ str "<br>") ds)
                          ++ 124%N :: u) ->
             embeds es
               (tableRows index
                  (filter (fun line => JS.includes line (str "|"))
                     [a ++ (concat (map (fun d => (124%N :: d) ++ str "<br>")
                                        ds)
                              ++ 124%N :: u) ++ c]))).
  { intros ds a es index Hes H.
    set (R := concat (map (fun d => (124%N :: d) ++ str "<br>") ds)) in *.
    assert (Hin : within (124%N :: u) (a ++ (R ++ 124%N :: u) ++ c)).
    { exists (a ++ R), c. rewrite <- !app_assoc. reflexivity. }
    cbn [filter].
    replace (JS.includes (a ++ (R ++ 124%N :: u) ++ c) (str "|")) with true.
    - cbn [tableRows]. apply embeds_app_l, tableRow_embeds; [exact Hes |].
      apply embeds_app_r, embeds_app_l, H.
    - symmetry. apply includes_within.
      apply (within_trans _ (124%N :: u)); [| exact Hin].
      exists [], u. reflexivity. }
  induction fuel as [| fuel IH]; intros ds a es index Hes Hds H;
    cbn [JS.splitFuel]; [apply Hwhole; assumption |].
  destruct (JS.cut (str "<br>") _) as [[before after] |] eqn:Hcut;
    [| apply Hwhole; assumption].
  pose proof (cut_leftmost _ _ _ _ Hcut) as Hleft.
  apply cut_spec in Hcut.
  destruct ds as [| d ds].
  - cbn [map concat app] in Hcut, H |- *. symmetry in Hcut.
    change (124%N :: u ++ c) with ((124%N :: u) ++ c) in Hcut.
    apply (first_break u a c before after Hu) in Hcut
        as [(a' & -> & ->) | (c1 & -> & ->)].
    + specialize (IH [] a' es). cbn [map concat app] in IH.
      cbn [filter]. destruct (JS.includes before (str "|")).
      * cbn [tableRows]. apply embeds_app_r, IH; assumption.
      * apply IH; assumption.
    + destruct (Hrow index u (a ++ (124%N :: u) ++ c1) es Hes
                     ltac:(apply within_app, within_refl) H
                     (JS.splitFuel fuel (str "<br>") after)) as [-> Hb].
      apply embeds_app_l, Hb.
  - inversion Hds as [| ? ? Hd Hds']; subst.
    set (R := concat (map (fun d => (124%N :: d) ++ str "<br>") ds)
                ++ 124%N :: u) in *.
    assert (Hshape :
              a ++ (concat (map (fun d => (124%N :: d) ++ str "<br>")
                                (d :: ds)) ++ 124%N :: u) ++ c
              = a ++ (124%N :: d) ++ str "<br>" ++ R ++ c).
    { cbn [map concat]. unfold R. rewrite <- !app_assoc. reflexivity. }
    assert (Hes' : embeds es ((124%N :: d) ++ 60%N :: str "br>" ++ R)).
    { cbn [map concat] in H. unfold R. rewrite <- !app_assoc in H. exact H. }
    rewrite Hshape in Hcut, Hleft. symmetry in Hcut.
    destruct (first_break d a (str "<br>" ++ R ++ c) before after Hd Hcut)
        as [(a' & -> & ->) | (c1 & -> & Hc1)].
    + specialize (IH (d :: ds) a' es).
      replace (a' ++ (124%N :: d) ++ str "<br>" ++ R ++ c)
        with (a' ++ (concat (map (fun d => (124%N :: d) ++ str "<br>")
                                 (d :: ds)) ++ 124%N :: u) ++ c)
        by (cbn [map concat]; unfold R; rewrite <- !app_assoc; reflexivity).
      cbn [filter]. destruct (JS.includes before (str "|")).
      * cbn [tableRows]. apply embeds_app_r, IH; assumption.
      * apply IH; assumption.
    + specialize (Hleft (a ++ 124%N :: d) (R ++ c)).
      rewrite <- !app_assoc in Hleft. specialize (Hleft eq_refl).
      rewrite !length_app in Hleft. cbn [length] in Hleft.
      destruct c1 as [| ? ?]; [| cbn [length] in Hleft; lia].
      cbn [app] in Hc1. injection Hc1 as <-.
      apply (embeds_avoid 60%N _
               (avoided 60%N (or_introl eq_refl) ltac:(discriminate))
               es _ Hes) in Hes' as (es1 & es2 & -> & H1 & H2).
      apply Forall_app in Hes as [Hes1 Hes2].
      apply (embeds_drop_l es2 _ Hes2 (str "br>")) in H2;
        [| repeat constructor; discriminate].
      destruct (Hrow index d (a ++ (124%N :: d) ++ []) es1 Hes1
                     ltac:(apply within_app, within_refl) H1
                     (JS.splitFuel fuel (str "<br>") (R ++ c))) as [-> Hb].
      apply embeds_app; [exact Hb |].
      specialize (IH ds [] es2 (S index) Hes2 Hds' H2).
      cbn [app] in IH. exact IH.
Qed.

Lemma keeps_table (s : jsstring) :
  forall pre mt y,
    s = pre ++ mt ++ rest y ->
    exec reTable (length pre) (mt ++ rest y) = Some y ->
    pos y = length pre + length mt ->
    safe mt ->
    mt <> []
    /\ forall es,
        Forall (fun e => In e entities) es ->
        embeds es mt ->
        embeds es (GetSubstitution mt pre (rest y) (ngroups reTable)
                     (caps y)
                     (str "<table>" ++ tableRows 0 (tableLines s)
                        ++ str "</table>")).
Proof.
  intros pre mt y Hs Hx _ _. apply exec_Matches in Hx.
  destruct (table_shape _ y mt Hx eq_refl)
    as (Hlt & k1 & ds & u & k4 & Hmt & Hds & Hu).
  split; [apply (Matches_progress _ _ _ _ Hx), Hlt |].
  intros es Hes H.
  apply (GetSubstitution_embeds _ _ _ _ _ _ _ es (le_n _) Hes);
    [intros e He; apply (embeds_In e es mt H He) |].
  apply embeds_app_r, embeds_app_l.
  unfold tableLines, JS.split. rewrite Hs at 2. rewrite Hmt.
  rewrite Hmt in H.
  apply (embeds_drop_l es _ Hes) in H.
  2:{ clear. induction k1 as [| k1 IH]; [constructor |].
      cbn [repeat concat]. apply Forall_app.
      split; [repeat constructor; discriminate | exact IH]. }
  apply (embeds_drop_r es _ Hes) in H.
  2:{ clear. induction k4 as [| k4 IH]; [constructor |].
      cbn [repeat concat]. apply Forall_app.
      split; [repeat constructor; discriminate | exact IH]. }
  rewrite <- !app_assoc.
  rewrite (app_assoc pre), (app_assoc (concat (map _ ds))).
  apply lines_embeds; assumption.
Qed.

Lemma convertToTable_embeds (es : list jsstring) (s : jsstring) :
  Forall (fun e => In e entities) es ->
  safe s -> embeds es s -> embeds es (convertToTable s).
Proof.
  intros Hes Hs H. unfold convertToTable.
  destruct (length (tableLines s) <? 2); [exact H |].
  apply replace_embeds; try assumption; [| apply keeps_table].
  apply good_table.
  apply safe_app; [reflexivity |]. apply safe_app; [| reflexivity].
  apply tableRows_safe, tableLines_safe, Hs.
Qed.

Lemma tables_embeds (es : list jsstring) (s : jsstring) :
  Forall (fun e => In e entities) es ->
  safe s -> embeds es s -> embeds es (tables s).
Proof.
  intros Hes Hs H. unfold tables.
  destruct (JS.includes s (str "|") && JS.includes s (str "<br>"));
    [apply convertToTable_embeds; assumption | exact H].
Qed.

(** The escaping writes the references of a text. *)
Lemma references_entities (t : jsstring) :
  Forall (fun e => In e entities) (references t).
Proof.
  unfold references. apply Forall_forall. intros e He.
  apply in_map_iff in He as (c & <- & Hc). apply filter_In in Hc as [_ Hc].
  unfold special in Hc. unfold reference.
  destruct (N.eqb_spec c 60); [cbn; tauto |].
  destruct (N.eqb_spec c 62); [cbn; tauto |]. cbn. tauto.
Qed.

Lemma serializeText_references (t : jsstring) :
  embeds (references t) (serializeText t).
Proof.
  induction t as [| c t IH]; [exact I |].
  unfold references. cbn [serializeText filter]. unfold special, reference.
  destruct (N.eqb_spec c 38) as [-> | H38].
  { cbn [N.eqb Pos.eqb orb map]. exists [], (serializeText t).
    split; [reflexivity | exact IH]. }
  destruct (N.eqb_spec c 160) as [-> | H160].
  { cbn [N.eqb Pos.eqb orb map]. apply embeds_app_r, IH. }
  destruct (N.eqb_spec c 60) as [-> | H60].
  { cbn [N.eqb Pos.eqb orb map]. exists [], (serializeText t).
    split; [reflexivity | exact IH]. }
  destruct (N.eqb_spec c 62) as [-> | H62].
  { cbn [N.eqb Pos.eqb orb map]. exists [], (serializeText t).
    split; [reflexivity | exact IH]. }
  cbn [orb]. apply embeds_app_r, IH.
Qed.

(** Every <, > and & of a text is written as its reference in the
    markup that [formatMessage] returns, in the order of the text. *)
Lemma formatMessage_references (t : jsstring) (w : World) :
  embeds (references t) (fst (formatMessage t w)).
Proof.
  unfold formatMessage, escapeHtml, createElement, bind, ret. cbn [fst].
  pose proof (references_entities t) as He.
  pose proof (serializeText_safe t) as S0.
  pose proof (paragraphs_safe _ S0) as S1.
  pose proof (bullets_safe _ S1) as S2.
  pose proof (bold_safe _ S2) as S3.
  apply tables_embeds, bold_embeds, bullets_embeds, paragraphs_embeds,
    serializeText_references; assumption.
Qed.

(** C6: whatever the raw text, [escapeHtml] writes every <, > and & of
    it as the reference &lt;, &gt;, &amp; at its place; what it hands to
    the rules of the formatter holds no < and no > at all and is safe
    markup; the markup that [formatMessage] returns is a sequence of
    tags of the formatter, of the references &amp; &lt; &gt; &nbsp;, and
    of code units other than <, > and &; and this markup holds the
    reference of every <, > and & of the raw text, one reference after
    the other in the order of the text, so that [includes] finds the
    reference of each of them. *)
Theorem formatMessage_escapes :
  forall (t : jsstring) (w : World),
    (forall a b, fst (escapeHtml (a ++ 60%N :: b) w)
                 = fst (escapeHtml a w) ++ str "&lt;" ++ fst (escapeHtml b w))
    /\ (forall a b, fst (escapeHtml (a ++ 62%N :: b) w)
                    = fst (escapeHtml a w) ++ str "&gt;"
                        ++ fst (escapeHtml b w))
    /\ (forall a b, fst (escapeHtml (a ++ 38%N :: b) w)
                    = fst (escapeHtml a w) ++ str "&amp;"
                        ++ fst (escapeHtml b w))
    /\ Forall (fun c => c <> 60%N /\ c <> 62%N) (fst (escapeHtml t w))
    /\ markup (fst (escapeHtml t w))
    /\ markup (fst (formatMessage t w))
    /\ embeds (references t) (fst (formatMessage t w))
    /\ (forall c, In c t -> special c = true ->
                  JS.includes (fst (formatMessage t w)) (reference c) = true).
Proof.
  intros t w.
  split; [intros a b; apply serializeText_app |].
  split; [intros a b; apply serializeText_app |].
  split; [intros a b; apply serializeText_app |].
  split; [apply serializeText_no_brackets |].
  split; [apply (scan_markup _ []), serializeText_safe |].
  split.
  { unfold formatMessage, escapeHtml, createElement, bind, ret. cbn [fst].
    apply (scan_markup _ []).
    apply tables_safe, bold_safe, bullets_safe, paragraphs_safe,
      serializeText_safe. }
  split; [apply formatMessage_references |].
  intros c Hin Hc. apply includes_within.
  apply (embeds_In _ (references t)); [apply formatMessage_references |].
  unfold references. apply in_map, filter_In. split; assumption.
Qed.

Lemma formatMessage_escapes_witness :
  formatted (str "a<b & c>d")
  = str "<p>a&lt;b &amp; c&gt;d</p>"
  /\ embeds [str "&lt;"; str "&amp;"; str "&gt;"] (formatted (str "a<b & c>d"))
  /\ JS.includes (formatted (str "a<b & c>d")) (str "&amp;") = true.
Proof.
  destruct (formatMessage_escapes (str "a<b & c>d") blank)
    as (_ & _ & _ & _ & _ & _ & He & Hi).
  split; [vm_compute; reflexivity |].
  split; [exact He |].
  apply (Hi 38%N); [vm_compute; tauto | reflexivity].
Defined.

(** ** A table between two lines of text *)



















